(** * hashi: a Hashiwokakero solver (src/hashi.c)

    Shallow embedding of the board model, the graph builder, the bridge
    constraint engine, the backtracking solver and the connectivity verifier,
    followed by the verification of their specification; then the reader of
    the puzzle text, the printer of the board and [main], with further
    properties of all of them.

    Conventions of the embedding.
    - A C [char] is a [Z] with the wrap-around of a signed 8-bit integer
      written out ([to_char]); [CHAR_MAX] is 127.
    - A pointer into an arena is an index into the list that models the arena:
      [iref] for [hisland *] (and for [char *] pointing at an island's
      [pendbridges]), [cref] for [hconnection *] (and for [char *] pointing at
      a connection's [bridges]).  The sentinel objects of the board and the
      null pointer have their own constructors.
    - An arena is the list of its used slots: [num_islands] and
      [num_connections] are the lengths of the lists.
    - The linked list of [hcrosselem] hanging off a connection is a list,
      newest element first; the arena it is carved from is the counter
      [num_crosselems] with its capacity.
    - Dereferencing the null pointer, reading outside an arena or
      overflowing an [int] yields [None]. *)

From Stdlib Require Import String.
From Stdlib Require DecimalString.
From Stdlib Require Import ZArith Lia.
From stdpp Require Import base option list relations.

Local Open Scope Z_scope.
Set Warnings "-clear-no-such-hyp".

(** ** Machine integers *)

Definition CHAR_MAX : Z := 127.

(** Conversion of an [int] to a (signed, 8-bit) [char]. *)
Definition to_char (z : Z) : Z := (z + 128) mod 256 - 128.

(** ** Directions and per-direction arrays *)

Inductive direction := UP | LEFT | RIGHT | DOWN.

Definition DIRECTIONS : Z := 4.
Definition MAX_CONNECTION_BRIDGES : Z := 2.
Definition MAX_EXPECTED_BRIDGES : Z := MAX_CONNECTION_BRIDGES * DIRECTIONS.

Definition dir_index (d : direction) : Z :=
  match d with UP => 0 | LEFT => 1 | RIGHT => 2 | DOWN => 3 end.

Definition dir_of_index (z : Z) : option direction :=
  if z =? 0 then Some UP
  else if z =? 1 then Some LEFT
  else if z =? 2 then Some RIGHT
  else if z =? 3 then Some DOWN
  else None.

Definition all_directions : list direction := [UP; LEFT; RIGHT; DOWN].

(** An array indexed by the four directions. *)
Record slots (A : Type) := Slots { s_up : A; s_left : A; s_right : A; s_down : A }.
Arguments Slots {A} _ _ _ _.
Arguments s_up {A} _.
Arguments s_left {A} _.
Arguments s_right {A} _.
Arguments s_down {A} _.

Definition slot_get {A} (s : slots A) (d : direction) : A :=
  match d with UP => s_up s | LEFT => s_left s | RIGHT => s_right s | DOWN => s_down s end.

Definition slot_set {A} (s : slots A) (d : direction) (x : A) : slots A :=
  match d with
  | UP => Slots x (s_left s) (s_right s) (s_down s)
  | LEFT => Slots (s_up s) x (s_right s) (s_down s)
  | RIGHT => Slots (s_up s) (s_left s) x (s_down s)
  | DOWN => Slots (s_up s) (s_left s) (s_right s) x
  end.

Definition slot_all {A} (x : A) : slots A := Slots x x x x.

(** ** Pointers *)

Inductive iref := INull | IOut | IAt (i : nat).
Inductive cref := CNull | COut | CAt (k : nat).

#[global] Instance iref_eq_dec : EqDecision iref.
Proof. solve_decision. Defined.
#[global] Instance cref_eq_dec : EqDecision cref.
Proof. solve_decision. Defined.
#[global] Instance direction_eq_dec : EqDecision direction.
Proof. solve_decision. Defined.

(** ** The data model *)

Record hconnection := HConnection {
  bridges : Z;
  firstcross : list cref;
  ppendbridges1 : iref;
  ppendbridges2 : iref }.

Record hisland := HIsland {
  pendbridges : Z;
  expectbridges : Z;
  row : Z;
  col : Z;
  i_islands : slots iref;
  i_connections : slots cref }.

Record hboard := HBoard {
  max_islands : nat;
  max_connections : nat;
  max_crosselems : nat;
  num_crosselems : nat;
  rows : Z;
  cols : Z;
  max_bridges : Z;
  max_visited_size : nat;
  visitedlimit : Z;
  visitedmatrix : list bool;
  islands : list hisland;
  out_island_st : hisland;
  connections : list hconnection;
  out_connection_st : hconnection }.

Definition num_islands (b : hboard) : nat := length (islands b).
Definition num_connections (b : hboard) : nat := length (connections b).

(** Field updates. *)

Definition set_bridges (v : Z) (c : hconnection) : hconnection :=
  HConnection v (firstcross c) (ppendbridges1 c) (ppendbridges2 c).
Definition set_firstcross (l : list cref) (c : hconnection) : hconnection :=
  HConnection (bridges c) l (ppendbridges1 c) (ppendbridges2 c).

Definition set_pendbridges (v : Z) (i : hisland) : hisland :=
  HIsland v (expectbridges i) (row i) (col i) (i_islands i) (i_connections i).
Definition set_i_islands (s : slots iref) (i : hisland) : hisland :=
  HIsland (pendbridges i) (expectbridges i) (row i) (col i) s (i_connections i).
Definition set_i_connections (s : slots cref) (i : hisland) : hisland :=
  HIsland (pendbridges i) (expectbridges i) (row i) (col i) (i_islands i) s.

Definition set_islands (l : list hisland) (b : hboard) : hboard :=
  HBoard (max_islands b) (max_connections b) (max_crosselems b) (num_crosselems b)
    (rows b) (cols b) (max_bridges b) (max_visited_size b) (visitedlimit b)
    (visitedmatrix b) l (out_island_st b) (connections b) (out_connection_st b).
Definition set_out_island (i : hisland) (b : hboard) : hboard :=
  HBoard (max_islands b) (max_connections b) (max_crosselems b) (num_crosselems b)
    (rows b) (cols b) (max_bridges b) (max_visited_size b) (visitedlimit b)
    (visitedmatrix b) (islands b) i (connections b) (out_connection_st b).
Definition set_connections (l : list hconnection) (b : hboard) : hboard :=
  HBoard (max_islands b) (max_connections b) (max_crosselems b) (num_crosselems b)
    (rows b) (cols b) (max_bridges b) (max_visited_size b) (visitedlimit b)
    (visitedmatrix b) (islands b) (out_island_st b) l (out_connection_st b).
Definition set_out_connection (c : hconnection) (b : hboard) : hboard :=
  HBoard (max_islands b) (max_connections b) (max_crosselems b) (num_crosselems b)
    (rows b) (cols b) (max_bridges b) (max_visited_size b) (visitedlimit b)
    (visitedmatrix b) (islands b) (out_island_st b) (connections b) c.
Definition set_num_crosselems (n : nat) (b : hboard) : hboard :=
  HBoard (max_islands b) (max_connections b) (max_crosselems b) n
    (rows b) (cols b) (max_bridges b) (max_visited_size b) (visitedlimit b)
    (visitedmatrix b) (islands b) (out_island_st b) (connections b) (out_connection_st b).
Definition set_rows (r : Z) (b : hboard) : hboard :=
  HBoard (max_islands b) (max_connections b) (max_crosselems b) (num_crosselems b)
    r (cols b) (max_bridges b) (max_visited_size b) (visitedlimit b)
    (visitedmatrix b) (islands b) (out_island_st b) (connections b) (out_connection_st b).
Definition set_cols (c : Z) (b : hboard) : hboard :=
  HBoard (max_islands b) (max_connections b) (max_crosselems b) (num_crosselems b)
    (rows b) c (max_bridges b) (max_visited_size b) (visitedlimit b)
    (visitedmatrix b) (islands b) (out_island_st b) (connections b) (out_connection_st b).
Definition set_max_bridges (m : Z) (b : hboard) : hboard :=
  HBoard (max_islands b) (max_connections b) (max_crosselems b) (num_crosselems b)
    (rows b) (cols b) m (max_visited_size b) (visitedlimit b)
    (visitedmatrix b) (islands b) (out_island_st b) (connections b) (out_connection_st b).
Definition set_visitedlimit (v : Z) (b : hboard) : hboard :=
  HBoard (max_islands b) (max_connections b) (max_crosselems b) (num_crosselems b)
    (rows b) (cols b) (max_bridges b) (max_visited_size b) v
    (visitedmatrix b) (islands b) (out_island_st b) (connections b) (out_connection_st b).
Definition set_visitedmatrix (m : list bool) (b : hboard) : hboard :=
  HBoard (max_islands b) (max_connections b) (max_crosselems b) (num_crosselems b)
    (rows b) (cols b) (max_bridges b) (max_visited_size b) (visitedlimit b)
    m (islands b) (out_island_st b) (connections b) (out_connection_st b).

(** Dereferencing. *)

Definition get_island (b : hboard) (r : iref) : option hisland :=
  match r with
  | INull => None
  | IOut => Some (out_island_st b)
  | IAt i => islands b !! i
  end.

Definition put_island (b : hboard) (r : iref) (x : hisland) : option hboard :=
  match r with
  | INull => None
  | IOut => Some (set_out_island x b)
  | IAt i => if decide (i < length (islands b))%nat
             then Some (set_islands (<[i := x]> (islands b)) b) else None
  end.

Definition get_connection (b : hboard) (r : cref) : option hconnection :=
  match r with
  | CNull => None
  | COut => Some (out_connection_st b)
  | CAt k => connections b !! k
  end.

Definition put_connection (b : hboard) (r : cref) (x : hconnection) : option hboard :=
  match r with
  | CNull => None
  | COut => Some (set_out_connection x b)
  | CAt k => if decide (k < length (connections b))%nat
             then Some (set_connections (<[k := x]> (connections b)) b) else None
  end.

(** [*p] and [*p = v] for a [char *p] that points at an island's
    [pendbridges]. *)
Definition read_pend (b : hboard) (p : iref) : option Z :=
  pendbridges <$> get_island b p.
Definition write_pend (b : hboard) (p : iref) (v : Z) : option hboard :=
  x ← get_island b p; put_island b p (set_pendbridges v x).

(** [*p] and [*p = v] for a [char *p] that points at a connection's
    [bridges]. *)
Definition read_bridges (b : hboard) (p : cref) : option Z :=
  bridges <$> get_connection b p.
Definition write_bridges (b : hboard) (p : cref) (v : Z) : option hboard :=
  x ← get_connection b p; put_connection b p (set_bridges v x).

(** ** Bridge constraint engine *)

(** The loop of [add_bridge] over the crossing list: [Some true] when an
    element points at a non-zero bridge count (the loop stops there). *)
Fixpoint cross_has_bridges (b : hboard) (l : list cref) : option bool :=
  match l with
  | [] => Some false
  | p :: l' =>
      v ← read_bridges b p;
      if v =? 0 then cross_has_bridges b l' else Some true
  end.

Definition add_bridge (b : hboard) (connection : cref) : option (hboard * bool) :=
  c ← get_connection b connection;
  if MAX_CONNECTION_BRIDGES <=? bridges c then Some (b, false)
  else
    p1 ← read_pend b (ppendbridges1 c);
    if p1 =? 0 then Some (b, false)
    else
      p2 ← read_pend b (ppendbridges2 c);
      if p2 =? 0 then Some (b, false)
      else
        crossed ← cross_has_bridges b (firstcross c);
        if (crossed : bool) then Some (b, false)
        else
          b1 ← write_bridges b connection (to_char (bridges c + 1));
          v1 ← read_pend b1 (ppendbridges1 c);
          b2 ← write_pend b1 (ppendbridges1 c) (to_char (v1 - 1));
          v2 ← read_pend b2 (ppendbridges2 c);
          b3 ← write_pend b2 (ppendbridges2 c) (to_char (v2 - 1));
          Some (b3, true).

Definition del_bridge (b : hboard) (connection : cref) : option (hboard * bool) :=
  c ← get_connection b connection;
  if bridges c =? 0 then Some (b, false)
  else
    b1 ← write_bridges b connection (to_char (bridges c - 1));
    v1 ← read_pend b1 (ppendbridges1 c);
    b2 ← write_pend b1 (ppendbridges1 c) (to_char (v1 + 1));
    v2 ← read_pend b2 (ppendbridges2 c);
    b3 ← write_pend b2 (ppendbridges2 c) (to_char (v2 + 1));
    Some (b3, true).

(** ** Board model *)

Definition init_out_island : hisland :=
  HIsland 0 0 (-1) (-1) (slot_all INull) (slot_all CNull).

Definition init_out_connection : hconnection :=
  HConnection 0 [] IOut IOut.

(** [init_board] leaves [max_bridges] and [visitedlimit] unassigned: their
    initial contents are whatever the storage holds, here the last two
    arguments. *)
Definition init_board (max_islands max_connections max_crosselems max_visited_size : nat)
    (max_bridges0 visitedlimit0 : Z) : hboard :=
  HBoard max_islands max_connections max_crosselems 0
    0 0 max_bridges0 max_visited_size visitedlimit0
    (replicate max_visited_size false)
    [] init_out_island
    [] init_out_connection.

(** The slot handed out by [next_island] / [next_connection] is storage that
    [add_island] and [fill_connections] assign field by field before any
    field is read; the placeholder stands for its unassigned contents. *)
Definition blank_island : hisland :=
  HIsland 0 0 0 0 (slot_all INull) (slot_all CNull).
Definition blank_connection : hconnection :=
  HConnection 0 [] INull INull.

Definition upd_island (b : hboard) (r : iref) (f : hisland → hisland) : option hboard :=
  x ← get_island b r; put_island b r (f x).
Definition upd_connection (b : hboard) (r : cref) (f : hconnection → hconnection) : option hboard :=
  x ← get_connection b r; put_connection b r (f x).

Definition set_island_slot (d : direction) (v : iref) (x : hisland) : hisland :=
  set_i_islands (slot_set (i_islands x) d v) x.
Definition set_connection_slot (d : direction) (v : cref) (x : hisland) : hisland :=
  set_i_connections (slot_set (i_connections x) d v) x.

(** The backward scan of [find_from_island] in direction [UP], entered with
    [index] still to be decremented. *)
Fixpoint find_up_loop (b : hboard) (start : hisland) (index : nat) : option iref :=
  match index with
  | O => Some IOut
  | S index' =>
      island ← islands b !! index';
      if col island =? col start then Some (IAt index')
      else find_up_loop b start index'
  end.

Definition find_from_island (b : hboard) (index : nat) (dir : direction) : option iref :=
  if decide (num_islands b ≤ index)%nat then Some INull
  else
    start ← islands b !! index;
    match dir with
    | LEFT =>
        match index with
        | O => Some IOut
        | S index' =>
            island ← islands b !! index';
            if row island <? row start then Some IOut else Some (IAt index')
        end
    | UP => find_up_loop b start index
    | _ => Some INull
    end.

(** [next_island]: [None] is the NULL result. *)
Definition next_island (b : hboard) : option nat * hboard :=
  if decide (max_islands b ≤ num_islands b)%nat then (None, b)
  else (Some (num_islands b), set_islands (islands b ++ [blank_island]) b).

Definition next_connection (b : hboard) : option nat * hboard :=
  if decide (max_connections b ≤ num_connections b)%nat then (None, b)
  else (Some (num_connections b), set_connections (connections b ++ [blank_connection]) b).

(** [next_crosselem]: [false] is the NULL result. *)
Definition next_crosselem (b : hboard) : bool * hboard :=
  if decide (max_crosselems b ≤ num_crosselems b)%nat then (false, b)
  else (true, set_num_crosselems (S (num_crosselems b)) b).

(** [cross->pbridges = &(target->bridges); insert_crosselem(connection, cross)]. *)
Definition insert_crosselem (b : hboard) (connection target : cref) : option hboard :=
  upd_connection b connection (fun c => set_firstcross (target :: firstcross c) c).

(** The loop of [fill_crosses]; [n] counts the islands from [island] up to
    (excluding) [down]. *)
Fixpoint fill_crosses_loop (n : nat) (b : hboard) (up down island : nat)
    (c : Z) (conn_vert : cref) : option (hboard * bool) :=
  match n with
  | O => Some (b, true)
  | S n' =>
      u ← islands b !! up;
      d ← islands b !! down;
      x ← islands b !! island;
      if (row u <? row x) && (row x <? row d) && (col x <? c) then
        let right := slot_get (i_islands x) RIGHT in
        if decide (right = IOut) then fill_crosses_loop n' b up down (S island) c conn_vert
        else
          r ← get_island b right;
          if c <? col r then
            let conn_horz := slot_get (i_connections x) RIGHT in
            let '(ok1, b1) := next_crosselem b in
            if ok1 then
              b2 ← insert_crosselem b1 conn_horz conn_vert;
              let '(ok2, b3) := next_crosselem b2 in
              if ok2 then
                b4 ← insert_crosselem b3 conn_vert conn_horz;
                fill_crosses_loop n' b4 up down (S island) c conn_vert
              else Some (b3, false)
            else Some (b1, false)
          else fill_crosses_loop n' b up down (S island) c conn_vert
      else fill_crosses_loop n' b up down (S island) c conn_vert
  end.

Definition fill_crosses (b : hboard) (up down : nat) : option (hboard * bool) :=
  u ← islands b !! up;
  if decide (up < down)%nat then
    fill_crosses_loop (down - S up) b up down (S up) (col u)
      (slot_get (i_connections u) DOWN)
  else None.

Definition fill_connections (b : hboard) : option (hboard * bool) :=
  match num_islands b with
  | O => None
  | S index =>
      let island := IAt index in
      b ← upd_island b island (set_island_slot RIGHT IOut);
      b ← upd_island b island (set_island_slot DOWN IOut);
      left ← find_from_island b index LEFT;
      b ← upd_island b island (set_island_slot LEFT left);
      up ← find_from_island b index UP;
      b ← upd_island b island (set_island_slot UP up);
      b ← upd_island b island (set_i_connections (slot_all COut));
      r ← (if decide (left = IOut) then Some (b, true)
           else
             match next_connection b with
             | (None, b) => Some (b, false)
             | (Some k, b) =>
                 let connection := CAt k in
                 b ← upd_connection b connection (fun _ => HConnection 0 [] left island);
                 b ← upd_island b island (set_connection_slot LEFT connection);
                 b ← upd_island b left (set_connection_slot RIGHT connection);
                 b ← upd_island b left (set_island_slot RIGHT island);
                 Some (b, true)
             end);
      let '(b, ok) := r in
      if negb ok then Some (b, false)
      else if decide (up = IOut) then Some (b, true)
      else
        match next_connection b with
        | (None, b) => Some (b, false)
        | (Some k, b) =>
            let connection := CAt k in
            b ← upd_connection b connection (fun _ => HConnection 0 [] up island);
            b ← upd_island b island (set_connection_slot UP connection);
            b ← upd_island b up (set_connection_slot DOWN connection);
            b ← upd_island b up (set_island_slot DOWN island);
            match up with
            | IAt u => fill_crosses b u index
            | _ => None
            end
        end
  end.

(** Arithmetic on an [int]: overflow is undefined behaviour. *)
Definition INT_MAX : Z := 2147483647.
Definition INT_MIN : Z := -2147483648.

Definition int_add (x y : Z) : option Z :=
  if (INT_MIN <=? x + y) && (x + y <=? INT_MAX) then Some (x + y) else None.

(** [x + 1] on an [int]. *)
Definition int_succ (x : Z) : option Z :=
  if x <? INT_MAX then Some (x + 1) else None.

(** [board->max_bridges += expectbridges] adds two [int]s; the board never
    had [max_bridges] assigned before the first island, so the sum starts from
    whatever the field held. *)
Definition add_island (b : hboard) (r c expect : Z) : option (hboard * bool) :=
  if (r <? 0) || (c <? 0) then Some (b, false)
  else if CHAR_MAX <=? r then Some (b, false)
  else if CHAR_MAX <=? c then Some (b, false)
  else
    bad ← (match num_islands b with
           | O => Some false
           | S p =>
               prev ← islands b !! p;
               Some ((r <? row prev) || ((r =? row prev) && (c <=? col prev)))
           end);
    if (bad : bool) then Some (b, false)
    else if (expect <? 1) || (MAX_EXPECTED_BRIDGES <? expect) then Some (b, false)
    else
      match next_island b with
      | (None, b) => Some (b, false)
      | (Some i, b) =>
          b ← upd_island b (IAt i)
                (fun x => HIsland (to_char expect) (to_char expect) (to_char r) (to_char c)
                            (i_islands x) (i_connections x));
          let b := if rows b <=? r then set_rows (r + 1) b else b in
          let b := if cols b <=? c then set_cols (c + 1) b else b in
          '(b, ok) ← fill_connections b;
          if negb ok then Some (b, false)
          else
            m ← int_add (max_bridges b) expect;
            Some (set_max_bridges m b, true)
      end.

(** The calls of [read_islands]: one [add_island] per digit, stopping at the
    first failure. *)
Fixpoint add_islands (b : hboard) (l : list (Z * Z * Z)) : option (hboard * bool) :=
  match l with
  | [] => Some (b, true)
  | (r, c, e) :: l' =>
      '(b', ok) ← add_island b r c e;
      if (ok : bool) then add_islands b' l' else Some (b', false)
  end.

Definition valid_visited_matrix_size (b : hboard) : bool :=
  negb (Z.of_nat (max_visited_size b) <? rows b * cols b).

(** ** Backtracking solver: per-island steps *)

(** [while (del_bridge(connection));] *)
Fixpoint del_bridges_loop (fuel : nat) (b : hboard) (connection : cref) : option hboard :=
  match fuel with
  | O => None
  | S fuel' =>
      '(b', ok) ← del_bridge b connection;
      if (ok : bool) then del_bridges_loop fuel' b' connection else Some b'
  end.

(** A [char] reaches zero after at most 255 decrements. *)
Definition del_all_bridges (b : hboard) (connection : cref) : option hboard :=
  del_bridges_loop 256 b connection.

(** The first loop of [fill_bridges]; [dir] is the loop's [int dir]. *)
Fixpoint fill_bridges_loop (fuel : nat) (b : hboard) (island : iref) (dir : Z) : option hboard :=
  match fuel with
  | O => None
  | S fuel' =>
      x ← get_island b island;
      if pendbridges x =? 0 then Some b
      else
        d ← dir_of_index dir;
        '(b', ok) ← add_bridge b (slot_get (i_connections x) d);
        if (ok : bool) then fill_bridges_loop fuel' b' island dir
        else if dir + 1 =? DIRECTIONS then Some b'
        else fill_bridges_loop fuel' b' island (dir + 1)
  end.

(** Each connection takes at most [MAX_CONNECTION_BRIDGES] bridges and then
    refuses one, for each of the two directions from [RIGHT] on; the last unit
    of fuel is for the final test of the loop condition. *)
Definition fill_bridges_fuel : nat := 7.

Definition fill_bridges (b : hboard) (island : iref) : option (hboard * bool) :=
  b1 ← fill_bridges_loop fill_bridges_fuel b island (dir_index RIGHT);
  x ← get_island b1 island;
  if pendbridges x =? 0 then Some (b1, true)
  else
    b2 ← del_all_bridges b1 (slot_get (i_connections x) RIGHT);
    x' ← get_island b2 island;
    b3 ← del_all_bridges b2 (slot_get (i_connections x') DOWN);
    Some (b3, false).

Definition reorder_bridges (b : hboard) (island : iref) : option (hboard * bool) :=
  x ← get_island b island;
  '(b1, deleted) ← del_bridge b (slot_get (i_connections x) RIGHT);
  if (deleted : bool) then
    x1 ← get_island b1 island;
    '(b2, added) ← add_bridge b1 (slot_get (i_connections x1) DOWN);
    if (added : bool) then Some (b2, true)
    else
      x2 ← get_island b2 island;
      b3 ← del_all_bridges b2 (slot_get (i_connections x2) RIGHT);
      x3 ← get_island b3 island;
      b4 ← del_all_bridges b3 (slot_get (i_connections x3) DOWN);
      Some (b4, false)
  else
    x1 ← get_island b1 island;
    b2 ← del_all_bridges b1 (slot_get (i_connections x1) DOWN);
    Some (b2, false).

(** ** Connectivity verifier *)

(** [board->visitedmatrix[pos]] *)
Definition visited_get (b : hboard) (pos : Z) : option bool :=
  if pos <? 0 then None else visitedmatrix b !! Z.to_nat pos.

(** [board->visitedmatrix[pos] = v] *)
Definition visited_set (b : hboard) (pos : Z) (v : bool) : option hboard :=
  if pos <? 0 then None
  else if decide (Z.to_nat pos < length (visitedmatrix b))%nat
       then Some (set_visitedmatrix (<[Z.to_nat pos := v]> (visitedmatrix b)) b)
       else None.

(** [memset(board->visitedmatrix, 0, n)] *)
Definition visited_memset (b : hboard) (n : Z) : option hboard :=
  if n <? 0 then None
  else if decide (Z.to_nat n ≤ length (visitedmatrix b))%nat
       then Some (set_visitedmatrix
                    (replicate (Z.to_nat n) false ++ drop (Z.to_nat n) (visitedmatrix b)) b)
       else None.

(** The [for] loop of [visit_islands] over the directions still to be
    looked at; [visit] is the recursive call. *)
Fixpoint visit_directions (visit : hboard → iref → option (hboard * Z))
    (ds : list direction) (b : hboard) (island : iref) (total : Z) : option (hboard * Z) :=
  match ds with
  | [] => Some (b, total)
  | d :: ds' =>
      x ← get_island b island;
      c ← get_connection b (slot_get (i_connections x) d);
      if bridges c =? 0 then visit_directions visit ds' b island total
      else
        '(b', t) ← visit b (slot_get (i_islands x) d);
        visit_directions visit ds' b' island (total + t)
  end.

Fixpoint visit_islands (fuel : nat) (b : hboard) (island : iref) : option (hboard * Z) :=
  match fuel with
  | O => None
  | S fuel' =>
      if decide (island = IOut) then Some (b, 0)
      else
        x ← get_island b island;
        let pos := row x * cols b + col x in
        v ← visited_get b pos;
        if (v : bool) then Some (b, 0)
        else
          b1 ← visited_set b pos true;
          let b2 := if visitedlimit b1 <? pos + 1
                    then set_visitedlimit (pos + 1) b1 else b1 in
          visit_directions (visit_islands fuel') all_directions b2 island 1
  end.

(** The source is compiled with the connectivity check. *)
Definition CHECK_CONNECTED_SOLUTION : bool := true.

(** [check] is the compile-time switch; every call of [visit_islands] that
    marks nothing returns at once, so the depth of the recursion is at most the
    number of islands plus one. *)
Definition check_connected_solution (check : bool) (b : hboard) : option (hboard * bool) :=
  if check then
    let b := set_visitedlimit 0 b in
    '(b, total) ← visit_islands (S (num_islands b)) b (IAt 0);
    b ← (if visitedlimit b =? 0 then Some b
         else b' ← visited_memset b (visitedlimit b); Some (set_visitedlimit 0 b'));
    if total =? Z.of_nat (num_islands b) then Some (b, true) else Some (b, false)
  else Some (b, true).

(** ** Backtracking solver: the search *)

(** What [print_board] shows of a solution: the bridge count of every
    connection, in arena order. *)
Definition bridge_counts (b : hboard) : list Z := bridges <$> connections b.

(** The search is observed through its events: [Print] stands for a call of
    [print_board]; [Enter] records (without any effect on the search) that
    [find_solutions_from_island] was invoked with the given index on the given
    board. *)
Inductive event :=
  | Enter (idx : nat) (b : hboard)
  | Print (counts : list Z).

Fixpoint find_solutions_from_island (check : bool) (fuel : nat) (b : hboard) (idx : nat)
    : option (hboard * list event) :=
  match fuel with
  | O => None
  | S fuel' =>
      if decide (num_islands b ≤ idx)%nat then
        '(b1, ok) ← check_connected_solution check b;
        Some (b1, Enter idx b :: (if (ok : bool) then [Print (bridge_counts b1)] else []))
      else
        '(b1, ok) ← fill_bridges b (IAt idx);
        if (ok : bool) then
          '(b2, t1) ← find_solutions_from_island check fuel' b1 (S idx);
          '(b3, t2) ← reorder_loop check fuel' b2 idx;
          Some (b3, Enter idx b :: t1 ++ t2)
        else Some (b1, [Enter idx b])
  end
with reorder_loop (check : bool) (fuel : nat) (b : hboard) (idx : nat)
    : option (hboard * list event) :=
  match fuel with
  | O => None
  | S fuel' =>
      '(b1, ok) ← reorder_bridges b (IAt idx);
      if (ok : bool) then
        '(b2, t1) ← find_solutions_from_island check fuel' b1 (S idx);
        '(b3, t2) ← reorder_loop check fuel' b2 idx;
        Some (b3, t1 ++ t2)
      else Some (b1, [])
  end.

(** The bridge-count assignments printed during a search. *)
Definition printed (t : list event) : list (list Z) :=
  omap (fun e => match e with Print c => Some c | Enter _ _ => None end) t.

(** * Specification vocabulary *)

(** ** Total accessors

    Fields of the island or connection stored at an index, with a default
    outside the arena.  The invariants below are stated with them. *)

Definition irow (b : hboard) (i : nat) : Z := from_option row 0 (islands b !! i).
Definition icol (b : hboard) (i : nat) : Z := from_option col 0 (islands b !! i).
Definition iexp (b : hboard) (i : nat) : Z := from_option expectbridges 0 (islands b !! i).
Definition ipend (b : hboard) (i : nat) : Z := from_option pendbridges 0 (islands b !! i).
Definition inb (b : hboard) (i : nat) (d : direction) : iref :=
  from_option (fun x => slot_get (i_islands x) d) INull (islands b !! i).
Definition icn (b : hboard) (i : nat) (d : direction) : cref :=
  from_option (fun x => slot_get (i_connections x) d) CNull (islands b !! i).

Definition cbr (b : hboard) (k : nat) : Z := from_option bridges 0 (connections b !! k).
Definition cp1 (b : hboard) (k : nat) : iref := from_option ppendbridges1 INull (connections b !! k).
Definition cp2 (b : hboard) (k : nat) : iref := from_option ppendbridges2 INull (connections b !! k).
Definition ccross (b : hboard) (k : nat) : list cref := from_option firstcross [] (connections b !! k).

(** The bridge count behind a connection pointer. *)
Definition cnt (b : hboard) (c : cref) : Z := default 0 (read_bridges b c).

(** The bridge count that an assignment [A] gives to a connection pointer. *)
Definition acnt (A : list Z) (c : cref) : Z :=
  match c with CAt k => default 0 (A !! k) | _ => 0 end.

Definition is_forward (d : direction) : bool :=
  match d with RIGHT | DOWN => true | _ => false end.

Definition opp (d : direction) : direction :=
  match d with UP => DOWN | DOWN => UP | LEFT => RIGHT | RIGHT => LEFT end.

(** ** Geometry *)

(** Connection [v] is vertical, connection [h] is horizontal, the row of [h]
    lies strictly between the rows of the ends of [v] and the column of [v]
    lies strictly between the columns of the ends of [h]. *)
Definition xing (b : hboard) (v h : nat) : Prop :=
  ∃ a c e f,
    cp1 b v = IAt a ∧ cp2 b v = IAt c ∧ cp1 b h = IAt e ∧ cp2 b h = IAt f ∧
    icol b a = icol b c ∧ irow b e = irow b f ∧
    irow b a < irow b e ∧ irow b e < irow b c ∧
    icol b e < icol b a ∧ icol b a < icol b f.

(** ** The graph invariant (what the builder establishes) *)

Definition before (b : hboard) (i j : nat) : Prop :=
  irow b i < irow b j ∨ (irow b i = irow b j ∧ icol b i < icol b j).

Record graph_ok (b : hboard) : Prop := GraphOk {
  g_out_island : out_island_st b = init_out_island;
  g_out_connection : out_connection_st b = init_out_connection;
  g_dims : rows b ≤ CHAR_MAX ∧ cols b ≤ CHAR_MAX;
  g_pos : ∀ i, (i < num_islands b)%nat →
      0 ≤ irow b i < rows b ∧ 0 ≤ icol b i < cols b ∧
      1 ≤ iexp b i ≤ MAX_EXPECTED_BRIDGES;
  g_sorted : ∀ i j, (i < j)%nat → (j < num_islands b)%nat → before b i j;
  g_right : ∀ i, (i < num_islands b)%nat →
      inb b i RIGHT =
        if decide ((S i < num_islands b)%nat ∧ irow b (S i) = irow b i)
        then IAt (S i) else IOut;
  g_left : ∀ i, (i < num_islands b)%nat →
      inb b i LEFT =
        match i with
        | O => IOut
        | S p => if decide (irow b p = irow b i) then IAt p else IOut
        end;
  g_down : ∀ i, (i < num_islands b)%nat →
      match inb b i DOWN with
      | IAt j => (i < j)%nat ∧ (j < num_islands b)%nat ∧ icol b j = icol b i ∧
                 ∀ t, (i < t)%nat → (t < j)%nat → icol b t ≠ icol b i
      | IOut => ∀ t, (i < t)%nat → (t < num_islands b)%nat → icol b t ≠ icol b i
      | INull => False
      end;
  g_up : ∀ i, (i < num_islands b)%nat →
      match inb b i UP with
      | IAt j => (j < i)%nat ∧ icol b j = icol b i ∧
                 ∀ t, (j < t)%nat → (t < i)%nat → icol b t ≠ icol b i
      | IOut => ∀ t, (t < i)%nat → icol b t ≠ icol b i
      | INull => False
      end;
  g_slot : ∀ i d, (i < num_islands b)%nat →
      match icn b i d with
      | CAt k => (k < num_connections b)%nat ∧ inb b i d ≠ IOut ∧
                 if is_forward d
                 then cp1 b k = IAt i ∧ cp2 b k = inb b i d
                 else cp2 b k = IAt i ∧ cp1 b k = inb b i d
      | COut => inb b i d = IOut
      | CNull => False
      end;
  g_pair : ∀ i j d, (i < num_islands b)%nat → inb b i d = IAt j →
      icn b j (opp d) = icn b i d;
  g_owner : ∀ k, (k < num_connections b)%nat →
      ∃ i d, (i < num_islands b)%nat ∧ is_forward d = true ∧ icn b i d = CAt k;
  g_cross_sound : ∀ k x, (k < num_connections b)%nat → x ∈ ccross b k →
      ∃ k', x = CAt k' ∧ (k' < num_connections b)%nat ∧ (xing b k k' ∨ xing b k' k);
  g_cross_complete : ∀ v h, (v < num_connections b)%nat → (h < num_connections b)%nat →
      xing b v h → CAt h ∈ ccross b v ∧ CAt v ∈ ccross b h }.

(** ** The state invariant (what the constraint engine maintains) *)

(** Sum of the bridge counts of the four connections of island [i]. *)
Definition incident (b : hboard) (i : nat) : Z :=
  cnt b (icn b i UP) + cnt b (icn b i LEFT) + cnt b (icn b i RIGHT) + cnt b (icn b i DOWN).

Record state_ok (b : hboard) : Prop := StateOk {
  s_bridges : ∀ k, (k < num_connections b)%nat → 0 ≤ cbr b k ≤ MAX_CONNECTION_BRIDGES;
  s_pend : ∀ i, (i < num_islands b)%nat → ipend b i = iexp b i - incident b i;
  s_pend_pos : ∀ i, (i < num_islands b)%nat → 0 ≤ ipend b i;
  s_cross : ∀ k k', (k < num_connections b)%nat → CAt k' ∈ ccross b k →
      0 < cbr b k → cbr b k' = 0 }.

(** What [add_bridge] and [del_bridge] never touch: the board with the
    pending counts, the bridge counts and [visitedlimit] blanked. *)
Definition skeleton (b : hboard) : hboard :=
  HBoard (max_islands b) (max_connections b) (max_crosselems b) (num_crosselems b)
    (rows b) (cols b) (max_bridges b) (max_visited_size b) 0
    (visitedmatrix b) (set_pendbridges 0 <$> islands b) (out_island_st b)
    (set_bridges 0 <$> connections b) (out_connection_st b).

(** ** The effect of the constraint engine, in closed form *)

Definition set_cbr (b : hboard) (k : nat) (v : Z) : hboard :=
  set_connections (alter (set_bridges v) k (connections b)) b.
Definition set_ipend (b : hboard) (i : nat) (v : Z) : hboard :=
  set_islands (alter (set_pendbridges v) i (islands b)) b.

(** The board after the bridge count of connection [k] went up by [delta]
    and the pending counts of its two ends, the islands [a] and [c], went down
    by [delta]; nothing else differs. *)
Definition bump (b : hboard) (k a c : nat) (delta : Z) : hboard :=
  set_ipend (set_ipend (set_cbr b k (cbr b k + delta)) a (ipend b a - delta))
    c (ipend b c - delta).

(** A pointer to a connection of the board: the sentinel or a used slot. *)
Definition valid_cref (b : hboard) (c : cref) : Prop :=
  match c with
  | CNull => False
  | COut => True
  | CAt k => (k < num_connections b)%nat
  end.

(** ** Auxiliary notions for the proofs *)

(** [b'] has the static content of [b]. *)
Record same_static (b b' : hboard) : Prop := SameStatic {
  ss_num_islands : num_islands b' = num_islands b;
  ss_num_connections : num_connections b' = num_connections b;
  ss_rows : rows b' = rows b;
  ss_cols : cols b' = cols b;
  ss_out_island : out_island_st b' = out_island_st b;
  ss_out_connection : out_connection_st b' = out_connection_st b;
  ss_irow : ∀ i, irow b' i = irow b i;
  ss_icol : ∀ i, icol b' i = icol b i;
  ss_iexp : ∀ i, iexp b' i = iexp b i;
  ss_inb : ∀ i d, inb b' i d = inb b i d;
  ss_icn : ∀ i d, icn b' i d = icn b i d;
  ss_cp1 : ∀ k, cp1 b' k = cp1 b k;
  ss_cp2 : ∀ k, cp2 b' k = cp2 b k;
  ss_ccross : ∀ k, ccross b' k = ccross b k }.

(** The two ends of connection [k] and the slots that hold it: it is the
    connection of island [a] in the forward direction [d] and of island [c] in
    the opposite direction. *)
Record ends (b : hboard) (k a c : nat) (d : direction) : Prop := Ends {
  e_forward : is_forward d = true;
  e_lt : (a < c)%nat;
  e_bound : (c < num_islands b)%nat;
  e_p1 : cp1 b k = IAt a;
  e_p2 : cp2 b k = IAt c;
  e_slot1 : icn b a d = CAt k;
  e_nb1 : inb b a d = IAt c;
  e_slot2 : icn b c (opp d) = CAt k;
  e_nb2 : inb b c (opp d) = IAt a }.

(** How many of the four slots of island [i] hold the connection [k]. *)
Definition hits (b : hboard) (i k : nat) : Z :=
  (if decide (icn b i UP = CAt k) then 1 else 0) +
  (if decide (icn b i LEFT = CAt k) then 1 else 0) +
  (if decide (icn b i RIGHT = CAt k) then 1 else 0) +
  (if decide (icn b i DOWN = CAt k) then 1 else 0).

(** The conditions under which [add_bridge] accepts a bridge on the
    connection [k] between the islands [a] and [c]. *)
Definition addable (b : hboard) (k a c : nat) : Prop :=
  cbr b k < MAX_CONNECTION_BRIDGES ∧ ipend b a ≠ 0 ∧ ipend b c ≠ 0 ∧
  Forall (fun x => cnt b x = 0) (ccross b k).

#[global] Instance addable_dec b k a c : Decision (addable b k a c).
Proof. unfold addable. apply _. Defined.

(** ** The primitive updates of the builder, in closed form *)

Definition alter_island (b : hboard) (i : nat) (f : hisland → hisland) : hboard :=
  set_islands (alter f i (islands b)) b.
Definition alter_connection (b : hboard) (k : nat) (f : hconnection → hconnection) : hboard :=
  set_connections (alter f k (connections b)) b.
Definition push_island (b : hboard) (x : hisland) : hboard :=
  set_islands (islands b ++ [x]) b.
Definition push_connection (b : hboard) (y : hconnection) : hboard :=
  set_connections (connections b ++ [y]) b.

(** A board on which no bridge has been built. *)
Definition fresh (b : hboard) : Prop :=
  (∀ k, cbr b k = 0) ∧ (∀ i, ipend b i = iexp b i).

(** The visited matrix has its full size and no position is marked. *)
Definition visited_clear (b : hboard) : Prop :=
  visitedmatrix b = replicate (max_visited_size b) false.

(** Island [i] is the left end of a horizontal connection that crosses the
    column [c] strictly between the rows of the islands [up] and [down]: the
    test of [fill_crosses]. *)
Definition crossed_at (b : hboard) (up down : nat) (c : Z) (i : nat) : Prop :=
  irow b up < irow b i ∧ irow b i < irow b down ∧ icol b i < c ∧
  ∃ j, inb b i RIGHT = IAt j ∧ c < icol b j.

(** [b'] is [b] with longer crossing lists. *)
Record cross_extended (b b' : hboard) : Prop := CrossExtended {
  ce_islands : islands b' = islands b;
  ce_rows : rows b' = rows b;
  ce_cols : cols b' = cols b;
  ce_out_island : out_island_st b' = out_island_st b;
  ce_out_connection : out_connection_st b' = out_connection_st b;
  ce_max_visited_size : max_visited_size b' = max_visited_size b;
  ce_visitedlimit : visitedlimit b' = visitedlimit b;
  ce_visitedmatrix : visitedmatrix b' = visitedmatrix b;
  ce_num_connections : num_connections b' = num_connections b;
  ce_cbr : ∀ k, cbr b' k = cbr b k;
  ce_cp1 : ∀ k, cp1 b' k = cp1 b k;
  ce_cp2 : ∀ k, cp2 b' k = cp2 b k }.

(** What the loop of [fill_crosses] needs of an island it walks over. *)
Definition walkable (up down : nat) (c : Z) (b : hboard) (i : nat) : Prop :=
  (inb b i RIGHT = IOut ∨ ∃ j, inb b i RIGHT = IAt j ∧ (j < num_islands b)%nat) ∧
  (crossed_at b up down c i →
   ∃ h, icn b i RIGHT = CAt h ∧ (h < num_connections b)%nat).

(** ** What a successful [add_island] does

    [b'] is [b] with one more island at [(r, c)] expecting [e] bridges; [left]
    and [up] are the neighbours found for it. *)

Definition left_index (b : hboard) : nat :=
  num_connections b.
Definition up_index (b : hboard) (left : iref) : nat :=
  if decide (left = IOut) then num_connections b else S (num_connections b).

Record added_core (b : hboard) (r c e : Z) (left up : iref) (b' : hboard) : Prop := AddedCore {
  ad_range : 0 ≤ r < CHAR_MAX ∧ 0 ≤ c < CHAR_MAX ∧ 1 ≤ e ≤ MAX_EXPECTED_BRIDGES;
  ad_order : ∀ p, num_islands b = S p →
      irow b p < r ∨ (irow b p = r ∧ icol b p < c);
  ad_left : left = match num_islands b with
                   | O => IOut
                   | S p => if decide (irow b p = r) then IAt p else IOut
                   end;
  ad_up : match up with
          | IAt j => (j < num_islands b)%nat ∧ icol b j = c ∧
                     ∀ t, (j < t)%nat → (t < num_islands b)%nat → icol b t ≠ c
          | IOut => ∀ t, (t < num_islands b)%nat → icol b t ≠ c
          | INull => False
          end;
  ad_num_islands : num_islands b' = S (num_islands b);
  ad_rows : rows b' = if rows b <=? r then r + 1 else rows b;
  ad_cols : cols b' = if cols b <=? c then c + 1 else cols b;
  ad_out_island : out_island_st b' = out_island_st b;
  ad_out_connection : out_connection_st b' = out_connection_st b;
  ad_max_visited_size : max_visited_size b' = max_visited_size b;
  ad_visitedmatrix : visitedmatrix b' = visitedmatrix b;
  ad_irow : ∀ i, irow b' i = if decide (i = num_islands b) then r else irow b i;
  ad_icol : ∀ i, icol b' i = if decide (i = num_islands b) then c else icol b i;
  ad_iexp : ∀ i, iexp b' i = if decide (i = num_islands b) then e else iexp b i;
  ad_ipend : ∀ i, ipend b' i = if decide (i = num_islands b) then e else ipend b i;
  ad_inb : ∀ i d, inb b' i d =
      if decide (i = num_islands b)
      then match d with LEFT => left | UP => up | _ => IOut end
      else if decide (left = IAt i ∧ d = RIGHT) then IAt (num_islands b)
      else if decide (up = IAt i ∧ d = DOWN) then IAt (num_islands b)
      else inb b i d;
  ad_icn : ∀ i d, icn b' i d =
      if decide (i = num_islands b)
      then match d with
           | LEFT => if decide (left = IOut) then COut else CAt (left_index b)
           | UP => if decide (up = IOut) then COut else CAt (up_index b left)
           | _ => COut
           end
      else if decide (left = IAt i ∧ d = RIGHT) then CAt (left_index b)
      else if decide (up = IAt i ∧ d = DOWN) then CAt (up_index b left)
      else icn b i d;
  ad_num_connections : num_connections b' =
      if decide (up = IOut) then up_index b left else S (up_index b left);
  ad_cbr : ∀ k, cbr b' k = cbr b k;
  ad_cp1 : ∀ k, cp1 b' k =
      if decide (k = left_index b ∧ left ≠ IOut) then left
      else if decide (k = up_index b left ∧ up ≠ IOut) then up
      else cp1 b k;
  ad_cp2 : ∀ k, cp2 b' k =
      if decide (k = left_index b ∧ left ≠ IOut) then IAt (num_islands b)
      else if decide (k = up_index b left ∧ up ≠ IOut) then IAt (num_islands b)
      else cp2 b k }.

Definition added (b : hboard) (r c e : Z) (left up : iref) (b' : hboard) : Prop :=
  added_core b r c e left up b' ∧
  ∀ k x, x ∈ ccross b' k ↔
    x ∈ ccross b k ∨
    (∃ u i, up = IAt u ∧ k = up_index b left ∧ (u < i)%nat ∧ (i < num_islands b)%nat ∧
            crossed_at b' u (num_islands b) c i ∧ x = icn b' i RIGHT) ∨
    (∃ u i, up = IAt u ∧ x = CAt (up_index b left) ∧ (u < i)%nat ∧
            (i < num_islands b)%nat ∧
            crossed_at b' u (num_islands b) c i ∧ icn b' i RIGHT = CAt k).

(** The boards that [read_islands] can hand to the solver: built from an
    empty board by calls of [add_island] that all succeeded. *)
Definition built (b : hboard) : Prop :=
  ∃ mi mc mx mv g1 g2 l, add_islands (init_board mi mc mx mv g1 g2) l = Some (b, true).

(** ** The per-island steps of the solver, in closed form *)

(** [delta] more bridges on the connection behind [x] (nothing for the
    sentinel). *)
Definition bumpx (b : hboard) (x : cref) (delta : Z) : hboard :=
  match x with
  | CAt k =>
      match cp1 b k, cp2 b k with
      | IAt a, IAt c => bump b k a c delta
      | _, _ => b
      end
  | _ => b
  end.

(** The board [b] with [r] more bridges on the right connection of island [i]
    and [d] more on its down connection: the forward split [(r, d)]. *)
Definition place (b : hboard) (i : nat) (r d : Z) : hboard :=
  bumpx (bumpx b (icn b i RIGHT) r) (icn b i DOWN) d.

(** How many bridges the connection behind [x], empty in [b], can take as
    far as its crossings, its cap and the island at its far end are
    concerned. *)
Definition cap (b : hboard) (x : cref) : Z :=
  match x with
  | CAt k =>
      match cp2 b k with
      | IAt c =>
          if decide (Forall (fun y => cnt b y = 0) (ccross b k))
          then Z.max 0 (Z.min MAX_CONNECTION_BRIDGES (ipend b c))
          else 0
      | _ => 0
      end
  | _ => 0
  end.

(** Both forward connections of island [i] carry no bridge. *)
Definition untouched (b : hboard) (i : nat) : Prop :=
  cnt b (icn b i RIGHT) = 0 ∧ cnt b (icn b i DOWN) = 0.

(** ** [fill_bridges] and [reorder_bridges] as the specification words them *)



(** [delta] if [x] is the connection [k], else nothing. *)
Definition on (x : cref) (k : nat) (delta : Z) : Z :=
  if decide (x = CAt k) then delta else 0.

(** [delta] if island [j] is an end of the connection behind [x], else
    nothing. *)
Definition at_end (b : hboard) (x : cref) (j : nat) (delta : Z) : Z :=
  match x with
  | CAt k => if decide (cp1 b k = IAt j ∨ cp2 b k = IAt j) then delta else 0
  | _ => 0
  end.

(** The forward splits [(r, d)] of island [i] that the board [b], untouched
    at [i], admits. *)
Definition split_ok (b : hboard) (i : nat) (r d : Z) : Prop :=
  0 ≤ r ≤ cap b (icn b i RIGHT) ∧ 0 ≤ d ≤ cap b (icn b i DOWN) ∧ r + d ≤ ipend b i.

(** A forward connection of island [i]: the sentinel, or a real connection
    (empty in [b]) with its far end. *)
Inductive fslot (b : hboard) (i : nat) (d : direction) : Prop :=
  | FOut : icn b i d = COut → fslot b i d
  | FAt k j : icn b i d = CAt k → (k < num_connections b)%nat → ends b k i j d →
              cbr b k = 0 → fslot b i d.

(** The split that the greedy first attempt of [fill_bridges] reaches on an
    untouched island: as much as possible to the right, then down. *)
Definition fill_right (b : hboard) (i : nat) : Z :=
  Z.min (cap b (icn b i RIGHT)) (ipend b i).
Definition fill_down (b : hboard) (i : nat) : Z :=
  Z.min (cap b (icn b i DOWN)) (ipend b i - fill_right b i).

(** ** Sequences of calls of the constraint engine *)

Inductive engine_call : Type :=
  | CallAdd (c : cref)
  | CallDel (c : cref).

Definition call_target (op : engine_call) : cref :=
  match op with CallAdd c | CallDel c => c end.

(** One call; its boolean result is dropped. *)
Definition engine_step (b : hboard) (op : engine_call) : option hboard :=
  match op with
  | CallAdd c => fst <$> add_bridge b c
  | CallDel c => fst <$> del_bridge b c
  end.

Fixpoint engine_run (b : hboard) (ops : list engine_call) : option hboard :=
  match ops with
  | [] => Some b
  | op :: ops' => b' ← engine_step b op; engine_run b' ops'
  end.

(** The states of the engine: what a built board becomes under calls of
    [add_bridge] and [del_bridge] on its connections. *)
Definition engine_state (b : hboard) : Prop :=
  ∃ b0 ops, built b0 ∧ Forall (fun op => valid_cref b0 (call_target op)) ops ∧
            engine_run b0 ops = Some b.

(** ** Example boards *)

Definition board_of (l : list (Z * Z * Z)) : hboard :=
  match add_islands (init_board 8 16 16 25 0 0) l with
  | Some (b, _) => b
  | None => init_board 8 16 16 25 0 0
  end.

(** Four islands on the corners of a square, two bridges expected at each. *)
Definition square_board : hboard :=
  Eval vm_compute in board_of [(0, 0, 2); (0, 2, 2); (2, 0, 2); (2, 2, 2)].

(** Four islands around a centre: the vertical and the horizontal connection
    cross. *)
Definition cross_board : hboard :=
  Eval vm_compute in board_of [(0, 1, 1); (1, 0, 1); (1, 2, 1); (2, 1, 1)].


(** Connections between two islands of one column, of one row. *)
Definition vertical (b : hboard) (k : nat) : Prop :=
  ∃ a c, cp1 b k = IAt a ∧ cp2 b k = IAt c ∧ icol b a = icol b c.
Definition horizontal (b : hboard) (k : nat) : Prop :=
  ∃ a c, cp1 b k = IAt a ∧ cp2 b k = IAt c ∧ irow b a = irow b c.

(** ** Vocabulary of the connectivity verifier *)

(** The position of island [i] in the visited matrix. *)
Definition pos (b : hboard) (i : nat) : Z := irow b i * cols b + icol b i.

(** Island [i] is marked as visited. *)
Definition marked (b : hboard) (i : nat) : Prop :=
  visitedmatrix b !! Z.to_nat (pos b i) = Some true.

#[global] Instance marked_dec b i : Decision (marked b i).
Proof. unfold marked. apply _. Defined.

(** The islands not marked yet. *)
Definition unmarked (b : hboard) : list nat :=
  filter (fun j => ¬ marked b j) (seq 0 (num_islands b)).

(** The traversal steps from island [i] to island [j]: [j] is the neighbour
    of [i] in a direction whose connection has a bridge. *)
Definition adj (b : hboard) (i j : nat) : Prop :=
  ∃ d, inb b i d = IAt j ∧ cnt b (icn b i d) ≠ 0.

(** Every island is reachable from the first one over bridges. *)
Definition connected (b : hboard) : Prop :=
  ∀ j, (j < num_islands b)%nat → rtc (adj b) 0%nat j.

(** Every mark lies below the high-water mark. *)
Definition limit_ok (b : hboard) : Prop :=
  0 ≤ visitedlimit b ≤ Z.of_nat (length (visitedmatrix b)) ∧
  ∀ p, visitedmatrix b !! p = Some true → Z.of_nat p < visitedlimit b.

(** [b'] is [b] with other marks and another high-water mark. *)
Definition vframe (b b' : hboard) : Prop :=
  b' = set_visitedlimit (visitedlimit b') (set_visitedmatrix (visitedmatrix b') b) ∧
  length (visitedmatrix b') = length (visitedmatrix b).

(** What a call of [visit_islands] on island [i] that returns [t] achieves. *)
Record visited_from (b b' : hboard) (i : nat) (t : Z) : Prop := VisitedFrom {
  vf_frame : vframe b b';
  vf_limit : limit_ok b';
  vf_mono : ∀ j, marked b j → marked b' j;
  vf_reach : ∀ j, (j < num_islands b)%nat → marked b' j → ¬ marked b j →
             rtc (adj b) i j;
  vf_closed : ∀ j z, (j < num_islands b)%nat → marked b' j → ¬ marked b j →
              adj b j z → marked b' z;
  vf_total : t = Z.of_nat (length (unmarked b)) - Z.of_nat (length (unmarked b')) }.

(** The visited matrix has room for every position of the board. *)
Definition size_ok (b : hboard) : Prop :=
  rows b * cols b ≤ Z.of_nat (length (visitedmatrix b)).

(** The board after [visit_islands] marked the unmarked island [i]. *)
Definition mark (b : hboard) (i : nat) : hboard :=
  let b1 := set_visitedmatrix (<[Z.to_nat (pos b i) := true]> (visitedmatrix b)) b in
  if visitedlimit b1 <? pos b i + 1 then set_visitedlimit (pos b i + 1) b1 else b1.

(** ** Solutions of a board *)

(** Sum of the bridge counts that the assignment [A] gives to the four
    connections of island [i]. *)
Definition asum (b : hboard) (A : list Z) (i : nat) : Z :=
  acnt A (icn b i UP) + acnt A (icn b i LEFT) + acnt A (icn b i RIGHT) +
  acnt A (icn b i DOWN).

(** Island [j] is the neighbour of island [i] over a connection that has a
    bridge in [A]. *)
Definition aadj (b : hboard) (A : list Z) (i j : nat) : Prop :=
  ∃ d, inb b i d = IAt j ∧ acnt A (icn b i d) ≠ 0.

(** [A] gives every connection of the board a bridge count and solves the
    puzzle; with [check], the bridges connect all islands. *)
Record valid_solution (check : bool) (b : hboard) (A : list Z) : Prop := ValidSolution {
  vs_length : length A = num_connections b;
  vs_range : ∀ k v, A !! k = Some v → 0 ≤ v ≤ MAX_CONNECTION_BRIDGES;
  vs_sum : ∀ i, (i < num_islands b)%nat → asum b A i = iexp b i;
  vs_cross : ∀ v h, (v < num_connections b)%nat → (h < num_connections b)%nat →
             xing b v h → ¬ (0 < acnt A (CAt v) ∧ 0 < acnt A (CAt h));
  vs_connected : check = true →
                 ∀ j, (j < num_islands b)%nat → rtc (aadj b A) 0%nat j }.

(** ** The states of the search *)

(** [A] has the bridge counts of [b] on the forward connections of the
    islands below [idx]. *)
Definition agrees (b : hboard) (idx : nat) (A : list Z) : Prop :=
  ∀ i d k, (i < idx)%nat → is_forward d = true → icn b i d = CAt k →
           A !! k = Some (cbr b k).

(** The board when the search reaches island [idx]: the islands below are
    complete, the islands from [idx] on have no bridge on their forward
    connections. *)
Record search_inv (b : hboard) (idx : nat) : Prop := SearchInv {
  si_graph : graph_ok b;
  si_state : state_ok b;
  si_clear : visited_clear b;
  si_done : ∀ i, (i < idx)%nat → (i < num_islands b)%nat → ipend b i = 0;
  si_todo : ∀ i, (idx ≤ i)%nat → (i < num_islands b)%nat → untouched b i }.

(** What holds at every invocation of [find_solutions_from_island]. *)
Definition event_ok (check : bool) (e : event) : Prop :=
  match e with
  | Enter idx b =>
      search_inv b idx ∧
      (check = true → (0 < num_islands b)%nat ∧ valid_visited_matrix_size b = true)
  | Print _ => True
  end.

(** What the trace of a call of [find_solutions_from_island] on island
    [idx] of the board [b] satisfies. *)
Definition search_post (check : bool) (b : hboard) (idx : nat) (t : list event) : Prop :=
  Forall (event_ok check) t ∧ NoDup (printed t) ∧
  ∀ A, A ∈ printed t ↔ valid_solution check b A ∧ agrees b idx A.

(** * The rest of the program *)

(** ** Arenas *)

(** No arena holds more than its capacity. *)
Definition capacity_ok (b : hboard) : Prop :=
  (num_islands b ≤ max_islands b)%nat ∧
  (num_connections b ≤ max_connections b)%nat ∧
  (num_crosselems b ≤ max_crosselems b)%nat.

(** From [b] to [b'] the capacities stay and no arena shrinks. *)
Definition arena_frame (b b' : hboard) : Prop :=
  max_islands b' = max_islands b ∧ max_connections b' = max_connections b ∧
  max_crosselems b' = max_crosselems b ∧ max_visited_size b' = max_visited_size b ∧
  (num_islands b ≤ num_islands b')%nat ∧
  (num_connections b ≤ num_connections b')%nat ∧
  (num_crosselems b ≤ num_crosselems b')%nat.

(** ** Totals *)

Definition zsum (l : list Z) : Z := foldr Z.add 0 l.

Definition total_pending (b : hboard) : Z := zsum (pendbridges <$> islands b).
Definition total_expected (b : hboard) : Z := zsum (expectbridges <$> islands b).
Definition total_bridges (b : hboard) : Z := zsum (bridges <$> connections b).

(** ** Searching from a position *)

(** The backward scan of [find_from_position] in direction [LEFT], entered
    with [index] still to be decremented. *)
Fixpoint find_position_left (b : hboard) (r c : Z) (index : nat) : option iref :=
  match index with
  | O => Some IOut
  | S index' =>
      island ← islands b !! index';
      if row island =? r then
        if col island <? c then Some (IAt index')
        else find_position_left b r c index'
      else if row island <? r then Some IOut
      else find_position_left b r c index'
  end.

(** The same scan in direction [UP]. *)
Fixpoint find_position_up (b : hboard) (r c : Z) (index : nat) : option iref :=
  match index with
  | O => Some IOut
  | S index' =>
      island ← islands b !! index';
      if (col island =? c) && (row island <? r) then Some (IAt index')
      else find_position_up b r c index'
  end.

Definition find_from_position (b : hboard) (r c : Z) (dir : direction) : option iref :=
  match dir with
  | LEFT => find_position_left b r c (num_islands b)
  | UP => find_position_up b r c (num_islands b)
  | _ => Some INull
  end.

(** ** Reading the puzzle *)

(** The loop of [read_islands] over the characters that [getchar] still
    returns before [EOF]; ['/'] is 47, ['\n'] is 10, ['.'] is 46 and the digits
    are 48 to 57. *)
Fixpoint read_islands_loop (b : hboard) (input : list Z) (r c : Z)
    : option (hboard * bool) :=
  match input with
  | [] => Some (b, true)
  | ch :: rest =>
      if (ch =? 47) || (ch =? 10) then
        r' ← int_succ r; read_islands_loop b rest r' 0
      else if (ch =? 46) || (ch =? 48) then
        c' ← int_succ c; read_islands_loop b rest r c'
      else if (48 <? ch) && (ch <=? 57) then
        '(b', ok) ← add_island b r c (ch - 48);
        if (ok : bool) then c' ← int_succ c; read_islands_loop b' rest r c'
        else Some (b', false)
      else read_islands_loop b rest r c
  end.

Definition read_islands (b : hboard) (input : list Z) : option (hboard * bool) :=
  read_islands_loop b input 0 0.

(** The islands that a text denotes, read from row [r] and column [c] on:
    row, column and expected count of each. *)
Fixpoint islands_of (input : list Z) (r c : Z) : list (Z * Z * Z) :=
  match input with
  | [] => []
  | ch :: rest =>
      if (ch =? 47) || (ch =? 10) then islands_of rest (r + 1) 0
      else if (ch =? 46) || (ch =? 48) then islands_of rest r (c + 1)
      else if (48 <? ch) && (ch <=? 57) then (r, c, ch - 48) :: islands_of rest r (c + 1)
      else islands_of rest r c
  end.

(** The text in its canonical form: [/] for a newline, [0] for a dot, the
    digits as they are, and nothing else. *)
Definition canonical (input : list Z) : list Z :=
  omap (λ ch, if (ch =? 47) || (ch =? 10) then Some 47
              else if (ch =? 46) || (ch =? 48) then Some 48
              else if (48 <? ch) && (ch <=? 57) then Some ch
              else None) input.

(** ** The program *)

Definition MAX_ISLANDS : nat := 150.
Definition MAX_CONNECTIONS : nat := 300.
Definition MAX_CROSSELEMS : nat := 300.
Definition MAX_VISITED_SIZE : nat := Z.to_nat 10000.

(** [main]: the exit status and the boards printed on the standard output,
    each by its bridge counts, in the order of the calls of [print_board].
    [g1] and [g2] stand for the unassigned [max_bridges] and [visitedlimit] of
    the board on the stack; [exit(-1)] is the status [-1]. *)
Definition main (g1 g2 : Z) (input : list Z) : option (Z * list (list Z)) :=
  let board := init_board MAX_ISLANDS MAX_CONNECTIONS MAX_CROSSELEMS MAX_VISITED_SIZE
                 g1 g2 in
  '(board, ok) ← read_islands board input;
  if negb ok then Some (-1, [])
  else
    let out := [bridge_counts board] in
    if decide (num_islands board = 0)%nat then Some (0, out)
    else if negb (valid_visited_matrix_size board) then Some (-1, out)
    else
      '(_, t) ← find_solutions_from_island CHECK_CONNECTED_SOLUTION
                  (3 * num_islands board + 1) board 0;
      Some (0, out ++ printed t).

(** ** Printing the board

    The text written on the standard output is a string; a [printf] appends
    to it. *)

Infix "+:+" := String.append (at level 60, right associativity).

(** The text of [printf("%d", e)]. *)
Definition decimal (e : Z) : string :=
  DecimalString.NilZero.string_of_int (Z.to_int e).

Definition newline : string :=
  Eval cbv in String (Ascii.ascii_of_nat 10) EmptyString.

(** [was_printed] is the local [printed] of the three functions. *)
Definition print_empty_position (b : hboard) (i j : Z) : option string :=
  left ← find_from_position b i j LEFT;
  '(emptyleft, was_printed, out) ←
    (if decide (left = IOut) then Some (false, false, EmptyString)
     else
       x ← get_island b left;
       let conn := slot_get (i_connections x) RIGHT in
       if decide (conn = COut) then Some (false, false, EmptyString)
       else
         y ← get_connection b conn;
         if bridges y =? 0 then Some (true, false, EmptyString)
         else if bridges y =? 1 then Some (false, true, "---"%string)
         else if bridges y =? 2 then Some (false, true, "==="%string)
         else Some (false, false, EmptyString));
  up ← find_from_position b i j UP;
  '(emptyup, was_printed, out) ←
    (if decide (up = IOut) then Some (false, was_printed, out)
     else
       x ← get_island b up;
       let conn := slot_get (i_connections x) DOWN in
       if decide (conn = COut) then Some (false, was_printed, out)
       else
         y ← get_connection b conn;
         if bridges y =? 0 then Some (true, was_printed, out)
         else if bridges y =? 1 then Some (false, true, out +:+ " ! ")
         else if bridges y =? 2 then Some (false, true, out +:+ " !!")
         else Some (false, was_printed, out));
  if (was_printed : bool) then Some out
  else if emptyleft && emptyup then Some (out +:+ " + ")
  else if (emptyleft : bool) then Some (out +:+ " - ")
  else if (emptyup : bool) then Some (out +:+ " ' ")
  else Some (out +:+ " . ").

Definition print_space_right (b : hboard) (i j : Z) : option string :=
  left ← find_from_position b i j LEFT;
  '(was_printed, out) ←
    (if decide (left = IOut) then Some (false, EmptyString)
     else
       x ← get_island b left;
       let conn := slot_get (i_connections x) RIGHT in
       if decide (conn = COut) then Some (false, EmptyString)
       else
         y ← get_connection b conn;
         if bridges y =? 1 then Some (true, "--"%string)
         else if bridges y =? 2 then Some (true, "=="%string)
         else Some (false, EmptyString));
  if (was_printed : bool) then Some out else Some (out +:+ "  ").

Definition print_space_down (b : hboard) (i j : Z) : option string :=
  up ← find_from_position b i j UP;
  '(was_printed, out) ←
    (if decide (up = IOut) then Some (false, EmptyString)
     else
       x ← get_island b up;
       let conn := slot_get (i_connections x) DOWN in
       if decide (conn = COut) then Some (false, EmptyString)
       else
         y ← get_connection b conn;
         if bridges y =? 1 then Some (true, " ! "%string)
         else if bridges y =? 2 then Some (true, " !!"%string)
         else Some (false, EmptyString));
  if (was_printed : bool) then Some out else Some (out +:+ "   ").

(** The first inner loop of [print_board] in row [i], with [n] columns left
    from column [j] on; [index] is threaded through. *)
Fixpoint print_board_cells (n : nat) (b : hboard) (i j : Z) (index : nat)
    : option (string * nat) :=
  match n with
  | O => Some (EmptyString, index)
  | S n' =>
      '(cell, index) ←
        (if decide (index < num_islands b)%nat then
           island ← islands b !! index;
           if (row island =? i) && (col island =? j)
           then Some ("(" +:+ decimal (expectbridges island) +:+ ")", S index)
           else out ← print_empty_position b i j; Some (out, index)
         else Some (" . "%string, index));
      space ← print_space_right b i (j + 1);
      '(rest, index) ← print_board_cells n' b i (j + 1) index;
      Some (cell +:+ space +:+ rest, index)
  end.

(** The second inner loop of [print_board]. *)
Fixpoint print_board_spaces (n : nat) (b : hboard) (i j : Z) : option string :=
  match n with
  | O => Some EmptyString
  | S n' =>
      out ← print_space_down b (i + 1) j;
      rest ← print_board_spaces n' b i (j + 1);
      Some (out +:+ "  " +:+ rest)
  end.

(** The outer loop of [print_board], with [n] rows left from row [i] on. *)
Fixpoint print_board_rows (n : nat) (b : hboard) (i : Z) (index : nat) : option string :=
  match n with
  | O => Some EmptyString
  | S n' =>
      '(cells, index) ← print_board_cells (Z.to_nat (cols b)) b i 0 index;
      spaces ← print_board_spaces (Z.to_nat (cols b)) b i 0;
      rest ← print_board_rows n' b (i + 1) index;
      Some (cells +:+ newline +:+ spaces +:+ newline +:+ rest)
  end.

Definition print_board (b : hboard) : option string :=
  out ← print_board_rows (Z.to_nat (rows b)) b 0 0;
  Some (out +:+ newline).

(** *** The picture, position by position *)

(** The island at a position, if there is one. *)
Definition island_at (b : hboard) (i j : Z) : option hisland :=
  snd <$> list_find (λ x, row x = i ∧ col x = j) (islands b).

(** The cell of a position: the expected count of its island, or what
    [print_empty_position] prints for it. *)
Definition cell_at (b : hboard) (i j : Z) : option string :=
  match island_at b i j with
  | Some x => Some ("(" +:+ decimal (expectbridges x) +:+ ")")
  | None => print_empty_position b i j
  end.

Fixpoint grid_cells (n : nat) (b : hboard) (i j : Z) : option string :=
  match n with
  | O => Some EmptyString
  | S n' =>
      cell ← cell_at b i j;
      space ← print_space_right b i (j + 1);
      rest ← grid_cells n' b i (j + 1);
      Some (cell +:+ space +:+ rest)
  end.

Fixpoint grid_rows (n : nat) (b : hboard) (i : Z) : option string :=
  match n with
  | O => Some EmptyString
  | S n' =>
      cells ← grid_cells (Z.to_nat (cols b)) b i 0;
      spaces ← print_board_spaces (Z.to_nat (cols b)) b i 0;
      rest ← grid_rows n' b (i + 1);
      Some (cells +:+ newline +:+ spaces +:+ newline +:+ rest)
  end.

Definition grid (b : hboard) : option string :=
  out ← grid_rows (Z.to_nat (rows b)) b 0;
  Some (out +:+ newline).

(** Island [t] comes before the position [(i, j)] in row-major order. *)
Definition passed (b : hboard) (t : nat) (i j : Z) : Prop :=
  irow b t < i ∨ (irow b t = i ∧ icol b t < j).

(** [index] is the number of islands before the position [(i, j)]. *)
Definition scanned (b : hboard) (index : nat) (i j : Z) : Prop :=
  (index ≤ num_islands b)%nat ∧
  (∀ t, (t < index)%nat → passed b t i j) ∧
  (∀ t, (index ≤ t)%nat → (t < num_islands b)%nat → ¬ passed b t i j).

(** The eight cells of an empty position. *)
Definition empty_cells : list string :=
  ["---"; "==="; " ! "; " !!"; " + "; " - "; " ' "; " . "]%string.

(** * Basic facts *)

Lemma to_char_id z : -128 ≤ z ≤ 127 → to_char z = z.
Proof. intros H. unfold to_char. rewrite Z.mod_small by lia. lia. Qed.

Lemma opp_opp d : opp (opp d) = d.
Proof. by destruct d. Qed.

Lemma is_forward_opp d : is_forward (opp d) = negb (is_forward d).
Proof. by destruct d. Qed.

(** ** Accessors and lookups *)

Section accessors.
Context (b : hboard).

Lemma island_lookup i : (i < num_islands b)%nat → ∃ x, islands b !! i = Some x.
Proof. intros H. by apply lookup_lt_is_Some_2. Qed.

Lemma connection_lookup k : (k < num_connections b)%nat → ∃ y, connections b !! k = Some y.
Proof. intros H. by apply lookup_lt_is_Some_2. Qed.

Lemma island_fields i x :
  islands b !! i = Some x →
  irow b i = row x ∧ icol b i = col x ∧ iexp b i = expectbridges x ∧
  ipend b i = pendbridges x ∧
  (∀ d, inb b i d = slot_get (i_islands x) d) ∧
  (∀ d, icn b i d = slot_get (i_connections x) d).
Proof. intros H. unfold irow, icol, iexp, ipend, inb, icn. by rewrite H. Qed.

Lemma connection_fields k y :
  connections b !! k = Some y →
  cbr b k = bridges y ∧ cp1 b k = ppendbridges1 y ∧ cp2 b k = ppendbridges2 y ∧
  ccross b k = firstcross y.
Proof. intros H. unfold cbr, cp1, cp2, ccross. by rewrite H. Qed.

Lemma cnt_CAt k : cnt b (CAt k) = cbr b k.
Proof. unfold cnt, cbr, read_bridges. simpl. by destruct (connections b !! k). Qed.

Lemma inb_IAt_lt i d j : inb b i d = IAt j → (i < num_islands b)%nat.
Proof.
  unfold inb. destruct (islands b !! i) eqn:E; [|done].
  intros _. by eapply lookup_lt_Some.
Qed.

Lemma icn_CAt_lt i d k : icn b i d = CAt k → (i < num_islands b)%nat.
Proof.
  unfold icn. destruct (islands b !! i) eqn:E; [|done].
  intros _. by eapply lookup_lt_Some.
Qed.
End accessors.

(** ** The skeleton determines the static accessors *)

Lemma skeleton_islands b b' i :
  skeleton b = skeleton b' →
  set_pendbridges 0 <$> (islands b !! i) = set_pendbridges 0 <$> (islands b' !! i).
Proof.
  intros H. rewrite <- !list_lookup_fmap.
  change (islands (skeleton b) !! i = islands (skeleton b') !! i). by rewrite H.
Qed.

Lemma skeleton_connections b b' k :
  skeleton b = skeleton b' →
  set_bridges 0 <$> (connections b !! k) = set_bridges 0 <$> (connections b' !! k).
Proof.
  intros H. rewrite <- !list_lookup_fmap.
  change (connections (skeleton b) !! k = connections (skeleton b') !! k). by rewrite H.
Qed.

Lemma skeleton_same_static b b' : skeleton b = skeleton b' → same_static b b'.
Proof.
  intros H.
  assert (HI : ∀ i, set_pendbridges 0 <$> (islands b !! i)
                    = set_pendbridges 0 <$> (islands b' !! i))
    by (intros; by apply skeleton_islands).
  assert (HC : ∀ k, set_bridges 0 <$> (connections b !! k)
                    = set_bridges 0 <$> (connections b' !! k))
    by (intros; by apply skeleton_connections).
  split.
  - unfold num_islands.
    change (length (islands b') = length (islands b)).
    rewrite <- (length_fmap (set_pendbridges 0) (islands b')).
    rewrite <- (length_fmap (set_pendbridges 0) (islands b)).
    change (length (islands (skeleton b')) = length (islands (skeleton b))). by rewrite H.
  - unfold num_connections.
    rewrite <- (length_fmap (set_bridges 0) (connections b')).
    rewrite <- (length_fmap (set_bridges 0) (connections b)).
    change (length (connections (skeleton b')) = length (connections (skeleton b))).
    by rewrite H.
  - change (rows (skeleton b') = rows (skeleton b)). by rewrite H.
  - change (cols (skeleton b') = cols (skeleton b)). by rewrite H.
  - change (out_island_st (skeleton b') = out_island_st (skeleton b)). by rewrite H.
  - change (out_connection_st (skeleton b') = out_connection_st (skeleton b)). by rewrite H.
  - intros i. specialize (HI i). unfold irow.
    destruct (islands b !! i), (islands b' !! i); simplify_eq/=; congruence.
  - intros i. specialize (HI i). unfold icol.
    destruct (islands b !! i), (islands b' !! i); simplify_eq/=; congruence.
  - intros i. specialize (HI i). unfold iexp.
    destruct (islands b !! i), (islands b' !! i); simplify_eq/=; congruence.
  - intros i d. specialize (HI i). unfold inb.
    destruct (islands b !! i), (islands b' !! i); simplify_eq/=; congruence.
  - intros i d. specialize (HI i). unfold icn.
    destruct (islands b !! i), (islands b' !! i); simplify_eq/=; congruence.
  - intros k. specialize (HC k). unfold cp1.
    destruct (connections b !! k), (connections b' !! k); simplify_eq/=; congruence.
  - intros k. specialize (HC k). unfold cp2.
    destruct (connections b !! k), (connections b' !! k); simplify_eq/=; congruence.
  - intros k. specialize (HC k). unfold ccross.
    destruct (connections b !! k), (connections b' !! k); simplify_eq/=; congruence.
Qed.

Lemma same_static_xing b b' v h : same_static b b' → xing b' v h ↔ xing b v h.
Proof.
  intros HS.
  unfold xing. split; intros (a & c & e & f & H); exists a, c, e, f.
  - by rewrite <- !(ss_cp1 _ _ HS), <- !(ss_cp2 _ _ HS), <- !(ss_irow _ _ HS),
      <- !(ss_icol _ _ HS).
  - by rewrite !(ss_cp1 _ _ HS), !(ss_cp2 _ _ HS), !(ss_irow _ _ HS), !(ss_icol _ _ HS).
Qed.

Lemma graph_ok_same_static b b' : same_static b b' → graph_ok b → graph_ok b'.
Proof.
  intros HS G. pose proof (λ v h, same_static_xing b b' v h HS) as HX.
  destruct HS as [ss_num_islands ss_num_connections ss_rows ss_cols ss_out_island
    ss_out_connection ss_irow ss_icol ss_iexp ss_inb ss_icn ss_cp1 ss_cp2 ss_ccross].
  destruct G as [g_out_island g_out_connection g_dims g_pos g_sorted g_right g_left
    g_down g_up g_slot g_pair g_owner g_cross_sound g_cross_complete].
  split; intros;
    rewrite ?ss_num_islands, ?ss_num_connections, ?ss_rows, ?ss_cols,
      ?ss_out_island, ?ss_out_connection in *.
  - done.
  - done.
  - done.
  - rewrite ?ss_irow, ?ss_icol, ?ss_iexp. auto.
  - unfold before. rewrite ?ss_irow, ?ss_icol. by apply g_sorted.
  - rewrite ?ss_inb, ?ss_irow. auto.
  - rewrite ?ss_inb. specialize (g_left i). destruct i; rewrite ?ss_irow; auto.
  - rewrite ?ss_inb. specialize (g_down i). destruct (inb b i DOWN); auto.
    + intros. rewrite ?ss_icol. auto.
    + rewrite ?ss_icol. destruct g_down as (?&?&?&?); auto.
      repeat split; auto. intros. rewrite ?ss_icol. auto.
  - rewrite ?ss_inb. specialize (g_up i). destruct (inb b i UP); auto.
    + intros. rewrite ?ss_icol. auto.
    + rewrite ?ss_icol. destruct g_up as (?&?&?); auto.
      repeat split; auto. intros. rewrite ?ss_icol. auto.
  - rewrite ?ss_icn. specialize (g_slot i d). destruct (icn b i d); auto.
    + rewrite ?ss_inb. auto.
    + rewrite ?ss_cp1, ?ss_cp2, ?ss_inb. auto.
  - rewrite !ss_icn. rewrite ss_inb in *. eauto.
  - destruct (g_owner k) as (i & d & ?); auto. exists i, d. by rewrite ss_icn.
  - rewrite ss_ccross in *. destruct (g_cross_sound k x) as (k' & ? & ? & ?); auto.
    exists k'. rewrite !HX; auto.
  - rewrite !ss_ccross. apply g_cross_complete; auto. by apply HX.
Qed.

Lemma graph_ok_skeleton b b' : skeleton b = skeleton b' → graph_ok b → graph_ok b'.
Proof. intros H. apply graph_ok_same_static. by apply skeleton_same_static. Qed.

(** * Consequences of the graph invariant *)

Section graph_facts.
Context (b : hboard) (G : graph_ok b).

Lemma inb_not_null i d : (i < num_islands b)%nat → inb b i d ≠ INull.
Proof.
  intros Hi. destruct d.
  - pose proof (g_up b G i Hi) as H. by destruct (inb b i UP).
  - rewrite (g_left b G i Hi). destruct i; [done|]. by case_decide.
  - rewrite (g_right b G i Hi). by case_decide.
  - pose proof (g_down b G i Hi) as H. by destruct (inb b i DOWN).
Qed.

Lemma forward_neighbour i d j :
  is_forward d = true → inb b i d = IAt j →
  (i < j)%nat ∧ (j < num_islands b)%nat ∧
  match d with
  | RIGHT => j = S i ∧ irow b j = irow b i ∧ icol b i < icol b j
  | _ => icol b j = icol b i ∧ irow b i < irow b j
  end.
Proof.
  intros Hd Hj. pose proof (inb_IAt_lt b i d j Hj) as Hi.
  destruct d; try done.
  - rewrite (g_right b G i Hi) in Hj. case_decide as Hc; [|done].
    simplify_eq. destruct Hc as [Hc1 Hc2].
    pose proof (g_sorted b G i (S i) ltac:(lia) Hc1) as Hs. unfold before in Hs.
    repeat split; auto; lia.
  - pose proof (g_down b G i Hi) as H. rewrite Hj in H.
    destruct H as (H1 & H2 & H3 & _).
    pose proof (g_sorted b G i j H1 H2) as Hs. unfold before in Hs.
    repeat split; auto; lia.
Qed.

Lemma backward_neighbour i d j :
  (i < num_islands b)%nat → is_forward d = false → inb b i d = IAt j →
  (j < i)%nat ∧
  match d with
  | LEFT => i = S j ∧ irow b j = irow b i ∧ icol b j < icol b i
  | _ => icol b j = icol b i ∧ irow b j < irow b i
  end.
Proof.
  intros Hi Hd Hj. destruct d; try done.
  - pose proof (g_up b G i Hi) as H. rewrite Hj in H.
    destruct H as (H1 & H2 & _).
    pose proof (g_sorted b G j i H1 Hi) as Hs. unfold before in Hs.
    repeat split; auto; lia.
  - rewrite (g_left b G i Hi) in Hj. destruct i as [|p]; [done|].
    case_decide as Hc; [|done]. simplify_eq.
    pose proof (g_sorted b G j (S j) ltac:(lia) Hi) as Hs. unfold before in Hs.
    repeat split; auto; lia.
Qed.

Lemma connection_ends k :
  (k < num_connections b)%nat → ∃ a c d, ends b k a c d.
Proof.
  intros Hk. destruct (g_owner b G k Hk) as (i & d & Hi & Hd & Hs).
  pose proof (g_slot b G i d Hi) as H. rewrite Hs, Hd in H.
  destruct H as (_ & Hne & Hp1 & Hp2).
  pose proof (inb_not_null i d Hi) as Hnn.
  destruct (inb b i d) as [| |j] eqn:Hj; try done.
  destruct (forward_neighbour i d j Hd Hj) as (Hlt & Hjn & _).
  pose proof (g_pair b G i j d Hi Hj) as Hpair. rewrite Hs in Hpair.
  pose proof (g_slot b G j (opp d) Hjn) as H. rewrite Hpair, is_forward_opp, Hd in H.
  simpl in H. destruct H as (_ & _ & _ & Hback).
  exists i, j, d. split; auto. congruence.
Qed.

Lemma slot_unique k a c d i d' :
  ends b k a c d → (i < num_islands b)%nat → icn b i d' = CAt k →
  (i = a ∧ d' = d) ∨ (i = c ∧ d' = opp d).
Proof.
  intros [Ef Elt Eb Ep1 Ep2 Es1 En1 Es2 En2] Hi Hs.
  pose proof (g_slot b G i d' Hi) as H. rewrite Hs in H.
  destruct H as (_ & _ & H).
  destruct (is_forward d') eqn:Hd'.
  - destruct H as [H1 H2]. assert (i = a) by congruence. subst i. left. split; [done|].
    assert (Hn : inb b a d' = IAt c) by congruence.
    pose proof (forward_neighbour a d c Ef En1) as (_ & _ & F1).
    pose proof (forward_neighbour a d' c Hd' Hn) as (_ & _ & F2).
    destruct d, d'; try done; lia.
  - destruct H as [H1 H2]. assert (i = c) by congruence. subst i. right. split; [done|].
    assert (Hn : inb b c d' = IAt a) by congruence.
    assert (Ho : is_forward (opp d) = false) by (by rewrite is_forward_opp, Ef).
    pose proof (backward_neighbour c (opp d) a Eb Ho En2) as (_ & F1).
    pose proof (backward_neighbour c d' a Eb Hd' Hn) as (_ & F2).
    destruct d, d'; try done; simpl in *; lia.
Qed.

Lemma ends_bound1 k a c d : ends b k a c d → (a < num_islands b)%nat.
Proof. intros []. lia. Qed.

Lemma slot_valid i d : (i < num_islands b)%nat → valid_cref b (icn b i d).
Proof.
  intros Hi. pose proof (g_slot b G i d Hi) as H.
  destruct (icn b i d); simpl; tauto.
Qed.

Lemma cnt_COut : cnt b COut = 0.
Proof. unfold cnt, read_bridges. simpl. by rewrite (g_out_connection b G). Qed.

Lemma cross_members k x :
  (k < num_connections b)%nat → x ∈ ccross b k →
  ∃ k', x = CAt k' ∧ (k' < num_connections b)%nat ∧ CAt k ∈ ccross b k'.
Proof.
  intros Hk Hx. destruct (g_cross_sound b G k x Hk Hx) as (k' & -> & Hk' & Hc).
  exists k'. repeat split; auto.
  destruct Hc as [Hc|Hc]; by apply (g_cross_complete b G) in Hc as [? ?].
Qed.

Lemma hits_ends k a c d i :
  ends b k a c d → (i < num_islands b)%nat →
  hits b i k = if decide (i = a ∨ i = c) then 1 else 0.
Proof.
  intros E Hi. pose proof (slot_unique k a c d i) as U.
  pose proof E as [Ef Elt Eb Ep1 Ep2 Es1 En1 Es2 En2].
  unfold hits.
  repeat case_decide;
    repeat match goal with
      | H : icn b i ?d' = CAt k |- _ =>
          let F := fresh in pose proof (U d' E Hi H) as F; clear H
      end;
    try lia;
    destruct d; simpl in *; try done;
    repeat match goal with
      | H : _ ∨ _ |- _ => destruct H
      | H : _ ∧ _ |- _ => destruct H
      end; subst; try lia; try congruence.
Qed.
End graph_facts.

(** * The constraint engine in closed form *)

Lemma fmap_alter_absorb {A B} (g : A → B) (f : A → A) k (l : list A) :
  (∀ x, g (f x) = g x) → g <$> alter f k l = g <$> l.
Proof.
  intros H. apply list_eq. intros i. rewrite !list_lookup_fmap.
  destruct (decide (k = i)) as [->|].
  - rewrite list_lookup_alter_eq. destruct (l !! i); simpl; by rewrite ?H.
  - by rewrite list_lookup_alter_ne.
Qed.

Lemma insert_as_alter {A} (f : A → A) k x (l : list A) :
  l !! k = Some x → <[k := f x]> l = alter f k l.
Proof.
  intros H. apply list_eq. intros i. destruct (decide (k = i)) as [->|].
  - rewrite list_lookup_insert_eq by (by eapply lookup_lt_Some).
    by rewrite list_lookup_alter_eq, H.
  - by rewrite list_lookup_insert_ne, list_lookup_alter_ne.
Qed.

Lemma skeleton_set_cbr b k v : skeleton (set_cbr b k v) = skeleton b.
Proof. unfold skeleton, set_cbr. simpl. f_equal. by apply fmap_alter_absorb. Qed.

Lemma skeleton_set_ipend b i v : skeleton (set_ipend b i v) = skeleton b.
Proof. unfold skeleton, set_ipend. simpl. f_equal. by apply fmap_alter_absorb. Qed.

Lemma skeleton_set_visitedlimit b v : skeleton (set_visitedlimit v b) = skeleton b.
Proof. done. Qed.

Lemma skeleton_bump b k a c delta : skeleton (bump b k a c delta) = skeleton b.
Proof. unfold bump. by rewrite !skeleton_set_ipend, skeleton_set_cbr. Qed.

Lemma cbr_set_cbr b k v k' :
  cbr (set_cbr b k v) k' =
    if decide (k' = k ∧ (k < num_connections b)%nat) then v else cbr b k'.
Proof.
  unfold cbr, set_cbr, num_connections. simpl.
  destruct (decide (k = k')) as [->|Hne].
  - rewrite list_lookup_alter_eq. case_decide as Hc.
    + destruct Hc as [_ Hc]. apply lookup_lt_is_Some_2 in Hc as [y ->]. done.
    + rewrite lookup_ge_None_2; [done|]. lia.
  - rewrite list_lookup_alter_ne by done. case_decide as Hc; [by destruct Hc|done].
Qed.

Lemma ipend_set_ipend b i v j :
  ipend (set_ipend b i v) j =
    if decide (j = i ∧ (i < num_islands b)%nat) then v else ipend b j.
Proof.
  unfold ipend, set_ipend, num_islands. simpl.
  destruct (decide (i = j)) as [->|Hne].
  - rewrite list_lookup_alter_eq. case_decide as Hc.
    + destruct Hc as [_ Hc]. apply lookup_lt_is_Some_2 in Hc as [y ->]. done.
    + rewrite lookup_ge_None_2; [done|]. lia.
  - rewrite list_lookup_alter_ne by done. case_decide as Hc; [by destruct Hc|done].
Qed.

Lemma cbr_set_ipend b i v k : cbr (set_ipend b i v) k = cbr b k.
Proof. done. Qed.

Lemma ipend_set_cbr b k v i : ipend (set_cbr b k v) i = ipend b i.
Proof. done. Qed.

Lemma cbr_bump b k a c delta k' :
  (k < num_connections b)%nat →
  cbr (bump b k a c delta) k' = if decide (k' = k) then cbr b k + delta else cbr b k'.
Proof.
  intros Hk. unfold bump.
  rewrite !cbr_set_ipend, cbr_set_cbr. repeat case_decide; naive_solver.
Qed.

Lemma ipend_bump b k a c delta i :
  a ≠ c → (a < num_islands b)%nat → (c < num_islands b)%nat →
  ipend (bump b k a c delta) i =
    if decide (i = a ∨ i = c) then ipend b i - delta else ipend b i.
Proof.
  intros Hne Ha Hc. unfold bump.
  rewrite ipend_set_ipend.
  assert (Hn : num_islands (set_ipend (set_cbr b k (cbr b k + delta)) a (ipend b a - delta))
               = num_islands b).
  { unfold num_islands, set_ipend. simpl. by rewrite length_alter. }
  rewrite Hn, ipend_set_ipend.
  change (num_islands (set_cbr b k (cbr b k + delta))) with (num_islands b).
  rewrite ipend_set_cbr.
  repeat case_decide; try done; naive_solver.
Qed.

Lemma cnt_bump b k a c delta x :
  (k < num_connections b)%nat →
  cnt (bump b k a c delta) x = cnt b x + if decide (x = CAt k) then delta else 0.
Proof.
  intros Hk. destruct x as [| |k'].
  - case_decide; [done|]. unfold cnt. simpl. lia.
  - case_decide; [done|]. unfold cnt, read_bridges. simpl. lia.
  - rewrite !cnt_CAt, cbr_bump by done.
    repeat case_decide; simplify_eq; lia.
Qed.

Lemma visited_bump b k a c delta :
  visitedmatrix (bump b k a c delta) = visitedmatrix b ∧
  visitedlimit (bump b k a c delta) = visitedlimit b.
Proof. done. Qed.

(** A board is determined by its skeleton, its pending counts, its bridge
    counts and [visitedlimit]. *)
Lemma board_ext b b' :
  skeleton b = skeleton b' → visitedlimit b = visitedlimit b' →
  (∀ i, ipend b i = ipend b' i) → (∀ k, cbr b k = cbr b' k) → b = b'.
Proof.
  intros Hs Hv Hp Hc.
  assert (HI : islands b = islands b').
  { apply list_eq. intros i. pose proof (skeleton_islands b b' i Hs) as H.
    specialize (Hp i). unfold ipend in Hp.
    destruct (islands b !! i) as [[]|], (islands b' !! i) as [[]|]; by simplify_eq/=. }
  assert (HC : connections b = connections b').
  { apply list_eq. intros k. pose proof (skeleton_connections b b' k Hs) as H.
    specialize (Hc k). unfold cbr in Hc.
    destruct (connections b !! k) as [[]|], (connections b' !! k) as [[]|];
      simplify_eq/=; try done. }
  destruct b, b'. unfold skeleton in Hs. simpl in *.
  injection Hs; intros; by subst.
Qed.

Lemma bump_bump b k a c delta :
  a ≠ c → (a < num_islands b)%nat → (c < num_islands b)%nat →
  (k < num_connections b)%nat →
  bump (bump b k a c delta) k a c (- delta) = b.
Proof.
  intros Hne Ha Hc Hk.
  pose proof (skeleton_same_static _ _ (eq_sym (skeleton_bump b k a c delta))) as HS.
  apply board_ext.
  - by rewrite !skeleton_bump.
  - done.
  - intros i. rewrite !ipend_bump; rewrite ?(ss_num_islands _ _ HS); try done.
    repeat case_decide; lia.
  - intros k'. rewrite !cbr_bump; rewrite ?(ss_num_connections _ _ HS); try done.
    repeat case_decide; subst; lia.
Qed.

(** ** Reads and writes through valid pointers *)

Lemma read_pend_IAt b i : (i < num_islands b)%nat → read_pend b (IAt i) = Some (ipend b i).
Proof.
  intros Hi. apply island_lookup in Hi as [x Hx].
  unfold read_pend, ipend. simpl. by rewrite Hx.
Qed.

Lemma read_bridges_CAt b k :
  (k < num_connections b)%nat → read_bridges b (CAt k) = Some (cbr b k).
Proof.
  intros Hk. apply connection_lookup in Hk as [x Hx].
  unfold read_bridges, cbr. simpl. by rewrite Hx.
Qed.

Lemma write_pend_IAt b i v :
  (i < num_islands b)%nat → write_pend b (IAt i) v = Some (set_ipend b i v).
Proof.
  intros Hi. pose proof Hi as [x Hx]%island_lookup.
  unfold write_pend, set_ipend. simpl. rewrite Hx. simpl.
  rewrite decide_True by done. by erewrite insert_as_alter.
Qed.

Lemma write_bridges_CAt b k v :
  (k < num_connections b)%nat → write_bridges b (CAt k) v = Some (set_cbr b k v).
Proof.
  intros Hk. pose proof Hk as [x Hx]%connection_lookup.
  unfold write_bridges, set_cbr. simpl. rewrite Hx. simpl.
  rewrite decide_True by done. by erewrite insert_as_alter.
Qed.

Lemma cross_has_bridges_spec b l :
  (∀ x, x ∈ l → ∃ k', x = CAt k' ∧ (k' < num_connections b)%nat) →
  cross_has_bridges b l = Some (negb (bool_decide (Forall (fun x => cnt b x = 0) l))).
Proof.
  induction l as [|x l IH]; intros H.
  - done.
  - destruct (H x) as (k' & -> & Hk'); [by left|].
    simpl. rewrite read_bridges_CAt by done. simpl.
    destruct (Z.eqb_spec (cbr b k') 0) as [E|E].
    + rewrite IH by (intros; apply H; by right).
      f_equal. f_equal. apply bool_decide_ext. rewrite Forall_cons, cnt_CAt. tauto.
    + f_equal. rewrite bool_decide_false; [done|].
      rewrite Forall_cons, cnt_CAt. tauto.
Qed.

Lemma num_islands_set_ipend b i v : num_islands (set_ipend b i v) = num_islands b.
Proof. unfold num_islands, set_ipend. simpl. by rewrite length_alter. Qed.

Lemma num_islands_set_cbr b k v : num_islands (set_cbr b k v) = num_islands b.
Proof. done. Qed.

Lemma num_connections_set_cbr b k v : num_connections (set_cbr b k v) = num_connections b.
Proof. unfold num_connections, set_cbr. simpl. by rewrite length_alter. Qed.

(** * Ranges under the invariants *)

Section ranges.
Context (b : hboard) (G : graph_ok b) (S : state_ok b).

Lemma cnt_valid_range x : valid_cref b x → 0 ≤ cnt b x ≤ MAX_CONNECTION_BRIDGES.
Proof.
  destruct x as [| |k]; simpl; intros H; [done| |].
  - rewrite (cnt_COut b G). unfold MAX_CONNECTION_BRIDGES. lia.
  - rewrite cnt_CAt. by apply (s_bridges b S).
Qed.

Lemma cnt_slot_range i d :
  (i < num_islands b)%nat → 0 ≤ cnt b (icn b i d) ≤ MAX_CONNECTION_BRIDGES.
Proof. intros Hi. apply cnt_valid_range. by apply slot_valid. Qed.

Lemma incident_nonneg i : (i < num_islands b)%nat → 0 ≤ incident b i.
Proof.
  intros Hi. unfold incident.
  pose proof (cnt_slot_range i UP Hi). pose proof (cnt_slot_range i LEFT Hi).
  pose proof (cnt_slot_range i RIGHT Hi). pose proof (cnt_slot_range i DOWN Hi). lia.
Qed.

Lemma ipend_range i : (i < num_islands b)%nat → 0 ≤ ipend b i ≤ MAX_EXPECTED_BRIDGES.
Proof.
  intros Hi. pose proof (s_pend b S i Hi). pose proof (s_pend_pos b S i Hi).
  pose proof (incident_nonneg i Hi). pose proof (g_pos b G i Hi). lia.
Qed.
End ranges.

(** * [add_bridge] and [del_bridge] on a connection of the board *)

Section engine.
Context (b : hboard) (G : graph_ok b) (S : state_ok b).
Context (k a c : nat) (d : direction) (Hk : (k < num_connections b)%nat).
Context (E : ends b k a c d).

Lemma add_bridge_CAt :
  add_bridge b (CAt k) =
    Some (if decide (addable b k a c) then (bump b k a c 1, true) else (b, false)).
Proof.
  pose proof E as [Ef Elt Eb Ep1 Ep2 Es1 En1 Es2 En2].
  assert (Ha : (a < num_islands b)%nat) by lia.
  pose proof (s_bridges b S k Hk) as Hbr.
  pose proof (ipend_range b G S a Ha) as Hpa.
  pose proof (ipend_range b G S c Eb) as Hpc.
  unfold MAX_EXPECTED_BRIDGES in *. unfold MAX_CONNECTION_BRIDGES, DIRECTIONS in *.
  pose proof Hk as [y Hy]%connection_lookup.
  destruct (connection_fields b k y Hy) as (Fb & F1 & F2 & Fc).
  unfold add_bridge. simpl get_connection. rewrite Hy. simpl.
  rewrite <- Fb, <- F1, <- F2, <- Fc, Ep1, Ep2.
  unfold addable, MAX_CONNECTION_BRIDGES.
  destruct (Z.leb_spec 2 (cbr b k)) as [H2|H2].
  { rewrite decide_False; [done|]. intros (? & _). lia. }
  rewrite (read_pend_IAt b a Ha). simpl.
  destruct (Z.eqb_spec (ipend b a) 0) as [H3|H3].
  { rewrite decide_False; [done|]. tauto. }
  rewrite (read_pend_IAt b c Eb). simpl.
  destruct (Z.eqb_spec (ipend b c) 0) as [H4|H4].
  { rewrite decide_False; [done|]. tauto. }
  rewrite cross_has_bridges_spec; cycle 1.
  { intros x Hx. destruct (g_cross_sound b G k x Hk Hx) as (k' & ? & ? & _). eauto. }
  simpl. case_bool_decide as H5; simpl.
  - rewrite decide_True by tauto.
    rewrite to_char_id by lia.
    rewrite write_bridges_CAt by done. simpl.
    rewrite read_pend_IAt by done. simpl.
    rewrite ipend_set_cbr, to_char_id by lia.
    rewrite write_pend_IAt by done. simpl.
    rewrite read_pend_IAt by (by rewrite num_islands_set_ipend).
    simpl. rewrite ipend_set_ipend, decide_False by (intros [? _]; lia).
    rewrite ipend_set_cbr, to_char_id by lia.
    rewrite write_pend_IAt by (by rewrite num_islands_set_ipend).
    done.
  - rewrite decide_False; [done|]. tauto.
Qed.

Lemma del_bridge_CAt :
  del_bridge b (CAt k) =
    Some (if decide (cbr b k = 0) then (b, false) else (bump b k a c (-1), true)).
Proof.
  pose proof E as [Ef Elt Eb Ep1 Ep2 Es1 En1 Es2 En2].
  assert (Ha : (a < num_islands b)%nat) by lia.
  pose proof (s_bridges b S k Hk) as Hbr.
  pose proof (ipend_range b G S a Ha) as Hpa.
  pose proof (ipend_range b G S c Eb) as Hpc.
  unfold MAX_EXPECTED_BRIDGES in *. unfold MAX_CONNECTION_BRIDGES, DIRECTIONS in *.
  pose proof Hk as [y Hy]%connection_lookup.
  destruct (connection_fields b k y Hy) as (Fb & F1 & F2 & Fc).
  unfold del_bridge. simpl get_connection. rewrite Hy. simpl.
  rewrite <- Fb, <- F1, <- F2, Ep1, Ep2.
  destruct (Z.eqb_spec (cbr b k) 0) as [H2|H2].
  { by rewrite decide_True. }
  rewrite decide_False by done.
  rewrite to_char_id by lia.
  rewrite write_bridges_CAt by done. simpl.
  rewrite read_pend_IAt by done. simpl.
  rewrite ipend_set_cbr, to_char_id by lia.
  rewrite write_pend_IAt by done. simpl.
  rewrite read_pend_IAt by (by rewrite num_islands_set_ipend).
  simpl. rewrite ipend_set_ipend, decide_False by (intros [? _]; lia).
  rewrite ipend_set_cbr, to_char_id by lia.
  rewrite write_pend_IAt by (by rewrite num_islands_set_ipend).
  done.
Qed.
End engine.

(** The sentinel connection never takes nor gives a bridge. *)
Lemma add_bridge_COut b : graph_ok b → add_bridge b COut = Some (b, false).
Proof.
  intros G. unfold add_bridge. simpl.
  rewrite (g_out_connection b G). simpl.
  unfold read_pend. simpl. by rewrite (g_out_island b G).
Qed.

Lemma del_bridge_COut b : graph_ok b → del_bridge b COut = Some (b, false).
Proof.
  intros G. unfold del_bridge. simpl. by rewrite (g_out_connection b G).
Qed.

(** * The invariants are preserved *)

Lemma xing_irrefl b k : ¬ xing b k k.
Proof.
  intros (a & c & e & f & H1 & H2 & H3 & H4 & ?). rewrite H1 in H3. simplify_eq. lia.
Qed.

Lemma no_self_cross b k :
  graph_ok b → (k < num_connections b)%nat → CAt k ∉ ccross b k.
Proof.
  intros G Hk Hx. destruct (g_cross_sound b G k _ Hk Hx) as (k' & ? & _ & Hc).
  simplify_eq. destruct Hc as [Hc|Hc]; by apply xing_irrefl in Hc.
Qed.

Lemma graph_ok_bump b k a c delta : graph_ok b → graph_ok (bump b k a c delta).
Proof. apply graph_ok_skeleton. by rewrite skeleton_bump. Qed.

Lemma same_static_bump b k a c delta : same_static b (bump b k a c delta).
Proof. apply skeleton_same_static. by rewrite skeleton_bump. Qed.

Lemma incident_bump b k a c delta i :
  (k < num_connections b)%nat →
  incident (bump b k a c delta) i = incident b i + delta * hits b i k.
Proof.
  intros Hk. unfold incident, hits.
  rewrite !(ss_icn _ _ (same_static_bump b k a c delta)).
  rewrite !cnt_bump by done. repeat case_decide; lia.
Qed.

Lemma state_ok_bump_gen b k a c d delta :
  graph_ok b → state_ok b → (k < num_connections b)%nat → ends b k a c d →
  0 ≤ cbr b k + delta ≤ MAX_CONNECTION_BRIDGES →
  0 ≤ ipend b a - delta → 0 ≤ ipend b c - delta →
  (0 < cbr b k + delta → Forall (fun x => cnt b x = 0) (ccross b k)) →
  state_ok (bump b k a c delta).
Proof.
  intros G S Hk E Hrange Hpa Hpc Hfree.
  pose proof E as [Ef Elt Eb Ep1 Ep2 Es1 En1 Es2 En2].
  assert (Ha : (a < num_islands b)%nat) by lia.
  assert (Hne : a ≠ c) by lia.
  pose proof (same_static_bump b k a c delta) as HS.
  pose proof (s_bridges b S k Hk) as Hbr.
  split.
  - intros k'. rewrite (ss_num_connections _ _ HS). intros Hk'.
    rewrite cbr_bump by done. case_decide; [done|by apply (s_bridges b S)].
  - intros i. rewrite (ss_num_islands _ _ HS). intros Hi.
    rewrite ipend_bump, incident_bump, (ss_iexp _ _ HS) by done.
    rewrite (hits_ends b G k a c d i E Hi). pose proof (s_pend b S i Hi).
    case_decide; lia.
  - intros i. rewrite (ss_num_islands _ _ HS). intros Hi.
    rewrite ipend_bump by done. pose proof (s_pend_pos b S i Hi).
    case_decide as Hc; [|done]. destruct Hc; subst; lia.
  - intros k1 k2. rewrite (ss_num_connections _ _ HS), (ss_ccross _ _ HS).
    intros Hk1 Hx. rewrite !cbr_bump by done.
    destruct (cross_members b G k1 _ Hk1 Hx) as (k2' & ? & Hk2 & Hsym). simplify_eq.
    pose proof (s_cross b S k1 k2' Hk1 Hx) as Hold.
    pose proof (s_cross b S k2' k1 Hk2 Hsym) as Hold'.
    pose proof (s_bridges b S k1 Hk1). pose proof (s_bridges b S k2' Hk2).
    destruct (decide (k1 = k)) as [->|Hk1k]; destruct (decide (k2' = k)) as [->|Hk2k];
      intros Hpos.
    + by apply no_self_cross in Hx.
    + apply Hfree in Hpos. rewrite Forall_forall in Hpos.
      apply Hpos in Hx. by rewrite cnt_CAt in Hx.
    + specialize (Hold Hpos).
      destruct (decide (0 < cbr b k + delta)) as [Hp|Hp]; [|lia].
      apply Hfree in Hp. rewrite Forall_forall in Hp.
      apply Hp in Hsym. rewrite cnt_CAt in Hsym. lia.
    + auto.
Qed.

Lemma state_ok_bump b k a c d delta :
  graph_ok b → state_ok b → (k < num_connections b)%nat → ends b k a c d →
  (delta = 1 ∧ addable b k a c) ∨ (delta = -1 ∧ cbr b k ≠ 0) →
  state_ok (bump b k a c delta).
Proof.
  intros G S Hk E Hd.
  pose proof E as [Ef Elt Eb Ep1 Ep2 Es1 En1 Es2 En2].
  assert (Ha : (a < num_islands b)%nat) by lia.
  pose proof (s_bridges b S k Hk) as Hbr.
  pose proof (s_pend_pos b S a Ha). pose proof (s_pend_pos b S c Eb).
  unfold addable in Hd. unfold MAX_CONNECTION_BRIDGES in *.
  apply state_ok_bump_gen with d; try done; unfold MAX_CONNECTION_BRIDGES.
  - lia.
  - lia.
  - lia.
  - intros Hp. destruct Hd as [(_ & _ & _ & _ & Hall)|(-> & Hnz)]; [done|].
    rewrite Forall_forall. intros x Hx.
    destruct (cross_members b G k x Hk Hx) as (k' & -> & Hk' & Hsym).
    rewrite cnt_CAt. apply (s_cross b S k k' Hk Hx). lia.
Qed.

(** * The builder: primitive updates *)

Lemma upd_island_IAt b i f :
  (i < num_islands b)%nat → upd_island b (IAt i) f = Some (alter_island b i f).
Proof.
  intros Hi. pose proof Hi as [x Hx]%island_lookup.
  unfold upd_island, alter_island. simpl. rewrite Hx. simpl.
  rewrite decide_True by done. by erewrite insert_as_alter.
Qed.

Lemma upd_connection_CAt b k f :
  (k < num_connections b)%nat → upd_connection b (CAt k) f = Some (alter_connection b k f).
Proof.
  intros Hk. pose proof Hk as [x Hx]%connection_lookup.
  unfold upd_connection, alter_connection. simpl. rewrite Hx. simpl.
  rewrite decide_True by done. by erewrite insert_as_alter.
Qed.

Lemma from_option_alter {A B} (g : A → B) (dflt : B) (f : A → A) (l : list A) i j :
  from_option g dflt (alter f i l !! j) =
    if decide (i = j) then from_option (g ∘ f) dflt (l !! j) else from_option g dflt (l !! j).
Proof.
  case_decide as H.
  - subst. rewrite list_lookup_alter_eq. by destruct (l !! j).
  - by rewrite list_lookup_alter_ne.
Qed.

Lemma from_option_snoc {A B} (g : A → B) (dflt : B) (l : list A) x j :
  from_option g dflt ((l ++ [x]) !! j) =
    if decide (j = length l) then g x else from_option g dflt (l !! j).
Proof.
  case_decide as H.
  - subst. rewrite lookup_app_r by lia. by rewrite Nat.sub_diag.
  - destruct (decide (j < length l)%nat).
    + by rewrite lookup_app_l.
    + rewrite !lookup_ge_None_2; [done|lia|]. rewrite length_app. simpl. lia.
Qed.

(** ** Accessors after [alter_island] *)

Section alter_island.
Context (b : hboard) (i : nat) (f : hisland → hisland).
Let b' := alter_island b i f.

Lemma num_islands_alter_island : num_islands b' = num_islands b.
Proof. unfold b', num_islands, alter_island. simpl. by rewrite length_alter. Qed.
Lemma num_connections_alter_island : num_connections b' = num_connections b.
Proof. done. Qed.
Lemma cbr_alter_island k : cbr b' k = cbr b k.
Proof. done. Qed.
Lemma cp1_alter_island k : cp1 b' k = cp1 b k.
Proof. done. Qed.
Lemma cp2_alter_island k : cp2 b' k = cp2 b k.
Proof. done. Qed.
Lemma ccross_alter_island k : ccross b' k = ccross b k.
Proof. done. Qed.

Lemma irow_alter_island j : (∀ x, row (f x) = row x) → irow b' j = irow b j.
Proof.
  intros H. unfold b', irow, alter_island. simpl. rewrite from_option_alter.
  case_decide; [|done]. destruct (islands b !! j); simpl; by rewrite ?H.
Qed.
Lemma icol_alter_island j : (∀ x, col (f x) = col x) → icol b' j = icol b j.
Proof.
  intros H. unfold b', icol, alter_island. simpl. rewrite from_option_alter.
  case_decide; [|done]. destruct (islands b !! j); simpl; by rewrite ?H.
Qed.
Lemma iexp_alter_island j :
  (∀ x, expectbridges (f x) = expectbridges x) → iexp b' j = iexp b j.
Proof.
  intros H. unfold b', iexp, alter_island. simpl. rewrite from_option_alter.
  case_decide; [|done]. destruct (islands b !! j); simpl; by rewrite ?H.
Qed.
Lemma ipend_alter_island j :
  (∀ x, pendbridges (f x) = pendbridges x) → ipend b' j = ipend b j.
Proof.
  intros H. unfold b', ipend, alter_island. simpl. rewrite from_option_alter.
  case_decide; [|done]. destruct (islands b !! j); simpl; by rewrite ?H.
Qed.
Lemma inb_alter_island j d :
  (∀ x, i_islands (f x) = i_islands x) → inb b' j d = inb b j d.
Proof.
  intros H. unfold b', inb, alter_island. simpl. rewrite from_option_alter.
  case_decide; [|done]. destruct (islands b !! j); simpl; by rewrite ?H.
Qed.
Lemma icn_alter_island j d :
  (∀ x, i_connections (f x) = i_connections x) → icn b' j d = icn b j d.
Proof.
  intros H. unfold b', icn, alter_island. simpl. rewrite from_option_alter.
  case_decide; [|done]. destruct (islands b !! j); simpl; by rewrite ?H.
Qed.
End alter_island.

Lemma slot_get_set {A} (s : slots A) d d' (v : A) :
  slot_get (slot_set s d v) d' = if decide (d' = d) then v else slot_get s d'.
Proof. by destruct d, d'. Qed.

Lemma inb_set_island_slot b i d v j d' :
  (i < num_islands b)%nat →
  inb (alter_island b i (set_island_slot d v)) j d' =
    if decide (j = i ∧ d' = d) then v else inb b j d'.
Proof.
  intros [x Hx]%island_lookup. unfold inb, alter_island. simpl.
  rewrite from_option_alter. case_decide as H1.
  - subst. rewrite Hx. simpl. rewrite slot_get_set.
    repeat case_decide; try done; naive_solver.
  - rewrite decide_False; [done|]. naive_solver.
Qed.

Lemma icn_set_connection_slot b i d v j d' :
  (i < num_islands b)%nat →
  icn (alter_island b i (set_connection_slot d v)) j d' =
    if decide (j = i ∧ d' = d) then v else icn b j d'.
Proof.
  intros [x Hx]%island_lookup. unfold icn, alter_island. simpl.
  rewrite from_option_alter. case_decide as H1.
  - subst. rewrite Hx. simpl. rewrite slot_get_set.
    repeat case_decide; try done; naive_solver.
  - rewrite decide_False; [done|]. naive_solver.
Qed.

Lemma icn_set_i_connections b i s j d' :
  (i < num_islands b)%nat →
  icn (alter_island b i (set_i_connections s)) j d' =
    if decide (j = i) then slot_get s d' else icn b j d'.
Proof.
  intros [x Hx]%island_lookup. unfold icn, alter_island. simpl.
  rewrite from_option_alter. case_decide as H1.
  - subst. rewrite Hx. simpl. by rewrite decide_True.
  - rewrite decide_False; [done|]. naive_solver.
Qed.

(** ** Accessors after [push_connection] and [alter_connection] *)

Section connections.
Context (b : hboard).

Lemma num_connections_push y :
  num_connections (push_connection b y) = S (num_connections b).
Proof. unfold num_connections, push_connection. simpl. rewrite length_app. simpl. lia. Qed.

Lemma num_connections_alter_connection k f :
  num_connections (alter_connection b k f) = num_connections b.
Proof. unfold num_connections, alter_connection. simpl. by rewrite length_alter. Qed.

Lemma cbr_push y k :
  cbr (push_connection b y) k =
    if decide (k = num_connections b) then bridges y else cbr b k.
Proof. unfold cbr, push_connection. simpl. by rewrite from_option_snoc. Qed.
Lemma cp1_push y k :
  cp1 (push_connection b y) k =
    if decide (k = num_connections b) then ppendbridges1 y else cp1 b k.
Proof. unfold cp1, push_connection. simpl. by rewrite from_option_snoc. Qed.
Lemma cp2_push y k :
  cp2 (push_connection b y) k =
    if decide (k = num_connections b) then ppendbridges2 y else cp2 b k.
Proof. unfold cp2, push_connection. simpl. by rewrite from_option_snoc. Qed.
Lemma ccross_push y k :
  ccross (push_connection b y) k =
    if decide (k = num_connections b) then firstcross y else ccross b k.
Proof. unfold ccross, push_connection. simpl. by rewrite from_option_snoc. Qed.

Lemma cbr_alter_const y k k' :
  (k < num_connections b)%nat →
  cbr (alter_connection b k (fun _ => y)) k' =
    if decide (k' = k) then bridges y else cbr b k'.
Proof.
  intros [x Hx]%connection_lookup. unfold cbr, alter_connection. simpl.
  rewrite from_option_alter. repeat case_decide; subst; try done.
  by rewrite Hx.
Qed.
Lemma cp1_alter_const y k k' :
  (k < num_connections b)%nat →
  cp1 (alter_connection b k (fun _ => y)) k' =
    if decide (k' = k) then ppendbridges1 y else cp1 b k'.
Proof.
  intros [x Hx]%connection_lookup. unfold cp1, alter_connection. simpl.
  rewrite from_option_alter. repeat case_decide; subst; try done.
  by rewrite Hx.
Qed.
Lemma cp2_alter_const y k k' :
  (k < num_connections b)%nat →
  cp2 (alter_connection b k (fun _ => y)) k' =
    if decide (k' = k) then ppendbridges2 y else cp2 b k'.
Proof.
  intros [x Hx]%connection_lookup. unfold cp2, alter_connection. simpl.
  rewrite from_option_alter. repeat case_decide; subst; try done.
  by rewrite Hx.
Qed.
Lemma ccross_alter_const y k k' :
  (k < num_connections b)%nat →
  ccross (alter_connection b k (fun _ => y)) k' =
    if decide (k' = k) then firstcross y else ccross b k'.
Proof.
  intros [x Hx]%connection_lookup. unfold ccross, alter_connection. simpl.
  rewrite from_option_alter. repeat case_decide; subst; try done.
  by rewrite Hx.
Qed.

Lemma cbr_alter_cross t k k' :
  cbr (alter_connection b k (fun c => set_firstcross (t :: firstcross c) c)) k' = cbr b k'.
Proof.
  unfold cbr, alter_connection. simpl. rewrite from_option_alter.
  case_decide; [|done]. by destruct (connections b !! k').
Qed.
Lemma cp1_alter_cross t k k' :
  cp1 (alter_connection b k (fun c => set_firstcross (t :: firstcross c) c)) k' = cp1 b k'.
Proof.
  unfold cp1, alter_connection. simpl. rewrite from_option_alter.
  case_decide; [|done]. by destruct (connections b !! k').
Qed.
Lemma cp2_alter_cross t k k' :
  cp2 (alter_connection b k (fun c => set_firstcross (t :: firstcross c) c)) k' = cp2 b k'.
Proof.
  unfold cp2, alter_connection. simpl. rewrite from_option_alter.
  case_decide; [|done]. by destruct (connections b !! k').
Qed.
Lemma ccross_alter_cross t k k' :
  (k < num_connections b)%nat →
  ccross (alter_connection b k (fun c => set_firstcross (t :: firstcross c) c)) k' =
    if decide (k' = k) then t :: ccross b k' else ccross b k'.
Proof.
  intros [x Hx]%connection_lookup. unfold ccross, alter_connection. simpl.
  rewrite from_option_alter. repeat case_decide; subst; try done.
  by rewrite Hx.
Qed.
End connections.

(** * The builder: [fill_crosses] *)

Lemma cross_extended_refl b : cross_extended b b.
Proof. by split. Qed.

Lemma cross_extended_trans b1 b2 b3 :
  cross_extended b1 b2 → cross_extended b2 b3 → cross_extended b1 b3.
Proof.
  intros [] []. split; intros; congruence.
Qed.

Lemma crossed_at_ext b b' up down c i :
  islands b' = islands b → crossed_at b' up down c i ↔ crossed_at b up down c i.
Proof.
  intros H. unfold crossed_at, irow, icol, inb. by rewrite H.
Qed.

Lemma insert_crosselem_CAt b k t :
  (k < num_connections b)%nat →
  insert_crosselem b (CAt k) t =
    Some (alter_connection b k (fun c => set_firstcross (t :: firstcross c) c)).
Proof. intros Hk. unfold insert_crosselem. by rewrite upd_connection_CAt. Qed.

(** One pair of crossing entries. *)
Lemma cross_pair_extended b kv h :
  cross_extended b
    (alter_connection
       (set_num_crosselems (S (num_crosselems
          (alter_connection (set_num_crosselems (S (num_crosselems b)) b) h
             (fun c => set_firstcross (CAt kv :: firstcross c) c))))
          (alter_connection (set_num_crosselems (S (num_crosselems b)) b) h
             (fun c => set_firstcross (CAt kv :: firstcross c) c)))
       kv (fun c => set_firstcross (CAt h :: firstcross c) c)).
Proof.
  split; try done.
  - rewrite num_connections_alter_connection.
    change (num_connections (alter_connection (set_num_crosselems (S (num_crosselems b)) b) h
             (fun c => set_firstcross (CAt kv :: firstcross c) c)) = num_connections b).
    by rewrite num_connections_alter_connection.
  - intros k. rewrite cbr_alter_cross.
    change (cbr (alter_connection (set_num_crosselems (S (num_crosselems b)) b) h
             (fun c => set_firstcross (CAt kv :: firstcross c) c)) k = cbr b k).
    by rewrite cbr_alter_cross.
  - intros k. rewrite cp1_alter_cross.
    change (cp1 (alter_connection (set_num_crosselems (S (num_crosselems b)) b) h
             (fun c => set_firstcross (CAt kv :: firstcross c) c)) k = cp1 b k).
    by rewrite cp1_alter_cross.
  - intros k. rewrite cp2_alter_cross.
    change (cp2 (alter_connection (set_num_crosselems (S (num_crosselems b)) b) h
             (fun c => set_firstcross (CAt kv :: firstcross c) c)) k = cp2 b k).
    by rewrite cp2_alter_cross.
Qed.

Lemma cross_pair_ccross b kv h k :
  (kv < num_connections b)%nat → (h < num_connections b)%nat →
  ccross
    (alter_connection
       (set_num_crosselems (S (num_crosselems
          (alter_connection (set_num_crosselems (S (num_crosselems b)) b) h
             (fun c => set_firstcross (CAt kv :: firstcross c) c))))
          (alter_connection (set_num_crosselems (S (num_crosselems b)) b) h
             (fun c => set_firstcross (CAt kv :: firstcross c) c)))
       kv (fun c => set_firstcross (CAt h :: firstcross c) c)) k
  = (if decide (k = kv) then [CAt h] else []) ++
    (if decide (k = h) then [CAt kv] else []) ++ ccross b k.
Proof.
  intros Hkv Hh.
  rewrite ccross_alter_cross; cycle 1.
  { change (kv < num_connections (alter_connection (set_num_crosselems (S (num_crosselems b)) b) h
             (fun c => set_firstcross (CAt kv :: firstcross c) c)))%nat.
    by rewrite num_connections_alter_connection. }
  change (ccross (set_num_crosselems ?n ?b') k) with (ccross b' k).
  rewrite ccross_alter_cross by done.
  change (ccross (set_num_crosselems ?n ?b') k) with (ccross b' k).
  by repeat case_decide.
Qed.

Section fill_crosses.
Context (up down : nat) (c : Z) (kv : nat).

Lemma fill_crosses_loop_spec n b island b' :
  (island + n = down)%nat →
  (up < num_islands b)%nat → (down < num_islands b)%nat →
  (kv < num_connections b)%nat →
  (∀ i, (island ≤ i)%nat → (i < down)%nat → walkable up down c b i) →
  fill_crosses_loop n b up down island c (CAt kv) = Some (b', true) →
  cross_extended b b' ∧
  ∀ k x, x ∈ ccross b' k ↔
    x ∈ ccross b k ∨
    (k = kv ∧ ∃ i, (island ≤ i)%nat ∧ (i < down)%nat ∧
                   crossed_at b up down c i ∧ x = icn b i RIGHT) ∨
    (x = CAt kv ∧ ∃ i, (island ≤ i)%nat ∧ (i < down)%nat ∧
                       crossed_at b up down c i ∧ icn b i RIGHT = CAt k).
Proof.
  revert b island. induction n as [|n IH]; intros b island Hn Hup Hdown Hkv Hw.
  - simpl. intros [= <-]. split; [apply cross_extended_refl|].
    intros k x. split; [tauto|]. intros [?|[(_ & i & ? & ? & _)|(_ & i & ? & ? & _)]]; [done|lia..].
  - assert (Hisl : (island < num_islands b)%nat) by lia.
    pose proof Hup as [xu Hxu]%island_lookup.
    pose proof Hdown as [xd Hxd]%island_lookup.
    pose proof Hisl as [xi Hxi]%island_lookup.
    destruct (island_fields b up xu Hxu) as (Ru & _).
    destruct (island_fields b down xd Hxd) as (Rd & _).
    destruct (island_fields b island xi Hxi) as (Ri & Ci & _ & _ & Ni & Si).
    cbn [fill_crosses_loop]. rewrite Hxu, Hxd, Hxi. cbn [mbind option_bind].
    rewrite <- Ru, <- Rd, <- Ri, <- Ci, <- (Ni RIGHT), <- (Si RIGHT).
    (* the continuation when nothing is recorded for this island *)
    assert (Hskip : ¬ crossed_at b up down c island →
      fill_crosses_loop n b up down (S island) c (CAt kv) = Some (b', true) →
      cross_extended b b' ∧
      ∀ k x, x ∈ ccross b' k ↔
        x ∈ ccross b k ∨
        (k = kv ∧ ∃ i, (island ≤ i)%nat ∧ (i < down)%nat ∧
                       crossed_at b up down c i ∧ x = icn b i RIGHT) ∨
        (x = CAt kv ∧ ∃ i, (island ≤ i)%nat ∧ (i < down)%nat ∧
                           crossed_at b up down c i ∧ icn b i RIGHT = CAt k)).
    { intros Hnot Hrun.
      destruct (IH b (S island) ltac:(lia) Hup Hdown Hkv
                  ltac:(intros; apply Hw; lia) Hrun) as [HE HC].
      split; [done|]. intros k x. rewrite HC.
      split; (intros [?|[(? & i & ? & ? & ? & ?)|(? & i & ? & ? & ? & ?)]]; [by left|..]).
      - right; left. split; [done|]. exists i. split_and!; try done; lia.
      - right; right. split; [done|]. exists i. split_and!; try done; lia.
      - right; left. split; [done|]. exists i. split_and!; try done.
        destruct (decide (i = island)); [by subst|lia].
      - right; right. split; [done|]. exists i. split_and!; try done.
        destruct (decide (i = island)); [by subst|lia]. }
    destruct (Hw island ltac:(lia) ltac:(lia)) as [Hr Hq].
    destruct ((irow b up <? irow b island) && (irow b island <? irow b down)
              && (icol b island <? c)) eqn:Hcond; cycle 1.
    { apply Hskip. intros (? & ? & ? & _).
      apply andb_false_iff in Hcond as [Hcond|Hcond];
        [apply andb_false_iff in Hcond as [Hcond|Hcond]|]; lia. }
    apply andb_true_iff in Hcond as [Hcond H3].
    apply andb_true_iff in Hcond as [H1 H2].
    case_decide as Hout.
    { apply Hskip. intros (_ & _ & _ & j & Hj & _). congruence. }
    destruct Hr as [Hr|(j & Hj & Hjn)]; [done|].
    rewrite Hj. simpl. pose proof Hjn as [xj Hxj]%island_lookup.
    rewrite Hxj. simpl.
    destruct (island_fields b j xj Hxj) as (_ & Cj & _). rewrite <- Cj.
    destruct (Z.ltb_spec c (icol b j)) as [H4|H4]; cycle 1.
    { apply Hskip. intros (_ & _ & _ & j' & Hj' & ?).
      assert (j' = j) by congruence. subst. lia. }
    assert (Hc : crossed_at b up down c island).
    { repeat split; try lia. exists j. split; [done|lia]. }
    destruct (Hq Hc) as (h & Hh & Hhm).
    rewrite Hh. unfold next_crosselem at 1.
    case_decide; [done|].
    rewrite insert_crosselem_CAt by done. simpl.
    unfold next_crosselem at 1. case_decide; [done|].
    rewrite insert_crosselem_CAt
      by (unfold num_connections in *; simpl; by rewrite length_alter).
    simpl.
    set (b4 := alter_connection _ kv _).
    assert (HE4 : cross_extended b b4) by apply cross_pair_extended.
    assert (HC4 : ∀ k, ccross b4 k = (if decide (k = kv) then [CAt h] else []) ++
                         (if decide (k = h) then [CAt kv] else []) ++ ccross b k)
      by (intros; by apply cross_pair_ccross).
    intros Hrun.
    assert (HI4 : islands b4 = islands b) by apply (ce_islands _ _ HE4).
    assert (HM4 : num_connections b4 = num_connections b)
      by apply (ce_num_connections _ _ HE4).
    clearbody b4.
    assert (Hn4 : num_islands b4 = num_islands b) by (unfold num_islands; by rewrite HI4).
    destruct (IH b4 (S island) ltac:(lia) ltac:(by rewrite Hn4) ltac:(by rewrite Hn4)
                ltac:(by rewrite HM4)) as [HE HC]; [|done|].
    { intros i ? ?. destruct (Hw i ltac:(lia) ltac:(lia)) as [W1 W2].
      unfold walkable. rewrite crossed_at_ext by done.
      rewrite Hn4, HM4.
      unfold inb, icn in *. rewrite HI4. done. }
    split; [apply (cross_extended_trans b b4 b' HE4 HE)|].
    intros k x. rewrite HC, HC4.
    assert (EQ : ∀ i, icn b4 i RIGHT = icn b i RIGHT)
      by (intros; unfold icn; by rewrite HI4).
    setoid_rewrite EQ. setoid_rewrite (crossed_at_ext b b4); [|done..].
    rewrite !elem_of_app.
    split.
    + intros [[Hx|[Hx|Hx]]|[(? & i & ? & ? & ? & ?)|(? & i & ? & ? & ? & ?)]].
      * case_decide; [|by apply elem_of_nil in Hx].
        apply list_elem_of_singleton in Hx. subst.
        right; left. split; [done|]. exists island. split_and!; try done; lia.
      * case_decide; [|by apply elem_of_nil in Hx].
        apply list_elem_of_singleton in Hx. subst.
        right; right. split; [done|]. exists island. split_and!; try done; lia.
      * by left.
      * right; left. split; [done|]. exists i. split_and!; try done; lia.
      * right; right. split; [done|]. exists i. split_and!; try done; lia.
    + intros [Hx|[(? & i & ? & ? & ? & ?)|(? & i & ? & ? & ? & ?)]].
      * left. by do 2 right.
      * destruct (decide (i = island)) as [->|].
        -- left. left. subst. rewrite decide_True by done. rewrite Hh. by left.
        -- right; left. split; [done|]. exists i. split_and!; try done; lia.
      * destruct (decide (i = island)) as [->|].
        -- left. right. left. assert (k = h) by congruence. subst.
           rewrite decide_True by done. by left.
        -- right; right. split; [done|]. exists i. split_and!; try done; lia.
Qed.
End fill_crosses.

(** * The builder: [find_from_island] *)

Lemma find_up_loop_spec b start index :
  (index ≤ num_islands b)%nat →
  ∃ up, find_up_loop b start index = Some up ∧
    match up with
    | IAt j => (j < index)%nat ∧ icol b j = col start ∧
               ∀ t, (j < t)%nat → (t < index)%nat → icol b t ≠ col start
    | IOut => ∀ t, (t < index)%nat → icol b t ≠ col start
    | INull => False
    end.
Proof.
  induction index as [|index IH]; intros Hi.
  - exists IOut. split; [done|]. intros; lia.
  - assert (Hlt : (index < num_islands b)%nat) by lia.
    pose proof Hlt as [x Hx]%island_lookup.
    destruct (island_fields b index x Hx) as (_ & Cx & _).
    simpl. rewrite Hx. simpl. rewrite <- Cx.
    destruct (Z.eqb_spec (icol b index) (col start)) as [Heq|Hne].
    + exists (IAt index). split; [done|]. split_and!; [lia|done|intros; lia].
    + destruct IH as (up & -> & Hup); [lia|]. exists up. split; [done|].
      destruct up as [| |j]; [done| |].
      * intros t Ht. destruct (decide (t = index)); [by subst|]. apply Hup. lia.
      * destruct Hup as (? & ? & Hup). split_and!; [lia|done|].
        intros t ? Ht. destruct (decide (t = index)); [by subst|]. apply Hup; lia.
Qed.

Lemma find_from_island_LEFT b index :
  (index < num_islands b)%nat →
  find_from_island b index LEFT =
    Some match index with
         | O => IOut
         | S p => if irow b p <? irow b index then IOut else IAt p
         end.
Proof.
  intros Hi. unfold find_from_island. rewrite decide_False by lia.
  pose proof Hi as [x Hx]%island_lookup. rewrite Hx. simpl.
  destruct (island_fields b index x Hx) as (Rx & _).
  destruct index as [|p]; [done|].
  assert (Hp : (p < num_islands b)%nat) by lia.
  pose proof Hp as [y Hy]%island_lookup. rewrite Hy. simpl.
  destruct (island_fields b p y Hy) as (Ry & _). rewrite <- Rx, <- Ry.
  by destruct (irow b p <? irow b (S p)).
Qed.

Lemma find_from_island_UP b index :
  (index < num_islands b)%nat →
  ∃ up, find_from_island b index UP = Some up ∧
    match up with
    | IAt j => (j < index)%nat ∧ icol b j = icol b index ∧
               ∀ t, (j < t)%nat → (t < index)%nat → icol b t ≠ icol b index
    | IOut => ∀ t, (t < index)%nat → icol b t ≠ icol b index
    | INull => False
    end.
Proof.
  intros Hi. unfold find_from_island. rewrite decide_False by lia.
  pose proof Hi as [x Hx]%island_lookup. rewrite Hx. simpl.
  destruct (island_fields b index x Hx) as (_ & Cx & _). rewrite Cx.
  apply find_up_loop_spec. lia.
Qed.

(** * The builder: accessors through the primitive updates *)

Section frames.
Context (b : hboard).

Lemma num_islands_alter_connection k f :
  num_islands (alter_connection b k f) = num_islands b.
Proof. done. Qed.
Lemma irow_alter_connection k f i : irow (alter_connection b k f) i = irow b i.
Proof. done. Qed.
Lemma icol_alter_connection k f i : icol (alter_connection b k f) i = icol b i.
Proof. done. Qed.
Lemma iexp_alter_connection k f i : iexp (alter_connection b k f) i = iexp b i.
Proof. done. Qed.
Lemma ipend_alter_connection k f i : ipend (alter_connection b k f) i = ipend b i.
Proof. done. Qed.
Lemma inb_alter_connection k f i d : inb (alter_connection b k f) i d = inb b i d.
Proof. done. Qed.
Lemma icn_alter_connection k f i d : icn (alter_connection b k f) i d = icn b i d.
Proof. done. Qed.

Lemma num_islands_push_connection y :
  num_islands (push_connection b y) = num_islands b.
Proof. done. Qed.
Lemma irow_push_connection y i : irow (push_connection b y) i = irow b i.
Proof. done. Qed.
Lemma icol_push_connection y i : icol (push_connection b y) i = icol b i.
Proof. done. Qed.
Lemma iexp_push_connection y i : iexp (push_connection b y) i = iexp b i.
Proof. done. Qed.
Lemma ipend_push_connection y i : ipend (push_connection b y) i = ipend b i.
Proof. done. Qed.
Lemma inb_push_connection y i d : inb (push_connection b y) i d = inb b i d.
Proof. done. Qed.
Lemma icn_push_connection y i d : icn (push_connection b y) i d = icn b i d.
Proof. done. Qed.

Lemma num_islands_push x : num_islands (push_island b x) = S (num_islands b).
Proof. unfold num_islands, push_island. simpl. rewrite length_app. simpl. lia. Qed.
Lemma irow_push x i :
  irow (push_island b x) i = if decide (i = num_islands b) then row x else irow b i.
Proof. unfold irow, push_island. simpl. by rewrite from_option_snoc. Qed.
Lemma icol_push x i :
  icol (push_island b x) i = if decide (i = num_islands b) then col x else icol b i.
Proof. unfold icol, push_island. simpl. by rewrite from_option_snoc. Qed.
Lemma iexp_push x i :
  iexp (push_island b x) i =
    if decide (i = num_islands b) then expectbridges x else iexp b i.
Proof. unfold iexp, push_island. simpl. by rewrite from_option_snoc. Qed.
Lemma ipend_push x i :
  ipend (push_island b x) i =
    if decide (i = num_islands b) then pendbridges x else ipend b i.
Proof. unfold ipend, push_island. simpl. by rewrite from_option_snoc. Qed.
Lemma inb_push x i d :
  inb (push_island b x) i d =
    if decide (i = num_islands b) then slot_get (i_islands x) d else inb b i d.
Proof. unfold inb, push_island. simpl. by rewrite from_option_snoc. Qed.
Lemma icn_push x i d :
  icn (push_island b x) i d =
    if decide (i = num_islands b) then slot_get (i_connections x) d else icn b i d.
Proof. unfold icn, push_island. simpl. by rewrite from_option_snoc. Qed.

(** The first assignments of [add_island] to the new slot. *)
Lemma alter_pushed x f :
  alter_island (push_island b x) (num_islands b) f = push_island b (f x).
Proof.
  unfold alter_island, push_island, num_islands, set_islands. simpl. f_equal.
  rewrite alter_app_r_alt by lia. by rewrite Nat.sub_diag.
Qed.
End frames.

(** Scalar fields of the board do not show in the accessors. *)
Lemma num_islands_set_rows b v : num_islands (set_rows v b) = num_islands b.
Proof. done. Qed.
Lemma num_connections_set_rows b v : num_connections (set_rows v b) = num_connections b.
Proof. done. Qed.
Lemma irow_set_rows b v i : irow (set_rows v b) i = irow b i.
Proof. done. Qed.
Lemma icol_set_rows b v i : icol (set_rows v b) i = icol b i.
Proof. done. Qed.
Lemma iexp_set_rows b v i : iexp (set_rows v b) i = iexp b i.
Proof. done. Qed.
Lemma ipend_set_rows b v i : ipend (set_rows v b) i = ipend b i.
Proof. done. Qed.
Lemma inb_set_rows b v i d : inb (set_rows v b) i d = inb b i d.
Proof. done. Qed.
Lemma icn_set_rows b v i d : icn (set_rows v b) i d = icn b i d.
Proof. done. Qed.
Lemma cbr_set_rows b v k : cbr (set_rows v b) k = cbr b k.
Proof. done. Qed.
Lemma cp1_set_rows b v k : cp1 (set_rows v b) k = cp1 b k.
Proof. done. Qed.
Lemma cp2_set_rows b v k : cp2 (set_rows v b) k = cp2 b k.
Proof. done. Qed.
Lemma ccross_set_rows b v k : ccross (set_rows v b) k = ccross b k.
Proof. done. Qed.
Lemma num_islands_set_cols b v : num_islands (set_cols v b) = num_islands b.
Proof. done. Qed.
Lemma num_connections_set_cols b v : num_connections (set_cols v b) = num_connections b.
Proof. done. Qed.
Lemma irow_set_cols b v i : irow (set_cols v b) i = irow b i.
Proof. done. Qed.
Lemma icol_set_cols b v i : icol (set_cols v b) i = icol b i.
Proof. done. Qed.
Lemma iexp_set_cols b v i : iexp (set_cols v b) i = iexp b i.
Proof. done. Qed.
Lemma ipend_set_cols b v i : ipend (set_cols v b) i = ipend b i.
Proof. done. Qed.
Lemma inb_set_cols b v i d : inb (set_cols v b) i d = inb b i d.
Proof. done. Qed.
Lemma icn_set_cols b v i d : icn (set_cols v b) i d = icn b i d.
Proof. done. Qed.
Lemma cbr_set_cols b v k : cbr (set_cols v b) k = cbr b k.
Proof. done. Qed.
Lemma cp1_set_cols b v k : cp1 (set_cols v b) k = cp1 b k.
Proof. done. Qed.
Lemma cp2_set_cols b v k : cp2 (set_cols v b) k = cp2 b k.
Proof. done. Qed.
Lemma ccross_set_cols b v k : ccross (set_cols v b) k = ccross b k.
Proof. done. Qed.
Lemma num_islands_set_max_bridges b v : num_islands (set_max_bridges v b) = num_islands b.
Proof. done. Qed.
Lemma num_connections_set_max_bridges b v : num_connections (set_max_bridges v b) = num_connections b.
Proof. done. Qed.
Lemma irow_set_max_bridges b v i : irow (set_max_bridges v b) i = irow b i.
Proof. done. Qed.
Lemma icol_set_max_bridges b v i : icol (set_max_bridges v b) i = icol b i.
Proof. done. Qed.
Lemma iexp_set_max_bridges b v i : iexp (set_max_bridges v b) i = iexp b i.
Proof. done. Qed.
Lemma ipend_set_max_bridges b v i : ipend (set_max_bridges v b) i = ipend b i.
Proof. done. Qed.
Lemma inb_set_max_bridges b v i d : inb (set_max_bridges v b) i d = inb b i d.
Proof. done. Qed.
Lemma icn_set_max_bridges b v i d : icn (set_max_bridges v b) i d = icn b i d.
Proof. done. Qed.
Lemma cbr_set_max_bridges b v k : cbr (set_max_bridges v b) k = cbr b k.
Proof. done. Qed.
Lemma cp1_set_max_bridges b v k : cp1 (set_max_bridges v b) k = cp1 b k.
Proof. done. Qed.
Lemma cp2_set_max_bridges b v k : cp2 (set_max_bridges v b) k = cp2 b k.
Proof. done. Qed.
Lemma ccross_set_max_bridges b v k : ccross (set_max_bridges v b) k = ccross b k.
Proof. done. Qed.
Lemma num_islands_set_num_crosselems b v : num_islands (set_num_crosselems v b) = num_islands b.
Proof. done. Qed.
Lemma num_connections_set_num_crosselems b v : num_connections (set_num_crosselems v b) = num_connections b.
Proof. done. Qed.
Lemma irow_set_num_crosselems b v i : irow (set_num_crosselems v b) i = irow b i.
Proof. done. Qed.
Lemma icol_set_num_crosselems b v i : icol (set_num_crosselems v b) i = icol b i.
Proof. done. Qed.
Lemma iexp_set_num_crosselems b v i : iexp (set_num_crosselems v b) i = iexp b i.
Proof. done. Qed.
Lemma ipend_set_num_crosselems b v i : ipend (set_num_crosselems v b) i = ipend b i.
Proof. done. Qed.
Lemma inb_set_num_crosselems b v i d : inb (set_num_crosselems v b) i d = inb b i d.
Proof. done. Qed.
Lemma icn_set_num_crosselems b v i d : icn (set_num_crosselems v b) i d = icn b i d.
Proof. done. Qed.
Lemma cbr_set_num_crosselems b v k : cbr (set_num_crosselems v b) k = cbr b k.
Proof. done. Qed.
Lemma cp1_set_num_crosselems b v k : cp1 (set_num_crosselems v b) k = cp1 b k.
Proof. done. Qed.
Lemma cp2_set_num_crosselems b v k : cp2 (set_num_crosselems v b) k = cp2 b k.
Proof. done. Qed.
Lemma ccross_set_num_crosselems b v k : ccross (set_num_crosselems v b) k = ccross b k.
Proof. done. Qed.

Create Rewrite HintDb board.

#[export] Hint Rewrite
  num_islands_alter_island num_connections_alter_island cbr_alter_island
  cp1_alter_island cp2_alter_island ccross_alter_island
  num_islands_alter_connection irow_alter_connection icol_alter_connection
  iexp_alter_connection ipend_alter_connection inb_alter_connection icn_alter_connection
  num_islands_push_connection irow_push_connection icol_push_connection
  iexp_push_connection ipend_push_connection inb_push_connection icn_push_connection
  num_islands_push irow_push icol_push iexp_push ipend_push inb_push icn_push
  num_connections_push num_connections_alter_connection
  cbr_push cp1_push cp2_push ccross_push
  num_islands_set_rows
  num_connections_set_rows
  irow_set_rows
  icol_set_rows
  iexp_set_rows
  ipend_set_rows
  inb_set_rows
  icn_set_rows
  cbr_set_rows
  cp1_set_rows
  cp2_set_rows
  ccross_set_rows
  num_islands_set_cols
  num_connections_set_cols
  irow_set_cols
  icol_set_cols
  iexp_set_cols
  ipend_set_cols
  inb_set_cols
  icn_set_cols
  cbr_set_cols
  cp1_set_cols
  cp2_set_cols
  ccross_set_cols
  num_islands_set_max_bridges
  num_connections_set_max_bridges
  irow_set_max_bridges
  icol_set_max_bridges
  iexp_set_max_bridges
  ipend_set_max_bridges
  inb_set_max_bridges
  icn_set_max_bridges
  cbr_set_max_bridges
  cp1_set_max_bridges
  cp2_set_max_bridges
  ccross_set_max_bridges
  num_islands_set_num_crosselems
  num_connections_set_num_crosselems
  irow_set_num_crosselems
  icol_set_num_crosselems
  iexp_set_num_crosselems
  ipend_set_num_crosselems
  inb_set_num_crosselems
  icn_set_num_crosselems
  cbr_set_num_crosselems
  cp1_set_num_crosselems
  cp2_set_num_crosselems
  ccross_set_num_crosselems : board.

#[export] Hint Rewrite irow_alter_island icol_alter_island iexp_alter_island
  ipend_alter_island using done : board.

#[export] Hint Rewrite inb_alter_island icn_alter_island using done : board.

#[export] Hint Rewrite inb_set_island_slot icn_set_connection_slot icn_set_i_connections
  using (autorewrite with board; lia) : board.

#[export] Hint Rewrite cbr_alter_const cp1_alter_const cp2_alter_const ccross_alter_const
  using (autorewrite with board; lia) : board.

Lemma num_connections_push_island b x :
  num_connections (push_island b x) = num_connections b.
Proof. done. Qed.
Lemma cbr_push_island b x k : cbr (push_island b x) k = cbr b k.
Proof. done. Qed.
Lemma cp1_push_island b x k : cp1 (push_island b x) k = cp1 b k.
Proof. done. Qed.
Lemma cp2_push_island b x k : cp2 (push_island b x) k = cp2 b k.
Proof. done. Qed.
Lemma ccross_push_island b x k : ccross (push_island b x) k = ccross b k.
Proof. done. Qed.

#[export] Hint Rewrite num_connections_push_island cbr_push_island cp1_push_island
  cp2_push_island ccross_push_island : board.

Lemma cbr_ge b k : (num_connections b ≤ k)%nat → cbr b k = 0.
Proof. intros H. unfold cbr. by rewrite lookup_ge_None_2. Qed.
Lemma cp1_ge b k : (num_connections b ≤ k)%nat → cp1 b k = INull.
Proof. intros H. unfold cp1. by rewrite lookup_ge_None_2. Qed.
Lemma cp2_ge b k : (num_connections b ≤ k)%nat → cp2 b k = INull.
Proof. intros H. unfold cp2. by rewrite lookup_ge_None_2. Qed.
Lemma ccross_ge b k : (num_connections b ≤ k)%nat → ccross b k = [].
Proof. intros H. unfold ccross. by rewrite lookup_ge_None_2. Qed.

(** * The builder: [fill_connections] and [add_island] *)

Lemma set_rows_if b r :
  (if rows b <=? r then set_rows (r + 1) b else b)
  = set_rows (if rows b <=? r then r + 1 else rows b) b.
Proof. destruct (rows b <=? r); by destruct b. Qed.

Lemma set_cols_if b c :
  (if cols b <=? c then set_cols (c + 1) b else b)
  = set_cols (if cols b <=? c then c + 1 else cols b) b.
Proof. destruct (cols b <=? c); by destruct b. Qed.

Lemma add_island_start b r c e b' :
  add_island b r c e = Some (b', true) →
  (0 ≤ r < CHAR_MAX ∧ 0 ≤ c < CHAR_MAX ∧ 1 ≤ e ≤ MAX_EXPECTED_BRIDGES) ∧
  (∀ p, num_islands b = S p → irow b p < r ∨ (irow b p = r ∧ icol b p < c)) ∧
  ∃ b1,
    fill_connections
      (set_cols (if cols b <=? c then c + 1 else cols b)
         (set_rows (if rows b <=? r then r + 1 else rows b)
            (push_island b (HIsland e e r c (slot_all INull) (slot_all CNull)))))
    = Some (b1, true) ∧
    b' = set_max_bridges (max_bridges b1 + e) b1.
Proof.
  unfold add_island.
  destruct (Z.ltb_spec r 0); [done|]. destruct (Z.ltb_spec c 0); [done|]. simpl.
  destruct (Z.leb_spec CHAR_MAX r); [done|]. destruct (Z.leb_spec CHAR_MAX c); [done|].
  intros Hrun.
  assert (Hord : ∀ p, num_islands b = S p → irow b p < r ∨ (irow b p = r ∧ icol b p < c)).
  { intros p Hp. rewrite Hp in Hrun.
    assert (Hlt : (p < num_islands b)%nat) by lia.
    pose proof Hlt as [x Hx]%island_lookup. rewrite Hx in Hrun. simpl in Hrun.
    destruct (island_fields b p x Hx) as (-> & -> & _).
    destruct (Z.ltb_spec r (row x)); [done|]. simpl in Hrun.
    destruct (Z.eqb_spec r (row x)); simpl in Hrun; [|lia].
    destruct (Z.leb_spec c (col x)); [done|]. lia. }
  assert (H' : (if (e <? 1) || (MAX_EXPECTED_BRIDGES <? e) then Some (b, false)
       else
        match next_island b with
        | (Some i, b0) =>
            upd_island b0 (IAt i)
              (λ x : hisland,
                 {|
                   pendbridges := to_char e;
                   expectbridges := to_char e;
                   row := to_char r;
                   col := to_char c;
                   i_islands := i_islands x;
                   i_connections := i_connections x
                 |})
            ≫= λ b1 : hboard,
                 let b2 := if rows b1 <=? r then set_rows (r + 1) b1 else b1 in
                 let b3 := if cols b2 <=? c then set_cols (c + 1) b2 else b2 in
                 fill_connections b3
                 ≫= λ '(b4, ok),
                      if negb ok
                      then Some (b4, false)
                      else int_add (max_bridges b4) e
                           ≫= λ m : Z, Some (set_max_bridges m b4, true)
        | (None, b0) => Some (b0, false)
        end) = Some (b', true)).
  { destruct (num_islands b) as [|p] eqn:Hn; [done|].
    assert (Hlt : (p < num_islands b)%nat) by lia.
    pose proof Hlt as [x Hx]%island_lookup. rewrite Hx in Hrun. simpl in Hrun.
    destruct ((r <? row x) || (r =? row x) && (c <=? col x)); done. }
  clear Hrun.
  destruct (Z.ltb_spec e 1); [done|]. destruct (Z.ltb_spec MAX_EXPECTED_BRIDGES e); [done|].
  simpl in H'. unfold next_island in H'. case_decide; [done|].
  fold (push_island b blank_island) in H'.
  rewrite upd_island_IAt in H' by (rewrite num_islands_push; lia).
  rewrite alter_pushed in H'. cbn [mbind option_bind] in H'. cbv zeta in H'.
  unfold CHAR_MAX, MAX_EXPECTED_BRIDGES, MAX_CONNECTION_BRIDGES, DIRECTIONS in *.
  rewrite !to_char_id in H' by lia.
  rewrite set_rows_if, set_cols_if in H'.
  change (rows (push_island b ?x)) with (rows b) in H'.
  change (cols (set_rows ?v (push_island b ?x))) with (cols b) in H'.
  split; [lia|]. split; [done|].
  destruct (fill_connections _) as [[b1 ok]|] eqn:Hf; [|done].
  simpl in H'. destruct ok; [|done]. simpl in H'.
  unfold int_add in H'.
  destruct ((INT_MIN <=? max_bridges b1 + e) && (max_bridges b1 + e <=? INT_MAX));
    [|done].
  simpl in H'. simplify_eq.
  by exists b1.
Qed.

(** Closes a goal on nested case distinctions over indices and directions. *)
(** Decides, one by one, the case distinctions of the goal. *)
Ltac dec_pos := split_and?; first [ lia | done | congruence ].
Ltac dec_neg :=
  let H := fresh in
  intros H; destruct_and?; simplify_eq; first [ lia | done | congruence ].
Ltac solve_dec :=
  unfold up_index, left_index in *;
  repeat match goal with
    | |- context [decide ?P] =>
        first [ rewrite (decide_True (P := P)) by dec_pos
              | rewrite (decide_False (P := P)) by dec_neg ]
    end.

(** Case distinction on an index against the known ones: the islands [n],
    [p] and [u] for an island index, the connections [m] and [S m] for a
    connection index. *)
Ltac split_index i n p u m :=
  lazymatch goal with
  | |- context [cbr _ i] =>
      destruct (decide (i = m)) as [->|]; [|destruct (decide (i = S m)) as [->|]]
  | |- context [cp1 _ i] =>
      destruct (decide (i = m)) as [->|]; [|destruct (decide (i = S m)) as [->|]]
  | |- context [cp2 _ i] =>
      destruct (decide (i = m)) as [->|]; [|destruct (decide (i = S m)) as [->|]]
  | |- context [ccross _ i] =>
      destruct (decide (i = m)) as [->|]; [|destruct (decide (i = S m)) as [->|]]
  | |- _ =>
      destruct (decide (i = n)) as [->|];
      [|destruct (decide (i = p)) as [->|]; [|destruct (decide (i = u)) as [->|]]]
  end.

Ltac core_field n p u m :=
  intros; autorewrite with board;
  try match goal with i : nat |- _ => split_index i n p u m end;
  try match goal with d : direction |- _ => destruct d end;
  solve_dec; rewrite ?cbr_ge, ?cp1_ge, ?cp2_ge, ?ccross_ge by lia; try done.

Ltac upd_islands :=
  repeat (rewrite upd_island_IAt by (autorewrite with board; lia);
          cbn [mbind option_bind]).

Lemma cross_extended_accessors b b' :
  cross_extended b b' →
  num_islands b' = num_islands b ∧
  (∀ i, irow b' i = irow b i) ∧ (∀ i, icol b' i = icol b i) ∧
  (∀ i, iexp b' i = iexp b i) ∧ (∀ i, ipend b' i = ipend b i) ∧
  (∀ i d, inb b' i d = inb b i d) ∧ (∀ i d, icn b' i d = icn b i d).
Proof.
  intros E. pose proof (ce_islands _ _ E) as H.
  unfold num_islands, irow, icol, iexp, ipend, inb, icn. rewrite H. done.
Qed.

Lemma added_core_cross_extended b r c e left up b1 b2 v :
  added_core b r c e left up b1 → cross_extended b1 b2 →
  added_core b r c e left up (set_max_bridges v b2).
Proof.
  intros A E. destruct (cross_extended_accessors _ _ E) as (En & Er & Ec & Ee & Ep & Eb & Es).
  destruct A as [ad_range ad_order ad_left ad_up ad_num_islands ad_rows ad_cols
    ad_out_island ad_out_connection ad_max_visited_size ad_visitedmatrix ad_irow ad_icol
    ad_iexp ad_ipend ad_inb ad_icn ad_num_connections ad_cbr ad_cp1 ad_cp2].
  destruct E as [ce_islands ce_rows ce_cols ce_out_island ce_out_connection
    ce_max_visited_size ce_visitedlimit ce_visitedmatrix ce_num_connections ce_cbr
    ce_cp1 ce_cp2].
  split; try done; intros; autorewrite with board;
    rewrite ?En, ?Er, ?Ec, ?Ee, ?Ep, ?Eb, ?Es, ?ce_cbr, ?ce_cp1, ?ce_cp2,
      ?ce_num_connections; try done.
  - change (rows b2 = if rows b <=? r then r + 1 else rows b). congruence.
  - change (cols b2 = if cols b <=? c then c + 1 else cols b). congruence.
  - change (out_island_st b2 = out_island_st b). congruence.
  - change (out_connection_st b2 = out_connection_st b). congruence.
  - change (max_visited_size b2 = max_visited_size b). congruence.
  - change (visitedmatrix b2 = visitedmatrix b). congruence.
Qed.

Lemma fill_crosses_added b r c e left u b1 b2 v :
  graph_ok b →
  added_core b r c e left (IAt u) b1 →
  (∀ k, ccross b1 k = ccross b k) →
  fill_crosses b1 u (num_islands b) = Some (b2, true) →
  added b r c e left (IAt u) (set_max_bridges v b2).
Proof.
  intros G A Hcc.
  pose proof A as [_ _ Aleft Aup An _ _ _ _ _ _ Arow Acol _ _ Anb Acn Am _ _ _].
  set (n := num_islands b) in *.
  destruct Aup as (Hun & Hcu & Hlast).
  assert (Hu1 : (u < num_islands b1)%nat) by lia.
  pose proof Hu1 as [xu Hxu]%island_lookup.
  destruct (island_fields b1 u xu Hxu) as (_ & Cu & _ & _ & _ & Su).
  unfold fill_crosses. rewrite Hxu. cbn [mbind option_bind].
  rewrite decide_True by done. rewrite <- Cu, <- (Su DOWN).
  rewrite Acol, decide_False, Hcu by lia.
  rewrite Acn, decide_False by lia.
  rewrite (decide_False (P := left = IAt u ∧ DOWN = RIGHT)) by (by intros [_ ?]).
  rewrite decide_True by done.
  set (kv := up_index b left).
  assert (Hm1 : num_connections b1 = S kv) by (by rewrite Am, decide_False).
  intros Hrun.
  apply (fill_crosses_loop_spec u n c kv) in Hrun; [|lia..|].
  - destruct Hrun as [E HC].
    split; [by eapply added_core_cross_extended|].
    destruct (cross_extended_accessors _ _ E) as (_ & _ & _ & _ & _ & _ & Es).
    intros k x. autorewrite with board. rewrite HC, Hcc.
    assert (EQ : ∀ i, icn (set_max_bridges v b2) i RIGHT = icn b1 i RIGHT)
      by (intros; autorewrite with board; apply Es).
    setoid_rewrite EQ.
    setoid_rewrite (crossed_at_ext b1 (set_max_bridges v b2));
      [|apply (ce_islands _ _ E)..].
    split.
    + intros [?|[(? & i & ? & ? & ? & ?)|(? & i & ? & ? & ? & ?)]]; [by left|..].
      * right; left. exists u, i. split_and!; try done; lia.
      * right; right. exists u, i. split_and!; try done; lia.
    + intros [?|[(u' & i & ? & ? & ? & ? & ? & ?)|(u' & i & ? & ? & ? & ? & ? & ?)]];
        [by left|..]; simplify_eq.
      * right; left. split; [done|]. exists i. split_and!; try done; lia.
      * right; right. split; [done|]. exists i. split_and!; try done; lia.
  - intros i Hi1 Hi2. split.
    + rewrite Anb, decide_False by lia.
      rewrite !(decide_False (P := IAt u = IAt i ∧ RIGHT = DOWN)) by (by intros [_ ?]).
      destruct (decide (left = IAt i ∧ RIGHT = RIGHT)).
      { right. exists n. split; [done|lia]. }
      rewrite (g_right b G i) by done. fold n.
      destruct (decide ((S i < n)%nat ∧ irow b (S i) = irow b i)); [right|by left].
      exists (S i). split; [done|lia].
    + intros (_ & _ & _ & j & Hj & _). revert Hj.
      rewrite Anb, Acn. destruct (decide (i = n)); [lia|].
      destruct (decide (left = IAt i ∧ RIGHT = RIGHT)) as [Hl|Hl].
      { intros _. exists (left_index b). split; [done|]. rewrite Hm1.
        unfold kv, up_index, left_index. destruct Hl as [-> _]. rewrite decide_False by done.
        lia. }
      rewrite !(decide_False (P := IAt u = IAt i ∧ RIGHT = DOWN)) by (by intros [_ ?]).
      intros Hj. pose proof (g_slot b G i RIGHT ltac:(done)) as Hs.
      destruct (icn b i RIGHT) as [| |h]; [done|congruence|].
      exists h. split; [done|]. destruct Hs as (? & _). rewrite Hm1.
      subst kv. unfold up_index. destruct (decide (left = IOut)); lia.
Qed.

Lemma fill_connections_added b r c e b2 :
  graph_ok b →
  (0 ≤ r < CHAR_MAX ∧ 0 ≤ c < CHAR_MAX ∧ 1 ≤ e ≤ MAX_EXPECTED_BRIDGES) →
  (∀ p, num_islands b = S p → irow b p < r ∨ (irow b p = r ∧ icol b p < c)) →
  fill_connections
    (set_cols (if cols b <=? c then c + 1 else cols b)
       (set_rows (if rows b <=? r then r + 1 else rows b)
          (push_island b (HIsland e e r c (slot_all INull) (slot_all CNull)))))
  = Some (b2, true) →
  ∃ left up, added b r c e left up (set_max_bridges (max_bridges b2 + e) b2).
Proof.
  intros G Hrange Hord.
  set (x := HIsland e e r c (slot_all INull) (slot_all CNull)).
  set (b1 := set_cols _ _).
  assert (Hn1 : num_islands b1 = S (num_islands b)) by (unfold b1; by autorewrite with board).
  unfold fill_connections. rewrite Hn1.
  set (n := num_islands b) in *.
  upd_islands.
  rewrite find_from_island_LEFT by (autorewrite with board; lia).
  cbn [mbind option_bind].
  set (left := match n with O => IOut | S p => _ end).
  assert (Hleft : left = match n with
                         | O => IOut
                         | S p => if decide (irow b p = r) then IAt p else IOut
                         end).
  { unfold left. destruct n as [|p] eqn:Hn; [done|].
    unfold b1. autorewrite with board. fold n. rewrite Hn.
    rewrite decide_False, decide_True by lia. simpl.
    specialize (Hord p eq_refl).
    destruct (Z.ltb_spec (irow b p) r); case_decide; try done; lia. }
  clearbody left.
  upd_islands.
  set (B := alter_island _ n (set_island_slot LEFT left)).
  assert (HcB : ∀ t, icol B t = if decide (t = n) then c else icol b t).
  { intros. unfold B, b1. autorewrite with board. by fold n. }
  destruct (find_from_island_UP B n) as (up & -> & Hup).
  { unfold B. autorewrite with board. lia. }
  cbn [mbind option_bind].
  assert (Hup' : match up with
          | IAt j => (j < n)%nat ∧ icol b j = c ∧
                     ∀ t, (j < t)%nat → (t < n)%nat → icol b t ≠ c
          | IOut => ∀ t, (t < n)%nat → icol b t ≠ c
          | INull => False
          end).
  { rewrite (HcB n), decide_True in Hup by done.
    destruct up as [| |j]; [done| |].
    - intros t Ht. specialize (Hup t Ht). rewrite HcB, decide_False in Hup by lia. done.
    - destruct Hup as (? & Hc & Hup). rewrite HcB, decide_False in Hc by lia.
      split_and!; [done..|]. intros t ? Ht. specialize (Hup t ltac:(done) Ht).
      rewrite HcB, decide_False in Hup by lia. done. }
  clear Hup HcB. subst B.
  upd_islands.
  set (B0 := alter_island _ n (set_i_connections (slot_all COut))).
  assert (HB0n : num_islands B0 = S n) by (unfold B0; by autorewrite with board).
  assert (HB0m : num_connections B0 = num_connections b)
    by (unfold B0, b1; by autorewrite with board).
  assert (Hleftn : match left with IAt p => n = S p | IOut => True | INull => False end).
  { rewrite Hleft. destruct n; [done|]. by case_decide. }
  destruct left as [| |p]; [done| |].
  - (* no left neighbour *)
    rewrite decide_True by done. cbn [mbind option_bind negb].
    destruct up as [| |u]; [done| |].
    + (* no up neighbour *)
      rewrite decide_True by done. intros [= <-].
      exists IOut, IOut. set (m := num_connections b). split.
      * unfold B0, b1. subst x. split; first [ exact Hrange | exact Hord | exact Hleft | exact Hup' | core_field n n n m ].
      * intros k y. unfold B0, b1. autorewrite with board.
        split; [by left|]. by intros [?|[(? & ? & ? & _)|(? & ? & ? & _)]].
    + (* an up neighbour *)
      rewrite decide_False by done.
      unfold next_connection. case_decide; [done|].
      fold (push_connection B0 blank_connection).
      rewrite upd_connection_CAt by (autorewrite with board; lia).
      cbn [mbind option_bind]. upd_islands.
      set (BU := alter_island _ u (set_island_slot DOWN (IAt n))).
      assert (HBU : added_core b r c e IOut (IAt u) BU).
      { unfold BU. rewrite HB0m. unfold B0, b1. subst x.
        set (m := num_connections b).
        split; first [ exact Hrange | exact Hord | exact Hleft | exact Hup' | core_field n u u m ]. }
      intros Hrun. exists IOut, (IAt u).
      apply (fill_crosses_added b r c e IOut u BU b2); try done.
      unfold BU. rewrite HB0m. unfold B0, b1.
      set (m := num_connections b). core_field m m m m.
  - (* a left neighbour *)
    rewrite decide_False by done.
    destruct (next_connection B0) as [o BL0] eqn:Hnc.
    unfold next_connection in Hnc.
    case_decide; injection Hnc as <- <-; [by cbn [mbind option_bind negb]|].
    change (set_connections _ B0) with (push_connection B0 blank_connection).
    rewrite upd_connection_CAt by (autorewrite with board; lia).
    cbn [mbind option_bind]. upd_islands. cbn [negb].
    set (BL := alter_island _ p (set_island_slot RIGHT (IAt n))).
    assert (HBLm : num_connections BL = S (num_connections b)).
    { unfold BL. autorewrite with board. by rewrite HB0m. }
    assert (HBLn : num_islands BL = S n).
    { unfold BL. autorewrite with board. by rewrite HB0n. }
    destruct up as [| |u]; [done| |].
    + (* no up neighbour *)
      rewrite decide_True by done. intros [= <-].
      exists (IAt p), IOut. split.
      * unfold BL. rewrite HB0m. unfold B0, b1. subst x.
        set (m := num_connections b).
        split; first [ exact Hrange | exact Hord | exact Hleft | exact Hup' | core_field n p p m ].
      * intros k y. unfold BL. rewrite HB0m. unfold B0, b1.
        set (m := num_connections b). autorewrite with board.
        split.
        -- intros Hy. left. revert Hy.
           destruct (decide (k = m)) as [->|]; solve_dec; [|done].
           by rewrite ccross_ge by lia.
        -- intros [Hy|[(? & ? & ? & _)|(? & ? & ? & _)]]; [|done..].
           revert Hy.
           destruct (decide (k = m)) as [->|]; solve_dec; [|done].
           by rewrite ccross_ge by lia.
    + (* an up neighbour *)
      rewrite decide_False by done.
      unfold next_connection. case_decide; [done|].
      fold (push_connection BL blank_connection).
      rewrite upd_connection_CAt by (autorewrite with board; lia).
      cbn [mbind option_bind].
      repeat (rewrite upd_island_IAt by (autorewrite with board; rewrite ?HBLn; lia);
              cbn [mbind option_bind]).
      set (BU := alter_island _ u (set_island_slot DOWN (IAt n))).
      assert (HBU : added_core b r c e (IAt p) (IAt u) BU).
      { unfold BU. rewrite HBLm. unfold BL. rewrite HB0m. unfold B0, b1. subst x.
        set (m := num_connections b).
        destruct (decide (u = p)) as [->|];
          [ split; first [ exact Hrange | exact Hord | exact Hleft | exact Hup'
                         | core_field n p p m ]
          | split; first [ exact Hrange | exact Hord | exact Hleft | exact Hup'
                         | core_field n p u m ] ]. }
      intros Hrun. exists (IAt p), (IAt u).
      apply (fill_crosses_added b r c e (IAt p) u BU b2); try done.
      unfold BU. rewrite HBLm. unfold BL. rewrite HB0m. unfold B0, b1.
      set (m := num_connections b). core_field m m m m.
Qed.

(** * The builder preserves the graph invariant *)

(** Case distinction on every test of the goal. *)
Ltac goal_decides :=
  repeat match goal with
    | |- context [decide ?P] => destruct (decide P)
    | H : context [decide ?P] |- _ => destruct (decide P)
    end.

Ltac inject_refs :=
  repeat match goal with
    | H : IAt _ = IAt _ |- _ => injection H as H
    | H : CAt _ = CAt _ |- _ => injection H as H
    | H : _ ∧ _ |- _ => destruct H
    | H : ¬ (_ ∧ _) |- _ => apply not_and_l in H as [H|H]
    end.

Ltac crush :=
  goal_decides; inject_refs; split_and?;
  try done; try lia; try congruence; try (f_equal; lia).

Section add_island_ok.
Context (b b' : hboard) (r c e : Z) (left up : iref).
Context (G : graph_ok b) (A : added b r c e left up b').

Let n := num_islands b.
Let m := num_connections b.

Lemma added_sorted_new i :
  (i < n)%nat → irow b i < r ∨ (irow b i = r ∧ icol b i < c).
Proof.
  intros Hi. pose proof A as [Ac _].
  destruct n as [|p] eqn:Hn; [lia|].
  pose proof (ad_order _ _ _ _ _ _ _ Ac p Hn) as Ho.
  destruct (decide (i = p)) as [->|]; [done|].
  pose proof (g_sorted b G i p ltac:(lia) ltac:(fold n; lia)) as Hs.
  unfold before in Hs. lia.
Qed.

Lemma added_left_cases :
  (left = IOut ∧ ∀ i, (i < n)%nat → irow b i < r) ∨
  (∃ p, left = IAt p ∧ n = S p ∧ irow b p = r ∧ icol b p < c).
Proof.
  pose proof A as [Ac _]. pose proof (ad_left _ _ _ _ _ _ _ Ac) as Hl. fold n in Hl.
  destruct n as [|p] eqn:Hn.
  - left. split; [done|]. intros; lia.
  - pose proof (ad_order _ _ _ _ _ _ _ Ac p Hn) as Ho.
    case_decide as Hr.
    + right. exists p. split_and!; try done. lia.
    + left. split; [done|]. intros i Hi.
      destruct (decide (i = p)) as [->|]; [lia|].
      pose proof (g_sorted b G i p ltac:(lia) ltac:(fold n; lia)) as Hs.
      unfold before in Hs. lia.
Qed.

Lemma added_up_cases :
  (up = IOut ∧ ∀ t, (t < n)%nat → icol b t ≠ c) ∨
  (∃ u, up = IAt u ∧ (u < n)%nat ∧ icol b u = c ∧ irow b u < r ∧
        ∀ t, (u < t)%nat → (t < n)%nat → icol b t ≠ c).
Proof.
  pose proof A as [Ac _]. pose proof (ad_up _ _ _ _ _ _ _ Ac) as Hu. fold n in Hu.
  remember up as up0 eqn:E in Hu |- *. clear E.
  destruct up0 as [| |u]; [done|by left|right].
  destruct Hu as (? & ? & ?). exists u. split_and!; try done.
  destruct (added_sorted_new u); [done|lia..].
Qed.

Let Ac : added_core b r c e left up b' := proj1 A.

Ltac ad_rw :=
  rewrite ?(ad_num_islands _ _ _ _ _ _ _ Ac), ?(ad_num_connections _ _ _ _ _ _ _ Ac),
    ?(ad_irow _ _ _ _ _ _ _ Ac), ?(ad_icol _ _ _ _ _ _ _ Ac),
    ?(ad_iexp _ _ _ _ _ _ _ Ac), ?(ad_ipend _ _ _ _ _ _ _ Ac),
    ?(ad_inb _ _ _ _ _ _ _ Ac), ?(ad_icn _ _ _ _ _ _ _ Ac),
    ?(ad_cbr _ _ _ _ _ _ _ Ac), ?(ad_cp1 _ _ _ _ _ _ _ Ac),
    ?(ad_cp2 _ _ _ _ _ _ _ Ac), ?(ad_rows _ _ _ _ _ _ _ Ac),
    ?(ad_cols _ _ _ _ _ _ _ Ac);
  fold n m.

Lemma added_graph_ok_islands :
  (∀ i, (i < S n)%nat →
     0 ≤ irow b' i < rows b' ∧ 0 ≤ icol b' i < cols b' ∧
     1 ≤ iexp b' i ≤ MAX_EXPECTED_BRIDGES) ∧
  (∀ i j, (i < j)%nat → (j < S n)%nat → before b' i j) ∧
  rows b' ≤ CHAR_MAX ∧ cols b' ≤ CHAR_MAX.
Proof.
  pose proof (g_dims b G) as [? ?].
  pose proof (ad_range _ _ _ _ _ _ _ Ac) as (? & ? & ?).
  split_and!.
  - intros i Hi. ad_rw.
    pose proof (g_pos b G i) as Hp. fold n in Hp.
    destruct (Z.leb_spec (rows b) r), (Z.leb_spec (cols b) c);
      destruct (decide (i = n)); lia.
  - intros i j Hij Hj. unfold before. ad_rw.
    pose proof (added_sorted_new i).
    pose proof (g_sorted b G i j Hij) as Hs. fold n in Hs. unfold before in Hs.
    destruct (decide (i = n)), (decide (j = n)); lia.
  - ad_rw. case_match; lia.
  - ad_rw. case_match; lia.
Qed.

Lemma added_right i :
  (i < S n)%nat →
  inb b' i RIGHT =
    if decide ((S i < S n)%nat ∧ irow b' (S i) = irow b' i) then IAt (S i) else IOut.
Proof.
  intros Hi. ad_rw.
  pose proof (g_right b G i) as Hg. fold n in Hg.
  destruct added_left_cases as [(Hl & Hrows)|(p & Hl & Hn & Hr & Hc)]; rewrite Hl.
  - pose proof (Hrows i).
    destruct (decide (i = n)); [by rewrite decide_False by lia|].
    rewrite Hg by lia. crush.
  - destruct (decide (i = n)); [by rewrite decide_False by lia|].
    destruct (decide (i = p)) as [->|]; [crush|].
    rewrite Hg by lia. crush.
Qed.

Lemma added_left i :
  (i < S n)%nat →
  inb b' i LEFT =
    match i with
    | O => IOut
    | S p => if decide (irow b' p = irow b' i) then IAt p else IOut
    end.
Proof.
  intros Hi. ad_rw.
  pose proof (g_left b G i) as Hg. fold n in Hg.
  pose proof (ad_left _ _ _ _ _ _ _ Ac) as Hl. fold n in Hl.
  destruct (decide (i = n)) as [->|].
  - rewrite Hl. destruct n as [|p] eqn:Hn; [done|]. ad_rw. rewrite ?Hn. crush.
  - rewrite (decide_False (P := left = IAt i ∧ LEFT = RIGHT)) by (by intros [_ ?]).
    rewrite (decide_False (P := up = IAt i ∧ LEFT = DOWN)) by (by intros [_ ?]).
    rewrite Hg by lia. destruct i as [|p]; [done|]. ad_rw. crush.
Qed.

Lemma added_down i :
  (i < S n)%nat →
  match inb b' i DOWN with
  | IAt j => (i < j)%nat ∧ (j < S n)%nat ∧ icol b' j = icol b' i ∧
             ∀ t, (i < t)%nat → (t < j)%nat → icol b' t ≠ icol b' i
  | IOut => ∀ t, (i < t)%nat → (t < S n)%nat → icol b' t ≠ icol b' i
  | INull => False
  end.
Proof.
  intros Hi. ad_rw.
  pose proof (g_down b G i) as Hg. fold n in Hg.
  destruct (decide (i = n)) as [->|]; [intros; lia|].
  rewrite (decide_False (P := left = IAt i ∧ DOWN = RIGHT)) by (by intros [_ ?]).
  destruct added_up_cases as [(Hu & Hcols)|(u & Hu & Hun & Hcu & Hru & Hlast)];
    rewrite Hu.
  - rewrite (decide_False (P := IOut = IAt i ∧ DOWN = DOWN)) by (by intros [? _]).
    specialize (Hg ltac:(lia)). pose proof (Hcols i ltac:(lia)).
    destruct (inb b i DOWN) as [| |j]; [done| |].
    + intros t ? ?. ad_rw. specialize (Hg t). crush.
    + destruct Hg as (? & ? & ? & Hg). ad_rw. split_and!; [lia|lia|crush|].
      intros t ? ?. specialize (Hg t). ad_rw. crush.
  - destruct (decide (i = u)) as [->|].
    + rewrite decide_True by done. ad_rw. split_and!; [lia|lia|crush|].
      intros t ? ?. specialize (Hlast t). ad_rw. crush.
    + rewrite decide_False by (intros [? _]; congruence).
      specialize (Hg ltac:(lia)).
      destruct (inb b i DOWN) as [| |j]; [done| |].
      * intros t ? ?. ad_rw. pose proof (Hg t) as Hgt. pose proof (Hg u) as Hgu.
        destruct (decide (t = n)); [|crush].
        intros Heq. destruct (decide (i < u)%nat); [apply Hgu; [lia..|congruence]|].
        apply (Hlast i); [lia..|congruence].
      * destruct Hg as (? & ? & ? & Hg). ad_rw. split_and!; [lia|lia|crush|].
        intros t ? ?. specialize (Hg t). ad_rw. crush.
Qed.

Lemma added_up i :
  (i < S n)%nat →
  match inb b' i UP with
  | IAt j => (j < i)%nat ∧ icol b' j = icol b' i ∧
             ∀ t, (j < t)%nat → (t < i)%nat → icol b' t ≠ icol b' i
  | IOut => ∀ t, (t < i)%nat → icol b' t ≠ icol b' i
  | INull => False
  end.
Proof.
  intros Hi. ad_rw.
  pose proof (g_up b G i) as Hg. fold n in Hg.
  destruct (decide (i = n)) as [->|].
  - destruct added_up_cases as [(Hu & Hcols)|(u & Hu & Hun & Hcu & Hru & Hlast)];
      rewrite Hu.
    + intros t ?. specialize (Hcols t). ad_rw. crush.
    + ad_rw. split_and!; [lia|crush|]. intros t ? ?. specialize (Hlast t). ad_rw. crush.
  - rewrite (decide_False (P := left = IAt i ∧ UP = RIGHT)) by (by intros [_ ?]).
    rewrite (decide_False (P := up = IAt i ∧ UP = DOWN)) by (by intros [_ ?]).
    specialize (Hg ltac:(lia)).
    destruct (inb b i UP) as [| |j]; [done| |].
    + intros t ?. specialize (Hg t). ad_rw. crush.
    + destruct Hg as (? & ? & Hg). ad_rw. split_and!; [lia|crush|].
      intros t ? ?. specialize (Hg t). ad_rw. crush.
Qed.

(** The slots and connections of the new board, case by case. *)

Lemma added_old_conn k :
  (k < m)%nat →
  cp1 b' k = cp1 b k ∧ cp2 b' k = cp2 b k ∧ (k < num_connections b')%nat.
Proof.
  intros Hk. ad_rw. unfold left_index, up_index. fold m. crush.
Qed.

Lemma added_new_left p :
  left = IAt p →
  cp1 b' m = IAt p ∧ cp2 b' m = IAt n ∧ (m < num_connections b')%nat.
Proof.
  intros Hl. ad_rw. unfold left_index, up_index. fold m. rewrite Hl. crush.
Qed.

Lemma added_new_up u :
  up = IAt u →
  cp1 b' (up_index b left) = IAt u ∧ cp2 b' (up_index b left) = IAt n ∧
  (up_index b left < num_connections b')%nat ∧ (m ≤ up_index b left)%nat ∧
  (left ≠ IOut → up_index b left = S m).
Proof.
  intros Hu. ad_rw. unfold left_index, up_index. fold m. rewrite Hu.
  destruct added_left_cases as [(Hl & _)|(p & Hl & _)]; rewrite Hl; crush.
Qed.

Lemma added_slot_old i d :
  (i < n)%nat → ¬ (left = IAt i ∧ d = RIGHT) → ¬ (up = IAt i ∧ d = DOWN) →
  inb b' i d = inb b i d ∧ icn b' i d = icn b i d.
Proof. intros Hi H1 H2. ad_rw. by rewrite !decide_False by (done || lia). Qed.

Lemma added_slot_left p :
  left = IAt p → inb b' p RIGHT = IAt n ∧ icn b' p RIGHT = CAt m.
Proof.
  intros Hl. destruct added_left_cases as [(Hl' & _)|(p' & Hl' & Hn & _)]; [congruence|].
  assert (p' = p) by congruence. subst p'.
  ad_rw. unfold left_index. fold m. rewrite Hl. crush.
Qed.

Lemma added_slot_up u :
  up = IAt u → inb b' u DOWN = IAt n ∧ icn b' u DOWN = CAt (up_index b left).
Proof.
  intros Hu. destruct added_up_cases as [(Hu' & _)|(u' & Hu' & Hn & _)]; [congruence|].
  assert (u' = u) by congruence. subst u'.
  ad_rw. rewrite Hu.
  rewrite !(decide_False (P := u = n)) by lia.
  rewrite !(decide_False (P := left = IAt u ∧ DOWN = RIGHT)) by (by intros [_ ?]).
  by rewrite !decide_True by done.
Qed.

Lemma added_slot_new d :
  inb b' n d = match d with LEFT => left | UP => up | _ => IOut end ∧
  icn b' n d = match d with
               | LEFT => if decide (left = IOut) then COut else CAt m
               | UP => if decide (up = IOut) then COut else CAt (up_index b left)
               | _ => COut
               end.
Proof. ad_rw. by rewrite !decide_True by done. Qed.

Lemma added_slot i d :
  (i < S n)%nat →
  match icn b' i d with
  | CAt k => (k < num_connections b')%nat ∧ inb b' i d ≠ IOut ∧
             if is_forward d
             then cp1 b' k = IAt i ∧ cp2 b' k = inb b' i d
             else cp2 b' k = IAt i ∧ cp1 b' k = inb b' i d
  | COut => inb b' i d = IOut
  | CNull => False
  end.
Proof.
  intros Hi.
  destruct (decide (i = n)) as [->|].
  { destruct (added_slot_new d) as [-> ->].
    destruct d; try done.
    - destruct (decide (up = IOut)) as [|Hne]; [done|].
      destruct added_up_cases as [(Hu & _)|(u & Hu & _)]; [done|].
      destruct (added_new_up u Hu) as (-> & -> & ? & _). by rewrite Hu.
    - destruct (decide (left = IOut)) as [|Hne]; [done|].
      destruct added_left_cases as [(Hl & _)|(p & Hl & _)]; [done|].
      destruct (added_new_left p Hl) as (-> & -> & ?). by rewrite Hl. }
  destruct (decide (left = IAt i ∧ d = RIGHT)) as [[Hl ->]|Hnl].
  { destruct (added_slot_left i Hl) as [-> ->].
    destruct (added_new_left i Hl) as (-> & -> & ?). done. }
  destruct (decide (up = IAt i ∧ d = DOWN)) as [[Hu ->]|Hnu].
  { destruct (added_slot_up i Hu) as [-> ->].
    destruct (added_new_up i Hu) as (-> & -> & ? & _). done. }
  destruct (added_slot_old i d ltac:(lia) Hnl Hnu) as [-> ->].
  pose proof (g_slot b G i d ltac:(fold n; lia)) as Hg. fold m in Hg.
  destruct (icn b i d) as [| |k]; [done..|].
  destruct Hg as (Hk & ? & Hg).
  destruct (added_old_conn k Hk) as (-> & -> & ?). done.
Qed.

Lemma neighbour_bound i d j :
  (i < n)%nat → inb b i d = IAt j → (j < n)%nat.
Proof.
  intros Hi Hj. destruct (is_forward d) eqn:Hd.
  - by destruct (forward_neighbour b G i d j Hd Hj) as (_ & ? & _).
  - destruct (backward_neighbour b G i d j Hi Hd Hj) as (? & _). fold n in Hi. lia.
Qed.

(** The slots that [add_island] assigns were bound to the sentinel. *)
Lemma added_left_was_out p : left = IAt p → inb b p RIGHT = IOut.
Proof.
  intros Hl. destruct added_left_cases as [(Hl' & _)|(p' & Hl' & Hn & _)]; [congruence|].
  assert (p' = p) by congruence. subst p'.
  rewrite (g_right b G p) by (fold n; lia). fold n. by rewrite decide_False by lia.
Qed.

Lemma added_up_was_out u : up = IAt u → inb b u DOWN = IOut.
Proof.
  intros Hu. destruct added_up_cases as [(Hu' & _)|(u' & Hu' & Hun & Hc & _ & Hlast)];
    [congruence|].
  assert (u' = u) by congruence. subst u'.
  pose proof (g_down b G u ltac:(fold n; lia)) as Hg. fold n in Hg.
  destruct (inb b u DOWN) as [| |j]; [done..|].
  destruct Hg as (? & ? & Hj & _). destruct (Hlast j); [lia..|congruence].
Qed.

Lemma added_pair i j d :
  (i < S n)%nat → inb b' i d = IAt j → icn b' j (opp d) = icn b' i d.
Proof.
  intros Hi.
  destruct (decide (i = n)) as [->|].
  { destruct (added_slot_new d) as [-> ->]. destruct d; try done; simpl.
    - intros Hu. destruct (added_slot_up j Hu) as [_ ->]. rewrite Hu. crush.
    - intros Hl. destruct (added_slot_left j Hl) as [_ ->]. rewrite Hl. crush. }
  destruct (decide (left = IAt i ∧ d = RIGHT)) as [[Hl ->]|Hnl].
  { destruct (added_slot_left i Hl) as [-> ->]. intros [= <-]. simpl.
    destruct (added_slot_new LEFT) as [_ ->]. rewrite Hl. crush. }
  destruct (decide (up = IAt i ∧ d = DOWN)) as [[Hu ->]|Hnu].
  { destruct (added_slot_up i Hu) as [-> ->]. intros [= <-]. simpl.
    destruct (added_slot_new UP) as [_ ->]. rewrite Hu. crush. }
  destruct (added_slot_old i d ltac:(lia) Hnl Hnu) as [-> ->]. intros Hj.
  pose proof (neighbour_bound i d j ltac:(lia) Hj) as Hjn.
  pose proof (g_pair b G i j d ltac:(fold n; lia) Hj) as Hp.
  destruct (added_slot_old j (opp d) Hjn) as [_ ->]; [| |done].
  - intros [Hl Ho]. pose proof (added_left_was_out j Hl) as Hout.
    pose proof (g_slot b G j RIGHT ltac:(fold n; lia)) as Hs1.
    pose proof (g_slot b G i d ltac:(fold n; lia)) as Hs2.
    rewrite Ho in Hp. rewrite Hp in Hs1.
    destruct (icn b i d); [done|congruence|]. destruct Hs1 as (_ & ? & _). done.
  - intros [Hu Ho]. pose proof (added_up_was_out j Hu) as Hout.
    pose proof (g_slot b G j DOWN ltac:(fold n; lia)) as Hs1.
    pose proof (g_slot b G i d ltac:(fold n; lia)) as Hs2.
    rewrite Ho in Hp. rewrite Hp in Hs1.
    destruct (icn b i d); [done|congruence|]. destruct Hs1 as (_ & ? & _). done.
Qed.

Lemma added_owner k :
  (k < num_connections b')%nat →
  ∃ i d, (i < S n)%nat ∧ is_forward d = true ∧ icn b' i d = CAt k.
Proof.
  intros Hk.
  destruct (decide (k < m)%nat) as [Hkm|Hkm].
  - destruct (g_owner b G k Hkm) as (i & d & Hi & Hd & Hs). fold n in Hi.
    exists i, d. split_and!; [lia|done|].
    pose proof (g_slot b G i d Hi) as Hg. rewrite Hs in Hg. destruct Hg as (_ & Hne & _).
    destruct (added_slot_old i d Hi) as [_ ->]; [| |done].
    + intros [Hl ->]. by rewrite (added_left_was_out i Hl) in Hne.
    + intros [Hu ->]. by rewrite (added_up_was_out i Hu) in Hne.
  - revert Hk. ad_rw. unfold up_index. fold m.
    destruct added_left_cases as [(Hl & _)|(p & Hl & Hn & _)];
      destruct added_up_cases as [(Hu & _)|(u & Hu & Hun & _)];
      rewrite ?Hl, ?Hu; goal_decides; try done; intros Hk; try lia.
    + exists u, DOWN. destruct (added_slot_up u Hu) as [_ ->].
      unfold up_index. fold m. rewrite Hl, decide_True by done.
      split_and!; [lia|done|f_equal; lia].
    + exists p, RIGHT. destruct (added_slot_left p Hl) as [_ ->].
      split_and!; [lia|done|f_equal; lia].
    + destruct (decide (k = m)) as [->|].
      * exists p, RIGHT. destruct (added_slot_left p Hl) as [_ ->].
        split_and!; [lia|done|done].
      * exists u, DOWN. destruct (added_slot_up u Hu) as [_ ->].
        unfold up_index. fold m. rewrite Hl, decide_False by done.
        split_and!; [lia|done|f_equal; lia].
Qed.

(** ** Crossings *)

Lemma old_ends k a c' :
  (k < m)%nat → cp1 b k = IAt a → cp2 b k = IAt c' → (a < n)%nat ∧ (c' < n)%nat.
Proof.
  intros Hk H1 H2. destruct (connection_ends b G k Hk) as (a0 & c0 & d & E).
  destruct E as [_ ? ? E1 E2 _ _ _ _]. unfold n.
  assert (a = a0) by congruence. assert (c' = c0) by congruence. lia.
Qed.

Lemma xing_old v h :
  (v < m)%nat → (h < m)%nat → xing b' v h ↔ xing b v h.
Proof.
  intros Hv Hh.
  destruct (added_old_conn v Hv) as (V1 & V2 & _).
  destruct (added_old_conn h Hh) as (H1 & H2 & _).
  unfold xing. rewrite V1, V2, H1, H2.
  split; intros (a & c' & e' & f & E1 & E2 & E3 & E4 & Hgeo); exists a, c', e', f;
    destruct (old_ends v a c' Hv E1 E2); destruct (old_ends h e' f Hh E3 E4);
    revert Hgeo; ad_rw; rewrite !decide_False by lia; tauto.
Qed.

Lemma added_conn_ends h :
  (h < num_connections b')%nat →
  ∃ e' f d, is_forward d = true ∧ (e' < S n)%nat ∧ icn b' e' d = CAt h ∧
            cp1 b' h = IAt e' ∧ cp2 b' h = IAt f ∧ inb b' e' d = IAt f.
Proof.
  intros Hh. destruct (added_owner h Hh) as (i & d & Hi & Hd & Hs).
  pose proof (added_slot i d Hi) as Hg. rewrite Hs, Hd in Hg.
  destruct Hg as (_ & Hne & H1 & H2).
  assert (Hnn : inb b' i d ≠ INull).
  { destruct d; try done.
    - pose proof (added_right i Hi) as Hr. rewrite Hr. by case_decide.
    - pose proof (added_down i Hi) as Hr. by destruct (inb b' i DOWN). }
  destruct (inb b' i d) as [| |f] eqn:Hf; [done..|].
  by exists i, f, d.
Qed.

Lemma added_index_lt i j :
  (i < S n)%nat → (j < S n)%nat → irow b' i < irow b' j → (i < j)%nat.
Proof.
  intros Hi Hj Hlt. destruct added_graph_ok_islands as (_ & Hs & _).
  destruct (decide (i < j)%nat); [done|].
  destruct (decide (i = j)) as [->|]; [lia|].
  specialize (Hs j i ltac:(lia) Hi). unfold before in Hs. lia.
Qed.

Lemma added_cross_sound k x :
  (k < num_connections b')%nat → x ∈ ccross b' k →
  ∃ k', x = CAt k' ∧ (k' < num_connections b')%nat ∧ (xing b' k k' ∨ xing b' k' k).
Proof.
  intros Hk Hx. apply (proj2 A) in Hx.
  destruct Hx as [Hx|[(u & i & Hu & -> & Hui & Hin & Hc & ->)
                     |(u & i & Hu & -> & Hui & Hin & Hc & Hs)]].
  - assert (Hkm : (k < m)%nat).
    { destruct (decide (k < m)%nat); [done|].
      rewrite ccross_ge in Hx by (fold m; lia). by apply elem_of_nil in Hx. }
    destruct (g_cross_sound b G k x Hkm Hx) as (k' & -> & Hk' & Hg). fold m in Hk'.
    exists k'. destruct (added_old_conn k' Hk') as (_ & _ & ?).
    split_and!; [done..|]. by rewrite !xing_old.
  - destruct (added_new_up u Hu) as (U1 & U2 & ? & _).
    destruct Hc as (R1 & R2 & C1 & j & Hj & C2).
    pose proof (added_slot i RIGHT ltac:(lia)) as Hg. rewrite Hj in Hg.
    destruct (icn b' i RIGHT) as [| |h]; [done..|].
    destruct Hg as (? & _ & H1 & H2). simpl in *.
    exists h. split_and!; [done..|]. left.
    exists u, n, i, j. split_and!; try done.
    + ad_rw. destruct added_up_cases as [(Hu' & _)|(u' & Hu' & ? & ? & _)];
        [congruence|]. assert (u' = u) by congruence. subst. crush.
    + pose proof (added_right i ltac:(lia)) as Hr. rewrite Hj in Hr.
      case_decide as Hd; [|done]. injection Hr as ->. by destruct Hd.
    + revert C1. ad_rw. destruct added_up_cases as [(Hu' & _)|(u' & Hu' & ? & ? & _)];
        [congruence|]. assert (u' = u) by congruence. subst. crush.
    + revert C2. ad_rw. destruct added_up_cases as [(Hu' & _)|(u' & Hu' & ? & ? & _)];
        [congruence|]. assert (u' = u) by congruence. subst. crush.
  - destruct (added_new_up u Hu) as (U1 & U2 & ? & _).
    destruct Hc as (R1 & R2 & C1 & j & Hj & C2).
    pose proof (added_slot i RIGHT ltac:(lia)) as Hg. rewrite Hj, Hs in Hg.
    destruct Hg as (? & _ & H1 & H2). simpl in *.
    exists (up_index b left). split_and!; [done..|]. right.
    exists u, n, i, j. split_and!; try done.
    + ad_rw. destruct added_up_cases as [(Hu' & _)|(u' & Hu' & ? & ? & _)];
        [congruence|]. assert (u' = u) by congruence. subst. crush.
    + pose proof (added_right i ltac:(lia)) as Hr. rewrite Hj in Hr.
      case_decide as Hd; [|done]. injection Hr as ->. by destruct Hd.
    + revert C1. ad_rw. destruct added_up_cases as [(Hu' & _)|(u' & Hu' & ? & ? & _)];
        [congruence|]. assert (u' = u) by congruence. subst. crush.
    + revert C2. ad_rw. destruct added_up_cases as [(Hu' & _)|(u' & Hu' & ? & ? & _)];
        [congruence|]. assert (u' = u) by congruence. subst. crush.
Qed.

Lemma added_cross_old k x : x ∈ ccross b k → x ∈ ccross b' k.
Proof. intros Hx. apply (proj2 A). by left. Qed.

(** A crossing with the new vertical connection is recorded. *)
Lemma added_cross_new_up u h :
  up = IAt u → (h < num_connections b')%nat → xing b' (up_index b left) h →
  CAt h ∈ ccross b' (up_index b left) ∧ CAt (up_index b left) ∈ ccross b' h.
Proof.
  intros Hu Hh (a & c' & e' & f & E1 & E2 & E3 & E4 & G1 & G2 & G3 & G4 & G5 & G6).
  destruct (added_new_up u Hu) as (U1 & U2 & _).
  assert (a = u) by congruence. assert (c' = n) by congruence. subst a c'.
  destruct added_up_cases as [(Hu' & _)|(u' & Hu' & Hun & Hcu & Hru & _)]; [congruence|].
  assert (u' = u) by congruence. subst u'.
  destruct (added_conn_ends h Hh) as (e0 & f0 & d & Hd & He & Hs & H1 & H2 & Hnb).
  assert (e0 = e') by congruence. assert (f0 = f) by congruence. subst e0 f0.
  assert (Hcu' : icol b' u = c) by (ad_rw; crush).
  assert (Hrn : irow b' n = r) by (ad_rw; crush).
  assert (d = RIGHT) as ->.
  { destruct d; try done. pose proof (added_down e' He) as Hdn. rewrite Hnb in Hdn.
    destruct Hdn as (_ & _ & Hc & _). lia. }
  assert (Hue : (u < e')%nat) by (apply added_index_lt; [lia|done|done]).
  assert (Hen : (e' < n)%nat) by (apply added_index_lt; [done|lia|done]).
  assert (Hc : crossed_at b' u n c e').
  { split_and!; [done|done|lia|]. exists f. split; [done|lia]. }
  split; apply (proj2 A); right.
  - left. exists u, e'. by split_and!.
  - right. exists u, e'. by split_and!.
Qed.

Lemma added_cross_complete v h :
  (v < num_connections b')%nat → (h < num_connections b')%nat →
  xing b' v h → CAt h ∈ ccross b' v ∧ CAt v ∈ ccross b' h.
Proof.
  intros Hv Hh Hx.
  destruct added_left_cases as [(Hl & Hrows)|(p & Hl & Hn & Hrp & Hcp)];
    destruct added_up_cases as [(Hu & Hcols)|(u & Hu & Hun & Hcu & Hru & Hlast)].
  all: pose proof Hv as Hv'; pose proof Hh as Hh'.
  all: revert Hv' Hh'; ad_rw; unfold up_index; fold m; rewrite ?Hl, ?Hu;
    goal_decides; try done; intros Hv' Hh'.
  all: assert (Hold : (v < m)%nat → (h < m)%nat →
                      CAt h ∈ ccross b' v ∧ CAt v ∈ ccross b' h)
    by (intros ? ?; apply xing_old in Hx; [|done..];
        destruct (g_cross_complete b G v h) as [? ?]; [done..|];
        split; by apply added_cross_old).
  all: assert (Hvold : (v < m)%nat → ∀ c', cp2 b' v = IAt c' → irow b' c' ≤ r).
  all: try (intros Hvm c' Hc'; destruct (added_old_conn v Hvm) as (V1 & V2 & _);
            destruct (connection_ends b G v Hvm) as (a0 & c0 & d0 & E);
            destruct E as [_ ? ? _ E2 _ _ _ _];
            assert (c' = c0) by congruence; subst c';
            ad_rw; rewrite decide_False by (unfold n; lia);
            destruct (added_sorted_new c0); [done|lia..]).
  - (* no new connection *)
    apply Hold; lia.
  - (* only the vertical one, at index m *)
    assert (Hup : up_index b left = m) by (unfold up_index; by rewrite Hl, decide_True).
    destruct (decide (v = m)) as [->|].
    { rewrite <- Hup. apply added_cross_new_up with u; [done..|]. by rewrite Hup. }
    destruct (decide (h = m)) as [->|]; [|apply Hold; lia].
    destruct Hx as (a & c' & e' & f & E1 & E2 & E3 & E4 & G1 & G2 & G3 & G4 & G5 & G6).
    destruct (added_new_up u Hu) as (U1 & U2 & _). rewrite Hup in U1, U2.
    assert (e' = u) by congruence. assert (f = n) by congruence. subst e' f.
    revert G2. ad_rw. crush.
  - (* only the horizontal one, at index m *)
    destruct (added_new_left p Hl) as (L1 & L2 & _).
    destruct Hx as (a & c' & e' & f & E1 & E2 & E3 & E4 & G1 & G2 & G3 & G4 & G5 & G6).
    destruct (decide (v = m)) as [->|].
    { assert (a = p) by congruence. assert (c' = n) by congruence. subst a c'.
      revert G1. ad_rw. crush. }
    destruct (decide (h = m)) as [->|].
    { assert (e' = p) by congruence. assert (f = n) by congruence. subst e' f.
      specialize (Hvold ltac:(lia) c' E2). revert G4 Hvold. ad_rw. crush. }
    apply Hold; lia.
  - (* both *)
    assert (Hup : up_index b left = S m).
    { unfold up_index. by rewrite Hl, decide_False. }
    destruct (decide (v = S m)) as [->|].
    { rewrite <- Hup. apply added_cross_new_up with u; [done..|]. by rewrite Hup. }
    destruct (added_new_left p Hl) as (L1 & L2 & _).
    destruct (added_new_up u Hu) as (U1 & U2 & _). rewrite Hup in U1, U2.
    destruct Hx as (a & c' & e' & f & E1 & E2 & E3 & E4 & G1 & G2 & G3 & G4 & G5 & G6).
    destruct (decide (v = m)) as [->|].
    { assert (a = p) by congruence. assert (c' = n) by congruence. subst a c'.
      revert G1. ad_rw. crush. }
    destruct (decide (h = m)) as [->|].
    { assert (e' = p) by congruence. assert (f = n) by congruence. subst e' f.
      specialize (Hvold ltac:(lia) c' E2). revert G4 Hvold. ad_rw. crush. }
    destruct (decide (h = S m)) as [->|].
    { assert (e' = u) by congruence. assert (f = n) by congruence. subst e' f.
      revert G2. ad_rw. crush. }
    apply Hold; lia.
Qed.

Theorem added_graph_ok : graph_ok b'.
Proof.
  destruct added_graph_ok_islands as (Hpos & Hsorted & Hrows & Hcols).
  pose proof (ad_num_islands _ _ _ _ _ _ _ Ac) as Hn. fold n in Hn.
  split; rewrite ?Hn.
  - rewrite (ad_out_island _ _ _ _ _ _ _ Ac). apply G.
  - rewrite (ad_out_connection _ _ _ _ _ _ _ Ac). apply G.
  - done.
  - done.
  - done.
  - apply added_right.
  - apply added_left.
  - apply added_down.
  - apply added_up.
  - apply added_slot.
  - apply added_pair.
  - apply added_owner.
  - apply added_cross_sound.
  - apply added_cross_complete.
Qed.
End add_island_ok.

(** * Boards built by [add_island] *)

Lemma add_island_added b r c e b' :
  graph_ok b → add_island b r c e = Some (b', true) →
  ∃ left up, added b r c e left up b'.
Proof.
  intros G H. apply add_island_start in H as (Hr & Ho & b1 & Hf & ->).
  by apply fill_connections_added.
Qed.

Lemma init_board_graph_ok mi mc mx mv g1 g2 : graph_ok (init_board mi mc mx mv g1 g2).
Proof.
  split; try done; try (by unfold CHAR_MAX).
  all: unfold num_islands, num_connections; simpl; intros; lia.
Qed.

Lemma init_board_fresh mi mc mx mv g1 g2 : fresh (init_board mi mc mx mv g1 g2).
Proof. split; intros; done. Qed.

Lemma init_board_visited_clear mi mc mx mv g1 g2 :
  visited_clear (init_board mi mc mx mv g1 g2).
Proof. done. Qed.

Lemma added_fresh b r c e left up b' :
  added b r c e left up b' → fresh b → fresh b'.
Proof.
  intros [Ac _] [F1 F2]. split.
  - intros k. by rewrite (ad_cbr _ _ _ _ _ _ _ Ac).
  - intros i. rewrite (ad_ipend _ _ _ _ _ _ _ Ac), (ad_iexp _ _ _ _ _ _ _ Ac).
    case_decide; [done|apply F2].
Qed.

Lemma added_visited_clear b r c e left up b' :
  added b r c e left up b' → visited_clear b → visited_clear b'.
Proof.
  intros [Ac _] V. unfold visited_clear in *.
  by rewrite (ad_visitedmatrix _ _ _ _ _ _ _ Ac), (ad_max_visited_size _ _ _ _ _ _ _ Ac).
Qed.

Lemma add_islands_ok l : ∀ b b',
  graph_ok b → fresh b → visited_clear b →
  add_islands b l = Some (b', true) →
  graph_ok b' ∧ fresh b' ∧ visited_clear b'.
Proof.
  induction l as [|[[r c] e] l IH]; intros b b' G F V H.
  - simpl in H. by simplify_eq.
  - simpl in H. destruct (add_island b r c e) as [[b1 ok]|] eqn:Ha; [|done].
    simpl in H. destruct ok; [|done].
    destruct (add_island_added b r c e b1 G Ha) as (left & up & A).
    apply (IH b1); [|by eapply added_fresh|by eapply added_visited_clear|done].
    by eapply added_graph_ok.
Qed.

Lemma built_ok b : built b → graph_ok b ∧ fresh b ∧ visited_clear b.
Proof.
  intros (mi & mc & mx & mv & g1 & g2 & l & H).
  eapply add_islands_ok; [| | |exact H].
  - apply init_board_graph_ok.
  - apply init_board_fresh.
  - apply init_board_visited_clear.
Qed.

Lemma fresh_cnt b x : fresh b → graph_ok b → cnt b x = 0.
Proof.
  intros [F _] G. destruct x as [| |k]; [done| |].
  - by apply cnt_COut.
  - by rewrite cnt_CAt.
Qed.

Lemma fresh_state_ok b : graph_ok b → fresh b → state_ok b.
Proof.
  intros G F. pose proof F as [F1 F2]. split.
  - intros k _. rewrite F1. unfold MAX_CONNECTION_BRIDGES. lia.
  - intros i _. unfold incident. rewrite !fresh_cnt by done. rewrite F2. lia.
  - intros i Hi. rewrite F2. pose proof (g_pos b G i Hi). lia.
  - intros k k' _ _. by rewrite F1.
Qed.

(** * Forward connections of an island *)

Section forward.
Context (b : hboard) (G : graph_ok b).

Lemma forward_slot i d :
  (i < num_islands b)%nat → is_forward d = true →
  icn b i d = COut ∨
  ∃ k j, icn b i d = CAt k ∧ (k < num_connections b)%nat ∧ ends b k i j d.
Proof.
  intros Hi Hd. pose proof (g_slot b G i d Hi) as Hg.
  destruct (icn b i d) as [| |k] eqn:Hs; [done|by left|right].
  destruct Hg as (Hk & _).
  destruct (connection_ends b G k Hk) as (a & c & d0 & E).
  destruct (slot_unique b G k a c d0 i d E Hi Hs) as [[-> ->]|[-> ->]].
  - by exists k, c.
  - destruct E as [Ef _ _ _ _ _ _ _ _]. rewrite is_forward_opp, Ef in Hd. done.
Qed.

Lemma forward_slots_differ i k1 k2 :
  icn b i RIGHT = CAt k1 → icn b i DOWN = CAt k2 → k1 ≠ k2.
Proof.
  intros H1 H2 ->. pose proof (icn_CAt_lt b i RIGHT k2 H1) as Hi.
  destruct (forward_slot i RIGHT Hi eq_refl) as [?|(k & j & Hk & ? & E)]; [congruence|].
  assert (k = k2) by congruence. subst k.
  destruct (slot_unique b G k2 i j RIGHT i DOWN E Hi H2) as [[_ ?]|[_ ?]]; done.
Qed.

Lemma forward_ends_differ i k1 k2 j1 j2 :
  ends b k1 i j1 RIGHT → ends b k2 i j2 DOWN → j1 ≠ j2 ∧ i ≠ j1 ∧ i ≠ j2.
Proof.
  intros [_ ? ? _ _ _ N1 _ _] [_ ? ? _ _ _ N2 _ _].
  destruct (forward_neighbour b G i RIGHT j1 eq_refl N1) as (_ & _ & ? & ? & ?).
  destruct (forward_neighbour b G i DOWN j2 eq_refl N2) as (_ & _ & ? & ?).
  split_and!; [|lia..]. intros ->. lia.
Qed.

(** The right and the down connection of one island do not cross. *)
Lemma forward_no_cross i k1 k2 j1 j2 :
  ends b k1 i j1 RIGHT → ends b k2 i j2 DOWN → ¬ xing b k1 k2 ∧ ¬ xing b k2 k1.
Proof.
  intros E1 E2. pose proof (forward_ends_differ i k1 k2 j1 j2 E1 E2) as (? & ? & ?).
  destruct E1 as [_ ? ? P1 Q1 _ N1 _ _], E2 as [_ ? ? P2 Q2 _ N2 _ _].
  destruct (forward_neighbour b G i RIGHT j1 eq_refl N1) as (_ & _ & ? & ? & ?).
  destruct (forward_neighbour b G i DOWN j2 eq_refl N2) as (_ & _ & ? & ?).
  split; intros (a & c & e & f & A1 & A2 & A3 & A4 & ?);
    rewrite ?P1, ?Q1, ?P2, ?Q2 in *; simplify_eq; lia.
Qed.

Lemma forward_not_crossing i k1 k2 :
  (i < num_islands b)%nat →
  icn b i RIGHT = CAt k1 → icn b i DOWN = CAt k2 →
  (CAt k2 ∉ ccross b k1) ∧ (CAt k1 ∉ ccross b k2).
Proof.
  intros Hi H1 H2.
  destruct (forward_slot i RIGHT Hi eq_refl) as [?|(k & j1 & Hk1 & ? & E1)]; [congruence|].
  destruct (forward_slot i DOWN Hi eq_refl) as [?|(k' & j2 & Hk2 & ? & E2)]; [congruence|].
  assert (k = k1) by congruence. assert (k' = k2) by congruence. subst k k'.
  destruct (forward_no_cross i k1 k2 j1 j2 E1 E2) as [N1 N2].
  split; intros Hx.
  - destruct (g_cross_sound b G k1 _ ltac:(done) Hx) as (k' & ? & _ & [?|?]);
      simplify_eq; done.
  - destruct (g_cross_sound b G k2 _ ltac:(done) Hx) as (k' & ? & _ & [?|?]);
      simplify_eq; done.
Qed.
End forward.

(** * [bumpx] *)

Lemma bump_zero b k a c : bump b k a c 0 = b.
Proof.
  apply board_ext.
  - apply skeleton_bump.
  - done.
  - intros i. unfold bump. rewrite !ipend_set_ipend, ipend_set_cbr.
    rewrite !Z.sub_0_r. repeat case_decide; destruct_and?; by subst.
  - intros k'. unfold bump. rewrite !cbr_set_ipend, cbr_set_cbr.
    rewrite Z.add_0_r. case_decide; destruct_and?; by subst.
Qed.

Lemma skeleton_bumpx b x delta : skeleton (bumpx b x delta) = skeleton b.
Proof.
  unfold bumpx. destruct x as [| |k]; try done.
  destruct (cp1 b k), (cp2 b k); try done. apply skeleton_bump.
Qed.

Lemma visited_bumpx b x delta :
  visitedmatrix (bumpx b x delta) = visitedmatrix b ∧
  visitedlimit (bumpx b x delta) = visitedlimit b.
Proof.
  unfold bumpx. destruct x as [| |k]; try done.
  destruct (cp1 b k), (cp2 b k); done.
Qed.

Lemma same_static_bumpx b x delta : same_static b (bumpx b x delta).
Proof. apply skeleton_same_static. by rewrite skeleton_bumpx. Qed.

Lemma graph_ok_bumpx b x delta : graph_ok b → graph_ok (bumpx b x delta).
Proof. apply graph_ok_skeleton. by rewrite skeleton_bumpx. Qed.

Lemma bumpx_ends b k a c d delta :
  ends b k a c d → bumpx b (CAt k) delta = bump b k a c delta.
Proof. intros [_ _ _ P1 P2 _ _ _ _]. unfold bumpx. by rewrite P1, P2. Qed.

Lemma bumpx_zero b x : bumpx b x 0 = b.
Proof.
  unfold bumpx. destruct x as [| |k]; try done.
  destruct (cp1 b k), (cp2 b k); try done. apply bump_zero.
Qed.

Section bumpx.
Context (b : hboard) (G : graph_ok b).
Context (i : nat) (d : direction) (Hi : (i < num_islands b)%nat).
Context (Hd : is_forward d = true).

Lemma cbr_bumpx delta k :
  cbr (bumpx b (icn b i d) delta) k = cbr b k + on (icn b i d) k delta.
Proof.
  unfold on.
  destruct (forward_slot b G i d Hi Hd) as [->|(k0 & j & -> & Hk & E)].
  - simpl. lia.
  - rewrite (bumpx_ends b k0 i j d) by done. rewrite cbr_bump by done.
    repeat case_decide; simplify_eq; try done; lia.
Qed.

Lemma cnt_bumpx delta y :
  cnt (bumpx b (icn b i d) delta) y =
    cnt b y + if decide (y = icn b i d ∧ y ≠ COut) then delta else 0.
Proof.
  destruct (forward_slot b G i d Hi Hd) as [->|(k0 & j & -> & Hk & E)].
  - simpl. case_decide as Hc; [by destruct Hc|lia].
  - rewrite (bumpx_ends b k0 i j d) by done. rewrite cnt_bump by done.
    repeat case_decide; destruct_and?; simplify_eq; try done; try lia.
    exfalso; eauto.
Qed.

Lemma ipend_bumpx delta j :
  ipend (bumpx b (icn b i d) delta) j = ipend b j - at_end b (icn b i d) j delta.
Proof.
  unfold at_end.
  destruct (forward_slot b G i d Hi Hd) as [->|(k0 & j0 & -> & Hk & E)].
  - simpl. lia.
  - rewrite (bumpx_ends b k0 i j0 d) by done.
    pose proof E as [_ ? ? P1 P2 _ _ _ _].
    rewrite ipend_bump by lia. rewrite P1, P2.
    repeat case_decide; try done; try lia.
    + destruct_or!; simplify_eq; tauto.
    + destruct_or!; simplify_eq; exfalso; eauto.
Qed.
End bumpx.

(** * Forward splits *)

Lemma state_ok_bumpx b i d delta :
  graph_ok b → state_ok b → (i < num_islands b)%nat → is_forward d = true →
  (icn b i d ≠ COut → 0 ≤ cnt b (icn b i d) + delta ≤ MAX_CONNECTION_BRIDGES) →
  (∀ j, (j < num_islands b)%nat → 0 ≤ ipend b j - at_end b (icn b i d) j delta) →
  (∀ k, icn b i d = CAt k → 0 < cbr b k + delta →
        Forall (fun y => cnt b y = 0) (ccross b k)) →
  state_ok (bumpx b (icn b i d) delta).
Proof.
  intros G S Hi Hd Hr Hp Hc.
  destruct (forward_slot b G i d Hi Hd) as [E|(k & j & E & Hk & En)]; rewrite E in *.
  - done.
  - rewrite (bumpx_ends b k i j d delta En).
    pose proof En as [_ ? ? P1 P2 _ _ _ _].
    rewrite cnt_CAt in Hr.
    apply state_ok_bump_gen with d; try done.
    + by apply Hr.
    + specialize (Hp i Hi). unfold at_end in Hp. rewrite P1 in Hp.
      rewrite decide_True in Hp by (by left). done.
    + specialize (Hp j ltac:(lia)). unfold at_end in Hp. rewrite P2 in Hp.
      rewrite decide_True in Hp by (by right). done.
    + by apply Hc.
Qed.

Section place.
Context (b : hboard) (G : graph_ok b) (S : state_ok b).
Context (i : nat) (Hi : (i < num_islands b)%nat) (U : untouched b i).

Let R := icn b i RIGHT.
Let Dn := icn b i DOWN.
Let p := ipend b i.

Lemma skeleton_place r d : skeleton (place b i r d) = skeleton b.
Proof. unfold place. by rewrite !skeleton_bumpx. Qed.

Lemma same_static_place r d : same_static b (place b i r d).
Proof. apply skeleton_same_static. by rewrite skeleton_place. Qed.

Lemma graph_ok_place r d : graph_ok (place b i r d).
Proof. apply (graph_ok_skeleton b); [by rewrite skeleton_place|done]. Qed.

Lemma visited_place r d :
  visitedmatrix (place b i r d) = visitedmatrix b ∧
  visitedlimit (place b i r d) = visitedlimit b.
Proof.
  unfold place.
  destruct (visited_bumpx (bumpx b (icn b i RIGHT) r) (icn b i DOWN) d) as [-> ->].
  apply visited_bumpx.
Qed.

Let b1 r := bumpx b R r.

Lemma place_unfold r d : place b i r d = bumpx (b1 r) (icn (b1 r) i DOWN) d.
Proof.
  unfold place, b1, R. by rewrite (ss_icn _ _ (same_static_bumpx b (icn b i RIGHT) r)).
Qed.

Lemma num_islands_b1 r : num_islands (b1 r) = num_islands b.
Proof. apply (ss_num_islands _ _ (same_static_bumpx b R r)). Qed.

Lemma at_end_b1 r x j delta : at_end (b1 r) x j delta = at_end b x j delta.
Proof.
  unfold at_end. destruct x; try done.
  by rewrite (ss_cp1 _ _ (same_static_bumpx b R r)),
    (ss_cp2 _ _ (same_static_bumpx b R r)).
Qed.

Lemma cbr_place r d k :
  cbr (place b i r d) k = cbr b k + on R k r + on Dn k d.
Proof.
  rewrite place_unfold.
  rewrite cbr_bumpx; [|by apply graph_ok_bumpx|by rewrite num_islands_b1|done].
  unfold b1 at 1. unfold R at 1. rewrite cbr_bumpx by done.
  by rewrite (ss_icn _ _ (same_static_bumpx b R r)).
Qed.

Lemma cnt_place r d y :
  cnt (place b i r d) y =
    cnt b y + (if decide (y = R ∧ y ≠ COut) then r else 0)
            + (if decide (y = Dn ∧ y ≠ COut) then d else 0).
Proof.
  rewrite place_unfold.
  rewrite cnt_bumpx; [|by apply graph_ok_bumpx|by rewrite num_islands_b1|done].
  unfold b1 at 1. unfold R at 1. rewrite cnt_bumpx by done.
  by rewrite (ss_icn _ _ (same_static_bumpx b R r)).
Qed.

Lemma ipend_place r d j :
  ipend (place b i r d) j = ipend b j - at_end b R j r - at_end b Dn j d.
Proof.
  rewrite place_unfold.
  rewrite ipend_bumpx; [|by apply graph_ok_bumpx|by rewrite num_islands_b1|done].
  unfold b1 at 1. unfold R at 1. rewrite ipend_bumpx by done.
  by rewrite at_end_b1, (ss_icn _ _ (same_static_bumpx b R r)).
Qed.

Lemma place_zero : place b i 0 0 = b.
Proof. unfold place. by rewrite !bumpx_zero. Qed.

(** A board with the counts of a split is that split. *)
Lemma place_ext s r d :
  skeleton s = skeleton b → visitedlimit s = visitedlimit b →
  (∀ k, cbr s k = cbr b k + on R k r + on Dn k d) →
  (∀ j, ipend s j = ipend b j - at_end b R j r - at_end b Dn j d) →
  s = place b i r d.
Proof.
  intros Hs Hv Hc Hp. apply board_ext.
  - by rewrite skeleton_place.
  - by destruct (visited_place r d) as [_ ->].
  - intros j. by rewrite ipend_place.
  - intros k. by rewrite cbr_place.
Qed.
End place.

(** ** Capacities *)

Section cap.
Context (b : hboard) (G : graph_ok b) (S : state_ok b).
Context (i : nat) (Hi : (i < num_islands b)%nat).

Lemma cap_range x : 0 ≤ cap b x ≤ MAX_CONNECTION_BRIDGES.
Proof.
  unfold cap, MAX_CONNECTION_BRIDGES. destruct x as [| |k]; try lia.
  destruct (cp2 b k); try lia. case_decide; lia.
Qed.

Lemma cap_ends k j d :
  ends b k i j d →
  cap b (CAt k) =
    if decide (Forall (fun y => cnt b y = 0) (ccross b k))
    then Z.min MAX_CONNECTION_BRIDGES (ipend b j) else 0.
Proof.
  intros [_ ? ? _ P2 _ _ _ _]. unfold cap. rewrite P2.
  pose proof (s_pend_pos b S j ltac:(lia)). unfold MAX_CONNECTION_BRIDGES.
  case_decide; lia.
Qed.

Lemma at_end_ends k j d j' delta :
  ends b k i j d →
  at_end b (CAt k) j' delta = if decide (j' = i ∨ j' = j) then delta else 0.
Proof.
  intros [_ ? ? P1 P2 _ _ _ _]. unfold at_end. rewrite P1, P2.
  repeat case_decide; try done; destruct_or!; simplify_eq; exfalso; eauto.
Qed.
End cap.

(** ** The splits that keep the invariant *)

Section split.
Context (b : hboard) (G : graph_ok b) (S : state_ok b).
Context (i : nat) (Hi : (i < num_islands b)%nat) (U : untouched b i).

Lemma fslot_right : fslot b i RIGHT.
Proof.
  destruct (forward_slot b G i RIGHT Hi eq_refl) as [?|(k & j & E & ? & ?)].
  - by apply FOut.
  - apply (FAt b i RIGHT k j); try done.
    destruct U as [U1 _]. by rewrite E, cnt_CAt in U1.
Qed.

Lemma fslot_down : fslot b i DOWN.
Proof.
  destruct (forward_slot b G i DOWN Hi eq_refl) as [?|(k & j & E & ? & ?)].
  - by apply FOut.
  - apply (FAt b i DOWN k j); try done.
    destruct U as [_ U2]. by rewrite E, cnt_CAt in U2.
Qed.

Lemma state_ok_place r d : split_ok b i r d → state_ok (place b i r d).
Proof.
  intros (Hr & Hd & Hsum).
  pose proof (s_pend_pos b S) as Hpos.
  assert (S1 : state_ok (bumpx b (icn b i RIGHT) r)).
  { apply state_ok_bumpx; try done.
    - intros _. destruct U as [-> _]. pose proof (cap_range b i Hi (icn b i RIGHT)). lia.
    - intros j Hj. specialize (Hpos j Hj).
      destruct fslot_right as [E|k j' E Hk En Hz]; rewrite E in *; [simpl; lia|].
      rewrite (at_end_ends b i Hi k j' RIGHT) by done.
      rewrite (cap_ends b S i Hi k j' RIGHT) in Hr by done.
      repeat case_decide; destruct_or?; subst; lia.
    - intros k E Hp. rewrite E in Hr.
      destruct fslot_right as [E'|k' j' E' Hk En Hz]; [congruence|].
      assert (k' = k) by congruence. subst k'.
      rewrite (cap_ends b S i Hi k j' RIGHT) in Hr by done.
      case_decide; [done|lia]. }
  rewrite place_unfold by done.
  set (b1 := bumpx b (icn b i RIGHT) r) in *.
  pose proof (same_static_bumpx b (icn b i RIGHT) r) as HS. fold b1 in HS.
  assert (G1 : graph_ok b1) by (by apply graph_ok_bumpx).
  assert (Hi1 : (i < num_islands b1)%nat) by (by rewrite (ss_num_islands _ _ HS)).
  apply state_ok_bumpx; try done; rewrite ?(ss_icn _ _ HS);
    rewrite ?(ss_num_islands _ _ HS).
  - intros _. unfold b1. rewrite cnt_bumpx by done.
    destruct U as [_ ->]. pose proof (cap_range b i Hi (icn b i DOWN)).
    case_decide as Hc; [|lia]. destruct Hc as [Hc Hne].
    destruct fslot_right as [E|k j E Hk En Hz]; [congruence|].
    destruct fslot_down as [E'|k' j' E' Hk' En' Hz']; [congruence|].
    exfalso. apply (forward_slots_differ b G i k k'); congruence.
  - intros j Hj. specialize (Hpos j Hj).
    unfold b1. rewrite ipend_bumpx by done.
    rewrite at_end_b1.
    destruct fslot_right as [E|k j1 E Hk En Hz]; rewrite E in *;
      destruct fslot_down as [E'|k' j2 E' Hk' En' Hz']; rewrite E' in *.
    + simpl; lia.
    + rewrite (at_end_ends b i Hi k' j2 DOWN) by done.
      rewrite (cap_ends b S i Hi k' j2 DOWN) in Hd by done. simpl.
      repeat case_decide; destruct_or?; subst; lia.
    + rewrite (at_end_ends b i Hi k j1 RIGHT) by done.
      rewrite (cap_ends b S i Hi k j1 RIGHT) in Hr by done. simpl.
      repeat case_decide; destruct_or?; subst; lia.
    + rewrite (at_end_ends b i Hi k j1 RIGHT), (at_end_ends b i Hi k' j2 DOWN) by done.
      rewrite (cap_ends b S i Hi k j1 RIGHT) in Hr by done.
      rewrite (cap_ends b S i Hi k' j2 DOWN) in Hd by done.
      destruct (forward_ends_differ b G i k k' j1 j2 En En') as (? & ? & ?).
      repeat case_decide; destruct_or?; subst; lia.
  - intros k' E' Hp.
    rewrite (ss_ccross _ _ HS).
    destruct fslot_down as [E''|k'' j2 E'' Hk' En' Hz']; [congruence|].
    assert (k'' = k') by congruence. subst k''.
    assert (Hd0 : 0 < d).
    { revert Hp. unfold b1. rewrite cbr_bumpx by done. unfold on.
      case_decide as Hc; [|lia].
      destruct (forward_slots_differ b G i k' k'); congruence. }
    rewrite E'' in Hd. rewrite (cap_ends b S i Hi k' j2 DOWN) in Hd by done.
    case_decide as Hfree; [|lia].
    rewrite Forall_forall in Hfree |- *. intros y Hy.
    unfold b1. rewrite cnt_bumpx by done. rewrite (Hfree y Hy).
    case_decide as Hc; [|lia]. destruct Hc as [Hc Hne].
    destruct fslot_right as [E|k j1 E Hk En Hz]; [congruence|].
    destruct (forward_not_crossing b G i k k' Hi E E'') as [_ Hn].
    exfalso. apply Hn. congruence.
Qed.
End split.

(** * One bridge more or less on a forward split *)

Lemma ends_same_static b b' k a c d : same_static b b' → ends b k a c d → ends b' k a c d.
Proof.
  intros HS [? ? ? ? ? ? ? ? ?].
  split; rewrite ?(ss_num_islands _ _ HS), ?(ss_cp1 _ _ HS), ?(ss_cp2 _ _ HS),
    ?(ss_icn _ _ HS), ?(ss_inb _ _ HS); done.
Qed.

Lemma at_end_same_static b b' x j delta :
  same_static b b' → at_end b' x j delta = at_end b x j delta.
Proof.
  intros HS. unfold at_end. destruct x; try done.
  by rewrite (ss_cp1 _ _ HS), (ss_cp2 _ _ HS).
Qed.

Lemma on_add x k r delta : on x k r + on x k delta = on x k (r + delta).
Proof. unfold on. case_decide; lia. Qed.

Lemma at_end_add b x j r delta :
  at_end b x j r + at_end b x j delta = at_end b x j (r + delta).
Proof. unfold at_end. destruct x; try lia. case_decide; lia. Qed.

Section steps.
Context (b : hboard) (G : graph_ok b) (S : state_ok b).
Context (i : nat) (Hi : (i < num_islands b)%nat) (U : untouched b i).
Local Set Default Proof Using "b G S i Hi U".

Let HS r d : same_static b (place b i r d) := same_static_place b i r d.

Lemma place_bump_gen (dd : direction) r d delta :
  is_forward dd = true →
  bumpx (place b i r d) (icn b i dd) delta =
    place b i (if decide (dd = RIGHT) then r + delta else r)
              (if decide (dd = RIGHT) then d else d + delta).
Proof.
  intros Hd.
  pose proof (graph_ok_place b G i r d) as G'.
  assert (Hi' : (i < num_islands (place b i r d))%nat)
    by (by rewrite (ss_num_islands _ _ (HS r d))).
  rewrite <- (ss_icn _ _ (HS r d) i dd).
  apply place_ext; try done.
  - by rewrite skeleton_bumpx, skeleton_place.
  - destruct (visited_bumpx (place b i r d) (icn (place b i r d) i dd) delta) as [_ ->].
    by destruct (visited_place b i r d) as [_ ->].
  - intros k. rewrite cbr_bumpx by done. rewrite cbr_place by done.
    rewrite (ss_icn _ _ (HS r d) i dd).
    destruct dd; try done; simpl; rewrite <- ?on_add; lia.
  - intros j. rewrite ipend_bumpx by done. rewrite ipend_place by done.
    rewrite (at_end_same_static _ _ _ _ _ (HS r d)), (ss_icn _ _ (HS r d) i dd).
    destruct dd; try done; simpl; rewrite <- ?at_end_add; lia.
Qed.

Lemma place_bump_right r d delta :
  bumpx (place b i r d) (icn b i RIGHT) delta = place b i (r + delta) d.
Proof. by rewrite (place_bump_gen RIGHT). Qed.

Lemma place_bump_down r d delta :
  bumpx (place b i r d) (icn b i DOWN) delta = place b i r (d + delta).
Proof. by rewrite (place_bump_gen DOWN). Qed.

(** What the split [(r, d)] looks like from one of the two forward
    connections of the island. *)
Lemma place_slot_facts dd r d k j :
  split_ok b i r d → icn b i dd = CAt k → ends b k i j dd →
  let s := place b i r d in
  let m := if decide (dd = RIGHT) then r else d in
  cbr s k = m ∧ ipend s i = ipend b i - r - d ∧ ipend s j = ipend b j - m ∧
  ∀ y, y ∈ ccross b k → cnt s y = cnt b y.
Proof.
  intros (Hr & Hd & Hsum) E En s m. subst s m.
  pose proof En as [Ef Elt Eb Ep1 Ep2 _ _ _ _].
  assert (Hk : (k < num_connections b)%nat).
  { pose proof (g_slot b G i dd Hi) as Hs. rewrite E in Hs. tauto. }
  rewrite cbr_place, !ipend_place by done.
  destruct dd; try done; simpl.
  - (* RIGHT *)
    rewrite E in *. rewrite !(at_end_ends b i Hi k j RIGHT) by done.
    assert (cbr b k = 0) as ->.
    { destruct U as [U1 _]. by rewrite E, cnt_CAt in U1. }
    unfold on at 1. rewrite decide_True by done.
    destruct (fslot_down b G i Hi U) as [E'|k' j' E' Hk' En' Hz']; rewrite E' in *.
    + simpl in *. assert (d = 0) as -> by lia. unfold on. simpl.
      rewrite !decide_True by auto. split_and!; try lia.
      intros y Hy. rewrite cnt_place, E, E' by done.
      rewrite decide_False. { rewrite decide_False by naive_solver. lia. }
      intros [-> _]. by apply (no_self_cross b k G Hk).
    + rewrite !(at_end_ends b i Hi k' j' DOWN) by done.
      destruct (forward_ends_differ b G i k k' j j' En En') as (? & ? & ?).
      pose proof (forward_slots_differ b G i k k' E E').
      destruct (forward_not_crossing b G i k k' Hi E E') as [N1 N2].
      unfold on. rewrite decide_False by congruence.
      rewrite !decide_True by auto.
      rewrite (decide_False (P := j = i ∨ j = j')) by naive_solver.
      rewrite ?decide_True by auto.
      split_and!; try lia.
      intros y Hy. rewrite cnt_place, E, E' by done.
      rewrite decide_False. { rewrite decide_False; [lia|]. intros [-> _]. done. }
      intros [-> _]. by apply (no_self_cross b k G Hk).
  - (* DOWN *)
    rewrite E in *. rewrite !(at_end_ends b i Hi k j DOWN) by done.
    assert (cbr b k = 0) as ->.
    { destruct U as [_ U1]. by rewrite E, cnt_CAt in U1. }
    unfold on at 2. rewrite decide_True by done.
    destruct (fslot_right b G i Hi U) as [E'|k' j' E' Hk' En' Hz']; rewrite E' in *.
    + simpl in *. assert (r = 0) as -> by lia. unfold on. simpl.
      rewrite !decide_True by auto. split_and!; try lia.
      intros y Hy. rewrite cnt_place, E, E' by done.
      rewrite decide_False by naive_solver. rewrite decide_False; [lia|].
      intros [-> _]. by apply (no_self_cross b k G Hk).
    + rewrite !(at_end_ends b i Hi k' j' RIGHT) by done.
      destruct (forward_ends_differ b G i k' k j' j En' En) as (? & ? & ?).
      pose proof (forward_slots_differ b G i k' k E' E).
      destruct (forward_not_crossing b G i k' k Hi E' E) as [N1 N2].
      unfold on. rewrite decide_False by congruence.
      rewrite !decide_True by auto.
      rewrite (decide_False (P := j = i ∨ j = j')) by naive_solver.
      rewrite ?decide_True by auto.
      split_and!; try lia.
      intros y Hy. rewrite cnt_place, E, E' by done.
      rewrite decide_False. { rewrite decide_False; [lia|]. intros [-> _].
        by apply (no_self_cross b k G Hk). }
      intros [-> _]. done.
Qed.

(** [add_bridge] and [del_bridge] on a forward connection of the island,
    in a split. *)
Lemma slot_step dd r d :
  is_forward dd = true → split_ok b i r d →
  let s := place b i r d in
  let m := if decide (dd = RIGHT) then r else d in
  add_bridge s (icn b i dd) =
    Some (if decide (m < cap b (icn b i dd) ∧ r + d < ipend b i)
          then (bumpx s (icn b i dd) 1, true) else (s, false)) ∧
  del_bridge s (icn b i dd) =
    Some (if decide (m = 0) then (s, false) else (bumpx s (icn b i dd) (-1), true)).
Proof.
  intros Hf Hok s m.
  pose proof (graph_ok_place b G i r d) as G'.
  pose proof (state_ok_place b G S i Hi U r d Hok) as S'.
  pose proof Hok as (Hr & Hd & Hsum).
  assert (Hm : 0 ≤ m ≤ cap b (icn b i dd)).
  { subst m. destruct dd; try done; simpl; done. }
  destruct (forward_slot b G i dd Hi Hf) as [E|(k & j & E & Hk & En)].
  - rewrite E in *. simpl in Hm. fold s in G'.
    rewrite add_bridge_COut, del_bridge_COut by done.
    rewrite decide_False by (simpl; lia). rewrite decide_True by lia. done.
  - destruct (place_slot_facts dd r d k j Hok E En) as (F1 & F2 & F3 & F4).
    fold s in F1, F2, F3, F4, G', S'. fold m in F1, F3.
    pose proof (ends_same_static _ _ k i j dd (HS r d) En) as En'. fold s in En'.
    assert (Hk' : (k < num_connections s)%nat)
      by (by unfold s; rewrite (ss_num_connections _ _ (HS r d))).
    rewrite E in *.
    rewrite (add_bridge_CAt s G' S' k i j dd Hk' En').
    rewrite (del_bridge_CAt s G' S' k i j dd Hk' En').
    rewrite (bumpx_ends s k i j dd _ En').
    rewrite (bumpx_ends s k i j dd _ En').
    rewrite F1. split; [|done].
    rewrite (cap_ends b S i Hi k j dd En) in Hm |- *.
    assert (HF : Forall (λ x, cnt s x = 0) (ccross s k) ↔
                 Forall (λ y, cnt b y = 0) (ccross b k)).
    { unfold s at 2. rewrite (ss_ccross _ _ (HS r d)). rewrite !Forall_forall.
      split; intros H y Hy; specialize (H y Hy); rewrite F4 in *; done. }
    pose proof (s_pend_pos b S j ltac:(destruct En; lia)) as Hpj.
    unfold MAX_CONNECTION_BRIDGES in *.
    destruct (decide (addable s k i j)) as [A|A]; unfold addable in A;
      rewrite F1, F2, F3, HF in A; unfold MAX_CONNECTION_BRIDGES in A.
    + rewrite decide_True; [done|]. destruct A as (? & ? & ? & A).
      destruct (decide (Forall (λ y, cnt b y = 0) (ccross b k))); [lia|done].
    + rewrite decide_False; [done|]. intros [H1 H2]. apply A.
      destruct (decide (Forall (λ y, cnt b y = 0) (ccross b k))); [|lia].
      split_and!; try done; lia.
Qed.

Lemma add_right r d :
  split_ok b i r d →
  add_bridge (place b i r d) (icn b i RIGHT) =
    Some (if decide (r < cap b (icn b i RIGHT) ∧ r + d < ipend b i)
          then (place b i (r + 1) d, true) else (place b i r d, false)).
Proof.
  intros H. destruct (slot_step RIGHT r d eq_refl H) as [-> _].
  by rewrite place_bump_right.
Qed.

Lemma add_down r d :
  split_ok b i r d →
  add_bridge (place b i r d) (icn b i DOWN) =
    Some (if decide (d < cap b (icn b i DOWN) ∧ r + d < ipend b i)
          then (place b i r (d + 1), true) else (place b i r d, false)).
Proof.
  intros H. destruct (slot_step DOWN r d eq_refl H) as [-> _].
  by rewrite place_bump_down.
Qed.

Lemma del_right r d :
  split_ok b i r d →
  del_bridge (place b i r d) (icn b i RIGHT) =
    Some (if decide (r = 0) then (place b i r d, false) else (place b i (r - 1) d, true)).
Proof.
  intros H. destruct (slot_step RIGHT r d eq_refl H) as [_ ->].
  by rewrite place_bump_right.
Qed.

Lemma del_down r d :
  split_ok b i r d →
  del_bridge (place b i r d) (icn b i DOWN) =
    Some (if decide (d = 0) then (place b i r d, false) else (place b i r (d - 1), true)).
Proof.
  intros H. destruct (slot_step DOWN r d eq_refl H) as [_ ->].
  by rewrite place_bump_down.
Qed.

Lemma at_end_self dd delta :
  is_forward dd = true → 0 ≤ delta ≤ cap b (icn b i dd) →
  at_end b (icn b i dd) i delta = delta.
Proof.
  intros Hf Hd.
  destruct (forward_slot b G i dd Hi Hf) as [E|(k & j & E & Hk & En)]; rewrite E in *.
  - simpl in *. lia.
  - rewrite (at_end_ends b i Hi k j dd) by done. by rewrite decide_True by auto.
Qed.

Lemma ipend_place_self r d :
  split_ok b i r d → ipend (place b i r d) i = ipend b i - r - d.
Proof.
  intros (Hr & Hd & _). rewrite ipend_place by done.
  by rewrite (at_end_self RIGHT), (at_end_self DOWN).
Qed.

(** The island record that the code reads in a split. *)
Lemma get_island_place r d :
  split_ok b i r d →
  ∃ x, get_island (place b i r d) (IAt i) = Some x ∧
       pendbridges x = ipend b i - r - d ∧
       ∀ dd, slot_get (i_connections x) dd = icn b i dd.
Proof.
  intros H.
  assert (Hi' : (i < num_islands (place b i r d))%nat)
    by (by rewrite (ss_num_islands _ _ (HS r d))).
  destruct (island_lookup _ i Hi') as [x Hx]. exists x. split; [done|].
  destruct (island_fields _ i x Hx) as (_ & _ & _ & Fp & _ & Fc).
  split.
  - by rewrite <- Fp, ipend_place_self.
  - intros dd. by rewrite <- Fc, (ss_icn _ _ (HS r d)).
Qed.

Lemma split_ok_zero : split_ok b i 0 0.
Proof.
  pose proof (cap_range b i Hi (icn b i RIGHT)).
  pose proof (cap_range b i Hi (icn b i DOWN)).
  pose proof (s_pend_pos b S i Hi). unfold split_ok. lia.
Qed.
End steps.

(** * The loops of [fill_bridges] and [reorder_bridges] in closed form *)

Section loops.
Context (b : hboard) (G : graph_ok b) (S : state_ok b).
Context (i : nat) (Hi : (i < num_islands b)%nat) (U : untouched b i).
Local Set Default Proof Using "b G S i Hi U".

Lemma split_ok_le r d r' d' :
  split_ok b i r d → 0 ≤ r' ≤ r → 0 ≤ d' ≤ d → split_ok b i r' d'.
Proof. unfold split_ok. lia. Qed.

Lemma del_loop_right fuel r d :
  split_ok b i r d → r < Z.of_nat fuel →
  del_bridges_loop fuel (place b i r d) (icn b i RIGHT) = Some (place b i 0 d).
Proof.
  revert r. induction fuel as [|f IH]; intros r H Hf.
  { destruct H as [? _]. lia. }
  cbn [del_bridges_loop]. rewrite (del_right b G S i Hi U) by done.
  destruct (decide (r = 0)) as [->|Hr]; simpl; [done|].
  apply IH; [|lia]. apply (split_ok_le r d); [done| |]; destruct H as (? & ? & ?); lia.
Qed.

Lemma del_loop_down fuel r d :
  split_ok b i r d → d < Z.of_nat fuel →
  del_bridges_loop fuel (place b i r d) (icn b i DOWN) = Some (place b i r 0).
Proof.
  revert d. induction fuel as [|f IH]; intros d H Hf.
  { destruct H as (_ & ? & _). lia. }
  cbn [del_bridges_loop]. rewrite (del_down b G S i Hi U) by done.
  destruct (decide (d = 0)) as [->|Hr]; simpl; [done|].
  apply IH; [|lia]. apply (split_ok_le r d); [done| |]; destruct H as (? & ? & ?); lia.
Qed.

Lemma split_small r d : split_ok b i r d → r ≤ 2 ∧ d ≤ 2.
Proof.
  intros (? & ? & _).
  pose proof (cap_range b i Hi (icn b i RIGHT)).
  pose proof (cap_range b i Hi (icn b i DOWN)).
  unfold MAX_CONNECTION_BRIDGES in *. lia.
Qed.

Lemma del_all_right r d :
  split_ok b i r d →
  del_all_bridges (place b i r d) (icn b i RIGHT) = Some (place b i 0 d).
Proof.
  intros H. apply del_loop_right; [done|]. destruct (split_small r d H). lia.
Qed.

Lemma del_all_down r d :
  split_ok b i r d →
  del_all_bridges (place b i r d) (icn b i DOWN) = Some (place b i r 0).
Proof.
  intros H. apply del_loop_down; [done|]. destruct (split_small r d H). lia.
Qed.

Lemma fill_loop_down fuel r d :
  split_ok b i r d →
  Z.min (cap b (icn b i DOWN)) (ipend b i - r) - d < Z.of_nat fuel →
  fill_bridges_loop fuel (place b i r d) (IAt i) (dir_index DOWN) =
    Some (place b i r (Z.min (cap b (icn b i DOWN)) (ipend b i - r))).
Proof.
  revert d. induction fuel as [|f IH]; intros d H Hf.
  { destruct H as (? & ? & ?). lia. }
  cbn [fill_bridges_loop].
  destruct (get_island_place b G S i Hi U r d H) as (x & -> & Hp & Hc).
  cbn [mbind option_bind]. rewrite Hp.
  pose proof H as (Hr & Hd & Hs).
  destruct (Z.eqb_spec (ipend b i - r - d) 0) as [Hz|Hz].
  { do 2 f_equal. lia. }
  change (dir_of_index (dir_index DOWN)) with (Some DOWN).
  change (dir_index DOWN + 1 =? DIRECTIONS) with true.
  cbn [mbind option_bind]. rewrite Hc.
  rewrite (add_down b G S i Hi U) by done.
  destruct (decide (d < cap b (icn b i DOWN) ∧ r + d < ipend b i)) as [Hc'|Hc'];
    cbn [mbind option_bind].
  - apply IH; [unfold split_ok; lia|lia].
  - do 2 f_equal. lia.
Qed.

Lemma fill_loop_right fuel r :
  split_ok b i r 0 →
  fill_right b i - r + 1 + fill_down b i < Z.of_nat fuel →
  fill_bridges_loop fuel (place b i r 0) (IAt i) (dir_index RIGHT) =
    Some (place b i (fill_right b i) (fill_down b i)).
Proof.
  unfold fill_down, fill_right.
  revert r. induction fuel as [|f IH]; intros r H Hf.
  { destruct H as (? & ? & ?).  pose proof (cap_range b i Hi (icn b i DOWN)). lia. }
  cbn [fill_bridges_loop].
  destruct (get_island_place b G S i Hi U r 0 H) as (x & -> & Hp & Hc).
  cbn [mbind option_bind]. rewrite Hp.
  pose proof H as (Hr & Hd & Hs).
  pose proof (cap_range b i Hi (icn b i DOWN)).
  destruct (Z.eqb_spec (ipend b i - r - 0) 0) as [Hz|Hz].
  { do 2 f_equal; lia. }
  change (dir_of_index (dir_index RIGHT)) with (Some RIGHT).
  change (dir_index RIGHT + 1 =? DIRECTIONS) with false.
  change (dir_index RIGHT + 1) with (dir_index DOWN).
  cbn [mbind option_bind]. rewrite Hc.
  rewrite (add_right b G S i Hi U) by done.
  destruct (decide (r < cap b (icn b i RIGHT) ∧ r + 0 < ipend b i)) as [Hc'|Hc'];
    cbn [mbind option_bind].
  - apply IH; [unfold split_ok; lia|lia].
  - assert (Z.min (cap b (icn b i RIGHT)) (ipend b i) = r) as -> by lia.
    apply fill_loop_down; [done|lia].
Qed.

Lemma split_ok_fill : split_ok b i (fill_right b i) (fill_down b i).
Proof.
  pose proof (cap_range b i Hi (icn b i RIGHT)).
  pose proof (cap_range b i Hi (icn b i DOWN)).
  pose proof (s_pend_pos b S i Hi). unfold split_ok, fill_down, fill_right. lia.
Qed.

Lemma fill_loop_start :
  fill_bridges_loop fill_bridges_fuel b (IAt i) (dir_index RIGHT) =
    Some (place b i (fill_right b i) (fill_down b i)).
Proof.
  pose proof (fill_loop_right fill_bridges_fuel 0 (split_ok_zero b G S i Hi U)) as H.
  rewrite place_zero in H. apply H.
  destruct (split_small _ _ split_ok_fill). unfold fill_bridges_fuel. lia.
Qed.

(** [fill_bridges] on an untouched island. *)
Lemma fill_bridges_closed :
  fill_bridges b (IAt i) =
    Some (if decide (fill_right b i + fill_down b i = ipend b i)
          then (place b i (fill_right b i) (fill_down b i), true)
          else (b, false)).
Proof.
  unfold fill_bridges. rewrite fill_loop_start. cbn [mbind option_bind].
  pose proof split_ok_fill as H.
  destruct (get_island_place b G S i Hi U _ _ H) as (x & -> & Hp & Hc).
  cbn [mbind option_bind]. rewrite Hp.
  destruct (Z.eqb_spec (ipend b i - fill_right b i - fill_down b i) 0) as [Hz|Hz].
  { by rewrite decide_True by lia. }
  rewrite decide_False by lia. rewrite !Hc.
  rewrite del_all_right by done. cbn [mbind option_bind].
  assert (H0 : split_ok b i 0 (fill_down b i)).
  { apply (split_ok_le _ _ _ _ H); destruct H as (? & ? & ?); lia. }
  destruct (get_island_place b G S i Hi U _ _ H0) as (x' & -> & _ & Hc').
  cbn [mbind option_bind]. rewrite Hc'.
  rewrite del_all_down by done. cbn [mbind option_bind].
  by rewrite place_zero.
Qed.




(** [reorder_bridges] on a split. *)
Lemma reorder_bridges_closed r d :
  split_ok b i r d →
  reorder_bridges (place b i r d) (IAt i) =
    Some (if decide (0 < r ∧ d < cap b (icn b i DOWN))
          then (place b i (r - 1) (d + 1), true) else (b, false)).
Proof.
  intros H. pose proof H as (Hr & Hd & Hs). unfold reorder_bridges.
  destruct (get_island_place b G S i Hi U _ _ H) as (x & -> & _ & Hc).
  cbn [mbind option_bind]. rewrite Hc.
  rewrite (del_right b G S i Hi U) by done.
  destruct (decide (r = 0)) as [->|Hr0]; cbn [mbind option_bind].
  - destruct (get_island_place b G S i Hi U _ _ H) as (x1 & -> & _ & Hc1).
    cbn [mbind option_bind]. rewrite Hc1, del_all_down by done.
    cbn [mbind option_bind]. rewrite place_zero.
    by rewrite decide_False by lia.
  - assert (H1 : split_ok b i (r - 1) d) by (unfold split_ok; lia).
    destruct (get_island_place b G S i Hi U _ _ H1) as (x1 & -> & _ & Hc1).
    cbn [mbind option_bind]. rewrite Hc1.
    rewrite (add_down b G S i Hi U) by done.
    destruct (decide (d < cap b (icn b i DOWN) ∧ r - 1 + d < ipend b i)) as [Hc'|Hc'];
      cbn [mbind option_bind].
    + by rewrite decide_True by lia.
    + destruct (get_island_place b G S i Hi U _ _ H1) as (x2 & -> & _ & Hc2).
      cbn [mbind option_bind]. rewrite Hc2, del_all_right by done.
      cbn [mbind option_bind].
      assert (H2 : split_ok b i 0 d) by (unfold split_ok; lia).
      destruct (get_island_place b G S i Hi U _ _ H2) as (x3 & -> & _ & Hc3).
      cbn [mbind option_bind]. rewrite Hc3, del_all_down by done.
      cbn [mbind option_bind]. rewrite place_zero.
      by rewrite decide_False by lia.
Qed.
End loops.

(** * The states of the constraint engine *)

Lemma same_static_refl b : same_static b b.
Proof. by split. Qed.

Lemma same_static_trans b1 b2 b3 :
  same_static b1 b2 → same_static b2 b3 → same_static b1 b3.
Proof.
  intros [] []. split; intros; etrans; eauto.
Qed.

Lemma valid_cref_same_static b b' c : same_static b b' → valid_cref b c → valid_cref b' c.
Proof. intros HS. destruct c; simpl; try done. by rewrite (ss_num_connections _ _ HS). Qed.

(** The two calls on a valid connection pointer, with the invariants. *)
Lemma engine_call_ok b c :
  graph_ok b → state_ok b → valid_cref b c →
  ∃ b1 r1 b2 r2,
    add_bridge b c = Some (b1, r1) ∧ del_bridge b c = Some (b2, r2) ∧
    graph_ok b1 ∧ state_ok b1 ∧ same_static b b1 ∧
    graph_ok b2 ∧ state_ok b2 ∧ same_static b b2.
Proof.
  intros G S V. destruct c as [| |k]; [done| |].
  - exists b, false, b, false.
    rewrite add_bridge_COut, del_bridge_COut by done.
    split_and!; auto using same_static_refl.
  - simpl in V. destruct (connection_ends b G k V) as (a & c & d & E).
    rewrite (add_bridge_CAt b G S k a c d V E), (del_bridge_CAt b G S k a c d V E).
    destruct (decide (addable b k a c)) as [A|A];
      destruct (decide (cbr b k = 0)) as [Z|Z];
      eexists _, _, _, _; (split; [done|]); (split; [done|]);
      split_and!; auto using same_static_refl, same_static_bump, graph_ok_bump;
      try (apply graph_ok_bump; done);
      try (apply (state_ok_bump b k a c d); try done; auto).
Qed.

Lemma engine_step_ok b op :
  graph_ok b → state_ok b → valid_cref b (call_target op) →
  ∃ b', engine_step b op = Some b' ∧ graph_ok b' ∧ state_ok b' ∧ same_static b b'.
Proof.
  intros G S V.
  destruct (engine_call_ok b _ G S V)
    as (b1 & r1 & b2 & r2 & H1 & H2 & ? & ? & ? & ? & ? & ?).
  destruct op; simpl in *; [rewrite H1|rewrite H2]; simpl; eauto.
Qed.

Lemma engine_run_ok ops : ∀ b,
  graph_ok b → state_ok b → Forall (fun op => valid_cref b (call_target op)) ops →
  ∃ b', engine_run b ops = Some b' ∧ graph_ok b' ∧ state_ok b' ∧ same_static b b'.
Proof.
  induction ops as [|op ops IH]; intros b G S V.
  { exists b. simpl. auto using same_static_refl. }
  apply Forall_cons in V as [V1 V2].
  destruct (engine_step_ok b op G S V1) as (b1 & E1 & G1 & S1 & HS1).
  destruct (IH b1 G1 S1) as (b' & E' & G' & S' & HS').
  { eapply Forall_impl; [exact V2|]. intros x. by apply valid_cref_same_static. }
  exists b'. simpl. rewrite E1. simpl. split_and!; try done.
  by apply (same_static_trans _ b1).
Qed.

Lemma built_state_ok b : built b → graph_ok b ∧ state_ok b.
Proof.
  intros H. destruct (built_ok b H) as (G & F & _). split; [done|].
  by apply fresh_state_ok.
Qed.

Lemma engine_state_ok b : engine_state b → graph_ok b ∧ state_ok b.
Proof.
  intros (b0 & ops & B & V & R). destruct (built_state_ok b0 B) as [G S].
  destruct (engine_run_ok ops b0 G S V) as (b' & E & ? & ? & _).
  by simplify_eq.
Qed.

Lemma built_engine_state b : built b → engine_state b.
Proof. intros H. exists b, []. by split_and!. Qed.

(** * The connectivity verifier *)

(** ** Boards that differ in the marks only *)

Lemma vframe_refl b : vframe b b.
Proof. split; [by destruct b|done]. Qed.

Lemma vframe_trans b1 b2 b3 : vframe b1 b2 → vframe b2 b3 → vframe b1 b3.
Proof.
  intros [H1 L1] [H2 L2]. split; [|congruence].
  rewrite H2 at 1. rewrite H1 at 1. done.
Qed.

Lemma vframe_set_visitedlimit b v : vframe b (set_visitedlimit v b).
Proof. split; [by destruct b|done]. Qed.

Lemma vframe_set_visitedmatrix b m :
  length m = length (visitedmatrix b) → vframe b (set_visitedmatrix m b).
Proof. intros H. split; [by destruct b|done]. Qed.

Section vframe.
Context (b b' : hboard) (F : vframe b b').
Local Set Default Proof Using "b b' F".

Lemma vframe_islands : islands b' = islands b.
Proof. destruct F as [-> _]. done. Qed.

Lemma vframe_connections : connections b' = connections b.
Proof. destruct F as [-> _]. done. Qed.

Lemma vframe_static :
  rows b' = rows b ∧ cols b' = cols b ∧ out_island_st b' = out_island_st b ∧
  out_connection_st b' = out_connection_st b ∧
  max_visited_size b' = max_visited_size b.
Proof. destruct F as [-> _]. done. Qed.

Lemma vframe_num_islands : num_islands b' = num_islands b.
Proof. unfold num_islands. by rewrite vframe_islands. Qed.

Lemma vframe_get_island r : get_island b' r = get_island b r.
Proof.
  destruct vframe_static as (_ & _ & Ho & _).
  destruct r; simpl; by rewrite ?vframe_islands, ?Ho.
Qed.

Lemma vframe_get_connection c : get_connection b' c = get_connection b c.
Proof.
  destruct vframe_static as (_ & _ & _ & Ho & _).
  destruct c; simpl; by rewrite ?vframe_connections, ?Ho.
Qed.

Lemma vframe_pos i : pos b' i = pos b i.
Proof.
  destruct vframe_static as (_ & Hc & _).
  unfold pos, irow, icol. by rewrite vframe_islands, Hc.
Qed.

Lemma vframe_inb i d : inb b' i d = inb b i d.
Proof. unfold inb. by rewrite vframe_islands. Qed.

Lemma vframe_icn i d : icn b' i d = icn b i d.
Proof. unfold icn. by rewrite vframe_islands. Qed.

Lemma vframe_cnt c : cnt b' c = cnt b c.
Proof. unfold cnt, read_bridges. by rewrite vframe_get_connection. Qed.

Lemma vframe_adj i j : adj b' i j ↔ adj b i j.
Proof.
  unfold adj. split; intros (d & H1 & H2); exists d.
  - by rewrite vframe_inb, vframe_icn, vframe_cnt in *.
  - by rewrite vframe_inb, vframe_icn, vframe_cnt.
Qed.

Lemma vframe_rtc i j : rtc (adj b') i j ↔ rtc (adj b) i j.
Proof.
  split; induction 1 as [|x y z H _ IH]; try done.
  - apply vframe_adj in H. by eapply rtc_l.
  - apply vframe_adj in H. by eapply rtc_l.
Qed.

Lemma vframe_same_static : same_static b b'.
Proof.
  destruct vframe_static as (? & ? & ? & ? & _).
  split; try done; intros;
    unfold num_islands, num_connections, irow, icol, iexp, inb, icn, cp1, cp2, ccross;
    by rewrite ?vframe_islands, ?vframe_connections.
Qed.

Lemma vframe_graph_ok : graph_ok b → graph_ok b'.
Proof. apply graph_ok_same_static, vframe_same_static. Qed.
End vframe.

(** ** Positions *)

Section positions.
Context (b : hboard) (G : graph_ok b).
Local Set Default Proof Using "b G".

Lemma pos_range i :
  (i < num_islands b)%nat → 0 ≤ pos b i < rows b * cols b.
Proof.
  intros Hi. destruct (g_pos b G i Hi) as (? & ? & _). unfold pos.
  assert (irow b i * cols b ≤ (rows b - 1) * cols b) by nia.
  assert (0 ≤ irow b i * cols b) by nia. lia.
Qed.

Lemma pos_inj i j :
  (i < num_islands b)%nat → (j < num_islands b)%nat → pos b i = pos b j → i = j.
Proof.
  intros Hi Hj H.
  destruct (g_pos b G i Hi) as (? & ? & _). destruct (g_pos b G j Hj) as (? & ? & _).
  unfold pos in H.
  assert (irow b i = irow b j) as Hr.
  { destruct (Z.lt_trichotomy (irow b i) (irow b j)) as [?|[?|?]]; [|done|].
    - assert ((irow b i + 1) * cols b ≤ irow b j * cols b) by nia. lia.
    - assert ((irow b j + 1) * cols b ≤ irow b i * cols b) by nia. lia. }
  assert (icol b i = icol b j) as Hc by (rewrite Hr in H; lia).
  destruct (Nat.lt_trichotomy i j) as [Hlt|[?|Hlt]]; [|done|].
  - destruct (g_sorted b G i j Hlt Hj) as [?|[_ ?]]; lia.
  - destruct (g_sorted b G j i Hlt Hi) as [?|[_ ?]]; lia.
Qed.
End positions.

(** ** Counting with filters *)

Lemma filter_length_le {A} (P Q : A → Prop) `{!∀ x, Decision (P x)} `{!∀ x, Decision (Q x)}
    (l : list A) :
  (∀ x, x ∈ l → Q x → P x) → (length (filter Q l) ≤ length (filter P l))%nat.
Proof.
  induction l as [|a l IH]; intros HH; [done|].
  rewrite !filter_cons.
  assert (IH' : (length (filter Q l) ≤ length (filter P l))%nat).
  { apply IH. intros x Hx. apply HH. by right. }
  destruct (decide (Q a)) as [Hq|Hq]; destruct (decide (P a)) as [Hp|Hp]; simpl; try lia.
  exfalso. apply Hp, HH; [by left|done].
Qed.

Lemma filter_length_remove {A} `{!EqDecision A} (P Q : A → Prop) `{!∀ x, Decision (P x)}
    `{!∀ x, Decision (Q x)} (l : list A) (i : A) :
  NoDup l → i ∈ l → P i → (∀ x, x ∈ l → (Q x ↔ P x ∧ x ≠ i)) →
  length (filter P l) = S (length (filter Q l)).
Proof.
  induction l as [|a l IH]; intros Hnd Hi Hp HH; [by apply elem_of_nil in Hi|].
  apply NoDup_cons in Hnd as [Ha Hnd].
  rewrite !filter_cons.
  destruct (decide (a = i)) as [->|Hne].
  - rewrite decide_True by done.
    rewrite decide_False by (intros Hq; apply HH in Hq as [_ ?]; [done|by left]).
    simpl. f_equal. apply Nat.le_antisymm; apply filter_length_le; intros x Hx Hpq.
    + apply HH; [by right|]. split; [done|]. intros ->. done.
    + apply HH in Hpq as [? _]; [done|by right].
  - apply elem_of_cons in Hi as [?|Hi]; [done|].
    assert (IH' : length (filter P l) = S (length (filter Q l))).
    { apply IH; try done. intros x Hx. apply HH. by right. }
    destruct (decide (P a)) as [Hpa|Hpa].
    + rewrite decide_True by (apply HH; [by left|done]). simpl. by rewrite IH'.
    + rewrite decide_False; [done|]. intros Hq. apply HH in Hq as [? _]; [done|by left].
Qed.

Lemma filter_length_nil {A} (P : A → Prop) `{!∀ x, Decision (P x)} (l : list A) :
  length (filter P l) = 0%nat ↔ ∀ x, x ∈ l → ¬ P x.
Proof.
  rewrite length_zero_iff_nil. split.
  - intros HH x Hx Hp. assert (x ∈ filter P l) as Hin by (by apply list_elem_of_filter).
    rewrite HH in Hin. by apply elem_of_nil in Hin.
  - intros HH. destruct (filter P l) as [|a l'] eqn:E; [done|].
    assert (a ∈ filter P l) as [? ?]%list_elem_of_filter by (rewrite E; by left).
    exfalso. by eapply HH.
Qed.

(** ** Marking one island *)

Section marking.
Context (b : hboard) (G : graph_ok b) (Z : size_ok b) (L : limit_ok b).
Context (i : nat) (Hi : (i < num_islands b)%nat).
Local Set Default Proof Using "b G Z L i Hi".

Lemma pos_index : (0 ≤ pos b i) ∧ (Z.to_nat (pos b i) < length (visitedmatrix b))%nat.
Proof. pose proof (pos_range b G i Hi). unfold size_ok in Z. lia. Qed.

Lemma visit_read :
  ∃ x, get_island b (IAt i) = Some x ∧ row x * cols b + col x = pos b i ∧
       (∀ d, slot_get (i_islands x) d = inb b i d) ∧
       (∀ d, slot_get (i_connections x) d = icn b i d).
Proof.
  destruct (island_lookup b i Hi) as [x Hx]. exists x.
  destruct (island_fields b i x Hx) as (Fr & Fc & _ & _ & Fn & Fs).
  split_and!; try done. unfold pos. by rewrite Fr, Fc.
Qed.

Lemma visited_get_pos :
  visited_get b (pos b i) = Some (bool_decide (marked b i)).
Proof.
  destruct pos_index as [H0 Hl]. unfold visited_get.
  destruct (Z.ltb_spec (pos b i) 0) as [?|_]; [lia|].
  destruct (lookup_lt_is_Some_2 _ _ Hl) as [v Hv]. rewrite Hv. f_equal.
  destruct v.
  - by rewrite bool_decide_true.
  - rewrite bool_decide_false; [done|]. unfold marked. by rewrite Hv.
Qed.

Lemma visited_set_pos :
  visited_set b (pos b i) true =
    Some (set_visitedmatrix (<[Z.to_nat (pos b i) := true]> (visitedmatrix b)) b).
Proof.
  destruct pos_index as [H0 Hl]. unfold visited_set.
  destruct (Z.ltb_spec (pos b i) 0) as [?|_]; [lia|]. by rewrite decide_True.
Qed.

Lemma mark_matrix :
  visitedmatrix (mark b i) = <[Z.to_nat (pos b i) := true]> (visitedmatrix b).
Proof. unfold mark. by case_match. Qed.

Lemma vframe_mark : vframe b (mark b i).
Proof.
  split; [|by rewrite mark_matrix, length_insert].
  unfold mark. case_match; by destruct b.
Qed.

Lemma size_ok_mark : size_ok (mark b i).
Proof.
  destruct (vframe_static _ _ vframe_mark) as (Hr & Hc & _).
  unfold size_ok. by rewrite Hr, Hc, mark_matrix, length_insert.
Qed.

Lemma marked_mark j :
  (j < num_islands b)%nat → marked (mark b i) j ↔ marked b j ∨ j = i.
Proof.
  intros Hj. destruct pos_index as [H0 Hl].
  pose proof (pos_range b G j Hj) as Hpj.
  unfold marked. rewrite (vframe_pos _ _ vframe_mark), mark_matrix.
  destruct (decide (j = i)) as [->|Hne].
  - rewrite list_lookup_insert_eq by done. tauto.
  - rewrite list_lookup_insert_ne; [tauto|].
    intros Heq. apply Hne. symmetry. apply (pos_inj b G); try done. lia.
Qed.

Lemma limit_ok_mark : limit_ok (mark b i).
Proof.
  destruct L as [L0 L1]. destruct pos_index as [H0 Hl].
  assert (Hm : ∀ p, visitedmatrix (mark b i) !! p = Some true →
               p = Z.to_nat (pos b i) ∨ visitedmatrix b !! p = Some true).
  { intros p. rewrite mark_matrix.
    destruct (decide (p = Z.to_nat (pos b i))) as [->|Hne]; [by left|].
    rewrite list_lookup_insert_ne by done. by right. }
  assert (Hlen : length (visitedmatrix (mark b i)) = length (visitedmatrix b))
    by (by rewrite mark_matrix, length_insert).
  unfold limit_ok. rewrite Hlen. clear Hlen.
  unfold mark in *. simpl in *.
  destruct (Z.ltb_spec (visitedlimit b) (pos b i + 1)); split; simpl; try lia;
    intros p [->|Hp%L1]%Hm; lia.
Qed.

Lemma unmarked_mark :
  ¬ marked b i → length (unmarked b) = S (length (unmarked (mark b i))).
Proof.
  intros Hn. unfold unmarked. rewrite (vframe_num_islands _ _ vframe_mark).
  apply (filter_length_remove _ _ _ i).
  - apply NoDup_seq.
  - apply elem_of_seq. lia.
  - done.
  - intros x [_ Hx]%elem_of_seq. rewrite marked_mark by lia. 
    destruct (decide (x = i)); tauto.
Qed.
End marking.

(** ** The traversal *)

Lemma marked_mark_mono b i j :
  (Z.to_nat (pos b i) < length (visitedmatrix b))%nat →
  marked b j → marked (mark b i) j.
Proof.
  intros Hl. unfold marked.
  assert (visitedmatrix (mark b i) = <[Z.to_nat (pos b i) := true]> (visitedmatrix b)) as ->
    by (unfold mark; by case_match).
  assert (pos (mark b i) j = pos b j) as ->.
  { unfold mark, pos, irow, icol. by case_match. }
  destruct (decide (Z.to_nat (pos b j) = Z.to_nat (pos b i))) as [->|Hne].
  - by rewrite list_lookup_insert_eq.
  - by rewrite list_lookup_insert_ne.
Qed.

Lemma size_ok_vframe b b' : vframe b b' → size_ok b → size_ok b'.
Proof.
  intros F Z. destruct (vframe_static _ _ F) as (Hr & Hc & _). destruct F as [_ Hl].
  unfold size_ok. by rewrite Hr, Hc, Hl.
Qed.

Lemma unmarked_le b b' :
  vframe b b' → (∀ j, marked b j → marked b' j) →
  (length (unmarked b') ≤ length (unmarked b))%nat.
Proof.
  intros F M. unfold unmarked. rewrite (vframe_num_islands _ _ F).
  apply filter_length_le. intros x _ Hn Hm. by apply Hn, M.
Qed.

(** The connection of an island in a direction, as the traversal reads it. *)
Lemma visit_connection b i d :
  graph_ok b → (i < num_islands b)%nat →
  ∃ c, get_connection b (icn b i d) = Some c ∧ bridges c = cnt b (icn b i d).
Proof.
  intros G Hi. pose proof (g_slot b G i d Hi) as Hs.
  destruct (icn b i d) as [| |k] eqn:E; [done| |].
  - exists (out_connection_st b). split; [done|].
    rewrite (cnt_COut b G). by rewrite (g_out_connection b G).
  - destruct Hs as [Hk _]. destruct (connection_lookup b k Hk) as [y Hy].
    exists y. split; [done|]. rewrite cnt_CAt.
    by destruct (connection_fields b k y Hy) as (-> & _).
Qed.

(** A bridged connection leads to an island. *)
Lemma bridged_neighbour b i d :
  graph_ok b → (i < num_islands b)%nat → cnt b (icn b i d) ≠ 0 →
  ∃ z, inb b i d = IAt z ∧ (z < num_islands b)%nat.
Proof.
  intros G Hi Hc. pose proof (g_slot b G i d Hi) as Hs.
  pose proof (inb_not_null b G i d Hi) as Hn.
  destruct (icn b i d) as [| |k] eqn:E; [done| |].
  - by rewrite (cnt_COut b G) in Hc.
  - destruct Hs as (_ & Ho & _).
    destruct (inb b i d) as [| |z] eqn:Ez; try done. exists z. split; [done|].
    destruct (is_forward d) eqn:Hf.
    + by destruct (forward_neighbour b G i d z Hf Ez) as (_ & ? & _).
    + destruct (backward_neighbour b G i d z Hi Hf Ez) as (? & _). lia.
Qed.

Section traversal.
Context (fuel : nat).
Context (IH : ∀ b j, graph_ok b → size_ok b → limit_ok b → (j < num_islands b)%nat →
              (length (unmarked b) < fuel)%nat →
              ∃ b' t, visit_islands fuel b (IAt j) = Some (b', t) ∧
                      visited_from b b' j t ∧ marked b' j).
Local Set Default Proof Using "fuel IH".

(** The loop over the directions of island [i], from [ds] on. *)
Lemma visit_directions_spec ds : ∀ b i total,
  graph_ok b → size_ok b → limit_ok b → (i < num_islands b)%nat →
  (length (unmarked b) < fuel)%nat →
  ∃ b' t, visit_directions (visit_islands fuel) ds b (IAt i) total = Some (b', t) ∧
    vframe b b' ∧ limit_ok b' ∧ (∀ j, marked b j → marked b' j) ∧
    (∀ j, (j < num_islands b)%nat → marked b' j → ¬ marked b j →
          ∃ z, adj b i z ∧ rtc (adj b) z j) ∧
    (∀ j z, (j < num_islands b)%nat → marked b' j → ¬ marked b j → adj b j z →
            marked b' z) ∧
    t = total + Z.of_nat (length (unmarked b)) - Z.of_nat (length (unmarked b')) ∧
    (∀ d z, d ∈ ds → inb b i d = IAt z → cnt b (icn b i d) ≠ 0 → marked b' z).
Proof.
  induction ds as [|d ds IHds]; intros b i total G Z L Hi Hf.
  { exists b, total. simpl. split_and!; try done.
    - apply vframe_refl.
    - lia.
    - intros d z Hd. by apply elem_of_nil in Hd. }
  cbn [visit_directions].
  destruct (island_lookup b i Hi) as [x Hx].
  destruct (island_fields b i x Hx) as (_ & _ & _ & _ & Fn & Fs).
  simpl get_island. rewrite Hx. cbn [mbind option_bind]. rewrite <- Fs, <- Fn.
  destruct (visit_connection b i d G Hi) as (c & -> & Hc). cbn [mbind option_bind].
  rewrite Hc.
  destruct (Z.eqb_spec (cnt b (icn b i d)) 0) as [Hz|Hz].
  - destruct (IHds b i total G Z L Hi Hf) as (b' & t & E & F & L' & M & R & C & T & N).
    exists b', t. split_and!; try done.
    intros d' z [->|Hd]%elem_of_cons; [done|]. by apply N.
  - destruct (bridged_neighbour b i d G Hi Hz) as (z & Ez & Hzn).
    rewrite Ez.
    destruct (IH b z G Z L Hzn Hf) as (b1 & t1 & -> & [F1 L1 M1 R1 C1 T1] & Mz).
    cbn [mbind option_bind].
    pose proof (vframe_graph_ok _ _ F1 G) as G1.
    pose proof (size_ok_vframe _ _ F1 Z) as Z1.
    pose proof (vframe_num_islands _ _ F1) as N1.
    pose proof (unmarked_le _ _ F1 M1) as U1.
    destruct (IHds b1 i (total + t1) G1 Z1 L1) as (b' & t & E & F & L' & M & R & C & T & N);
      [lia|lia|].
    rewrite N1 in *.
    exists b', t. split_and!; try done.
    + by apply (vframe_trans _ b1).
    + intros j Hj. by apply M, M1.
    + intros j Hj Hm Hn. destruct (decide (marked b1 j)) as [Hm1|Hm1].
      * exists z. split; [by exists d|]. by apply R1.
      * destruct (R j Hj Hm Hm1) as (z' & A & Rz). exists z'.
        split; [by apply (vframe_adj _ _ F1)|by apply (vframe_rtc _ _ F1)].
    + intros j z' Hj Hm Hn A. destruct (decide (marked b1 j)) as [Hm1|Hm1].
      * apply M. by apply (C1 j z').
      * apply (C j z'); try done. by apply (vframe_adj _ _ F1).
    + lia.
    + intros d' z' [->|Hd]%elem_of_cons Ed Hcd.
      * assert (z' = z) as -> by congruence. by apply M.
      * apply (N d' z' Hd); by rewrite ?(vframe_inb _ _ F1), ?(vframe_icn _ _ F1),
          ?(vframe_cnt _ _ F1).
Qed.
End traversal.

(** [visit_islands] on an island: it returns, having marked exactly the
    islands reachable from it over bridges and unmarked islands... *)
Lemma visit_islands_spec fuel : ∀ b j,
  graph_ok b → size_ok b → limit_ok b → (j < num_islands b)%nat →
  (length (unmarked b) < fuel)%nat →
  ∃ b' t, visit_islands fuel b (IAt j) = Some (b', t) ∧
          visited_from b b' j t ∧ marked b' j.
Proof.
  induction fuel as [|f IH]; intros b j G Z L Hj Hf; [lia|].
  cbn [visit_islands]. rewrite decide_False by done.
  destruct (visit_read b G Z L j Hj) as (x & -> & Hp & _). cbn [mbind option_bind].
  rewrite Hp, (visited_get_pos b G Z L j Hj). cbn [mbind option_bind].
  destruct (decide (marked b j)) as [Hm|Hm].
  { rewrite bool_decide_true by done. exists b, 0. split_and!; try done.
    split; try done; [apply vframe_refl|lia]. }
  rewrite bool_decide_false by done.
  rewrite (visited_set_pos b G Z L j Hj). cbn [mbind option_bind].
  change (if visitedlimit _ <? pos b j + 1 then _ else _) with (mark b j).
  pose proof (vframe_mark b G Z L j Hj) as Fm.
  pose proof (limit_ok_mark b G Z L j Hj) as Lm.
  pose proof (size_ok_mark b G Z L j Hj) as Zm.
  pose proof (unmarked_mark b G Z L j Hj Hm) as Um.
  pose proof (vframe_graph_ok _ _ Fm G) as Gm.
  pose proof (vframe_num_islands _ _ Fm) as Nm.
  destruct (pos_index b G Z L j Hj) as [_ Hl].
  destruct (visit_directions_spec f IH all_directions (mark b j) j 1 Gm Zm Lm)
    as (b' & t & -> & F & L' & M & R & C & T & N); [lia|lia|].
  rewrite Nm in *.
  assert (Mj : marked b' j) by (apply M, (marked_mark b G Z L j Hj); auto).
  exists b', t. split_and!; try done. split.
  - by apply (vframe_trans _ (mark b j)).
  - done.
  - intros x' Hx'. by apply M, marked_mark_mono.
  - intros x' Hx' Hm' Hn'. destruct (decide (x' = j)) as [->|Hne]; [done|].
    destruct (R x' Hx' Hm') as (z & A & Rz).
    { rewrite (marked_mark b G Z L j Hj) by done. tauto. }
    apply (rtc_l _ _ z); [by apply (vframe_adj _ _ Fm)|by apply (vframe_rtc _ _ Fm)].
  - intros x' z Hx' Hm' Hn' A. destruct (decide (x' = j)) as [->|Hne].
    + destruct A as (d & Ed & Hc). apply (N d z).
      * destruct d; unfold all_directions; set_solver.
      * by rewrite (vframe_inb _ _ Fm).
      * by rewrite (vframe_icn _ _ Fm), (vframe_cnt _ _ Fm).
    + apply (C x' z); try done.
      * rewrite (marked_mark b G Z L j Hj) by done. tauto.
      * by apply (vframe_adj _ _ Fm).
  - lia.
Qed.

(** ** The check of a completed board *)

Lemma filter_length_compl {A} (P : A → Prop) `{!∀ x, Decision (P x)} (l : list A) :
  (length (filter P l) + length (filter (fun x => ¬ P x) l) = length l)%nat.
Proof.
  induction l as [|a l IH]; [done|]. rewrite !filter_cons.
  destruct (decide (P a)); destruct (decide (¬ P a)); simpl; try lia; tauto.
Qed.

Section check.
Context (b : hboard) (G : graph_ok b) (C : visited_clear b).
Context (V : valid_visited_matrix_size b = true) (N : (0 < num_islands b)%nat).
Local Set Default Proof Using "b G C V N".

Let b0 := set_visitedlimit 0 b.

Lemma check_start :
  vframe b b0 ∧ graph_ok b0 ∧ size_ok b0 ∧ limit_ok b0 ∧ (∀ j, ¬ marked b0 j) ∧
  length (unmarked b0) = num_islands b.
Proof.
  assert (F : vframe b b0) by apply vframe_set_visitedlimit.
  assert (Hn : ∀ p, visitedmatrix b0 !! p ≠ Some true).
  { intros p. unfold b0. simpl. rewrite C. intros [[=] _]%lookup_replicate. }
  split_and!; try done.
  - by apply (vframe_graph_ok b).
  - unfold size_ok, b0. simpl. rewrite C, length_replicate.
    unfold valid_visited_matrix_size in V. apply negb_true_iff in V. lia.
  - split; [simpl; lia|]. intros p Hp. by apply Hn in Hp.
  - intros j Hj. by apply Hn in Hj.
  - unfold unmarked. rewrite (vframe_num_islands _ _ F).
    pose proof (filter_length_compl (marked b0) (seq 0 (num_islands b))) as Hc.
    rewrite length_seq in Hc.
    assert (length (filter (marked b0) (seq 0 (num_islands b))) = 0%nat) as Hz; [|lia].
    apply filter_length_nil. intros x _ Hm. by apply Hn in Hm.
Qed.

(** The traversal from the first island on a board without marks. *)
Lemma visit_first :
  ∃ b1 total,
    visit_islands (S (num_islands b0)) b0 (IAt 0) = Some (b1, total) ∧
    vframe b b1 ∧ limit_ok b1 ∧
    (∀ j, (j < num_islands b)%nat → marked b1 j ↔ rtc (adj b) 0%nat j) ∧
    total = Z.of_nat (length (filter (marked b1) (seq 0 (num_islands b)))).
Proof.
  destruct check_start as (F0 & G0 & Z0 & L0 & M0 & U0).
  pose proof (vframe_num_islands _ _ F0) as N0.
  destruct (visit_islands_spec (S (num_islands b0)) b0 0 G0 Z0 L0)
    as (b1 & total & E & [F1 L1 M1 R1 C1 T1] & Hm0); [lia|lia|].
  exists b1, total. rewrite N0 in *.
  assert (F : vframe b b1) by (by apply (vframe_trans _ b0)).
  split_and!; try done.
  - intros j Hj. split.
    + intros Hm. apply (vframe_rtc _ _ F0). by apply R1.
    + intros Hr. apply (vframe_rtc _ _ F0) in Hr.
      assert (marked b1 j ∧ (0 < num_islands b)%nat) as [? _]; [|done].
      clear Hj. revert Hr. apply (rtc_ind_r
        (fun z => marked b1 z ∧ (0 < num_islands b)%nat)); [done|].
      intros y z _ A [Hy _]. split; [|done].
      assert (Hyn : (y < num_islands b)%nat).
      { destruct (decide (y < num_islands b)%nat) as [|Hge]; [done|].
        destruct A as (d & Ed & _). exfalso.
        apply (inb_IAt_lt) in Ed. lia. }
      by apply (C1 y z).
  - rewrite T1, U0. unfold unmarked. rewrite (vframe_num_islands _ _ F).
    pose proof (filter_length_compl (marked b1) (seq 0 (num_islands b))) as Hc.
    rewrite length_seq in Hc. lia.
Qed.

(** The marks are wiped by clearing the matrix up to the high-water mark. *)
Lemma memset_clears b1 :
  vframe b b1 → limit_ok b1 → marked b1 0%nat →
  visitedlimit b1 ≠ 0 ∧
  ∃ b2, visited_memset b1 (visitedlimit b1) = Some b2 ∧
        set_visitedlimit 0 b2 = set_visitedlimit 0 b.
Proof.
  intros [F Hl] [[L0 L1] L2] Hm.
  split. { apply L2 in Hm. lia. }
  unfold visited_memset.
  destruct (Z.ltb_spec (visitedlimit b1) 0) as [?|_]; [lia|].
  rewrite decide_True by lia. eexists. split; [done|].
  set (l := Z.to_nat (visitedlimit b1)).
  assert (HM : replicate l false ++ drop l (visitedmatrix b1) = visitedmatrix b).
  { rewrite C. apply list_eq. intros p.
    destruct (decide (p < l)%nat) as [Hp|Hp].
    - rewrite lookup_app_l by (by rewrite length_replicate).
      rewrite !lookup_replicate_2; try done.
      rewrite C, length_replicate in Hl. lia.
    - rewrite lookup_app_r by (rewrite length_replicate; lia).
      rewrite length_replicate, lookup_drop.
      replace (l + (p - l))%nat with p by lia.
      destruct (decide (p < max_visited_size b)%nat) as [Hq|Hq].
      + rewrite lookup_replicate_2 by done.
        rewrite C, length_replicate in Hl.
        destruct (lookup_lt_is_Some_2 (visitedmatrix b1) p) as [v Hv]; [lia|].
        rewrite Hv. destruct v; [|done]. apply L2 in Hv. lia.
      + rewrite (lookup_ge_None_2 (replicate _ _)) by (rewrite length_replicate; lia).
        apply lookup_ge_None_2. rewrite C, length_replicate in Hl. lia. }
  rewrite HM. rewrite F. by destruct b.
Qed.

(** [check_connected_solution] with the check compiled in. *)
Lemma check_connected_closed :
  ∃ b1 total ok,
    visit_islands (S (num_islands b0)) b0 (IAt 0) = Some (b1, total) ∧
    vframe b b1 ∧ limit_ok b1 ∧
    (∀ j, (j < num_islands b)%nat → marked b1 j ↔ rtc (adj b) 0%nat j) ∧
    total = Z.of_nat (length (filter (marked b1) (seq 0 (num_islands b)))) ∧
    check_connected_solution true b = Some (set_visitedlimit 0 b, ok) ∧
    (ok = true ↔ total = Z.of_nat (num_islands b)) ∧
    (ok = true ↔ connected b).
Proof.
  destruct visit_first as (b1 & total & E & F & L & M & T).
  exists b1, total.
  enough (∃ ok, check_connected_solution true b = Some (set_visitedlimit 0 b, ok) ∧
        (ok = true ↔ total = Z.of_nat (num_islands b)) ∧
        (ok = true ↔ connected b)) as (ok & ? & ? & ?) by (by exists ok).
  unfold check_connected_solution. fold b0. rewrite E. cbn [mbind option_bind].
  assert (Hm0 : marked b1 0%nat) by (by apply M).
  destruct (memset_clears b1 F L Hm0) as (Hne & b2 & E2 & Hb2).
  destruct (Z.eqb_spec (visitedlimit b1) 0) as [?|_]; [done|].
  rewrite E2. cbn [mbind option_bind]. rewrite Hb2.
  assert (num_islands (set_visitedlimit 0 b) = num_islands b) as -> by done.
  pose proof (filter_length_compl (marked b1) (seq 0 (num_islands b))) as Hc.
  rewrite length_seq in Hc.
  assert (Hall : total = Z.of_nat (num_islands b) ↔ connected b).
  { rewrite T. split.
    - intros Ht j Hj. apply M; [done|].
      assert (length (filter (fun x => ¬ marked b1 x) (seq 0 (num_islands b))) = 0%nat)
        as Hz by lia.
      destruct (decide (marked b1 j)) as [|Hn]; [done|]. exfalso.
      apply (proj1 (filter_length_nil _ _) Hz j); [|done]. apply elem_of_seq. lia.
    - intros Hcn.
      assert (length (filter (fun x => ¬ marked b1 x) (seq 0 (num_islands b))) = 0%nat)
        as Hz; [|lia].
      apply filter_length_nil. intros x [_ Hx]%elem_of_seq Hn. apply Hn, M; [lia|].
      apply Hcn. lia. }
  destruct (Z.eqb_spec total (Z.of_nat (num_islands b))) as [Ht|Ht];
    eexists; (split; [done|]); split; split; try done.
  - intros _. by apply Hall.
  - intros Hcn. by apply Hall in Hcn.
Qed.
End check.

(** * The search *)

(** ** Boards up to the high-water mark *)

Lemma graph_ok_limit v b : graph_ok b → graph_ok (set_visitedlimit v b).
Proof. apply vframe_graph_ok, vframe_set_visitedlimit. Qed.

Lemma state_ok_limit v b : state_ok b → state_ok (set_visitedlimit v b).
Proof. intros [S1 S2 S3 S4]. by split. Qed.

Lemma bumpx_limit v b x delta :
  bumpx (set_visitedlimit v b) x delta = set_visitedlimit v (bumpx b x delta).
Proof.
  unfold bumpx. destruct x as [| |k]; try done.
  change (cp1 (set_visitedlimit v b) k) with (cp1 b k).
  change (cp2 (set_visitedlimit v b) k) with (cp2 b k).
  by destruct (cp1 b k), (cp2 b k).
Qed.

Lemma place_limit v b i r d :
  place (set_visitedlimit v b) i r d = set_visitedlimit v (place b i r d).
Proof.
  unfold place.
  change (icn (set_visitedlimit v b) i RIGHT) with (icn b i RIGHT).
  change (icn (set_visitedlimit v b) i DOWN) with (icn b i DOWN).
  by rewrite !bumpx_limit.
Qed.

Lemma search_inv_limit v b idx : search_inv b idx → search_inv (set_visitedlimit v b) idx.
Proof.
  intros [G S C D T]. split; try done.
  - by apply graph_ok_limit.
  - by apply state_ok_limit.
Qed.

Lemma set_visitedlimit_twice v w b :
  set_visitedlimit v (set_visitedlimit w b) = set_visitedlimit v b.
Proof. done. Qed.

(** ** Assignments and boards *)

Lemma bridge_counts_lookup b k : bridge_counts b !! k = bridges <$> connections b !! k.
Proof. unfold bridge_counts. apply list_lookup_fmap. Qed.

Lemma acnt_bridge_counts b c : graph_ok b → acnt (bridge_counts b) c = cnt b c.
Proof.
  intros G. destruct c as [| |k]; simpl.
  - done.
  - by rewrite (cnt_COut b G).
  - rewrite bridge_counts_lookup, cnt_CAt. unfold cbr.
    by destruct (connections b !! k).
Qed.

Lemma bridge_counts_length b : length (bridge_counts b) = num_connections b.
Proof. unfold bridge_counts. by rewrite length_fmap. Qed.

Lemma acnt_lookup A k v : A !! k = Some v → acnt A (CAt k) = v.
Proof. intros H. simpl. by rewrite H. Qed.

Lemma acnt_range check b A c :
  valid_solution check b A → 0 ≤ acnt A c ≤ MAX_CONNECTION_BRIDGES.
Proof.
  intros VS. unfold MAX_CONNECTION_BRIDGES. destruct c as [| |k]; simpl; try lia.
  destruct (A !! k) as [v|] eqn:E; simpl; [|lia].
  apply (vs_range _ _ _ VS k v E).
Qed.

(** An assignment that agrees with the board on all islands is its bridge
    counts. *)
Lemma agrees_all b A :
  graph_ok b → length A = num_connections b → agrees b (num_islands b) A →
  A = bridge_counts b.
Proof.
  intros G Hl Ha. apply list_eq. intros k.
  destruct (decide (k < num_connections b)%nat) as [Hk|Hk].
  - destruct (g_owner b G k Hk) as (i & d & Hi & Hd & Hs).
    rewrite (Ha i d k Hi Hd Hs), bridge_counts_lookup. unfold cbr.
    destruct (connection_lookup b k Hk) as [y ->]. done.
  - rewrite !lookup_ge_None_2; try done; rewrite ?bridge_counts_length; lia.
Qed.

Lemma agrees_bridge_counts b idx :
  graph_ok b → (idx ≤ num_islands b)%nat → agrees b idx (bridge_counts b).
Proof.
  intros G Hn i d k Hi _ Hs. rewrite bridge_counts_lookup. unfold cbr.
  pose proof (g_slot b G i d ltac:(lia)) as Hg. rewrite Hs in Hg. destruct Hg as [Hk _].
  destruct (connection_lookup b k Hk) as [y ->]. done.
Qed.

(** ** Every solution passes through an admissible split *)

Section feasible.
Context (check : bool) (b : hboard) (idx : nat) (A : list Z).
Context (I : search_inv b idx) (VS : valid_solution check b A) (AG : agrees b idx A).
Local Set Default Proof Using "check b idx A I VS AG".

Lemma cbr_known k :
  (k < num_connections b)%nat → cbr b k = 0 ∨ A !! k = Some (cbr b k).
Proof.
  intros Hk. destruct I as [G S _ _ T].
  destruct (g_owner b G k Hk) as (i & d & Hi & Hd & Hs).
  destruct (decide (i < idx)%nat) as [Hlt|Hge].
  - right. by apply (AG i d k).
  - left. destruct (T i ltac:(lia) Hi) as [U1 U2].
    destruct d; try done; rewrite Hs, cnt_CAt in *; done.
Qed.

Lemma cnt_le_acnt c : valid_cref b c → cnt b c ≤ acnt A c.
Proof.
  intros V. pose proof (acnt_range check b A c VS) as Hr.
  destruct c as [| |k]; [done| |].
  - rewrite (cnt_COut b (si_graph b idx I)). simpl. lia.
  - simpl in V. rewrite cnt_CAt. destruct (cbr_known k V) as [->|H]; [lia|].
    rewrite (acnt_lookup _ _ _ H). lia.
Qed.

Lemma backward_known i d :
  (i ≤ idx)%nat → (i < num_islands b)%nat → is_forward d = false →
  acnt A (icn b i d) = cnt b (icn b i d).
Proof.
  intros Hle Hi Hd. destruct I as [G S _ _ _].
  pose proof (g_slot b G i d Hi) as Hs.
  pose proof (inb_not_null b G i d Hi) as Hn.
  destruct (icn b i d) as [| |k] eqn:E; [done| |].
  - by rewrite (cnt_COut b G).
  - destruct Hs as (Hk & Ho & _).
    destruct (inb b i d) as [| |j] eqn:Ej; try done.
    destruct (backward_neighbour b G i d j Hi Hd Ej) as [Hlt _].
    pose proof (g_pair b G i j d Hi Ej) as Hp. rewrite E in Hp.
    rewrite cnt_CAt. apply acnt_lookup. apply (AG j (opp d) k); [lia| |done].
    by destruct d.
Qed.

Lemma crossing_clear k :
  (k < num_connections b)%nat → 0 < acnt A (CAt k) →
  Forall (fun y => cnt b y = 0) (ccross b k).
Proof.
  intros Hk Hp. pose proof (si_graph b idx I) as G.
  apply Forall_forall. intros y Hy.
  destruct (g_cross_sound b G k y Hk Hy) as (k' & -> & Hk' & X).
  pose proof (acnt_range check b A (CAt k') VS) as Hr.
  assert (Hz : acnt A (CAt k') = 0).
  { destruct X as [X|X].
    - pose proof (vs_cross _ _ _ VS k k' Hk Hk' X). lia.
    - pose proof (vs_cross _ _ _ VS k' k Hk' Hk X). lia. }
  rewrite cnt_CAt. destruct (cbr_known k' Hk') as [|H]; [done|].
  by rewrite (acnt_lookup _ _ _ H) in Hz.
Qed.

Lemma far_end_room k j d :
  ends b k idx j d → cbr b k = 0 → acnt A (CAt k) ≤ ipend b j.
Proof.
  intros [Ef Elt Eb Ep1 Ep2 Es1 En1 Es2 En2] Hz.
  destruct I as [G S _ _ _].
  rewrite (s_pend b S j Eb), <- (vs_sum _ _ _ VS j Eb).
  unfold asum, incident.
  pose proof (cnt_le_acnt _ (slot_valid b G j UP Eb)).
  pose proof (cnt_le_acnt _ (slot_valid b G j LEFT Eb)).
  pose proof (cnt_le_acnt _ (slot_valid b G j RIGHT Eb)).
  pose proof (cnt_le_acnt _ (slot_valid b G j DOWN Eb)).
  destruct d; try done; simpl in Es2; rewrite Es2, cnt_CAt, Hz in *; lia.
Qed.

Context (Hi : (idx < num_islands b)%nat).

Lemma split_sum :
  acnt A (icn b idx RIGHT) + acnt A (icn b idx DOWN) = ipend b idx.
Proof using All.
  destruct I as [G S _ _ T]. destruct (T idx ltac:(lia) Hi) as [U1 U2].
  rewrite (s_pend b S idx Hi), <- (vs_sum _ _ _ VS idx Hi).
  unfold asum, incident. rewrite U1, U2.
  rewrite (backward_known idx UP), (backward_known idx LEFT) by (done || lia). lia.
Qed.

Lemma split_cap d :
  is_forward d = true → 0 ≤ acnt A (icn b idx d) ≤ cap b (icn b idx d).
Proof using All.
  intros Hd. pose proof (acnt_range check b A (icn b idx d) VS) as Hr.
  split; [lia|]. destruct I as [G S _ _ T].
  pose proof (cap_range b idx Hi (icn b idx d)) as Hc.
  destruct (forward_slot b G idx d Hi Hd) as [E|(k & j & E & Hk & En)]; rewrite E in *.
  { simpl. lia. }
  destruct (decide (acnt A (CAt k) = 0)) as [Hz|Hz]; [lia|].
  assert (Hu : cbr b k = 0).
  { destruct (T idx ltac:(lia) Hi) as [U1 U2].
    destruct d; try done; rewrite E, cnt_CAt in *; done. }
  rewrite (cap_ends b S idx Hi k j d En).
  rewrite decide_True by (apply crossing_clear; [done|lia]).
  pose proof (far_end_room k j d En Hu). lia.
Qed.

(** The split of a solution at island [idx] is admissible. *)
Lemma feasible :
  split_ok b idx (acnt A (icn b idx RIGHT)) (acnt A (icn b idx DOWN)) ∧
  acnt A (icn b idx RIGHT) + acnt A (icn b idx DOWN) = ipend b idx.
Proof using All.
  pose proof split_sum. pose proof (split_cap RIGHT eq_refl).
  pose proof (split_cap DOWN eq_refl). unfold split_ok. split_and!; lia.
Qed.
End feasible.

(** ** From one island to the next *)

Lemma forward_owner b i i' d d' k :
  graph_ok b → (i < num_islands b)%nat → (i' < num_islands b)%nat →
  is_forward d = true → is_forward d' = true →
  icn b i d = CAt k → icn b i' d' = CAt k → i' = i ∧ d' = d.
Proof.
  intros G Hi Hi' Hd Hd' E E'.
  destruct (forward_slot b G i d Hi Hd) as [?|(k0 & j & E0 & Hk & En)]; [congruence|].
  assert (k0 = k) by congruence. subst k0.
  destruct (slot_unique b G k i j d i' d' En Hi' E') as [?|[_ ->]]; [done|].
  rewrite is_forward_opp, Hd in Hd'. done.
Qed.

Lemma valid_solution_same_static check b b' A :
  same_static b b' → valid_solution check b A → valid_solution check b' A.
Proof.
  intros HS [V1 V2 V3 V4 V5].
  split.
  - by rewrite (ss_num_connections _ _ HS).
  - done.
  - intros i. rewrite (ss_num_islands _ _ HS), (ss_iexp _ _ HS). unfold asum.
    rewrite !(ss_icn _ _ HS). apply V3.
  - intros v h. rewrite (ss_num_connections _ _ HS), (same_static_xing _ _ _ _ HS).
    apply V4.
  - intros Hc j. rewrite (ss_num_islands _ _ HS). intros Hj.
    specialize (V5 Hc j Hj). clear Hj.
    induction V5 as [|x y z Hxy _ IH]; [done|].
    apply (rtc_l _ _ y); [|done]. destruct Hxy as (d & H1 & H2). exists d.
    by rewrite (ss_inb _ _ HS), (ss_icn _ _ HS).
Qed.

Lemma same_static_sym b b' : same_static b b' → same_static b' b.
Proof. intros []. by split. Qed.

Section next_island.
Context (b : hboard) (idx : nat) (I : search_inv b idx).
Context (Hi : (idx < num_islands b)%nat).
Context (r d : Z) (H : split_ok b idx r d).
Local Set Default Proof Using "b idx I Hi r d H".

Lemma cbr_place_other i d' k :
  (i < num_islands b)%nat → i ≠ idx → is_forward d' = true → icn b i d' = CAt k →
  cbr (place b idx r d) k = cbr b k.
Proof.
  intros Hin Hne Hd' E. destruct I as [G S _ _ T].
  rewrite cbr_place by done. unfold on.
  rewrite !decide_False; [lia| |]; intros E';
    first [by destruct (forward_owner b idx i RIGHT d' k G Hi Hin eq_refl Hd' E' E) as [? _]
          |by destruct (forward_owner b idx i DOWN d' k G Hi Hin eq_refl Hd' E' E) as [? _]].
Qed.

Lemma cbr_place_own d' k :
  is_forward d' = true → icn b idx d' = CAt k →
  cbr (place b idx r d) k = if decide (d' = RIGHT) then r else d.
Proof.
  intros Hd' E. destruct I as [G S _ _ T].
  destruct (forward_slot b G idx d' Hi Hd') as [?|(k0 & j & E0 & Hk & En)]; [congruence|].
  assert (k0 = k) by congruence. subst k0.
  by destruct (place_slot_facts b G S idx Hi (T idx ltac:(lia) Hi) d' r d k j H E En)
    as (F1 & _).
Qed.

Lemma search_inv_place :
  r + d = ipend b idx → search_inv (place b idx r d) (S idx).
Proof.
  intros Hsum. pose proof I as [G S C D T].
  pose proof (T idx ltac:(lia) Hi) as U.
  pose proof (same_static_place b idx r d) as HS.
  split.
  - by apply graph_ok_place.
  - by apply state_ok_place.
  - unfold visited_clear. destruct (visited_place b idx r d) as [-> _].
    assert (max_visited_size (place b idx r d) = max_visited_size b) as ->; [|done].
    pose proof (skeleton_place b idx r d) as Hs.
    by injection Hs.
  - intros i Hlt. rewrite (ss_num_islands _ _ HS). intros Hin.
    destruct (decide (i = idx)) as [->|Hne].
    + rewrite (ipend_place_self b G S idx Hi U) by done. lia.
    + rewrite ipend_place by done. rewrite (D i) by (done || lia).
      assert (Ho : ∀ d' delta, is_forward d' = true →
                   at_end b (icn b idx d') i delta = 0).
      { intros d' delta Hd'.
        destruct (forward_slot b G idx d' Hi Hd') as [E|(k & j & E & Hk & En)];
          rewrite E; [done|].
        rewrite (at_end_ends b idx Hi k j d') by done.
        rewrite decide_False; [done|]. destruct En. lia. }
      rewrite !Ho by done. lia.
  - intros i Hge. rewrite (ss_num_islands _ _ HS). intros Hin.
    destruct (T i ltac:(lia) Hin) as [U1 U2].
    unfold untouched. rewrite !(ss_icn _ _ HS).
    assert (Hc : ∀ d', is_forward d' = true → cnt b (icn b i d') = 0 →
                 cnt (place b idx r d) (icn b i d') = 0).
    { intros d' Hd' Hz.
      destruct (forward_slot b G i d' Hin Hd') as [E|(k & j & E & Hk & En)]; rewrite E in *.
      - rewrite (cnt_COut _ (graph_ok_place b G idx r d)). done.
      - rewrite cnt_CAt in *. rewrite (cbr_place_other i d' k); try done. lia. }
    split; by apply Hc.
Qed.

Lemma acnt_own A d' :
  length A = num_connections b → is_forward d' = true →
  let m := if decide (d' = RIGHT) then r else d in
  acnt A (icn b idx d') = m ↔
  ∀ k, icn b idx d' = CAt k → A !! k = Some (cbr (place b idx r d) k).
Proof.
  intros Hl Hd' m. pose proof I as [G S _ _ _]. pose proof H as (Hr & Hd & _).
  destruct (forward_slot b G idx d' Hi Hd') as [E|(k & j & E & Hk & En)]; rewrite E.
  - split; [done|]. intros _. simpl. subst m.
    destruct d'; try done; rewrite E in *; simpl in *; lia.
  - split.
    + intros Ha k' [= <-]. rewrite (cbr_place_own d' k) by done. fold m.
      destruct (lookup_lt_is_Some_2 A k) as [v Hv]; [lia|].
      rewrite (acnt_lookup _ _ _ Hv) in Ha. by subst.
    + intros Ha. specialize (Ha k eq_refl).
      rewrite (cbr_place_own d' k) in Ha by done. by apply acnt_lookup.
Qed.

Lemma agrees_place A :
  length A = num_connections b →
  agrees (place b idx r d) (S idx) A ↔
  agrees b idx A ∧ acnt A (icn b idx RIGHT) = r ∧ acnt A (icn b idx DOWN) = d.
Proof.
  intros Hl. pose proof (same_static_place b idx r d) as HS.
  pose proof (acnt_own A RIGHT Hl eq_refl) as HR.
  pose proof (acnt_own A DOWN Hl eq_refl) as HD. simpl in HR, HD.
  rewrite HR, HD. clear HR HD. split.
  - intros Ha. split_and!.
    + intros i d' k Hlt Hd' E. rewrite <- (cbr_place_other i d' k); try done.
      * apply (Ha i d' k); [lia|done|]. by rewrite (ss_icn _ _ HS).
      * by apply icn_CAt_lt in E.
      * lia.
    + intros k E. apply (Ha idx RIGHT k); [lia|done|]. by rewrite (ss_icn _ _ HS).
    + intros k E. apply (Ha idx DOWN k); [lia|done|]. by rewrite (ss_icn _ _ HS).
  - intros (Ha & HR & HD) i d' k Hlt Hd' E. rewrite (ss_icn _ _ HS) in E.
    destruct (decide (i = idx)) as [->|Hne].
    + destruct d'; try done; [by apply HR|by apply HD].
    + rewrite (cbr_place_other i d' k); try done.
      * apply (Ha i d' k); [lia|done|done].
      * by apply icn_CAt_lt in E.
Qed.
End next_island.

(** ** The completed board *)

Lemma aadj_bridge_counts b i j : graph_ok b → aadj b (bridge_counts b) i j ↔ adj b i j.
Proof.
  intros G. unfold aadj, adj. split; intros (d & H1 & H2); exists d;
    by rewrite ?acnt_bridge_counts in *.
Qed.

Lemma connected_bridge_counts b :
  graph_ok b →
  connected b ↔ ∀ j, (j < num_islands b)%nat → rtc (aadj b (bridge_counts b)) 0%nat j.
Proof.
  intros G. unfold connected.
  assert (E : ∀ i j, rtc (aadj b (bridge_counts b)) i j ↔ rtc (adj b) i j).
  { intros i j. split; induction 1 as [|x y z Hxy _ IH]; try done;
      (apply (rtc_l _ _ y); [|done]); by apply (aadj_bridge_counts b x y G). }
  split; intros H j Hj; by apply E, H.
Qed.

Section leaf.
Context (check : bool) (b : hboard) (idx : nat) (I : search_inv b idx).
Context (Hge : (num_islands b ≤ idx)%nat).
Context (HC : check = true →
              (0 < num_islands b)%nat ∧ valid_visited_matrix_size b = true).
Local Set Default Proof Using "check b idx I Hge HC".

Lemma leaf_valid :
  valid_solution check b (bridge_counts b) ↔ (check = true → connected b).
Proof.
  destruct I as [G S _ D _]. split.
  - intros VS Hc. apply connected_bridge_counts; [done|]. by apply (vs_connected _ _ _ VS).
  - intros Hcn. split.
    + apply bridge_counts_length.
    + intros k v Hv. rewrite bridge_counts_lookup in Hv.
      destruct (connections b !! k) as [y|] eqn:Ey; [|done].
      injection Hv as <-. pose proof (lookup_lt_Some _ _ _ Ey) as Hk.
      destruct (connection_fields b k y Ey) as (<- & _). by apply (s_bridges b S).
    + intros i Hi. unfold asum. rewrite !acnt_bridge_counts by done.
      pose proof (s_pend b S i Hi) as Hp. rewrite (D i) in Hp by (done || lia).
      unfold incident in Hp. lia.
    + intros v h Hv Hh X. rewrite !acnt_bridge_counts, !cnt_CAt by done.
      destruct (g_cross_complete b G v h Hv Hh X) as [Hc _].
      intros [H1 H2]. pose proof (s_cross b S v h Hv Hc H1). lia.
    + intros Hc. apply connected_bridge_counts; [done|]. by apply Hcn.
Qed.

Lemma leaf_unique A :
  valid_solution check b A ∧ agrees b idx A ↔
  A = bridge_counts b ∧ valid_solution check b (bridge_counts b).
Proof.
  pose proof (si_graph b idx I) as G. split.
  - intros [VS AG]. assert (A = bridge_counts b) as ->; [|done].
    apply agrees_all; [done|apply (vs_length _ _ _ VS)|].
    intros i d k Hi. apply AG. lia.
  - intros [-> VS]. split; [done|].
    intros i d k Hi Hd E. apply (agrees_bridge_counts b (num_islands b) G (le_n _) i d k);
      try done. by apply icn_CAt_lt in E.
Qed.

(** The check at the end of a branch. *)
Lemma leaf_check v :
  ∃ v' ok,
    check_connected_solution check (set_visitedlimit v b)
      = Some (set_visitedlimit v' b, ok) ∧
    (ok = true ↔ valid_solution check b (bridge_counts b)).
Proof.
  destruct (decide (check = true)) as [Ht|Hf%not_true_is_false].
  - destruct (HC Ht) as [Hn Hv]. pose proof I as [G S C _ _].
    destruct (check_connected_closed (set_visitedlimit v b)
                (graph_ok_limit v b G) C Hv Hn)
      as (_ & _ & ok & _ & _ & _ & _ & _ & E & _ & Hok).
    exists 0, ok. split; [by rewrite Ht|]. rewrite Hok. rewrite leaf_valid.
    split; [done|]. intros Hcn. by apply Hcn.
  - exists v, true. split; [by rewrite Hf|]. split; [|done]. intros _.
    apply leaf_valid. intros Ht. congruence.
Qed.
End leaf.

(** ** The steps of the search, up to the high-water mark *)

Section steps_limit.
Context (b : hboard) (idx : nat) (I : search_inv b idx).
Context (Hi : (idx < num_islands b)%nat) (v : Z).
Local Set Default Proof Using "b idx I Hi v".

Lemma fill_bridges_limit :
  fill_bridges (set_visitedlimit v b) (IAt idx) =
    Some (if decide (fill_right b idx + fill_down b idx = ipend b idx)
          then (set_visitedlimit v (place b idx (fill_right b idx) (fill_down b idx)), true)
          else (set_visitedlimit v b, false)).
Proof.
  destruct I as [G S _ _ T].
  rewrite (fill_bridges_closed (set_visitedlimit v b) (graph_ok_limit v b G)
             (state_ok_limit v b S) idx Hi (T idx (le_n _) Hi)).
  rewrite place_limit. done.
Qed.

Lemma reorder_bridges_limit r d :
  split_ok b idx r d →
  reorder_bridges (set_visitedlimit v (place b idx r d)) (IAt idx) =
    Some (if decide (0 < r ∧ d < cap b (icn b idx DOWN))
          then (set_visitedlimit v (place b idx (r - 1) (d + 1)), true)
          else (set_visitedlimit v b, false)).
Proof.
  intros H. destruct I as [G S _ _ T].
  rewrite <- place_limit.
  rewrite (reorder_bridges_closed (set_visitedlimit v b) (graph_ok_limit v b G)
             (state_ok_limit v b S) idx Hi (T idx (le_n _) Hi) r d H).
  rewrite place_limit. done.
Qed.
End steps_limit.

Lemma event_ok_enter check b idx v :
  search_inv b idx →
  (check = true → (0 < num_islands b)%nat ∧ valid_visited_matrix_size b = true) →
  event_ok check (Enter idx (set_visitedlimit v b)).
Proof. intros I HC. split; [by apply search_inv_limit|exact HC]. Qed.

Lemma printed_app t1 t2 : printed (t1 ++ t2) = printed t1 ++ printed t2.
Proof. unfold printed. apply omap_app. Qed.

(** ** The loop over the splits of one island *)

Section splits.
Context (check : bool) (m : nat).
Context (IH : ∀ fuel b idx v,
    (num_islands b - idx = m)%nat → (3 * m + 1 ≤ fuel)%nat → search_inv b idx →
    (check = true → (0 < num_islands b)%nat ∧ valid_visited_matrix_size b = true) →
    ∃ v' t, find_solutions_from_island check fuel (set_visitedlimit v b) idx
              = Some (set_visitedlimit v' b, t) ∧ search_post check b idx t).
Context (b : hboard) (idx : nat) (I : search_inv b idx).
Context (Hi : (idx < num_islands b)%nat) (Hm : (num_islands b - S idx = m)%nat).
Context (HC : check = true →
              (0 < num_islands b)%nat ∧ valid_visited_matrix_size b = true).
Local Set Default Proof Using "check m IH b idx I Hi Hm HC".

(** The search below island [idx], on the split [(r, d)]. *)
Lemma search_split fuel r d v :
  split_ok b idx r d → r + d = ipend b idx → (3 * m + 1 ≤ fuel)%nat →
  ∃ v' t, find_solutions_from_island check fuel
            (set_visitedlimit v (place b idx r d)) (S idx)
            = Some (set_visitedlimit v' (place b idx r d), t) ∧
    Forall (event_ok check) t ∧ NoDup (printed t) ∧
    ∀ A, A ∈ printed t ↔
         valid_solution check b A ∧ agrees b idx A ∧ acnt A (icn b idx RIGHT) = r.
Proof.
  intros H Hsum Hf.
  pose proof (search_inv_place b idx I Hi r d H Hsum) as I'.
  pose proof (same_static_place b idx r d) as HS.
  destruct (IH fuel (place b idx r d) (S idx) v) as (v' & t & E & Ev & ND & P); try done.
  { by rewrite (ss_num_islands _ _ HS). }
  { rewrite (ss_num_islands _ _ HS). intros Hc. destruct (HC Hc) as [? Hv].
    split; [done|]. unfold valid_visited_matrix_size in *.
    pose proof (skeleton_place b idx r d) as Hs. injection Hs as _ _ _ _ -> -> _ ->.
    done. }
  exists v', t. split_and!; try done.
  intros A. rewrite P. split.
  - intros [VS AG]. apply (valid_solution_same_static _ _ _ _ (same_static_sym _ _ HS)) in VS.
    apply (agrees_place b idx I Hi r d H A (vs_length _ _ _ VS)) in AG as (? & ? & ?).
    done.
  - intros (VS & AG & Hr). split.
    + by apply (valid_solution_same_static _ _ _ _ HS).
    + apply (agrees_place b idx I Hi r d H A (vs_length _ _ _ VS)).
      split_and!; try done.
      pose proof (split_sum check b idx A I VS AG Hi). lia.
Qed.

(** The loop of [reorder_bridges], from the split [(r, d)] on. *)
Lemma reorder_loop_spec rn : ∀ fuel r d v,
  r = Z.of_nat rn → split_ok b idx r d → r + d = ipend b idx →
  (3 * m + 1 + rn ≤ fuel)%nat →
  ∃ v' t, reorder_loop check fuel (set_visitedlimit v (place b idx r d)) idx
            = Some (set_visitedlimit v' b, t) ∧
    Forall (event_ok check) t ∧ NoDup (printed t) ∧
    ∀ A, A ∈ printed t ↔
         valid_solution check b A ∧ agrees b idx A ∧ acnt A (icn b idx RIGHT) < r.
Proof.
  induction rn as [|rn IHr]; intros fuel r d v Hr H Hsum Hf.
  - destruct fuel as [|f]; [lia|]. cbn [reorder_loop].
    rewrite (reorder_bridges_limit b idx I Hi v r d H).
    rewrite decide_False by lia. cbn [mbind option_bind].
    exists v, []. split_and!; try done; [constructor|].
    intros A. split; [by intros ?%elem_of_nil|].
    intros (VS & _ & Hlt). pose proof (acnt_range check b A (icn b idx RIGHT) VS). lia.
  - destruct fuel as [|f]; [lia|]. cbn [reorder_loop].
    rewrite (reorder_bridges_limit b idx I Hi v r d H).
    pose proof H as (H1 & H2 & H3).
    destruct (decide (0 < r ∧ d < cap b (icn b idx DOWN))) as [Hc|Hc];
      cbn [mbind option_bind].
    + assert (H' : split_ok b idx (r - 1) (d + 1)) by (unfold split_ok; lia).
      destruct (search_split f (r - 1) (d + 1) v H') as (v1 & t1 & -> & E1 & N1 & P1);
        [lia|lia|].
      cbn [mbind option_bind].
      destruct (IHr f (r - 1) (d + 1) v1) as (v2 & t2 & -> & E2 & N2 & P2);
        [lia|done|lia|lia|].
      cbn [mbind option_bind]. exists v2, (t1 ++ t2). split_and!; try done.
      * by apply Forall_app.
      * rewrite printed_app. apply NoDup_app. split_and!; try done.
        intros A [_ [_ Ha]]%P1 [_ [_ Hb]]%P2. lia.
      * intros A. rewrite printed_app, elem_of_app, P1, P2.
        split; [intros [(? & ? & ?)|(? & ? & ?)]|intros (? & ? & ?)];
          try (split_and!; try done; lia).
        destruct (decide (acnt A (icn b idx RIGHT) = r - 1)); [left|right];
          split_and!; try done; lia.
    + exists v, []. split_and!; try done; [constructor|].
      intros A. split; [by intros ?%elem_of_nil|].
      intros (VS & AG & Hlt).
      destruct (feasible check b idx A I VS AG Hi) as [(F1 & F2 & F3) F4]. lia.
Qed.

(** The search at island [idx]. *)
Lemma search_island fuel v :
  (3 * S m + 1 ≤ fuel)%nat →
  ∃ v' t, find_solutions_from_island check fuel (set_visitedlimit v b) idx
            = Some (set_visitedlimit v' b, t) ∧ search_post check b idx t.
Proof.
  intros Hf. destruct fuel as [|f]; [lia|]. cbn [find_solutions_from_island].
  assert (num_islands (set_visitedlimit v b) = num_islands b) as -> by done.
  rewrite decide_False by lia.
  rewrite (fill_bridges_limit b idx I Hi v).
  pose proof (split_ok_fill b (si_graph _ _ I) (si_state _ _ I) idx Hi
                (si_todo _ _ I idx (le_n _) Hi)) as H.
  pose proof (split_small b (si_graph _ _ I) (si_state _ _ I) idx Hi
                (si_todo _ _ I idx (le_n _) Hi) _ _ H) as [Hs _].
  pose proof H as (H1 & H2 & H3).
  pose proof (event_ok_enter check b idx v I HC) as Ev.
  destruct (decide (fill_right b idx + fill_down b idx = ipend b idx)) as [Hc|Hc];
    cbn [mbind option_bind].
  - destruct (search_split f _ _ v H Hc) as (v1 & t1 & -> & E1 & N1 & P1); [lia|].
    cbn [mbind option_bind].
    destruct (reorder_loop_spec (Z.to_nat (fill_right b idx)) f (fill_right b idx)
                (fill_down b idx) v1 ltac:(lia) H Hc)
      as (v2 & t2 & -> & E2 & N2 & P2); [lia|].
    cbn [mbind option_bind]. exists v2, (Enter idx (set_visitedlimit v b) :: t1 ++ t2).
    split; [done|]. split_and!.
    + constructor; [done|]. by apply Forall_app.
    + change (NoDup (printed (t1 ++ t2))). rewrite printed_app. apply NoDup_app.
      split_and!; try done. intros A [_ [_ Ha]]%P1 [_ [_ Hb]]%P2. lia.
    + intros A. change (A ∈ printed (t1 ++ t2) ↔ valid_solution check b A ∧ agrees b idx A).
      rewrite printed_app, elem_of_app, P1, P2.
      split; [intros [(? & ? & ?)|(? & ? & ?)]; done|]. intros [VS AG].
      destruct (feasible check b idx A I VS AG Hi) as [(F1 & F2 & F3) F4].
      assert (acnt A (icn b idx RIGHT) ≤ fill_right b idx) by (unfold fill_right; lia).
      destruct (decide (acnt A (icn b idx RIGHT) = fill_right b idx)); [left|right];
        split_and!; try done; lia.
  - exists v, [Enter idx (set_visitedlimit v b)]. split; [done|]. split_and!.
    + by constructor.
    + constructor.
    + intros A. split; [by intros ?%elem_of_nil|]. intros [VS AG]. exfalso.
      destruct (feasible check b idx A I VS AG Hi) as [(F1 & F2 & F3) F4].
      unfold fill_down, fill_right in *. lia.
Qed.
End splits.

(** ** The search *)

Lemma search_spec check m : ∀ fuel b idx v,
  (num_islands b - idx = m)%nat → (3 * m + 1 ≤ fuel)%nat → search_inv b idx →
  (check = true → (0 < num_islands b)%nat ∧ valid_visited_matrix_size b = true) →
  ∃ v' t, find_solutions_from_island check fuel (set_visitedlimit v b) idx
            = Some (set_visitedlimit v' b, t) ∧ search_post check b idx t.
Proof.
  induction m as [|m IH]; intros fuel b idx v Hm Hf I HC.
  - destruct fuel as [|f]; [lia|]. cbn [find_solutions_from_island].
    assert (num_islands (set_visitedlimit v b) = num_islands b) as -> by done.
    rewrite decide_True by lia.
    destruct (leaf_check check b idx I ltac:(lia) HC v) as (v' & ok & -> & Hok).
    cbn [mbind option_bind]. eexists v', _. split; [done|].
    pose proof (event_ok_enter check b idx v I HC) as Ev.
    pose proof (leaf_unique check b idx I ltac:(lia) HC) as HU.
    change (bridge_counts (set_visitedlimit v' b)) with (bridge_counts b).
    destruct ok; split_and!.
    + apply Forall_cons. split; [done|]. apply Forall_cons. split; [by simpl|].
      apply Forall_nil. exact Logic.I.
    + apply NoDup_singleton.
    + intros A. rewrite HU.
      change (printed _) with [bridge_counts b].
      rewrite list_elem_of_singleton. split; [intros ->; split; [done|]; by apply Hok|].
      by intros [-> _].
    + apply Forall_cons. split; [done|]. apply Forall_nil. exact Logic.I.
    + constructor.
    + intros A. rewrite HU. split; [by intros ?%elem_of_nil|].
      intros [_ VS]. apply Hok in VS. done.
  - apply (search_island check m IH b idx I); try done; lia.
Qed.

(** ** More fuel changes nothing *)

Lemma search_fuel_mono check fuel :
  (∀ fuel' b idx x, (fuel ≤ fuel')%nat →
     find_solutions_from_island check fuel b idx = Some x →
     find_solutions_from_island check fuel' b idx = Some x) ∧
  (∀ fuel' b idx x, (fuel ≤ fuel')%nat →
     reorder_loop check fuel b idx = Some x →
     reorder_loop check fuel' b idx = Some x).
Proof.
  induction fuel as [|f [IH1 IH2]]; [by split|].
  split; intros fuel' b idx x Hle H; (destruct fuel' as [|f']; [lia|]);
    cbn [find_solutions_from_island reorder_loop] in *.
  - case_decide; [done|].
    destruct (fill_bridges b (IAt idx)) as [[b1 []]|]; simpl in *; try done.
    destruct (find_solutions_from_island check f b1 (S idx)) as [[b2 t1]|] eqn:E1;
      simpl in *; [|done].
    rewrite (IH1 f' _ _ _ ltac:(lia) E1). simpl.
    destruct (reorder_loop check f b2 idx) as [[b3 t2]|] eqn:E2; simpl in *; [|done].
    by rewrite (IH2 f' _ _ _ ltac:(lia) E2).
  - destruct (reorder_bridges b (IAt idx)) as [[b1 []]|]; simpl in *; try done.
    destruct (find_solutions_from_island check f b1 (S idx)) as [[b2 t1]|] eqn:E1;
      simpl in *; [|done].
    rewrite (IH1 f' _ _ _ ltac:(lia) E1). simpl.
    destruct (reorder_loop check f b2 idx) as [[b3 t2]|] eqn:E2; simpl in *; [|done].
    by rewrite (IH2 f' _ _ _ ltac:(lia) E2).
Qed.

(** ** The search from a built board *)

Lemma fresh_untouched b i : graph_ok b → fresh b → untouched b i.
Proof. intros G F. unfold untouched. by rewrite !fresh_cnt. Qed.

Lemma built_search_inv b : built b → search_inv b 0.
Proof.
  intros B. destruct (built_ok b B) as (G & F & C). split; try done.
  - by apply fresh_state_ok.
  - lia.
  - intros i _ _. by apply fresh_untouched.
Qed.

Lemma set_visitedlimit_id b : set_visitedlimit (visitedlimit b) b = b.
Proof. by destruct b. Qed.

Lemma agrees_zero b A : agrees b 0 A.
Proof. intros i d k Hi. lia. Qed.

(** The search from the first island of a built board. *)
Lemma search_built check b fuel :
  built b →
  (check = true → (0 < num_islands b)%nat ∧ valid_visited_matrix_size b = true) →
  (3 * num_islands b + 1 ≤ fuel)%nat →
  ∃ v t, find_solutions_from_island check fuel b 0 = Some (set_visitedlimit v b, t) ∧
         Forall (event_ok check) t ∧ NoDup (printed t) ∧
         ∀ A, A ∈ printed t ↔ valid_solution check b A.
Proof.
  intros B HC Hf.
  destruct (search_spec check (num_islands b) fuel b 0 (visitedlimit b))
    as (v & t & E & Ev & ND & P); try done; [lia|by apply built_search_inv|].
  rewrite set_visitedlimit_id in E. exists v, t. split_and!; try done.
  intros A. rewrite P. split; [by intros [? _]|]. intros ?. split; [done|].
  apply agrees_zero.
Qed.

(** ** Engine calls keep the marks *)

Lemma engine_step_skeleton b op b' :
  graph_ok b → state_ok b → valid_cref b (call_target op) →
  engine_step b op = Some b' → skeleton b' = skeleton b.
Proof.
  intros G S V H. destruct op as [c|c]; simpl in *; destruct c as [| |k]; try done.
  - rewrite add_bridge_COut in H by done. by simplify_eq/=.
  - destruct (connection_ends b G k V) as (a & c & d & E).
    rewrite (add_bridge_CAt b G S k a c d V E) in H.
    case_decide; simplify_eq/=; [apply skeleton_bump|done].
  - rewrite del_bridge_COut in H by done. by simplify_eq/=.
  - destruct (connection_ends b G k V) as (a & c & d & E).
    rewrite (del_bridge_CAt b G S k a c d V E) in H.
    case_decide; simplify_eq/=; [done|apply skeleton_bump].
Qed.

Lemma engine_run_skeleton ops : ∀ b b',
  graph_ok b → state_ok b → Forall (fun op => valid_cref b (call_target op)) ops →
  engine_run b ops = Some b' → skeleton b' = skeleton b.
Proof.
  induction ops as [|op ops IH]; intros b b' G S V H; simpl in *; [by simplify_eq|].
  apply Forall_cons in V as [V1 V2].
  destruct (engine_step_ok b op G S V1) as (b1 & E1 & G1 & S1 & HS1).
  rewrite E1 in H. simpl in H.
  rewrite (IH b1 b' G1 S1); [by apply (engine_step_skeleton b op)| |done].
  eapply Forall_impl; [exact V2|]. intros x. by apply valid_cref_same_static.
Qed.

Lemma engine_state_clear b : engine_state b → visited_clear b.
Proof.
  intros (b0 & ops & B & V & R). destruct (built_state_ok b0 B) as [G S].
  destruct (built_ok b0 B) as (_ & _ & C).
  pose proof (engine_run_skeleton ops b0 b G S V R) as Hs.
  unfold visited_clear in *. injection Hs as _ _ _ _ _ _ _ -> -> _ _ _ _. done.
Qed.

(** * The example boards are built *)

Lemma square_board_built : built square_board.
Proof.
  exists 8%nat, 16%nat, 16%nat, 25%nat, 0, 0,
    [(0, 0, 2); (0, 2, 2); (2, 0, 2); (2, 2, 2)].
  vm_compute. reflexivity.
Defined.

Lemma cross_board_built : built cross_board.
Proof.
  exists 8%nat, 16%nat, 16%nat, 25%nat, 0, 0,
    [(0, 1, 1); (1, 0, 1); (1, 2, 1); (2, 1, 1)].
  vm_compute. reflexivity.
Defined.


(** * The constraint engine *)

Lemma crossing_free b k :
  graph_ok b → state_ok b → (k < num_connections b)%nat →
  Forall (fun x => cnt b x = 0) (ccross b k) ↔
  ¬ Exists (fun x => 0 < cnt b x) (ccross b k).
Proof.
  intros G S Hk. rewrite Forall_forall, Exists_exists. split.
  - intros H (x & Hx & Hp). specialize (H x Hx). lia.
  - intros H x Hx.
    destruct (cross_members b G k x Hk Hx) as (k' & -> & Hk' & _).
    pose proof (cnt_valid_range b G S (CAt k') Hk').
    destruct (decide (cnt b (CAt k') = 0)) as [|Hne]; [done|].
    exfalso. apply H. exists (CAt k'). split; [done|lia].
Qed.

(** C3: [add_bridge] fails, leaving the board as it is, when the connection
    has two bridges, when the pending count of one of its two ends is 0, or
    when a connection of its crossing list has a bridge; in every other case it
    succeeds with one bridge more on the connection and one pending bridge less
    at both ends.  [del_bridge] fails, leaving the board as it is, exactly when
    the connection has no bridge, and otherwise succeeds with one bridge less
    and one pending bridge more at both ends.  Nothing else changes. *)
Theorem add_del_bridge_exact b k :
  engine_state b → (k < num_connections b)%nat →
  ∃ a c, cp1 b k = IAt a ∧ cp2 b k = IAt c ∧ a ≠ c ∧
    add_bridge b (CAt k) =
      Some (if decide (cbr b k = MAX_CONNECTION_BRIDGES ∨ ipend b a = 0 ∨ ipend b c = 0 ∨
                       Exists (fun x => 0 < cnt b x) (ccross b k))
            then (b, false) else (bump b k a c 1, true)) ∧
    del_bridge b (CAt k) =
      Some (if decide (cbr b k = 0) then (b, false) else (bump b k a c (-1), true)) ∧
    ∀ delta,
      cbr (bump b k a c delta) k = cbr b k + delta ∧
      ipend (bump b k a c delta) a = ipend b a - delta ∧
      ipend (bump b k a c delta) c = ipend b c - delta ∧
      (∀ k', k' ≠ k → cbr (bump b k a c delta) k' = cbr b k') ∧
      (∀ j, j ≠ a → j ≠ c → ipend (bump b k a c delta) j = ipend b j) ∧
      skeleton (bump b k a c delta) = skeleton b ∧
      visitedlimit (bump b k a c delta) = visitedlimit b.
Proof.
  intros [G S]%engine_state_ok Hk.
  destruct (connection_ends b G k Hk) as (a & c & d & E).
  pose proof E as [Ef Elt Eb Ep1 Ep2 _ _ _ _].
  exists a, c. split_and!; try done; try lia.
  - rewrite (add_bridge_CAt b G S k a c d Hk E).
    pose proof (s_bridges b S k Hk) as Hr.
    pose proof (crossing_free b k G S Hk) as Hf.
    unfold addable. unfold MAX_CONNECTION_BRIDGES in *.
    repeat case_decide; try done; exfalso; naive_solver lia.
  - apply (del_bridge_CAt b G S k a c d Hk E).
  - intros delta. rewrite cbr_bump, !ipend_bump by (done || lia).
    rewrite !decide_True by auto. split_and!; try done.
    + intros k' Hne. rewrite cbr_bump by done. by rewrite decide_False.
    + intros j H1 H2. rewrite ipend_bump by (done || lia).
      rewrite decide_False; [done|]. naive_solver.
    + apply skeleton_bump.
Qed.

Lemma add_del_bridge_exact_witness :
  ∃ a c, cp1 square_board 0 = IAt a ∧ cp2 square_board 0 = IAt c ∧ a ≠ c ∧
    add_bridge square_board (CAt 0) =
      Some (if decide (cbr square_board 0 = MAX_CONNECTION_BRIDGES ∨
                       ipend square_board a = 0 ∨ ipend square_board c = 0 ∨
                       Exists (fun x => 0 < cnt square_board x) (ccross square_board 0))
            then (square_board, false) else (bump square_board 0 a c 1, true)) ∧
    del_bridge square_board (CAt 0) =
      Some (if decide (cbr square_board 0 = 0) then (square_board, false)
            else (bump square_board 0 a c (-1), true)).
Proof.
  destruct (add_del_bridge_exact square_board 0) as (a & c & H1 & H2 & H3 & H4 & H5 & _).
  - apply built_engine_state, square_board_built.
  - vm_compute. lia.
  - exists a, c. repeat split; assumption.
Defined.

(** C10: after a successful [add_bridge], [del_bridge] on the same
    connection succeeds and gives back the board as it was before the
    addition. *)
Theorem del_bridge_undoes_add b c b' :
  engine_state b → valid_cref b c →
  add_bridge b c = Some (b', true) → del_bridge b' c = Some (b, true).
Proof.
  intros [G S]%engine_state_ok V H. destruct c as [| |k]; [done| |].
  - rewrite add_bridge_COut in H by done. by simplify_eq.
  - simpl in V. destruct (connection_ends b G k V) as (a & c & d & E).
    pose proof E as [Ef Elt Eb Ep1 Ep2 _ _ _ _].
    rewrite (add_bridge_CAt b G S k a c d V E) in H.
    destruct (decide (addable b k a c)) as [A|A]; [|by simplify_eq].
    injection H as <-.
    pose proof (same_static_bump b k a c 1) as HS.
    assert (G' : graph_ok (bump b k a c 1)) by (by apply graph_ok_bump).
    assert (S' : state_ok (bump b k a c 1)).
    { apply (state_ok_bump b k a c d); try done. left. done. }
    assert (V' : (k < num_connections (bump b k a c 1))%nat)
      by (by rewrite (ss_num_connections _ _ HS)).
    rewrite (del_bridge_CAt _ G' S' k a c d V' (ends_same_static _ _ _ _ _ _ HS E)).
    rewrite cbr_bump by done. rewrite (decide_True (P := k = k)) by done.
    pose proof (s_bridges b S k V).
    rewrite decide_False by lia.
    do 2 f_equal. apply (bump_bump b k a c 1); done || lia.
Qed.

Lemma del_bridge_undoes_add_witness :
  ∃ b', add_bridge square_board (CAt 0) = Some (b', true) ∧
        del_bridge b' (CAt 0) = Some (square_board, true).
Proof.
  eexists. split.
  - vm_compute. reflexivity.
  - apply del_bridge_undoes_add.
    + apply built_engine_state, square_board_built.
    + vm_compute. lia.
    + vm_compute. reflexivity.
Defined.

(** C2: after any sequence of calls of [add_bridge] and [del_bridge] on the
    connections of a freshly built board, every connection has 0, 1 or 2
    bridges, no two crossing connections both have a bridge, no pending count
    is negative, and the pending count of every island is its expected count
    minus the bridges of its four connections, hence 0 exactly when these sum
    to the expected count. *)
Theorem engine_invariants b0 ops :
  built b0 → Forall (fun op => valid_cref b0 (call_target op)) ops →
  ∃ b, engine_run b0 ops = Some b ∧
    (∀ k, (k < num_connections b)%nat → 0 ≤ cbr b k ≤ 2) ∧
    (∀ v h, (v < num_connections b)%nat → (h < num_connections b)%nat →
            xing b v h → ¬ (0 < cbr b v ∧ 0 < cbr b h)) ∧
    (∀ k k', (k < num_connections b)%nat → CAt k' ∈ ccross b k →
            ¬ (0 < cbr b k ∧ 0 < cbr b k')) ∧
    (∀ i, (i < num_islands b)%nat →
          0 ≤ ipend b i ∧ ipend b i = iexp b i - incident b i ∧
          (ipend b i = 0 ↔ incident b i = iexp b i)).
Proof.
  intros B V. destruct (built_state_ok b0 B) as [G0 S0].
  destruct (engine_run_ok ops b0 G0 S0 V) as (b & E & G & S & _).
  exists b. split; [done|]. split_and!.
  - apply (s_bridges b S).
  - intros v h Hv Hh X [H1 H2].
    destruct (g_cross_complete b G v h Hv Hh X) as [Hc _].
    pose proof (s_cross b S v h Hv Hc H1). lia.
  - intros k k' Hk Hc [H1 H2]. pose proof (s_cross b S k k' Hk Hc H1). lia.
  - intros i Hi. pose proof (s_pend b S i Hi). pose proof (s_pend_pos b S i Hi).
    split_and!; try done; lia.
Qed.

Lemma engine_invariants_witness :
  ∃ b, engine_run square_board [CallAdd (CAt 0); CallAdd (CAt 1); CallDel (CAt 0)] = Some b ∧
    (∀ k, (k < num_connections b)%nat → 0 ≤ cbr b k ≤ 2) ∧
    (∀ i, (i < num_islands b)%nat → 0 ≤ ipend b i).
Proof.
  destruct (engine_invariants square_board
              [CallAdd (CAt 0); CallAdd (CAt 1); CallDel (CAt 0)])
    as (b & H1 & H2 & _ & _ & H3).
  - exact square_board_built.
  - repeat constructor; vm_compute; lia.
  - exists b. split_and!; [done|done|]. intros i Hi. by destruct (H3 i Hi).
Defined.

(** * The crossing lists *)

(** C7: on a built board, a vertical connection [v] and a horizontal
    connection [h] are in each other's crossing list exactly when the row of
    [h] lies strictly between the rows of the ends of [v] and the column of
    [v] lies strictly between the columns of the ends of [h]; and one is in
    the other's list exactly when the other is in its list. *)
Theorem crossing_lists_geometry b v h :
  built b → (v < num_connections b)%nat → (h < num_connections b)%nat →
  vertical b v → horizontal b h →
  ((CAt h ∈ ccross b v ∧ CAt v ∈ ccross b h) ↔ xing b v h) ∧
  (CAt h ∈ ccross b v ↔ CAt v ∈ ccross b h).
Proof.
  intros [G _]%built_state_ok Hv Hh _ (e & f & He & Hf & Hrow).
  assert (N : ¬ xing b h v).
  { intros (e' & f' & a' & c' & H1 & H2 & _ & _ & Hcol & _).
    assert (e' = e) by congruence. assert (f' = f) by congruence. subst.
    destruct (connection_ends b G h Hh) as (x & y & d & [_ Hlt Hb P1 P2 _ _ _ _]).
    assert (x = e) by congruence. assert (y = f) by congruence. subst.
    destruct (g_sorted b G e f Hlt Hb) as [?|[_ ?]]; lia. }
  assert (F : ∀ k k', (k < num_connections b)%nat → (k' < num_connections b)%nat →
              CAt k' ∈ ccross b k → CAt k' ∈ ccross b k ∧ CAt k ∈ ccross b k').
  { intros k k' Hk Hk' Hc.
    destruct (g_cross_sound b G k _ Hk Hc) as (k2 & ? & _ & [X|X]); simplify_eq.
    - by apply (g_cross_complete b G).
    - split; [done|]. by apply (g_cross_complete b G k2 k). }
  split; [split|].
  - intros [Hc _].
    destruct (g_cross_sound b G v _ Hv Hc) as (k2 & ? & _ & [X|X]); by simplify_eq.
  - by apply (g_cross_complete b G).
  - split; intros Hc; by apply F in Hc as [? ?].
Qed.

Lemma crossing_lists_geometry_witness :
  ((CAt 0 ∈ ccross cross_board 1 ∧ CAt 1 ∈ ccross cross_board 0) ↔ xing cross_board 1 0) ∧
  (CAt 0 ∈ ccross cross_board 1 ↔ CAt 1 ∈ ccross cross_board 0).
Proof.
  apply crossing_lists_geometry.
  - exact cross_board_built.
  - vm_compute. lia.
  - vm_compute. lia.
  - exists 0%nat, 3%nat. vm_compute. done.
  - exists 1%nat, 2%nat. vm_compute. done.
Defined.

(** * The per-island steps of the solver *)




(** C5: on an island that was untouched in [b] and now carries the split
    [(r, d)], with [r + d] the pending count it had in [b],
    [reorder_bridges] either succeeds, having removed one right bridge and
    added one down bridge, with the split [(r - 1, d + 1)]; or fails, when
    [r = 0] or the down bridge cannot be added, and gives back [b], the island
    untouched.  Success lowers the right count by one, and failure means that
    no split with a smaller right count is admissible. *)
Theorem reorder_bridges_correct b i r d :
  engine_state b → (i < num_islands b)%nat → untouched b i →
  split_ok b i r d → r + d = ipend b i →
  ∃ b' ok, reorder_bridges (place b i r d) (IAt i) = Some (b', ok) ∧
    (ok = true →
       0 < r ∧ b' = place b i (r - 1) (d + 1) ∧ split_ok b i (r - 1) (d + 1) ∧
       del_bridge (place b i r d) (icn b i RIGHT) = Some (place b i (r - 1) d, true) ∧
       add_bridge (place b i (r - 1) d) (icn b i DOWN) = Some (b', true)) ∧
    (ok = false →
       b' = b ∧
       (r = 0 ∨ add_bridge (place b i (r - 1) d) (icn b i DOWN)
                = Some (place b i (r - 1) d, false)) ∧
       ∀ r' d', r' < r → r' + d' = ipend b i → ¬ split_ok b i r' d').
Proof.
  intros [G S]%engine_state_ok Hi U H Hsum.
  rewrite (reorder_bridges_closed b G S i Hi U r d H).
  pose proof H as (Hr & Hd & _).
  case_decide as Hc; eexists _, _; (split; [done|]); (split; intros Hok; try done).
  - clear Hok.
    assert (H1 : split_ok b i (r - 1) d) by (unfold split_ok; lia).
    split_and!; try done; try lia.
    + unfold split_ok; lia.
    + rewrite (del_right b G S i Hi U) by done. by rewrite decide_False by lia.
    + rewrite (add_down b G S i Hi U) by done. by rewrite decide_True by lia.
  - clear Hok. split_and!; [done| |].
    + destruct (decide (r = 0)) as [|Hr0]; [by left|right].
      assert (H1 : split_ok b i (r - 1) d) by (unfold split_ok; lia).
      rewrite (add_down b G S i Hi U) by done. by rewrite decide_False by lia.
    + intros r' d' Hlt Hs (? & ? & ?). lia.
Qed.

Lemma reorder_bridges_correct_witness :
  ∃ b' ok, reorder_bridges (place square_board 0 2 0) (IAt 0) = Some (b', ok) ∧
    (ok = true → b' = place square_board 0 1 1) ∧
    (ok = false → b' = square_board).
Proof.
  destruct (reorder_bridges_correct square_board 0 2 0) as (b' & ok & H1 & H2 & H3).
  - apply built_engine_state, square_board_built.
  - vm_compute. lia.
  - vm_compute. done.
  - unfold split_ok. vm_compute. intuition discriminate.
  - vm_compute. reflexivity.
  - exists b', ok. split_and!; [done| |].
    + intros Hok. by destruct (H2 Hok) as (_ & -> & _).
    + intros Hok. by destruct (H3 Hok) as (-> & _).
Defined.

(** * The connectivity verifier *)

(** C6: on a board of the search with at least one island and a visited
    matrix of valid size, [check_connected_solution] (with the check compiled
    in) runs the traversal from the first island; the traversal marks exactly
    the islands reachable from the first island over connections with a
    bridge, and returns their number; the check accepts exactly when this
    number is the number of islands, that is when every island is reachable.
    All marks lie below the high-water mark, and after the call no position of
    the visited matrix is marked and the high-water mark is 0. *)
Theorem check_connected_solution_correct b0 v :
  engine_state b0 → (0 < num_islands b0)%nat → valid_visited_matrix_size b0 = true →
  let b := set_visitedlimit v b0 in
  ∃ b1 total ok,
    visit_islands (S (num_islands b)) (set_visitedlimit 0 b) (IAt 0) = Some (b1, total) ∧
    (∀ j, (j < num_islands b)%nat → marked b1 j ↔ rtc (adj b) 0%nat j) ∧
    total = Z.of_nat (length (filter (marked b1) (seq 0 (num_islands b)))) ∧
    limit_ok b1 ∧
    check_connected_solution true b = Some (set_visitedlimit 0 b0, ok) ∧
    (ok = true ↔ total = Z.of_nat (num_islands b)) ∧
    (ok = true ↔ connected b) ∧
    visitedmatrix (set_visitedlimit 0 b0) = replicate (max_visited_size b0) false ∧
    visitedlimit (set_visitedlimit 0 b0) = 0.
Proof.
  intros E N V b. destruct (engine_state_ok b0 E) as [G _].
  pose proof (engine_state_clear b0 E) as C.
  destruct (check_connected_closed b (graph_ok_limit v b0 G) C V N)
    as (b1 & total & ok & H1 & _ & H2 & H3 & H4 & H5 & H6 & H7).
  exists b1, total, ok. split_and!; done.
Qed.

Lemma check_connected_solution_correct_witness :
  ∃ ok, check_connected_solution true (set_visitedlimit 7 square_board)
          = Some (set_visitedlimit 0 square_board, ok) ∧
        (ok = true ↔ connected (set_visitedlimit 7 square_board)).
Proof.
  destruct (check_connected_solution_correct square_board 7)
    as (b1 & total & ok & _ & _ & _ & _ & H & _ & H' & _).
  - apply built_engine_state, square_board_built.
  - vm_compute. lia.
  - vm_compute. reflexivity.
  - by exists ok.
Defined.

(** * The solver *)

(** C1: for a built board (with at least one island and a visited matrix of
    valid size when the connectivity check is compiled in), the search from
    the first island prints exactly the assignments of bridge counts to the
    connections that give every connection at most two bridges, every island
    its expected number of bridges, no bridge to two connections that cross,
    and, with the check, connect all islands; and it prints none of them
    twice. *)
Theorem solver_correct check b fuel :
  built b →
  (check = true → (0 < num_islands b)%nat ∧ valid_visited_matrix_size b = true) →
  (3 * num_islands b + 1 ≤ fuel)%nat →
  ∃ b' t, find_solutions_from_island check fuel b 0 = Some (b', t) ∧
          NoDup (printed t) ∧
          ∀ A, A ∈ printed t ↔ valid_solution check b A.
Proof.
  intros B HC Hf. destruct (search_built check b fuel B HC Hf) as (v & t & E & _ & ND & P).
  by exists (set_visitedlimit v b), t.
Qed.

Lemma solver_correct_witness :
  ∃ b' t, find_solutions_from_island true 13 square_board 0 = Some (b', t) ∧
          NoDup (printed t) ∧
          ∀ A, A ∈ printed t ↔ valid_solution true square_board A.
Proof.
  apply solver_correct.
  - exact square_board_built.
  - intros _. split; [vm_compute; lia|vm_compute; reflexivity].
  - vm_compute. lia.
Defined.

(** C8: the search from the first island of a built board terminates: with
    fuel for three steps per island and one more it returns, more fuel gives
    the same result, and the board is given back as it was but for the
    high-water mark, so that every island has its forward connections empty
    again. *)
Theorem solver_terminates check b fuel :
  built b →
  (check = true → (0 < num_islands b)%nat ∧ valid_visited_matrix_size b = true) →
  (3 * num_islands b + 1 ≤ fuel)%nat →
  ∃ v t, find_solutions_from_island check (3 * num_islands b + 1) b 0
           = Some (set_visitedlimit v b, t) ∧
         find_solutions_from_island check fuel b 0 = Some (set_visitedlimit v b, t).
Proof.
  intros B HC Hf.
  destruct (search_built check b (3 * num_islands b + 1) B HC (le_n _))
    as (v & t & E & _).
  exists v, t. split; [done|].
  by apply (proj1 (search_fuel_mono check (3 * num_islands b + 1))).
Qed.

Lemma solver_terminates_witness :
  ∃ v t, find_solutions_from_island true 13 square_board 0
           = Some (set_visitedlimit v square_board, t) ∧
         find_solutions_from_island true 20 square_board 0
           = Some (set_visitedlimit v square_board, t).
Proof.
  apply (solver_terminates true square_board 20).
  - exact square_board_built.
  - intros _. split; [vm_compute; lia|vm_compute; reflexivity].
  - vm_compute. lia.
Defined.

(** C9: whenever the search from the first island of a built board invokes
    [find_solutions_from_island] with an index [idx] on a board [bi], every
    island from [idx] on has no bridge on its right and on its down connection
    there, and the invocation gives [bi] back, but for the high-water mark.
    So, while island [idx] is processed, the board is [bi] with a split
    [(r, d)] on the two forward connections of the island and nothing else
    changed: [fill_bridges] reaches such a split or, failing, gives back [bi];
    [reorder_bridges] on such a split reaches the next one or, failing, gives
    back [bi]: the undo loops remove the [r] and [d] bridges of the split and
    no bridge of another connection.  The whole search gives back the board
    it started from, but for the high-water mark. *)
Theorem search_invariant check b fuel b' t :
  built b →
  (check = true → (0 < num_islands b)%nat ∧ valid_visited_matrix_size b = true) →
  find_solutions_from_island check fuel b 0 = Some (b', t) →
  (∃ v, b' = set_visitedlimit v b) ∧
  ∀ idx bi, Enter idx bi ∈ t →
    (∀ i, (idx ≤ i)%nat → (i < num_islands bi)%nat →
          cnt bi (icn bi i RIGHT) = 0 ∧ cnt bi (icn bi i DOWN) = 0) ∧
    (∃ v' t', find_solutions_from_island check (3 * (num_islands bi - idx) + 1) bi idx
                = Some (set_visitedlimit v' bi, t')) ∧
    ((idx < num_islands bi)%nat →
     (∀ b1 ok, fill_bridges bi (IAt idx) = Some (b1, ok) →
        if ok
        then ∃ r d, split_ok bi idx r d ∧ r + d = ipend bi idx ∧ b1 = place bi idx r d
        else b1 = bi) ∧
     (∀ r d v b1 ok, split_ok bi idx r d →
        reorder_bridges (set_visitedlimit v (place bi idx r d)) (IAt idx) = Some (b1, ok) →
        if ok
        then split_ok bi idx (r - 1) (d + 1) ∧
             b1 = set_visitedlimit v (place bi idx (r - 1) (d + 1))
        else b1 = set_visitedlimit v bi) ∧
     (∀ r d k, cbr (place bi idx r d) k
               = cbr bi k + on (icn bi idx RIGHT) k r + on (icn bi idx DOWN) k d)).
Proof.
  intros B HC H.
  set (fuel' := (fuel `max` (3 * num_islands b + 1))%nat).
  destruct (search_built check b fuel' B HC ltac:(lia)) as (v & t' & E & Ev & _).
  apply (proj1 (search_fuel_mono check fuel) fuel') in H; [|lia].
  rewrite E in H. injection H as <- <-. split; [by exists v|].
  intros idx bi Hin. rewrite Forall_forall in Ev. apply Ev in Hin as (Inv & HCi).
  pose proof Inv as [G St _ _ U].
  split_and!.
  - intros i Hle Hi. exact (U i Hle Hi).
  - destruct (search_spec check (num_islands bi - idx) (3 * (num_islands bi - idx) + 1)
                bi idx (visitedlimit bi) eq_refl (le_n _) Inv HCi) as (v' & t1 & E1 & _).
    rewrite set_visitedlimit_id in E1. by exists v', t1.
  - intros Hi. split_and!.
    + intros b1 ok. rewrite (fill_bridges_closed bi G St idx Hi (U idx (le_n _) Hi)).
      case_decide as Hd; intros [= <- <-]; [|done].
      exists (fill_right bi idx), (fill_down bi idx). split_and!; [|done|done].
      exact (split_ok_fill bi G St idx Hi (U idx (le_n _) Hi)).
    + intros r d v0 b1 ok Hs. rewrite (reorder_bridges_limit bi idx Inv Hi v0 r d Hs).
      case_decide as Hc; intros [= <- <-]; [|done].
      split; [|done]. destruct Hs as (H1 & H2 & H3). unfold split_ok. lia.
    + intros r d k. exact (cbr_place bi G idx Hi r d k).
Qed.

Lemma search_invariant_witness :
  ∃ b' t, find_solutions_from_island true 13 square_board 0 = Some (b', t) ∧
          (∃ v, b' = set_visitedlimit v square_board) ∧
          ∀ idx bi, Enter idx bi ∈ t →
            ∀ i, (idx ≤ i)%nat → (i < num_islands bi)%nat →
                 cnt bi (icn bi i RIGHT) = 0 ∧ cnt bi (icn bi i DOWN) = 0.
Proof.
  eexists _, _. split; [vm_compute; reflexivity|].
  refine (let H := search_invariant true square_board 13 _ _ square_board_built _ _ in
          conj (proj1 H) (fun idx bi Hin => proj1 (proj2 H idx bi Hin))).
  - intros _. split; [vm_compute; lia|vm_compute; reflexivity].
  - vm_compute. reflexivity.
Defined.

(** * Further properties of the builder *)

(** X1: [add_island] rejects, without touching the board, a negative row or
    column, a row or column from [CHAR_MAX] on, a position that is not after
    the last island in row-major order, and an expected count outside 1..8. *)
Theorem add_island_rejects b r c e :
  r < 0 ∨ c < 0 ∨ CHAR_MAX ≤ r ∨ CHAR_MAX ≤ c ∨
  (∃ p, num_islands b = S p ∧ (r < irow b p ∨ (r = irow b p ∧ c ≤ icol b p))) ∨
  e < 1 ∨ MAX_EXPECTED_BRIDGES < e →
  add_island b r c e = Some (b, false).
Proof.
  intros H. unfold add_island.
  destruct (Z.ltb_spec r 0) as [|Hr]; [done|].
  destruct (Z.ltb_spec c 0) as [|Hc]; [done|]. simpl.
  destruct (Z.leb_spec CHAR_MAX r) as [|Hr']; [done|].
  destruct (Z.leb_spec CHAR_MAX c) as [|Hc']; [done|].
  destruct (num_islands b) as [|p] eqn:Hn.
  - simpl. destruct H as [?|[?|[?|[?|[(p & [=] & _)|H]]]]]; try lia.
    destruct (Z.ltb_spec e 1); [done|].
    destruct (Z.ltb_spec MAX_EXPECTED_BRIDGES e); [done|]. lia.
  - assert (Hp : (p < num_islands b)%nat) by lia.
    destruct (island_lookup b p Hp) as [x Hx]. rewrite Hx. simpl.
    destruct (island_fields b p x Hx) as (Fr & Fc & _).
    destruct (Z.ltb_spec r (row x)); [done|].
    destruct (Z.eqb_spec r (row x)); destruct (Z.leb_spec c (col x)); simpl; try done;
      (destruct H as [?|[?|[?|[?|[(p' & [= <-] & Hb)|H]]]]]; try lia;
       destruct (Z.ltb_spec e 1); [done|];
       destruct (Z.ltb_spec MAX_EXPECTED_BRIDGES e); [done|]; lia).
Qed.

Lemma add_island_rejects_witness :
  add_island square_board 2 2 1 = Some (square_board, false).
Proof.
  apply add_island_rejects. right. right. right. right. left.
  exists 3%nat. vm_compute. split; [reflexivity|]. right. split; [reflexivity|].
  discriminate.
Defined.

(** X2: when the arena of islands is full, [add_island] fails and leaves the
    board as it was, whatever the island. *)
Theorem add_island_full b r c e :
  (max_islands b ≤ num_islands b)%nat → add_island b r c e = Some (b, false).
Proof.
  intros H. unfold add_island.
  destruct ((r <? 0) || (c <? 0)); [done|].
  destruct (CHAR_MAX <=? r); [done|]. destruct (CHAR_MAX <=? c); [done|].
  assert (∃ bad, match num_islands b with
                 | O => Some false
                 | S p => prev ← islands b !! p;
                          Some ((r <? row prev) || ((r =? row prev) && (c <=? col prev)))
                 end = Some bad) as [bad ->].
  { destruct (num_islands b) as [|p] eqn:Hn; [by eexists|].
    destruct (island_lookup b p ltac:(lia)) as [x ->]. by eexists. }
  simpl. destruct bad; [done|].
  destruct ((e <? 1) || (MAX_EXPECTED_BRIDGES <? e)); [done|].
  unfold next_island. by rewrite decide_True.
Qed.

Lemma add_island_full_witness :
  add_island (init_board 0 4 4 4 0 0) 0 0 1 = Some (init_board 0 4 4 4 0 0, false).
Proof. apply add_island_full. vm_compute. lia. Defined.

Lemma add_islands_app l1 : ∀ b l2,
  add_islands b (l1 ++ l2) =
    match add_islands b l1 with
    | Some (b1, true) => add_islands b1 l2
    | r => r
    end.
Proof.
  induction l1 as [|[[r c] e] l1 IH]; intros b l2; [done|].
  simpl. destruct (add_island b r c e) as [[b1 []]|]; simpl; auto.
Qed.

(** X3: a successful [add_island] on a built board gives a built board with
    one island more, the new island last, with the given row, column and
    expected count and all its bridges pending; the islands that were there
    keep their place and their counts. *)
Theorem add_island_success b r c e b' :
  built b → add_island b r c e = Some (b', true) →
  built b' ∧ num_islands b' = S (num_islands b) ∧
  irow b' (num_islands b) = r ∧ icol b' (num_islands b) = c ∧
  iexp b' (num_islands b) = e ∧ ipend b' (num_islands b) = e ∧
  ∀ i, (i < num_islands b)%nat →
       irow b' i = irow b i ∧ icol b' i = icol b i ∧ iexp b' i = iexp b i ∧
       ipend b' i = ipend b i.
Proof.
  intros B H. destruct (built_ok b B) as (G & _).
  destruct (add_island_added b r c e b' G H) as (left & up & [Ac _]).
  split.
  { destruct B as (mi & mc & mx & mv & g1 & g2 & l & Hl).
    exists mi, mc, mx, mv, g1, g2, (l ++ [(r, c, e)]).
    rewrite add_islands_app, Hl. simpl. by rewrite H. }
  rewrite (ad_num_islands _ _ _ _ _ _ _ Ac), (ad_irow _ _ _ _ _ _ _ Ac),
    (ad_icol _ _ _ _ _ _ _ Ac), (ad_iexp _ _ _ _ _ _ _ Ac), (ad_ipend _ _ _ _ _ _ _ Ac).
  rewrite !decide_True by done. split_and!; try done.
  intros i Hi.
  rewrite (ad_irow _ _ _ _ _ _ _ Ac), (ad_icol _ _ _ _ _ _ _ Ac),
    (ad_iexp _ _ _ _ _ _ _ Ac), (ad_ipend _ _ _ _ _ _ _ Ac).
  by rewrite !decide_False by lia.
Qed.

Lemma add_island_success_witness :
  ∃ b', add_island square_board 2 4 1 = Some (b', true) ∧ built b' ∧
        num_islands b' = 5%nat.
Proof.
  eexists. split; [vm_compute; reflexivity|].
  refine (let H := add_island_success square_board 2 4 1 _ square_board_built _ in
          conj (proj1 H) (proj1 (proj2 H))).
  vm_compute. reflexivity.
Defined.

(** * The geometry of built boards *)

(** X4: on a built board the islands are in strict row-major order, every
    island lies inside the [rows] x [cols] rectangle, which is smaller than
    [CHAR_MAX] in both directions, and expects between 1 and 8 bridges. *)
Theorem built_islands_ordered b :
  built b →
  rows b ≤ CHAR_MAX ∧ cols b ≤ CHAR_MAX ∧
  (∀ i, (i < num_islands b)%nat →
        0 ≤ irow b i < rows b ∧ 0 ≤ icol b i < cols b ∧
        1 ≤ iexp b i ≤ MAX_EXPECTED_BRIDGES) ∧
  (∀ i j, (i < j)%nat → (j < num_islands b)%nat →
          irow b i < irow b j ∨ (irow b i = irow b j ∧ icol b i < icol b j)).
Proof.
  intros B. destruct (built_ok b B) as (G & _).
  destruct (g_dims b G). split_and!; try done.
  - apply (g_pos b G).
  - apply (g_sorted b G).
Qed.

Lemma built_islands_ordered_witness :
  rows square_board ≤ CHAR_MAX ∧ cols square_board ≤ CHAR_MAX.
Proof.
  destruct (built_islands_ordered square_board square_board_built) as (? & ? & _).
  by split.
Defined.

(** X5: on a built board the neighbour of an island to the right is the next
    island when that is in the same row, the neighbour to the left is the
    previous island when that is in the same row, the neighbours down and up
    are the nearest islands of the same column; where there is none, the
    neighbour is the sentinel. *)
Theorem built_neighbours_nearest b i :
  built b → (i < num_islands b)%nat →
  inb b i RIGHT =
    (if decide ((S i < num_islands b)%nat ∧ irow b (S i) = irow b i)
     then IAt (S i) else IOut) ∧
  inb b i LEFT =
    match i with
    | O => IOut
    | S p => if decide (irow b p = irow b i) then IAt p else IOut
    end ∧
  match inb b i DOWN with
  | IAt j => (i < j)%nat ∧ (j < num_islands b)%nat ∧ icol b j = icol b i ∧
             ∀ t, (i < t)%nat → (t < j)%nat → icol b t ≠ icol b i
  | IOut => ∀ t, (i < t)%nat → (t < num_islands b)%nat → icol b t ≠ icol b i
  | INull => False
  end ∧
  match inb b i UP with
  | IAt j => (j < i)%nat ∧ icol b j = icol b i ∧
             ∀ t, (j < t)%nat → (t < i)%nat → icol b t ≠ icol b i
  | IOut => ∀ t, (t < i)%nat → icol b t ≠ icol b i
  | INull => False
  end.
Proof.
  intros B Hi. destruct (built_ok b B) as (G & _).
  split_and!; [apply (g_right b G i Hi)|apply (g_left b G i Hi)|
               apply (g_down b G i Hi)|apply (g_up b G i Hi)].
Qed.

Lemma built_neighbours_nearest_witness :
  inb square_board 0 RIGHT = IAt 1 ∧ inb square_board 0 LEFT = IOut.
Proof.
  destruct (built_neighbours_nearest square_board 0 square_board_built)
    as (H1 & H2 & _); [vm_compute; lia|].
  split; [exact H1|exact H2].
Defined.

(** X6: on a built board every connection joins two different islands that
    are neighbours of each other: it is the connection of its first island in
    a forward direction (right or down) and of its second island in the
    opposite direction, and no other slot of any island holds it. *)
Theorem built_connection_ends b k :
  built b → (k < num_connections b)%nat →
  ∃ a c d, is_forward d = true ∧ (a < c)%nat ∧ (c < num_islands b)%nat ∧
    cp1 b k = IAt a ∧ cp2 b k = IAt c ∧
    icn b a d = CAt k ∧ inb b a d = IAt c ∧
    icn b c (opp d) = CAt k ∧ inb b c (opp d) = IAt a ∧
    ∀ i d', (i < num_islands b)%nat → icn b i d' = CAt k →
            (i = a ∧ d' = d) ∨ (i = c ∧ d' = opp d).
Proof.
  intros B Hk. destruct (built_ok b B) as (G & _).
  destruct (connection_ends b G k Hk) as (a & c & d & E).
  exists a, c, d. pose proof E as [? ? ? ? ? ? ? ? ?]. split_and!; try done.
  intros i d' Hi Hs. by apply (slot_unique b G k a c d i d' E).
Qed.

Lemma built_connection_ends_witness :
  ∃ a c d, cp1 square_board 0 = IAt a ∧ cp2 square_board 0 = IAt c ∧
           icn square_board a d = CAt 0 ∧ icn square_board c (opp d) = CAt 0.
Proof.
  destruct (built_connection_ends square_board 0 square_board_built)
    as (a & c & d & _ & _ & _ & H1 & H2 & H3 & _ & H4 & _); [vm_compute; lia|].
  exists a, c, d. repeat split; assumption.
Defined.

(** X7: on a built board the neighbour links are symmetric and both ends
    share one connection, which is not the sentinel: if island [j] is the
    neighbour of island [i] in a direction, then [i] is the neighbour of [j] in
    the opposite direction, over the same connection. *)
Theorem built_neighbours_symmetric b i j d :
  built b → (i < num_islands b)%nat → inb b i d = IAt j →
  (j < num_islands b)%nat ∧ inb b j (opp d) = IAt i ∧
  ∃ k, (k < num_connections b)%nat ∧ icn b i d = CAt k ∧ icn b j (opp d) = CAt k.
Proof.
  intros B Hi Hn. destruct (built_ok b B) as (G & _).
  pose proof (g_slot b G i d Hi) as Hs. pose proof (g_pair b G i j d Hi Hn) as Hp.
  destruct (icn b i d) as [| |k] eqn:E; [done|congruence|].
  destruct Hs as (Hk & _).
  destruct (connection_ends b G k Hk) as (a & c & d0 & En).
  pose proof En as [Ef Elt Eb Ep1 Ep2 Es1 En1 Es2 En2].
  destruct (slot_unique b G k a c d0 i d En Hi E) as [[-> ->]|[-> ->]].
  - assert (c = j) as -> by congruence. split_and!; try done. by exists k.
  - rewrite opp_opp in *. assert (a = j) as -> by congruence.
    split_and!; [lia|done|]. by exists k.
Qed.

Lemma built_neighbours_symmetric_witness :
  inb square_board 2 UP = IAt 0 ∧
  ∃ k, (k < num_connections square_board)%nat ∧ icn square_board 0 DOWN = CAt k ∧
       icn square_board 2 UP = CAt k.
Proof.
  destruct (built_neighbours_symmetric square_board 0 2 DOWN square_board_built)
    as (_ & H1 & k & H2 & H3 & H4); [vm_compute; lia|vm_compute; reflexivity|].
  split; [exact H1|]. exists k. repeat split; assumption.
Defined.

(** * Further properties of the constraint engine *)

(** X8: the sentinel connection never takes a bridge and never gives one:
    on it [add_bridge] and [del_bridge] fail and leave the board as it is. *)
Theorem sentinel_connection_inert b :
  engine_state b →
  add_bridge b COut = Some (b, false) ∧ del_bridge b COut = Some (b, false).
Proof.
  intros [G _]%engine_state_ok. by rewrite add_bridge_COut, del_bridge_COut.
Qed.

Lemma sentinel_connection_inert_witness :
  add_bridge square_board COut = Some (square_board, false) ∧
  del_bridge square_board COut = Some (square_board, false).
Proof. apply sentinel_connection_inert, built_engine_state, square_board_built. Defined.

(** X9: after a successful [del_bridge], [add_bridge] on the same connection
    succeeds and gives back the board as it was before the removal. *)
Theorem add_bridge_undoes_del b c b' :
  engine_state b → valid_cref b c →
  del_bridge b c = Some (b', true) → add_bridge b' c = Some (b, true).
Proof.
  intros [G S]%engine_state_ok V H. destruct c as [| |k]; [done| |].
  - rewrite del_bridge_COut in H by done. by simplify_eq.
  - simpl in V. destruct (connection_ends b G k V) as (a & c & d & E).
    pose proof E as [Ef Elt Eb Ep1 Ep2 _ _ _ _].
    rewrite (del_bridge_CAt b G S k a c d V E) in H.
    destruct (decide (cbr b k = 0)) as [Z|Z]; [by simplify_eq|].
    injection H as <-.
    pose proof (same_static_bump b k a c (-1)) as HS.
    assert (G' : graph_ok (bump b k a c (-1))) by (by apply graph_ok_bump).
    assert (S' : state_ok (bump b k a c (-1))).
    { apply (state_ok_bump b k a c d); try done. right. done. }
    assert (V' : (k < num_connections (bump b k a c (-1)))%nat)
      by (by rewrite (ss_num_connections _ _ HS)).
    rewrite (add_bridge_CAt _ G' S' k a c d V' (ends_same_static _ _ _ _ _ _ HS E)).
    pose proof (s_bridges b S k V) as Hb.
    pose proof (s_pend_pos b S a ltac:(lia)) as Ha.
    pose proof (s_pend_pos b S c Eb) as Hc.
    rewrite decide_True.
    + do 2 f_equal. change 1 with (- (-1)). apply (bump_bump b k a c (-1)); done || lia.
    + unfold addable. rewrite cbr_bump, !ipend_bump by (done || lia).
      rewrite (ss_ccross _ _ HS).
      rewrite (decide_True (P := k = k)) by done.
      rewrite !decide_True by auto.
      unfold MAX_CONNECTION_BRIDGES in *. split_and!; try lia.
      apply Forall_forall. intros x Hx.
      destruct (cross_members b G k x V Hx) as (k' & -> & Hk' & _).
      rewrite cnt_bump by done. rewrite decide_False.
      * rewrite cnt_CAt. pose proof (s_cross b S k k' V Hx). lia.
      * intros [= ->]. by apply (no_self_cross b _ G) in Hx.
Qed.

Lemma add_bridge_undoes_del_witness :
  ∃ b1 b2, add_bridge square_board (CAt 0) = Some (b1, true) ∧
           del_bridge b1 (CAt 0) = Some (b2, true) ∧
           add_bridge b2 (CAt 0) = Some (b1, true).
Proof.
  eexists _, _. split; [vm_compute; reflexivity|]. split; [vm_compute; reflexivity|].
  apply add_bridge_undoes_del.
  - exists square_board, [CallAdd (CAt 0)]. split; [exact square_board_built|].
    split; [repeat constructor; vm_compute; lia|vm_compute; reflexivity].
  - vm_compute. lia.
  - vm_compute. reflexivity.
Defined.

Lemma bump_add b k a c d1 d2 :
  a ≠ c → (a < num_islands b)%nat → (c < num_islands b)%nat →
  (k < num_connections b)%nat →
  bump (bump b k a c d1) k a c d2 = bump b k a c (d1 + d2).
Proof.
  intros Hne Ha Hc Hk.
  pose proof (same_static_bump b k a c d1) as HS.
  apply board_ext.
  - by rewrite !skeleton_bump.
  - destruct (visited_bump (bump b k a c d1) k a c d2) as [_ ->].
    destruct (visited_bump b k a c d1) as [_ ->].
    by destruct (visited_bump b k a c (d1 + d2)) as [_ ->].
  - intros i. rewrite !ipend_bump; rewrite ?(ss_num_islands _ _ HS); try done.
    repeat case_decide; lia.
  - intros k'. rewrite !cbr_bump; rewrite ?(ss_num_connections _ _ HS); try done.
    repeat case_decide; lia.
Qed.

Lemma del_loop_general fuel : ∀ b k a c d,
  graph_ok b → state_ok b → (k < num_connections b)%nat → ends b k a c d →
  cbr b k < Z.of_nat fuel →
  del_bridges_loop fuel b (CAt k) = Some (bump b k a c (- cbr b k)).
Proof.
  induction fuel as [|f IH]; intros b k a c d G S Hk E Hf.
  { pose proof (s_bridges b S k Hk). lia. }
  pose proof E as [Ef Elt Eb Ep1 Ep2 _ _ _ _].
  pose proof (s_bridges b S k Hk) as Hb.
  cbn [del_bridges_loop]. rewrite (del_bridge_CAt b G S k a c d Hk E).
  destruct (decide (cbr b k = 0)) as [Z|Z]; cbn [mbind option_bind].
  - rewrite Z. by rewrite bump_zero.
  - pose proof (same_static_bump b k a c (-1)) as HS.
    rewrite (IH _ k a c d).
    + rewrite cbr_bump by done. rewrite decide_True by done.
      rewrite bump_add by (done || lia). do 2 f_equal. lia.
    + by apply graph_ok_bump.
    + apply (state_ok_bump b k a c d); try done. by right.
    + by rewrite (ss_num_connections _ _ HS).
    + by apply (ends_same_static b).
    + rewrite cbr_bump by done. rewrite decide_True by done. lia.
Qed.

(** X10: the loop [while (del_bridge(connection));] ends (after at most two
    removals) with no bridge left on the connection and every removed bridge
    pending again at both ends; nothing else changes. *)
Theorem del_all_bridges_clears b c :
  engine_state b → valid_cref b c →
  del_all_bridges b c = Some (bumpx b c (- cnt b c)) ∧
  cnt (bumpx b c (- cnt b c)) c = 0.
Proof.
  intros [G S]%engine_state_ok V. destruct c as [| |k]; [done| |].
  - split; [|simpl; apply (cnt_COut b G)].
    unfold del_all_bridges. simpl. by rewrite del_bridge_COut.
  - simpl in V. destruct (connection_ends b G k V) as (a & c & d & E).
    pose proof (s_bridges b S k V) as Hb. unfold MAX_CONNECTION_BRIDGES in Hb.
    rewrite (bumpx_ends b k a c d _ E), cnt_CAt. split.
    + apply (del_loop_general 256 b k a c d); try done. lia.
    + rewrite cnt_bump by done. rewrite decide_True by done. rewrite cnt_CAt. lia.
Qed.

Lemma del_all_bridges_clears_witness :
  del_all_bridges square_board (CAt 0)
    = Some (bumpx square_board (CAt 0) (- cnt square_board (CAt 0))).
Proof.
  apply del_all_bridges_clears.
  - apply built_engine_state, square_board_built.
  - vm_compute. lia.
Defined.

(** * Further properties of the solver's steps *)

(** X11: the greedy attempt of [fill_bridges] on an island with empty
    forward connections is complete: it succeeds exactly when some split of the
    pending count over the right and the down connection is admissible, and the
    split it reaches has the largest admissible right count. *)
Theorem fill_bridges_greedy b i :
  engine_state b → (i < num_islands b)%nat → untouched b i →
  ((∃ b', fill_bridges b (IAt i) = Some (b', true)) ↔
   (∃ r d, split_ok b i r d ∧ r + d = ipend b i)) ∧
  (∀ r d, split_ok b i r d → r ≤ fill_right b i) ∧
  (∀ b', fill_bridges b (IAt i) = Some (b', true) →
         b' = place b i (fill_right b i) (ipend b i - fill_right b i)).
Proof.
  intros [G S]%engine_state_ok Hi U.
  rewrite (fill_bridges_closed b G S i Hi U).
  pose proof (split_ok_fill b G S i Hi U) as H.
  split_and!.
  - split.
    + intros [b' Hb]. exists (fill_right b i), (fill_down b i).
      case_decide; [done|by simplify_eq].
    + intros (r & d & (H1 & H2 & H3) & Hs). rewrite decide_True; [by eexists|].
      destruct H as (? & ? & ?). unfold fill_down, fill_right in *. lia.
  - intros r d (H1 & H2 & H3). unfold fill_right. lia.
  - intros b' Hb. case_decide as Hc; [|by simplify_eq].
    injection Hb as <-. f_equal. lia.
Qed.

Lemma fill_bridges_greedy_witness :
  (∃ b', fill_bridges square_board (IAt 0) = Some (b', true)) ↔
  (∃ r d, split_ok square_board 0 r d ∧ r + d = ipend square_board 0).
Proof.
  apply fill_bridges_greedy.
  - apply built_engine_state, square_board_built.
  - vm_compute. lia.
  - vm_compute. done.
Defined.

(** * Further properties of the connectivity verifier *)

(** X12: when [valid_visited_matrix_size] accepts a built board, the
    position [row * cols + col] of every island is an index into the visited
    matrix, and different islands have different positions. *)
Theorem visited_positions_in_bounds b :
  built b → valid_visited_matrix_size b = true →
  length (visitedmatrix b) = max_visited_size b ∧
  (∀ i, (i < num_islands b)%nat →
        0 ≤ pos b i < Z.of_nat (length (visitedmatrix b))) ∧
  (∀ i j, (i < num_islands b)%nat → (j < num_islands b)%nat →
          pos b i = pos b j → i = j).
Proof.
  intros B V. destruct (built_ok b B) as (G & _ & C).
  assert (Hl : length (visitedmatrix b) = max_visited_size b).
  { rewrite C. by rewrite length_replicate. }
  split_and!; [done| |].
  - intros i Hi. pose proof (pos_range b G i Hi).
    unfold valid_visited_matrix_size in V. apply negb_true_iff in V. lia.
  - apply (pos_inj b G).
Qed.

Lemma visited_positions_in_bounds_witness :
  length (visitedmatrix square_board) = max_visited_size square_board.
Proof.
  apply visited_positions_in_bounds; [exact square_board_built|].
  vm_compute. reflexivity.
Defined.

(** X13: [visit_islands] on an island, from any marks: it returns; it marks
    the island, removes no mark and changes nothing but the marks and the
    high-water mark; every island it marks is reachable from the island over
    bridges; every bridged neighbour of an island it marks is marked
    afterwards; and the number it returns is the number of islands it marked.
    On a marked island it returns 0 and changes nothing. *)
Theorem visit_islands_marks fuel b j :
  graph_ok b → size_ok b → limit_ok b → (j < num_islands b)%nat →
  (length (unmarked b) < fuel)%nat →
  ∃ b' t, visit_islands fuel b (IAt j) = Some (b', t) ∧
    vframe b b' ∧ limit_ok b' ∧ marked b' j ∧
    (∀ i, marked b i → marked b' i) ∧
    (∀ i, (i < num_islands b)%nat → marked b' i → ¬ marked b i → rtc (adj b) j i) ∧
    (∀ i z, (i < num_islands b)%nat → marked b' i → ¬ marked b i → adj b i z →
            marked b' z) ∧
    t = Z.of_nat (length (unmarked b)) - Z.of_nat (length (unmarked b')) ∧
    (marked b j → b' = b ∧ t = 0).
Proof.
  intros G Z L Hj Hf.
  destruct (visit_islands_spec fuel b j G Z L Hj Hf) as (b' & t & E & [F L' M R C T] & Mj).
  exists b', t. split_and!; try done.
  intros Hm. destruct fuel as [|f]; [lia|]. cbn [visit_islands] in E.
  rewrite decide_False in E by done.
  destruct (visit_read b G Z L j Hj) as (x & Hx & Hp & _). rewrite Hx in E.
  cbn [mbind option_bind] in E.
  rewrite Hp, (visited_get_pos b G Z L j Hj) in E. cbn [mbind option_bind] in E.
  rewrite bool_decide_true in E by done. by simplify_eq.
Qed.

Lemma visit_islands_marks_witness :
  ∃ b' t, visit_islands 5 (set_visitedlimit 0 square_board) (IAt 0) = Some (b', t) ∧
          marked b' 0%nat.
Proof.
  destruct (visit_islands_marks 5 (set_visitedlimit 0 square_board) 0)
    as (b' & t & E & _ & _ & M & _).
  - apply graph_ok_limit. apply (built_ok _ square_board_built).
  - unfold size_ok. vm_compute. discriminate.
  - split; [vm_compute; split; discriminate|].
    intros p. vm_compute. repeat (destruct p as [|p]; try discriminate).
  - vm_compute. lia.
  - vm_compute. lia.
  - by exists b', t.
Defined.

(** * Further properties of the neighbour search *)

(** X14: on a built board [find_from_island] finds again the neighbours that
    the islands record: to the left and up it returns the recorded neighbour
    (an island or the sentinel); the directions right and down are not
    supported and give NULL, as does an index that is not an island. *)
Theorem find_from_island_consistent b i :
  built b →
  ((i < num_islands b)%nat →
     find_from_island b i LEFT = Some (inb b i LEFT) ∧
     find_from_island b i UP = Some (inb b i UP) ∧
     find_from_island b i RIGHT = Some INull ∧
     find_from_island b i DOWN = Some INull) ∧
  ((num_islands b ≤ i)%nat → ∀ d, find_from_island b i d = Some INull).
Proof.
  intros B. destruct (built_ok b B) as (G & _). split.
  - intros Hi. split_and!.
    + rewrite (find_from_island_LEFT b i Hi), (g_left b G i Hi). f_equal.
      destruct i as [|p]; [done|].
      pose proof (g_sorted b G p (S p) ltac:(lia) Hi) as Hs. unfold before in Hs.
      destruct (Z.ltb_spec (irow b p) (irow b (S p))); case_decide; try done; lia.
    + destruct (find_from_island_UP b i Hi) as (up & -> & Hu). f_equal.
      pose proof (g_up b G i Hi) as Hg.
      destruct up as [| |j]; [done| |]; destruct (inb b i UP) as [| |j']; try done.
      * destruct Hg as (Hlt & Hc & _). exfalso. by apply (Hu j').
      * destruct Hu as (Hlt & Hc & _). exfalso. by apply (Hg j).
      * destruct Hu as (Hlt & Hc & Hn). destruct Hg as (Hlt' & Hc' & Hn').
        f_equal. destruct (Nat.lt_trichotomy j j') as [?|[?|?]]; [|done|].
        -- exfalso. by apply (Hn j').
        -- exfalso. by apply (Hn' j).
    + unfold find_from_island. rewrite decide_False by lia.
      by destruct (island_lookup b i Hi) as [x ->].
    + unfold find_from_island. rewrite decide_False by lia.
      by destruct (island_lookup b i Hi) as [x ->].
  - intros Hge d. unfold find_from_island. by rewrite decide_True.
Qed.

Lemma find_from_island_consistent_witness :
  find_from_island square_board 3 LEFT = Some (inb square_board 3 LEFT) ∧
  find_from_island square_board 3 UP = Some (inb square_board 3 UP).
Proof.
  destruct (find_from_island_consistent square_board 3 square_board_built) as [H _].
  destruct H as (H1 & H2 & _); [vm_compute; lia|]. by split.
Defined.

(** * The arenas *)

Lemma arena_frame_refl b : arena_frame b b.
Proof. by unfold arena_frame. Qed.

Lemma arena_frame_trans b1 b2 b3 :
  arena_frame b1 b2 → arena_frame b2 b3 → arena_frame b1 b3.
Proof. unfold arena_frame. intros ? ?. split_and!; lia || congruence. Qed.

(** The steps that change no count. *)
Lemma upd_island_nums b r f b' :
  upd_island b r f = Some b' →
  arena_frame b b' ∧ num_islands b' = num_islands b ∧
  num_connections b' = num_connections b ∧ num_crosselems b' = num_crosselems b.
Proof.
  unfold upd_island, arena_frame. intros H.
  destruct (get_island b r) as [x|]; [|done]. simpl in H.
  destruct r as [| |i]; simpl in H; [done| |].
  - injection H as <-. by split_and!.
  - case_decide; [|done]. injection H as <-.
    unfold num_islands. simpl. rewrite length_insert. by split_and!.
Qed.

Lemma upd_connection_nums b r f b' :
  upd_connection b r f = Some b' →
  arena_frame b b' ∧ num_islands b' = num_islands b ∧
  num_connections b' = num_connections b ∧ num_crosselems b' = num_crosselems b.
Proof.
  unfold upd_connection, arena_frame. intros H.
  destruct (get_connection b r) as [x|]; [|done]. simpl in H.
  destruct r as [| |i]; simpl in H; [done| |].
  - injection H as <-. by split_and!.
  - case_decide; [|done]. injection H as <-.
    unfold num_connections. simpl. rewrite length_insert. by split_and!.
Qed.

Lemma insert_crosselem_nums b x y b' :
  insert_crosselem b x y = Some b' →
  arena_frame b b' ∧ num_islands b' = num_islands b ∧
  num_connections b' = num_connections b ∧ num_crosselems b' = num_crosselems b.
Proof. apply upd_connection_nums. Qed.

(** The loop of [fill_crosses] keeps the arenas within their capacities. *)
Lemma fill_crosses_loop_capacity n : ∀ b up down island c kv b' ok,
  fill_crosses_loop n b up down island c kv = Some (b', ok) →
  arena_frame b b' ∧ num_islands b' = num_islands b ∧
  num_connections b' = num_connections b ∧
  ((num_crosselems b ≤ max_crosselems b)%nat →
   (num_crosselems b' ≤ max_crosselems b')%nat).
Proof.
  induction n as [|n IH]; intros b up down island c kv b' ok H.
  { simpl in H. injection H as <- <-. split_and!; first [done|apply arena_frame_refl]. }
  cbn [fill_crosses_loop] in H.
  destruct (islands b !! up) as [u|]; [|done].
  destruct (islands b !! down) as [d|]; [|done].
  destruct (islands b !! island) as [x|]; [|done]. cbn [mbind option_bind] in H.
  destruct ((row u <? row x) && (row x <? row d) && (col x <? c)); [|by eapply IH].
  case_decide; [by eapply IH|].
  destruct (get_island b (slot_get (i_islands x) RIGHT)) as [r|]; [|done].
  cbn [mbind option_bind] in H.
  destruct (c <? col r); [|by eapply IH].
  unfold next_crosselem in H at 1.
  destruct (decide (max_crosselems b ≤ num_crosselems b)%nat) as [Hfull|Hroom].
  { injection H as <- <-. split_and!; first [done|apply arena_frame_refl]. }
  destruct (insert_crosselem _ _ kv) as [b2|] eqn:E2; [|done].
  cbn [mbind option_bind] in H.
  apply insert_crosselem_nums in E2 as (F2 & I2 & C2 & X2).
  unfold arena_frame, num_islands, num_connections in F2, I2, C2. simpl in F2, I2, C2, X2.
  unfold next_crosselem in H.
  destruct (decide (max_crosselems b2 ≤ num_crosselems b2)%nat) as [Hfull2|Hroom2].
  { injection H as <- <-. unfold arena_frame, num_islands, num_connections.
    split_and!; lia || congruence. }
  destruct (insert_crosselem _ kv _) as [b4|] eqn:E4; [|done].
  cbn [mbind option_bind] in H.
  apply insert_crosselem_nums in E4 as (F4 & I4 & C4 & X4).
  unfold arena_frame, num_islands, num_connections in F4, I4, C4. simpl in F4, I4, C4, X4.
  apply IH in H as (F & I & C & X). unfold arena_frame, num_islands, num_connections in *.
  split_and!; lia || congruence.
Qed.

(** One step of a run: the step is named, its effect on the counts is
    recorded. *)
Ltac run_step H :=
  lazymatch type of H with
  | (upd_island ?b ?r ?f ≫= _) = Some _ =>
      let E := fresh "E" in
      destruct (upd_island b r f) eqn:E; [|done]; cbn [mbind option_bind] in H;
      apply upd_island_nums in E as ((?&?&?&?&?&?&?)&?&?&?)
  | (upd_connection ?b ?r ?f ≫= _) = Some _ =>
      let E := fresh "E" in
      destruct (upd_connection b r f) eqn:E; [|done]; cbn [mbind option_bind] in H;
      apply upd_connection_nums in E as ((?&?&?&?&?&?&?)&?&?&?)
  | (find_from_island ?b ?i ?d ≫= _) = Some _ =>
      destruct (find_from_island b i d); [|done]; cbn [mbind option_bind] in H
  end.

Lemma fill_connections_capacity b b' ok :
  fill_connections b = Some (b', ok) →
  arena_frame b b' ∧ num_islands b' = num_islands b ∧
  (capacity_ok b → capacity_ok b').
Proof.
  unfold fill_connections. destruct (num_islands b) as [|index] eqn:Hn; [done|].
  intros H. repeat run_step H.
  match type of H with
  | (?m ≫= _) = _ => destruct m as [[b5 ok1]|] eqn:Hleft; [|done]
  end.
  cbn [mbind option_bind] in H.
  assert (F5 : arena_frame b b5 ∧ num_islands b5 = num_islands b ∧
               (capacity_ok b → capacity_ok b5)).
  { match type of Hleft with
    | (if decide ?P then _ else _) = _ => destruct (decide P)
    end.
    - injection Hleft as <- <-. unfold arena_frame, capacity_ok. split_and!; lia || congruence.
    - unfold next_connection in Hleft.
      match type of Hleft with
      | context [decide ?P] => destruct (decide P) as [Hfull|Hfull]
      end.
      + injection Hleft as <- <-. unfold arena_frame, capacity_ok.
        split_and!; lia || congruence.
      + repeat run_step Hleft. injection Hleft as <- <-.
        unfold arena_frame, capacity_ok, num_islands, num_connections in *. simpl in *.
        rewrite ?length_app in *. simpl in *. split_and!; lia || congruence. }
  clear Hleft. destruct F5 as ((?&?&?&?&?&?&?)&?&F5).
  destruct ok1; simpl in H.
  2: { injection H as <- <-. unfold arena_frame. split_and!; lia || congruence || done. }
  match type of H with
  | (if decide ?P then _ else _) = _ => destruct (decide P)
  end.
  { injection H as <- <-. unfold arena_frame. split_and!; lia || congruence || done. }
  unfold next_connection in H.
  match type of H with
  | context [decide ?P] => destruct (decide P) as [Hfull|Hfull]
  end.
  { injection H as <- <-. unfold arena_frame. split_and!; lia || congruence || done. }
  repeat run_step H.
  match type of H with
  | match ?up with _ => _ end = _ => destruct up as [| |u]; try done
  end.
  unfold fill_crosses in H.
  match type of H with
  | (?m ≫= _) = _ => destruct m as [xu|]; [|done]
  end.
  cbn [mbind option_bind] in H. case_decide; [|done].
  apply fill_crosses_loop_capacity in H as ((?&?&?&?&?&?&?)&?&?&HX).
  unfold arena_frame, capacity_ok, num_islands, num_connections in *. simpl in *.
  rewrite ?length_app in *. simpl in *.
  split_and!; lia || congruence.
Qed.

Lemma add_island_capacity b r c e b' ok :
  add_island b r c e = Some (b', ok) →
  arena_frame b b' ∧ (capacity_ok b → capacity_ok b') ∧
  (ok = true → num_islands b' = S (num_islands b)) ∧
  (ok = false → b' = b ∨ num_islands b' = S (num_islands b)).
Proof.
  unfold add_island. intros H.
  assert (Hsame : b' = b → ok = false →
    arena_frame b b' ∧ (capacity_ok b → capacity_ok b') ∧
    (ok = true → num_islands b' = S (num_islands b)) ∧
    (ok = false → b' = b ∨ num_islands b' = S (num_islands b))).
  { intros -> ->. split_and!; first [done|apply arena_frame_refl|by left]. }
  destruct ((r <? 0) || (c <? 0)); [injection H as <- <-; by apply Hsame|].
  destruct (CHAR_MAX <=? r); [injection H as <- <-; by apply Hsame|].
  destruct (CHAR_MAX <=? c); [injection H as <- <-; by apply Hsame|].
  match type of H with
  | (?m ≫= _) = _ => destruct m as [bad|]; [|done]
  end.
  cbn [mbind option_bind] in H. destruct bad; [injection H as <- <-; by apply Hsame|].
  destruct ((e <? 1) || (MAX_EXPECTED_BRIDGES <? e)); [injection H as <- <-; by apply Hsame|].
  unfold next_island in H. case_decide as Hfull; [injection H as <- <-; by apply Hsame|].
  clear Hsame. run_step H. cbv zeta in H.
  match type of H with
  | (fill_connections ?x ≫= _) = _ =>
      destruct (fill_connections x) as [[b2 ok2]|] eqn:E2; [|done]
  end.
  cbn [mbind option_bind] in H.
  apply fill_connections_capacity in E2 as ((?&?&?&?&?&?&?)&?&HC).
  assert (Hb' : (b' = b2 ∨ ∃ m, b' = set_max_bridges m b2) ∧ ok = ok2).
  { destruct ok2; simpl in H.
    - destruct (int_add (max_bridges b2) e) as [m|]; [|done]. simpl in H.
      injection H as <- <-. split; [right; by exists m|done].
    - injection H as <- <-. split; [by left|done]. }
  clear H. destruct Hb' as [Hb' ->].
  assert (Hn : num_islands b' = S (num_islands b) ∧ arena_frame b b' ∧
               (capacity_ok b → capacity_ok b')).
  { unfold arena_frame, capacity_ok, num_islands, num_connections in *.
    repeat case_match; simpl in *; rewrite ?length_app in *; simpl in *;
      destruct Hb' as [->|[m ->]]; simpl; split_and!; lia || congruence. }
  destruct Hn as (Hn & HF & HC'). split_and!; try done. intros _. by right.
Qed.

Lemma add_islands_capacity l : ∀ b b' ok,
  add_islands b l = Some (b', ok) →
  arena_frame b b' ∧ (capacity_ok b → capacity_ok b') ∧
  (num_islands b' ≤ num_islands b + length l)%nat ∧
  (ok = true → num_islands b' = (num_islands b + length l)%nat).
Proof.
  induction l as [|[[r c] e] l IH]; intros b b' ok H; simpl in H.
  { injection H as <- <-. split_and!; first [done|apply arena_frame_refl|simpl; lia]. }
  destruct (add_island b r c e) as [[b1 ok1]|] eqn:E1; [|done]. simpl in H.
  apply add_island_capacity in E1 as (F1 & C1 & T1 & N1).
  destruct ok1.
  - apply IH in H as (F & C & L & T). rewrite T1 in * by done.
    split_and!; [by apply (arena_frame_trans _ b1)|tauto|simpl; lia|].
    intros Hok. rewrite (T Hok). simpl. lia.
  - injection H as <- <-. split_and!; try done.
    simpl. destruct (N1 eq_refl) as [Hb|Hb]; rewrite Hb; lia.
Qed.

(** X15: whatever islands are added to an empty board, and whether or not
    all additions succeed, no arena ever holds more than its capacity, and the
    capacities given to [init_board] stay; when all additions succeed there is
    one island per addition. *)
Theorem arenas_within_capacity mi mc mx mv g1 g2 l b ok :
  add_islands (init_board mi mc mx mv g1 g2) l = Some (b, ok) →
  capacity_ok b ∧
  max_islands b = mi ∧ max_connections b = mc ∧ max_crosselems b = mx ∧
  max_visited_size b = mv ∧
  (num_islands b ≤ length l)%nat ∧ (ok = true → num_islands b = length l).
Proof.
  intros H. apply add_islands_capacity in H as ((?&?&?&?&?&?&?) & C & L & T).
  split_and!; try done.
  apply C. unfold capacity_ok, num_islands, num_connections. simpl. lia.
Qed.

Lemma arenas_within_capacity_witness : capacity_ok square_board.
Proof.
  refine (proj1 (arenas_within_capacity 8 16 16 25 0 0
            [(0, 0, 2); (0, 2, 2); (2, 0, 2); (2, 2, 2)] square_board true _)).
  vm_compute. reflexivity.
Defined.

(** X16: a failed [add_island] either leaves the board as it was, or has
    added the island and failed on its connections or crossings, leaving one
    island more; a successful one always adds exactly one island.  In no case
    does an arena shrink or a capacity change. *)
Theorem add_island_effect b r c e b' ok :
  add_island b r c e = Some (b', ok) →
  arena_frame b b' ∧
  (ok = true → num_islands b' = S (num_islands b)) ∧
  (ok = false → b' = b ∨ num_islands b' = S (num_islands b)).
Proof. intros H. apply add_island_capacity in H as (? & _ & ? & ?). done. Qed.

Lemma add_island_effect_witness :
  ∃ b', add_island (init_board 2 0 0 4 0 0) 0 0 1 = Some (b', true) ∧
        num_islands b' = 1%nat.
Proof.
  eexists. split; [vm_compute; reflexivity|].
  refine (proj1 (proj2 (add_island_effect (init_board 2 0 0 4 0 0) 0 0 1 _ true _)) eq_refl).
  vm_compute. reflexivity.
Defined.

(** * Bridges and pending counts add up *)

Lemma zsum_alter {A} (f : A → Z) (g : A → A) (l : list A) i x :
  l !! i = Some x →
  zsum (f <$> alter g i l) = zsum (f <$> l) + (f (g x) - f x).
Proof.
  revert i. induction l as [|a l IH]; intros i H; [done|].
  destruct i as [|i].
  - injection H as ->.
    change (zsum (f <$> alter g 0%nat (x :: l))) with (f (g x) + zsum (f <$> l)).
    change (zsum (f <$> (x :: l))) with (f x + zsum (f <$> l)). lia.
  - change (zsum (f <$> alter g (S i) (a :: l))) with (f a + zsum (f <$> alter g i l)).
    change (zsum (f <$> (a :: l))) with (f a + zsum (f <$> l)).
    rewrite (IH i H). lia.
Qed.

Lemma zsum_alter_same {A} (f : A → Z) (g : A → A) (l : list A) i :
  (∀ x, f (g x) = f x) → zsum (f <$> alter g i l) = zsum (f <$> l).
Proof.
  intros Hf. revert i. induction l as [|a l IH]; intros i; [done|].
  destruct i as [|i].
  - change (zsum (f <$> alter g 0%nat (a :: l))) with (f (g a) + zsum (f <$> l)).
    change (zsum (f <$> (a :: l))) with (f a + zsum (f <$> l)). by rewrite Hf.
  - change (zsum (f <$> alter g (S i) (a :: l))) with (f a + zsum (f <$> alter g i l)).
    change (zsum (f <$> (a :: l))) with (f a + zsum (f <$> l)). by rewrite IH.
Qed.

Lemma total_pending_set_ipend b i v :
  (i < num_islands b)%nat →
  total_pending (set_ipend b i v) = total_pending b + (v - ipend b i).
Proof.
  intros Hi. destruct (island_lookup b i Hi) as [x Hx].
  unfold total_pending, set_ipend, ipend. simpl.
  by rewrite (zsum_alter _ _ _ i x Hx), Hx.
Qed.

Lemma total_bridges_set_cbr b k v :
  (k < num_connections b)%nat →
  total_bridges (set_cbr b k v) = total_bridges b + (v - cbr b k).
Proof.
  intros Hk. destruct (connection_lookup b k Hk) as [x Hx].
  unfold total_bridges, set_cbr, cbr. simpl.
  by rewrite (zsum_alter _ _ _ k x Hx), Hx.
Qed.

Lemma totals_bump b k a c delta :
  a ≠ c → (a < num_islands b)%nat → (c < num_islands b)%nat →
  (k < num_connections b)%nat →
  total_pending (bump b k a c delta) = total_pending b - 2 * delta ∧
  total_bridges (bump b k a c delta) = total_bridges b + delta ∧
  total_expected (bump b k a c delta) = total_expected b.
Proof.
  intros Hne Ha Hc Hk. unfold bump. split_and!.
  - rewrite total_pending_set_ipend by (by rewrite num_islands_set_ipend, num_islands_set_cbr).
    rewrite total_pending_set_ipend by (by rewrite num_islands_set_cbr).
    rewrite ipend_set_ipend, !ipend_set_cbr.
    rewrite decide_False by (intros [? _]; done).
    change (total_pending (set_cbr b k (cbr b k + delta))) with (total_pending b). lia.
  - change (total_bridges (set_ipend (set_ipend ?x a ?v) c ?w)) with (total_bridges x).
    rewrite total_bridges_set_cbr by done. lia.
  - unfold total_expected, set_ipend, set_cbr. simpl.
    by rewrite !zsum_alter_same.
Qed.

Lemma zsum_zero (l : list Z) : (∀ i x, l !! i = Some x → x = 0) → zsum l = 0.
Proof.
  induction l as [|a l IH]; intros H; [done|].
  change (zsum (a :: l)) with (a + zsum l).
  rewrite IH by (intros i x Hx; by apply (H (S i))). rewrite (H 0%nat a eq_refl). done.
Qed.

Lemma fresh_totals b :
  fresh b → total_pending b = total_expected b ∧ total_bridges b = 0.
Proof.
  intros [F1 F2]. split.
  - unfold total_pending, total_expected. f_equal. apply list_eq. intros i.
    rewrite !list_lookup_fmap. specialize (F2 i). unfold ipend, iexp in F2.
    destruct (islands b !! i); simpl in *; by f_equal.
  - apply zsum_zero. intros k x. rewrite list_lookup_fmap. specialize (F1 k).
    unfold cbr in F1. destruct (connections b !! k); simpl in *; congruence.
Qed.

(** What one call of the engine does to the board. *)
Lemma engine_step_cases b op b' :
  graph_ok b → state_ok b → valid_cref b (call_target op) →
  engine_step b op = Some b' →
  b' = b ∨ ∃ k a c d delta, (k < num_connections b)%nat ∧ ends b k a c d ∧
                           b' = bump b k a c delta.
Proof.
  intros G S V H. destruct op as [x|x]; simpl in *; destruct x as [| |k]; try done.
  - rewrite add_bridge_COut in H by done. left. by simplify_eq/=.
  - destruct (connection_ends b G k V) as (a & c & d & E).
    rewrite (add_bridge_CAt b G S k a c d V E) in H.
    case_decide; simplify_eq/=; [right|by left]. by exists k, a, c, d, 1.
  - rewrite del_bridge_COut in H by done. left. by simplify_eq/=.
  - destruct (connection_ends b G k V) as (a & c & d & E).
    rewrite (del_bridge_CAt b G S k a c d V E) in H.
    case_decide; simplify_eq/=; [by left|right]. by exists k, a, c, d, (-1).
Qed.

Lemma engine_run_totals ops : ∀ b b',
  graph_ok b → state_ok b → Forall (fun op => valid_cref b (call_target op)) ops →
  engine_run b ops = Some b' →
  total_pending b' + 2 * total_bridges b' - total_expected b'
    = total_pending b + 2 * total_bridges b - total_expected b.
Proof.
  induction ops as [|op ops IH]; intros b b' G S V H; simpl in *; [by simplify_eq|].
  apply Forall_cons in V as [V1 V2].
  destruct (engine_step_ok b op G S V1) as (b1 & E1 & G1 & S1 & HS1).
  rewrite E1 in H. simpl in H.
  rewrite (IH b1 b' G1 S1); [| |done].
  - destruct (engine_step_cases b op b1 G S V1 E1)
      as [->|(k & a & c & d & delta & Hk & [Ef Elt Eb _ _ _ _ _ _] & ->)]; [done|].
    destruct (totals_bump b k a c delta) as (-> & -> & ->); lia.
  - eapply Forall_impl; [exact V2|]. intros x. by apply valid_cref_same_static.
Qed.

(** X17: in every state of the engine the pending counts of all islands plus
    twice the bridges of all connections make the expected counts of all
    islands: every bridge is counted at its two ends. *)
Theorem bridges_conservation b :
  engine_state b →
  total_pending b + 2 * total_bridges b = total_expected b.
Proof.
  intros (b0 & ops & B & V & R). destruct (built_state_ok b0 B) as [G S].
  destruct (built_ok b0 B) as (_ & F & _).
  pose proof (engine_run_totals ops b0 b G S V R) as H.
  destruct (fresh_totals b0 F) as [H1 H2]. lia.
Qed.

Lemma bridges_conservation_witness :
  total_pending square_board + 2 * total_bridges square_board
    = total_expected square_board.
Proof. apply bridges_conservation, built_engine_state, square_board_built. Defined.

(** * Searching from a position *)

Section positions_search.
Context (b : hboard) (G : graph_ok b).
Local Set Default Proof Using "b G".

Lemma rows_monotone t j :
  (t ≤ j)%nat → (j < num_islands b)%nat → irow b t ≤ irow b j.
Proof.
  intros Hle Hj. destruct (decide (t = j)) as [->|Hne]; [lia|].
  destruct (g_sorted b G t j ltac:(lia) Hj) as [?|[? _]]; lia.
Qed.

Lemma index_order t j :
  (t < num_islands b)%nat → (j < num_islands b)%nat →
  irow b t < irow b j ∨ (irow b t = irow b j ∧ icol b t < icol b j) → (t < j)%nat.
Proof.
  intros Ht Hj H. destruct (Nat.lt_trichotomy t j) as [?|[->|Hgt]]; [done|lia|].
  destruct (g_sorted b G j t Hgt Ht) as [?|[? ?]]; lia.
Qed.

Lemma find_position_left_spec r c index :
  (index ≤ num_islands b)%nat →
  ∃ res, find_position_left b r c index = Some res ∧
    match res with
    | IAt j => (j < index)%nat ∧ irow b j = r ∧ icol b j < c ∧
               ∀ t, (j < t)%nat → (t < index)%nat → ¬ (irow b t = r ∧ icol b t < c)
    | IOut => ∀ t, (t < index)%nat → ¬ (irow b t = r ∧ icol b t < c)
    | INull => False
    end.
Proof.
  induction index as [|index IH]; intros Hi.
  { exists IOut. split; [done|]. intros t Ht. lia. }
  assert (Hlt : (index < num_islands b)%nat) by lia.
  destruct (island_lookup b index Hlt) as [x Hx].
  destruct (island_fields b index x Hx) as (Fr & Fc & _).
  cbn [find_position_left]. rewrite Hx. cbn [mbind option_bind].
  rewrite <- Fr, <- Fc.
  assert (Hrec : ¬ (irow b index = r ∧ icol b index < c) →
    ∃ res, find_position_left b r c index = Some res ∧
      match res with
      | IAt j => (j < S index)%nat ∧ irow b j = r ∧ icol b j < c ∧
                 ∀ t, (j < t)%nat → (t < S index)%nat →
                      ¬ (irow b t = r ∧ icol b t < c)
      | IOut => ∀ t, (t < S index)%nat → ¬ (irow b t = r ∧ icol b t < c)
      | INull => False
      end).
  { intros Hn. destruct (IH ltac:(lia)) as (res & -> & Hres). exists res.
    split; [done|]. destruct res as [| |j]; [done| |].
    - intros t Ht. destruct (decide (t = index)) as [->|]; [done|]. apply Hres. lia.
    - destruct Hres as (? & ? & ? & Hres). split_and!; try done; [lia|].
      intros t Ht1 Ht2. destruct (decide (t = index)) as [->|]; [done|]. apply Hres; lia. }
  destruct (Z.eqb_spec (irow b index) r) as [Hr|Hr].
  - destruct (Z.ltb_spec (icol b index) c) as [Hc|Hc].
    + exists (IAt index). split; [done|]. split_and!; try done; [lia|]. intros; lia.
    + apply Hrec. lia.
  - destruct (Z.ltb_spec (irow b index) r) as [Hlow|Hhigh].
    + exists IOut. split; [done|]. intros t Ht [Ht' _].
      pose proof (rows_monotone t index ltac:(lia) Hlt). lia.
    + apply Hrec. lia.
Qed.

Lemma find_position_up_spec r c index :
  (index ≤ num_islands b)%nat →
  ∃ res, find_position_up b r c index = Some res ∧
    match res with
    | IAt j => (j < index)%nat ∧ icol b j = c ∧ irow b j < r ∧
               ∀ t, (j < t)%nat → (t < index)%nat → ¬ (icol b t = c ∧ irow b t < r)
    | IOut => ∀ t, (t < index)%nat → ¬ (icol b t = c ∧ irow b t < r)
    | INull => False
    end.
Proof.
  induction index as [|index IH]; intros Hi.
  { exists IOut. split; [done|]. intros t Ht. lia. }
  assert (Hlt : (index < num_islands b)%nat) by lia.
  destruct (island_lookup b index Hlt) as [x Hx].
  destruct (island_fields b index x Hx) as (Fr & Fc & _).
  cbn [find_position_up]. rewrite Hx. cbn [mbind option_bind].
  rewrite <- Fr, <- Fc.
  destruct (Z.eqb_spec (icol b index) c) as [Hc|Hc];
    destruct (Z.ltb_spec (irow b index) r) as [Hr|Hr]; simpl.
  1: { exists (IAt index). split; [done|]. split_and!; try done; [lia|]. intros; lia. }
  all: destruct (IH ltac:(lia)) as (res & -> & Hres); exists res; (split; [done|]);
    destruct res as [| |j]; [done| |..];
    try (intros t Ht; destruct (decide (t = index)) as [->|]; [lia|apply Hres; lia]);
    try (destruct Hres as (? & ? & ? & Hres); split_and!; try done; [lia|];
         intros t Ht1 Ht2; destruct (decide (t = index)) as [->|]; [lia|apply Hres; lia]).
Qed.
End positions_search.

(** X18: on a built board [find_from_position] returns, to the left of a
    position, the island of that row with the largest column before the
    position, and above a position, the island of that column with the largest
    row before the position; the sentinel when there is none; NULL for the
    directions right and down. *)
Theorem find_from_position_nearest b r c :
  built b →
  (∃ l, find_from_position b r c LEFT = Some l ∧
     match l with
     | IAt j => (j < num_islands b)%nat ∧ irow b j = r ∧ icol b j < c ∧
                ∀ t, (t < num_islands b)%nat → irow b t = r → icol b t < c →
                     icol b t ≤ icol b j
     | IOut => ∀ t, (t < num_islands b)%nat → ¬ (irow b t = r ∧ icol b t < c)
     | INull => False
     end) ∧
  (∃ u, find_from_position b r c UP = Some u ∧
     match u with
     | IAt j => (j < num_islands b)%nat ∧ icol b j = c ∧ irow b j < r ∧
                ∀ t, (t < num_islands b)%nat → icol b t = c → irow b t < r →
                     irow b t ≤ irow b j
     | IOut => ∀ t, (t < num_islands b)%nat → ¬ (icol b t = c ∧ irow b t < r)
     | INull => False
     end) ∧
  find_from_position b r c RIGHT = Some INull ∧
  find_from_position b r c DOWN = Some INull.
Proof.
  intros B. destruct (built_ok b B) as (G & _). split_and!; try done.
  - destruct (find_position_left_spec b G r c (num_islands b) (le_n _)) as (l & E & H).
    exists l. split; [done|]. destruct l as [| |j]; try done.
    destruct H as (Hj & Hr & Hc & Hmax). split_and!; try done.
    intros t Ht Htr Htc. destruct (decide (t ≤ j)%nat) as [Hle|Hgt].
    + destruct (decide (t = j)) as [->|]; [lia|].
      destruct (g_sorted b G t j ltac:(lia) Hj) as [?|[_ ?]]; lia.
    + exfalso. apply (Hmax t); [lia|done|done].
  - destruct (find_position_up_spec b G r c (num_islands b) (le_n _)) as (u & E & H).
    exists u. split; [done|]. destruct u as [| |j]; try done.
    destruct H as (Hj & Hc & Hr & Hmax). split_and!; try done.
    intros t Ht Htc Htr. destruct (decide (t ≤ j)%nat) as [Hle|Hgt].
    + by apply (rows_monotone b G).
    + exfalso. apply (Hmax t); [lia|done|done].
Qed.

Lemma find_from_position_nearest_witness :
  find_from_position square_board 0 1 RIGHT = Some INull ∧
  find_from_position square_board 0 1 DOWN = Some INull.
Proof.
  destruct (find_from_position_nearest square_board 0 1 square_board_built)
    as (_ & _ & H1 & H2).
  by split.
Defined.

(** X19: from the position of an island of a built board,
    [find_from_position] finds to the left and above the neighbours that the
    island records. *)
Theorem find_from_position_at_island b i :
  built b → (i < num_islands b)%nat →
  find_from_position b (irow b i) (icol b i) LEFT = Some (inb b i LEFT) ∧
  find_from_position b (irow b i) (icol b i) UP = Some (inb b i UP).
Proof.
  intros B Hi. destruct (built_ok b B) as (G & _).
  assert (Hbelow : ∀ t, (t < i)%nat → icol b t = icol b i → irow b t < irow b i).
  { intros t Ht Hc. destruct (g_sorted b G t i Ht Hi) as [?|[_ ?]]; lia. }
  split.
  - destruct (find_position_left_spec b G (irow b i) (icol b i) (num_islands b) (le_n _))
      as (l & E & H).
    unfold find_from_position. rewrite E. f_equal. rewrite (g_left b G i Hi).
    destruct l as [| |j]; [done| |].
    + destruct i as [|p]; [done|]. rewrite decide_False; [done|]. intros Hr.
      apply (H p ltac:(lia)). split; [done|].
      destruct (g_sorted b G p (S p) ltac:(lia) Hi) as [?|[_ ?]]; lia.
    + destruct H as (Hj & Hr & Hc & Hmax).
      assert (Hji : (j < i)%nat) by (apply (index_order b G); auto; lia).
      destruct i as [|p]; [lia|].
      assert (Hrp : irow b p = irow b (S p)).
      { pose proof (rows_monotone b G j p ltac:(lia) ltac:(lia)).
        pose proof (rows_monotone b G p (S p) ltac:(lia) Hi). lia. }
      rewrite decide_True by done. f_equal.
      destruct (decide (j = p)) as [|Hne]; [done|]. exfalso.
      apply (Hmax p); [lia|lia|]. split; [done|].
      destruct (g_sorted b G p (S p) ltac:(lia) Hi) as [?|[_ ?]]; lia.
  - destruct (find_position_up_spec b G (irow b i) (icol b i) (num_islands b) (le_n _))
      as (u & E & H).
    unfold find_from_position. rewrite E. f_equal.
    pose proof (g_up b G i Hi) as Hg.
    destruct u as [| |j]; [done| |]; destruct (inb b i UP) as [| |j'] eqn:Eu; try done.
    + destruct Hg as (Hlt & Hc & _). exfalso. apply (H j'); [lia|]. split; [done|].
      by apply Hbelow.
    + destruct H as (Hj & Hc & Hr & _). exfalso.
      assert (Hji : (j < i)%nat) by (apply (index_order b G); auto; lia).
      by apply (Hg j).
    + destruct H as (Hj & Hc & Hr & Hmax). destruct Hg as (Hlt & Hc' & Hn').
      assert (Hji : (j < i)%nat) by (apply (index_order b G); auto; lia).
      f_equal. destruct (Nat.lt_trichotomy j j') as [Hlt'|[?|Hgt]]; [|done|].
      * exfalso. apply (Hmax j'); [done|lia|]. split; [done|]. by apply Hbelow.
      * exfalso. by apply (Hn' j).
Qed.

Lemma find_from_position_at_island_witness :
  find_from_position square_board (irow square_board 3) (icol square_board 3) LEFT
    = Some (inb square_board 3 LEFT).
Proof.
  destruct (find_from_position_at_island square_board 3 square_board_built) as [H _];
    [vm_compute; lia|exact H].
Defined.

(** * Reading the puzzle *)

(** A run of [read_islands] that returns is the run of [add_island] over the
    islands that the text denotes. *)
Lemma read_islands_loop_add_islands input : ∀ b r c res,
  read_islands_loop b input r c = Some res →
  add_islands b (islands_of input r c) = Some res.
Proof.
  induction input as [|ch rest IH]; intros b r c res H; [done|].
  cbn [read_islands_loop islands_of] in *. unfold int_succ in H.
  destruct ((ch =? 47) || (ch =? 10)).
  { destruct (r <? INT_MAX); [|done]. by apply IH. }
  destruct ((ch =? 46) || (ch =? 48)).
  { destruct (c <? INT_MAX); [|done]. by apply IH. }
  destruct ((48 <? ch) && (ch <=? 57)); [|by apply IH].
  cbn [add_islands]. destruct (add_island b r c (ch - 48)) as [[b1 ok]|]; [|done].
  cbn [mbind option_bind] in *. destruct ok; [|done].
  destruct (c <? INT_MAX); [|done]. by apply IH.
Qed.

(** The counters of [read_islands] do not overflow on a text of less than
    [INT_MAX] characters. *)
Lemma add_islands_read_islands_loop input : ∀ b r c,
  0 ≤ r → 0 ≤ c →
  r + Z.of_nat (length input) ≤ INT_MAX → c + Z.of_nat (length input) ≤ INT_MAX →
  read_islands_loop b input r c = add_islands b (islands_of input r c).
Proof.
  induction input as [|ch rest IH]; intros b r c Hr Hc Lr Lc; [done|].
  cbn [read_islands_loop islands_of]. cbn [length] in Lr, Lc. unfold int_succ.
  destruct ((ch =? 47) || (ch =? 10)).
  { rewrite (proj2 (Z.ltb_lt r INT_MAX)) by lia. apply IH; unfold INT_MAX in *; lia. }
  destruct ((ch =? 46) || (ch =? 48)).
  { rewrite (proj2 (Z.ltb_lt c INT_MAX)) by lia. apply IH; lia. }
  destruct ((48 <? ch) && (ch <=? 57)); [|apply IH; lia].
  cbn [add_islands]. destruct (add_island b r c (ch - 48)) as [[b1 ok]|]; [|done].
  cbn [mbind option_bind]. destruct ok; [|done].
  rewrite (proj2 (Z.ltb_lt c INT_MAX)) by lia. apply IH; lia.
Qed.

Lemma add_islands_built l b b' :
  built b → add_islands b l = Some (b', true) → built b'.
Proof.
  intros (mi & mc & mx & mv & g1 & g2 & l0 & Hl) H.
  exists mi, mc, mx, mv, g1, g2, (l0 ++ l). by rewrite add_islands_app, Hl.
Qed.

Lemma add_islands_fields l : ∀ b b',
  built b → add_islands b l = Some (b', true) →
  num_islands b' = (num_islands b + length l)%nat ∧
  (∀ i, (i < num_islands b)%nat →
        irow b' i = irow b i ∧ icol b' i = icol b i ∧ iexp b' i = iexp b i) ∧
  (∀ i r c e, l !! i = Some (r, c, e) →
        irow b' (num_islands b + i) = r ∧ icol b' (num_islands b + i) = c ∧
        iexp b' (num_islands b + i) = e).
Proof.
  induction l as [|[[r c] e] l IH]; intros b b' B H.
  { simpl in H. simplify_eq. split_and!; [simpl; lia|done|done]. }
  simpl in H. destruct (add_island b r c e) as [[b1 ok]|] eqn:Ha; [|done].
  simpl in H. destruct ok; [|done].
  destruct (built_ok b B) as (G & _).
  destruct (add_island_added b r c e b1 G Ha) as (left & up & [Ac _]).
  assert (B1 : built b1) by (apply (add_islands_built [(r, c, e)] b); [done|by simpl; rewrite Ha]).
  destruct (IH b1 b' B1 H) as (Hn & Hold & Hnew).
  pose proof (ad_num_islands _ _ _ _ _ _ _ Ac) as Hn1.
  assert (Hkeep : ∀ i, (i < num_islands b)%nat →
    irow b1 i = irow b i ∧ icol b1 i = icol b i ∧ iexp b1 i = iexp b i).
  { intros i Hi. rewrite (ad_irow _ _ _ _ _ _ _ Ac), (ad_icol _ _ _ _ _ _ _ Ac),
      (ad_iexp _ _ _ _ _ _ _ Ac). by rewrite !decide_False by lia. }
  split_and!.
  - rewrite Hn, Hn1. simpl. lia.
  - intros i Hi. destruct (Hold i ltac:(lia)) as (-> & -> & ->). by apply Hkeep.
  - intros [|i] r' c' e' Hl; simpl in Hl.
    + simplify_eq. rewrite Nat.add_0_r.
      destruct (Hold (num_islands b) ltac:(lia)) as (-> & -> & ->).
      rewrite (ad_irow _ _ _ _ _ _ _ Ac), (ad_icol _ _ _ _ _ _ _ Ac),
        (ad_iexp _ _ _ _ _ _ _ Ac). by rewrite !decide_True by done.
    + replace (num_islands b + S i)%nat with (num_islands b1 + i)%nat by lia.
      by apply Hnew.
Qed.

Lemma init_board_built mi mc mx mv g1 g2 : built (init_board mi mc mx mv g1 g2).
Proof. by exists mi, mc, mx, mv, g1, g2, []. Qed.

(** X20: the board that [read_islands] builds from an initialised board, when
    it succeeds, is a built board which holds exactly the islands that the text
    denotes, in their order: one island per digit from 1 to 9, in the row given
    by the number of [/] and newline characters before it and the column given
    by the number of digits and dots before it in its row, expecting as many
    bridges as the digit says, all of them pending. *)
Theorem read_islands_board mi mc mx mv g1 g2 input b :
  read_islands (init_board mi mc mx mv g1 g2) input = Some (b, true) →
  built b ∧ num_islands b = length (islands_of input 0 0) ∧
  ∀ i r c e, islands_of input 0 0 !! i = Some (r, c, e) →
    irow b i = r ∧ icol b i = c ∧ iexp b i = e ∧ ipend b i = e.
Proof.
  intros H. apply read_islands_loop_add_islands in H.
  pose proof (init_board_built mi mc mx mv g1 g2) as B0.
  pose proof (add_islands_built _ _ _ B0 H) as B.
  destruct (add_islands_fields _ _ _ B0 H) as (Hn & _ & Hnew).
  split_and!; [done|done|].
  intros i r c e Hl. destruct (Hnew i r c e Hl) as (Hr & Hc & He).
  change (num_islands (init_board mi mc mx mv g1 g2) + i)%nat with i in *.
  destruct (built_ok b B) as (_ & [_ F] & _). by rewrite F.
Qed.

Lemma read_islands_board_witness :
  built square_board ∧ num_islands square_board = 4%nat ∧
  irow square_board 3 = 2 ∧ icol square_board 3 = 2 ∧ iexp square_board 3 = 2.
Proof.
  destruct (read_islands_board 8 16 16 25 0 0 [50; 46; 50; 47; 47; 50; 48; 50] square_board)
    as (B & Hn & Hf); [vm_compute; reflexivity|].
  destruct (Hf 3%nat 2 2 2) as (? & ? & ? & _); [vm_compute; reflexivity|].
  split_and!; [exact B|exact Hn|assumption..].
Defined.

(** * The builder returns *)

Section fill_crosses_returns.
Context (up down : nat) (c : Z) (kv : nat).

(** The loop of [fill_crosses] reads and writes inside the arenas, and it
    succeeds when two crossing entries per island are left. *)
Lemma fill_crosses_loop_returns n : ∀ b island,
  (island + n = down)%nat →
  (up < num_islands b)%nat → (down < num_islands b)%nat →
  (kv < num_connections b)%nat →
  (∀ i, (island ≤ i)%nat → (i < down)%nat → walkable up down c b i) →
  ∃ b' ok, fill_crosses_loop n b up down island c (CAt kv) = Some (b', ok) ∧
    ((num_crosselems b + 2 * n ≤ max_crosselems b)%nat → ok = true).
Proof.
  induction n as [|n IH]; intros b island Hn Hup Hdown Hkv Hw.
  { by exists b, true. }
  assert (Hisl : (island < num_islands b)%nat) by lia.
  pose proof Hup as [xu Hxu]%island_lookup.
  pose proof Hdown as [xd Hxd]%island_lookup.
  pose proof Hisl as [xi Hxi]%island_lookup.
  destruct (island_fields b up xu Hxu) as (Ru & _).
  destruct (island_fields b down xd Hxd) as (Rd & _).
  destruct (island_fields b island xi Hxi) as (Ri & Ci & _ & _ & Ni & Si).
  cbn [fill_crosses_loop]. rewrite Hxu, Hxd, Hxi. cbn [mbind option_bind].
  rewrite <- Ru, <- Rd, <- Ri, <- Ci, <- (Ni RIGHT), <- (Si RIGHT).
  assert (Hskip : ∃ b' ok,
    fill_crosses_loop n b up down (S island) c (CAt kv) = Some (b', ok) ∧
    ((num_crosselems b + 2 * S n ≤ max_crosselems b)%nat → ok = true)).
  { destruct (IH b (S island) ltac:(lia) Hup Hdown Hkv ltac:(intros; apply Hw; lia))
      as (b' & ok & E & Hok).
    exists b', ok. split; [done|]. intros ?. apply Hok. lia. }
  destruct (Hw island ltac:(lia) ltac:(lia)) as [Hr Hq].
  destruct ((irow b up <? irow b island) && (irow b island <? irow b down)
            && (icol b island <? c)) eqn:Hcond; [|done].
  apply andb_true_iff in Hcond as [Hcond H3].
  apply andb_true_iff in Hcond as [H1 H2].
  case_decide as Hout; [done|].
  destruct Hr as [Hr|(j & Hj & Hjn)]; [done|].
  rewrite Hj. simpl. pose proof Hjn as [xj Hxj]%island_lookup.
  rewrite Hxj. simpl.
  destruct (island_fields b j xj Hxj) as (_ & Cj & _). rewrite <- Cj.
  destruct (Z.ltb_spec c (icol b j)) as [H4|H4]; [|done].
  assert (Hc : crossed_at b up down c island).
  { repeat split; try lia. exists j. split; [done|lia]. }
  destruct (Hq Hc) as (h & Hh & Hhm).
  rewrite Hh. unfold next_crosselem at 1.
  case_decide as Hfull1.
  { eexists _, _. split; [done|]. intros ?. lia. }
  rewrite insert_crosselem_CAt by done. simpl.
  unfold next_crosselem at 1. case_decide as Hfull2.
  { eexists _, _. split; [done|]. intros ?. exfalso. revert Hfull2.
    change (¬ (max_crosselems b ≤ S (num_crosselems b))%nat). lia. }
  rewrite insert_crosselem_CAt
    by (unfold num_connections in *; simpl; by rewrite length_alter).
  simpl.
  set (b4 := alter_connection _ kv _).
  assert (HE4 : cross_extended b b4) by apply cross_pair_extended.
  assert (HX4 : num_crosselems b4 = S (S (num_crosselems b))) by reflexivity.
  assert (HY4 : max_crosselems b4 = max_crosselems b) by reflexivity.
  assert (HI4 : islands b4 = islands b) by apply (ce_islands _ _ HE4).
  assert (HM4 : num_connections b4 = num_connections b)
    by apply (ce_num_connections _ _ HE4).
  clearbody b4.
  assert (Hn4 : num_islands b4 = num_islands b) by (unfold num_islands; by rewrite HI4).
  destruct (IH b4 (S island) ltac:(lia) ltac:(by rewrite Hn4) ltac:(by rewrite Hn4)
              ltac:(by rewrite HM4)) as (b' & ok & E & Hok).
  { intros i ? ?. destruct (Hw i ltac:(lia) ltac:(lia)) as [W1 W2].
    unfold walkable. rewrite crossed_at_ext by done.
    rewrite Hn4, HM4.
    unfold inb, icn in *. rewrite HI4. done. }
  exists b', ok. split; [done|]. intros ?. apply Hok. lia.
Qed.
End fill_crosses_returns.

Lemma fill_crosses_returns b r c e left u b1 :
  graph_ok b →
  added_core b r c e left (IAt u) b1 →
  ∃ b2 ok, fill_crosses b1 u (num_islands b) = Some (b2, ok) ∧
    ((num_crosselems b1 + 2 * num_islands b ≤ max_crosselems b1)%nat → ok = true).
Proof.
  intros G A.
  pose proof A as [_ _ Aleft Aup An _ _ _ _ _ _ Arow Acol _ _ Anb Acn Am _ _ _].
  set (n := num_islands b) in *.
  destruct Aup as (Hun & Hcu & Hlast).
  assert (Hu1 : (u < num_islands b1)%nat) by lia.
  pose proof Hu1 as [xu Hxu]%island_lookup.
  destruct (island_fields b1 u xu Hxu) as (_ & Cu & _ & _ & _ & Su).
  unfold fill_crosses. rewrite Hxu. cbn [mbind option_bind].
  rewrite decide_True by done. rewrite <- Cu, <- (Su DOWN).
  rewrite Acol, decide_False, Hcu by lia.
  rewrite Acn, decide_False by lia.
  rewrite (decide_False (P := left = IAt u ∧ DOWN = RIGHT)) by (by intros [_ ?]).
  rewrite decide_True by done.
  set (kv := up_index b left).
  assert (Hm1 : num_connections b1 = S kv) by (by rewrite Am, decide_False).
  destruct (fill_crosses_loop_returns u n c kv (n - S u) b1 (S u))
    as (b2 & ok & E & Hok); [lia..| |].
  - intros i Hi1 Hi2. split.
    + rewrite Anb, decide_False by lia.
      rewrite !(decide_False (P := IAt u = IAt i ∧ RIGHT = DOWN)) by (by intros [_ ?]).
      destruct (decide (left = IAt i ∧ RIGHT = RIGHT)).
      { right. exists n. split; [done|lia]. }
      rewrite (g_right b G i) by done. fold n.
      destruct (decide ((S i < n)%nat ∧ irow b (S i) = irow b i)); [right|by left].
      exists (S i). split; [done|lia].
    + intros (_ & _ & _ & j & Hj & _). revert Hj.
      rewrite Anb, Acn. destruct (decide (i = n)); [lia|].
      destruct (decide (left = IAt i ∧ RIGHT = RIGHT)) as [Hl|Hl].
      { intros _. exists (left_index b). split; [done|]. rewrite Hm1.
        unfold kv, up_index, left_index. destruct Hl as [-> _]. rewrite decide_False by done.
        lia. }
      rewrite !(decide_False (P := IAt u = IAt i ∧ RIGHT = DOWN)) by (by intros [_ ?]).
      intros Hj. pose proof (g_slot b G i RIGHT ltac:(done)) as Hs.
      destruct (icn b i RIGHT) as [| |h]; [done|congruence|].
      exists h. split; [done|]. destruct Hs as (? & _). rewrite Hm1.
      subst kv. unfold up_index. destruct (decide (left = IOut)); lia.
  - exists b2, ok. split; [done|]. intros ?. apply Hok. lia.
Qed.

(** [fill_connections] on the board with the new island returns, and it
    succeeds when two connections and two crossing entries per island are
    left. *)
Lemma fill_connections_returns b r c e :
  graph_ok b →
  (0 ≤ r < CHAR_MAX ∧ 0 ≤ c < CHAR_MAX ∧ 1 ≤ e ≤ MAX_EXPECTED_BRIDGES) →
  (∀ p, num_islands b = S p → irow b p < r ∨ (irow b p = r ∧ icol b p < c)) →
  ∃ b2 ok,
    fill_connections
      (set_cols (if cols b <=? c then c + 1 else cols b)
         (set_rows (if rows b <=? r then r + 1 else rows b)
            (push_island b (HIsland e e r c (slot_all INull) (slot_all CNull)))))
    = Some (b2, ok) ∧
    ((num_connections b + 2 ≤ max_connections b)%nat →
     (num_crosselems b + 2 * num_islands b ≤ max_crosselems b)%nat → ok = true).
Proof.
  intros G Hrange Hord.
  set (x := HIsland e e r c (slot_all INull) (slot_all CNull)).
  set (b1 := set_cols _ _).
  assert (Hn1 : num_islands b1 = S (num_islands b)) by (unfold b1; by autorewrite with board).
  unfold fill_connections. rewrite Hn1.
  set (n := num_islands b) in *.
  upd_islands.
  rewrite find_from_island_LEFT by (autorewrite with board; lia).
  cbn [mbind option_bind].
  set (left := match n with O => IOut | S p => _ end).
  assert (Hleft : left = match n with
                         | O => IOut
                         | S p => if decide (irow b p = r) then IAt p else IOut
                         end).
  { unfold left. destruct n as [|p] eqn:Hn; [done|].
    unfold b1. autorewrite with board. fold n. rewrite Hn.
    rewrite decide_False, decide_True by lia. simpl.
    specialize (Hord p eq_refl).
    destruct (Z.ltb_spec (irow b p) r); case_decide; try done; lia. }
  clearbody left.
  upd_islands.
  set (B := alter_island _ n (set_island_slot LEFT left)).
  assert (HcB : ∀ t, icol B t = if decide (t = n) then c else icol b t).
  { intros. unfold B, b1. autorewrite with board. by fold n. }
  destruct (find_from_island_UP B n) as (up & -> & Hup).
  { unfold B. autorewrite with board. lia. }
  cbn [mbind option_bind].
  assert (Hup' : match up with
          | IAt j => (j < n)%nat ∧ icol b j = c ∧
                     ∀ t, (j < t)%nat → (t < n)%nat → icol b t ≠ c
          | IOut => ∀ t, (t < n)%nat → icol b t ≠ c
          | INull => False
          end).
  { rewrite (HcB n), decide_True in Hup by done.
    destruct up as [| |j]; [done| |].
    - intros t Ht. specialize (Hup t Ht). rewrite HcB, decide_False in Hup by lia. done.
    - destruct Hup as (? & Hc & Hup). rewrite HcB, decide_False in Hc by lia.
      split_and!; [done..|]. intros t ? Ht. specialize (Hup t ltac:(done) Ht).
      rewrite HcB, decide_False in Hup by lia. done. }
  clear Hup HcB. subst B.
  upd_islands.
  set (B0 := alter_island _ n (set_i_connections (slot_all COut))).
  assert (HB0n : num_islands B0 = S n) by (unfold B0; by autorewrite with board).
  assert (HB0m : num_connections B0 = num_connections b)
    by (unfold B0, b1; by autorewrite with board).
  assert (HB0x : max_connections B0 = max_connections b) by reflexivity.
  assert (Hleftn : match left with IAt p => n = S p | IOut => True | INull => False end).
  { rewrite Hleft. destruct n; [done|]. by case_decide. }
  destruct left as [| |p]; [done| |].
  - (* no left neighbour *)
    rewrite decide_True by done. cbn [mbind option_bind negb].
    destruct up as [| |u]; [done| |].
    + (* no up neighbour *)
      rewrite decide_True by done. by eexists _, _.
    + (* an up neighbour *)
      rewrite decide_False by done.
      unfold next_connection. case_decide as Hfull.
      { eexists _, _. split; [done|]. intros ? _. lia. }
      fold (push_connection B0 blank_connection).
      rewrite upd_connection_CAt by (autorewrite with board; lia).
      cbn [mbind option_bind]. upd_islands.
      set (BU := alter_island _ u (set_island_slot DOWN (IAt n))).
      assert (HBU : added_core b r c e IOut (IAt u) BU).
      { unfold BU. rewrite HB0m. unfold B0, b1. subst x.
        set (m := num_connections b).
        split; first [ exact Hrange | exact Hord | exact Hleft | exact Hup' | core_field n u u m ]. }
      destruct (fill_crosses_returns b r c e IOut u BU G HBU) as (b2 & ok & E & Hok).
      exists b2, ok. split; [exact E|]. intros _ ?. by apply Hok.
  - (* a left neighbour *)
    rewrite decide_False by done.
    destruct (next_connection B0) as [o BL0] eqn:Hnc.
    unfold next_connection in Hnc.
    case_decide as Hfull; injection Hnc as <- <-.
    { cbn [mbind option_bind negb]. eexists _, _. split; [done|]. intros ? _. lia. }
    change (set_connections _ B0) with (push_connection B0 blank_connection).
    rewrite upd_connection_CAt by (autorewrite with board; lia).
    cbn [mbind option_bind]. upd_islands. cbn [negb].
    set (BL := alter_island _ p (set_island_slot RIGHT (IAt n))).
    assert (HBLm : num_connections BL = S (num_connections b)).
    { unfold BL. autorewrite with board. by rewrite HB0m. }
    assert (HBLn : num_islands BL = S n).
    { unfold BL. autorewrite with board. by rewrite HB0n. }
    assert (HBLx : max_connections BL = max_connections b) by reflexivity.
    destruct up as [| |u]; [done| |].
    + (* no up neighbour *)
      rewrite decide_True by done. by eexists _, _.
    + (* both neighbours *)
      rewrite decide_False by done.
      unfold next_connection. case_decide as Hfull2.
      { eexists _, _. split; [done|]. intros ? _. lia. }
      fold (push_connection BL blank_connection).
      rewrite upd_connection_CAt by (autorewrite with board; lia).
      cbn [mbind option_bind].
      repeat (rewrite upd_island_IAt by (autorewrite with board; rewrite ?HBLn; lia);
              cbn [mbind option_bind]).
      set (BU := alter_island _ u (set_island_slot DOWN (IAt n))).
      assert (HBU : added_core b r c e (IAt p) (IAt u) BU).
      { unfold BU. rewrite HBLm. unfold BL. rewrite HB0m. unfold B0, b1. subst x.
        set (m := num_connections b).
        destruct (decide (u = p)) as [->|];
          [ split; first [ exact Hrange | exact Hord | exact Hleft | exact Hup'
                         | core_field n p p m ]
          | split; first [ exact Hrange | exact Hord | exact Hleft | exact Hup'
                         | core_field n p u m ] ]. }
      destruct (fill_crosses_returns b r c e (IAt p) u BU G HBU) as (b2 & ok & E & Hok).
      exists b2, ok. split; [exact E|]. intros _ ?. by apply Hok.
Qed.

(** ** The sum kept in [max_bridges] *)

Lemma upd_island_max_bridges b r f b' :
  upd_island b r f = Some b' → max_bridges b' = max_bridges b.
Proof.
  unfold upd_island. intros H.
  destruct (get_island b r) as [x|]; [|done]. simpl in H.
  destruct r as [| |i]; simpl in H; [done| |].
  - by injection H as <-.
  - case_decide; [|done]. by injection H as <-.
Qed.

Lemma upd_connection_max_bridges b r f b' :
  upd_connection b r f = Some b' → max_bridges b' = max_bridges b.
Proof.
  unfold upd_connection. intros H.
  destruct (get_connection b r) as [x|]; [|done]. simpl in H.
  destruct r as [| |i]; simpl in H; [done| |].
  - by injection H as <-.
  - case_decide; [|done]. by injection H as <-.
Qed.

Lemma fill_crosses_loop_max_bridges n : ∀ b up down island c kv b' ok,
  fill_crosses_loop n b up down island c kv = Some (b', ok) →
  max_bridges b' = max_bridges b.
Proof.
  induction n as [|n IH]; intros b up down island c kv b' ok H.
  { simpl in H. by injection H as <- <-. }
  cbn [fill_crosses_loop] in H.
  destruct (islands b !! up) as [u|]; [|done].
  destruct (islands b !! down) as [d|]; [|done].
  destruct (islands b !! island) as [x|]; [|done]. cbn [mbind option_bind] in H.
  destruct ((row u <? row x) && (row x <? row d) && (col x <? c)); [|by eapply IH].
  case_decide; [by eapply IH|].
  destruct (get_island b (slot_get (i_islands x) RIGHT)) as [r|]; [|done].
  cbn [mbind option_bind] in H.
  destruct (c <? col r); [|by eapply IH].
  unfold next_crosselem in H at 1.
  destruct (decide (max_crosselems b ≤ num_crosselems b)%nat) as [Hfull|Hroom].
  { by injection H as <- <-. }
  destruct (insert_crosselem _ _ kv) as [b2|] eqn:E2; [|done].
  cbn [mbind option_bind] in H.
  apply upd_connection_max_bridges in E2. simpl in E2.
  unfold next_crosselem in H.
  destruct (decide (max_crosselems b2 ≤ num_crosselems b2)%nat) as [Hfull2|Hroom2].
  { by injection H as <- <-. }
  destruct (insert_crosselem _ kv _) as [b4|] eqn:E4; [|done].
  cbn [mbind option_bind] in H.
  apply upd_connection_max_bridges in E4. simpl in E4.
  apply IH in H. congruence.
Qed.

Ltac sum_step H :=
  lazymatch type of H with
  | (upd_island ?b ?r ?f ≫= _) = Some _ =>
      let E := fresh "E" in
      destruct (upd_island b r f) eqn:E; [|done]; cbn [mbind option_bind] in H;
      apply upd_island_max_bridges in E
  | (upd_connection ?b ?r ?f ≫= _) = Some _ =>
      let E := fresh "E" in
      destruct (upd_connection b r f) eqn:E; [|done]; cbn [mbind option_bind] in H;
      apply upd_connection_max_bridges in E; simpl in E
  | (find_from_island ?b ?i ?d ≫= _) = Some _ =>
      destruct (find_from_island b i d); [|done]; cbn [mbind option_bind] in H
  end.

Lemma fill_connections_max_bridges b b' ok :
  fill_connections b = Some (b', ok) → max_bridges b' = max_bridges b.
Proof.
  unfold fill_connections. destruct (num_islands b) as [|index] eqn:Hn; [done|].
  intros H. repeat sum_step H.
  match type of H with
  | (?m ≫= _) = _ => destruct m as [[b5 ok1]|] eqn:Hleft; [|done]
  end.
  cbn [mbind option_bind] in H.
  assert (F5 : max_bridges b5 = max_bridges b).
  { match type of Hleft with
    | (if decide ?P then _ else _) = _ => destruct (decide P)
    end.
    - injection Hleft as <- <-. congruence.
    - unfold next_connection in Hleft.
      match type of Hleft with
      | context [decide ?P] => destruct (decide P) as [Hfull|Hfull]
      end.
      + injection Hleft as <- <-. congruence.
      + repeat sum_step Hleft. injection Hleft as <- <-. congruence. }
  clear Hleft.
  destruct ok1; simpl in H.
  2: { by injection H as <- <-. }
  match type of H with
  | (if decide ?P then _ else _) = _ => destruct (decide P)
  end.
  { by injection H as <- <-. }
  unfold next_connection in H.
  match type of H with
  | context [decide ?P] => destruct (decide P) as [Hfull|Hfull]
  end.
  { by injection H as <- <-. }
  repeat sum_step H.
  match type of H with
  | match ?up with _ => _ end = _ => destruct up as [| |u]; try done
  end.
  unfold fill_crosses in H.
  match type of H with
  | (?m ≫= _) = _ => destruct m as [xu|]; [|done]
  end.
  cbn [mbind option_bind] in H. case_decide; [|done].
  apply fill_crosses_loop_max_bridges in H. congruence.
Qed.

(** [add_island] on a board whose graph is well formed returns when the sum
    in [max_bridges] cannot overflow, and it succeeds when the island is in
    range, after the last island, expects from 1 to 8 bridges, and there is
    room for an island, two connections and two crossing entries per
    island. *)
Lemma add_island_returns b r c e :
  graph_ok b →
  INT_MIN ≤ max_bridges b →
  ((num_islands b < max_islands b)%nat →
   max_bridges b + MAX_EXPECTED_BRIDGES ≤ INT_MAX) →
  ∃ b' ok, add_island b r c e = Some (b', ok) ∧
    (0 ≤ r < CHAR_MAX → 0 ≤ c < CHAR_MAX → 1 ≤ e ≤ MAX_EXPECTED_BRIDGES →
     (∀ p, num_islands b = S p → irow b p < r ∨ (irow b p = r ∧ icol b p < c)) →
     (num_islands b < max_islands b)%nat →
     (num_connections b + 2 ≤ max_connections b)%nat →
     (num_crosselems b + 2 * num_islands b ≤ max_crosselems b)%nat →
     ok = true) ∧
    (ok = true →
     max_bridges b' = max_bridges b + e ∧ 1 ≤ e ≤ MAX_EXPECTED_BRIDGES ∧
     (num_islands b < max_islands b)%nat).
Proof.
  intros G Hlo Hhi. unfold add_island.
  destruct (Z.ltb_spec r 0); [eexists _, _; split_and!; [done|intros; lia|done]|].
  destruct (Z.ltb_spec c 0); [eexists _, _; split_and!; [done|intros; lia|done]|]. simpl.
  destruct (Z.leb_spec CHAR_MAX r); [eexists _, _; split_and!; [done|intros; lia|done]|].
  destruct (Z.leb_spec CHAR_MAX c); [eexists _, _; split_and!; [done|intros; lia|done]|].
  assert (Hbad : ∃ bad,
    match num_islands b with
    | O => Some false
    | S p => prev ← islands b !! p;
             Some ((r <? row prev) || ((r =? row prev) && (c <=? col prev)))
    end = Some bad ∧
    (bad = false ↔
     ∀ p, num_islands b = S p → irow b p < r ∨ (irow b p = r ∧ icol b p < c))).
  { destruct (num_islands b) as [|p] eqn:Hn.
    { exists false. split; [done|]. split; [|done]. by intros _ p. }
    assert (Hlt : (p < num_islands b)%nat) by lia.
    pose proof Hlt as [x Hx]%island_lookup. rewrite Hx. simpl.
    destruct (island_fields b p x Hx) as (Er & Ec & _).
    eexists. split; [done|]. split.
    - intros Hb p' [= <-]. rewrite Er, Ec.
      destruct (Z.ltb_spec r (row x)); [done|]. simpl in Hb.
      destruct (Z.eqb_spec r (row x)); simpl in Hb; [|lia].
      destruct (Z.leb_spec c (col x)); [done|]. lia.
    - intros Ho. specialize (Ho p eq_refl). rewrite Er, Ec in Ho.
      destruct (Z.ltb_spec r (row x)); [lia|]. simpl.
      destruct (Z.eqb_spec r (row x)); simpl; [|done].
      destruct (Z.leb_spec c (col x)); [lia|done]. }
  destruct Hbad as (bad & -> & Hbad). cbn [mbind option_bind].
  destruct bad.
  { eexists _, _. split_and!; [done| |done]. intros _ _ _ Ho. by apply Hbad in Ho. }
  assert (Hord : ∀ p, num_islands b = S p → irow b p < r ∨ (irow b p = r ∧ icol b p < c))
    by (by apply Hbad).
  destruct (Z.ltb_spec e 1); [eexists _, _; split_and!; [done|intros; lia|done]|].
  destruct (Z.ltb_spec MAX_EXPECTED_BRIDGES e);
    [eexists _, _; split_and!; [done|intros; lia|done]|].
  simpl. unfold next_island.
  case_decide as Hfull; [eexists _, _; split_and!; [done|intros; lia|done]|].
  fold (push_island b blank_island).
  rewrite upd_island_IAt by (rewrite num_islands_push; lia).
  rewrite alter_pushed. cbn [mbind option_bind]. cbv zeta.
  unfold CHAR_MAX, MAX_EXPECTED_BRIDGES, MAX_CONNECTION_BRIDGES, DIRECTIONS in *.
  rewrite !to_char_id by lia.
  rewrite set_rows_if, set_cols_if.
  change (rows (push_island b ?x)) with (rows b).
  change (cols (set_rows ?v (push_island b ?x))) with (cols b).
  cbn [blank_island i_islands i_connections].
  destruct (fill_connections_returns b r c e G) as (b2 & ok & E & Hok);
    [unfold CHAR_MAX, MAX_EXPECTED_BRIDGES, MAX_CONNECTION_BRIDGES, DIRECTIONS; lia|done|].
  rewrite E. cbn [mbind option_bind].
  apply fill_connections_max_bridges in E.
  change (max_bridges b2 = max_bridges b) in E.
  specialize (Hhi ltac:(lia)).
  destruct ok; cbn [negb].
  - unfold int_add. rewrite E.
    assert ((INT_MIN <=? max_bridges b + e) && (max_bridges b + e <=? INT_MAX) = true) as ->.
    { apply andb_true_intro. split; [apply Z.leb_le|apply Z.leb_le]; lia. }
    cbn [mbind option_bind]. eexists _, _. split_and!; [done|done|].
    intros _. split_and!; [done|lia|lia|lia].
  - eexists _, _. split_and!; [done| |done]. intros _ _ _ _ _ ? ?. by apply Hok.
Qed.

(** The room left for the sum in [max_bridges]: eight bridges for every
    island that the arena can still take. *)
Lemma add_island_sum b r c e b1 :
  graph_ok b → INT_MIN ≤ max_bridges b →
  max_bridges b + MAX_EXPECTED_BRIDGES * (Z.of_nat (max_islands b) - Z.of_nat (num_islands b))
    ≤ INT_MAX →
  add_island b r c e = Some (b1, true) →
  INT_MIN ≤ max_bridges b1 ∧
  max_bridges b1
    + MAX_EXPECTED_BRIDGES * (Z.of_nat (max_islands b1) - Z.of_nat (num_islands b1))
    ≤ INT_MAX.
Proof.
  intros G Hlo Hhi E.
  destruct (add_island_returns b r c e G Hlo) as (b' & ok & E' & _ & Hsum).
  { intros Hroom. unfold MAX_EXPECTED_BRIDGES, MAX_CONNECTION_BRIDGES, DIRECTIONS in *. lia. }
  rewrite E in E'. injection E' as <- <-.
  destruct (Hsum eq_refl) as (Hm & He & _).
  apply add_island_capacity in E as ((Hmi & _) & _ & Hn & _).
  specialize (Hn eq_refl). rewrite Hm, Hmi, Hn.
  unfold MAX_EXPECTED_BRIDGES, MAX_CONNECTION_BRIDGES, DIRECTIONS in *. lia.
Qed.

Lemma add_islands_returns l : ∀ b,
  built b →
  INT_MIN ≤ max_bridges b →
  max_bridges b + MAX_EXPECTED_BRIDGES * (Z.of_nat (max_islands b) - Z.of_nat (num_islands b))
    ≤ INT_MAX →
  ∃ b' ok, add_islands b l = Some (b', ok).
Proof.
  induction l as [|[[r c] e] l IH]; intros b B Hlo Hhi; [by eexists _, _|].
  destruct (built_ok b B) as (G & _).
  destruct (add_island_returns b r c e G Hlo) as (b1 & ok & E & _).
  { intros Hroom. unfold MAX_EXPECTED_BRIDGES, MAX_CONNECTION_BRIDGES, DIRECTIONS in *. lia. }
  simpl. rewrite E. simpl. destruct ok; [|by eexists _, _].
  destruct (add_island_sum b r c e b1 G Hlo Hhi E) as [Hlo1 Hhi1].
  apply IH; [|done|done].
  apply (add_islands_built [(r, c, e)] b); [done|]. simpl. by rewrite E.
Qed.

(** X21: on a built board whose [max_bridges] can take eight more without
    overflowing an [int], [add_island] returns for every position and count:
    it reads and writes inside the arenas only.  It succeeds when the
    position is in range and after the last island, the count is from 1 to 8,
    and the arenas have room for one island, two connections and two crossing
    entries per island of the board. *)
Theorem add_island_safe b r c e :
  built b →
  INT_MIN ≤ max_bridges b → max_bridges b + MAX_EXPECTED_BRIDGES ≤ INT_MAX →
  ∃ b' ok, add_island b r c e = Some (b', ok) ∧
    (0 ≤ r < CHAR_MAX → 0 ≤ c < CHAR_MAX → 1 ≤ e ≤ MAX_EXPECTED_BRIDGES →
     (∀ p, num_islands b = S p → irow b p < r ∨ (irow b p = r ∧ icol b p < c)) →
     (num_islands b < max_islands b)%nat →
     (num_connections b + 2 ≤ max_connections b)%nat →
     (num_crosselems b + 2 * num_islands b ≤ max_crosselems b)%nat →
     ok = true).
Proof.
  intros B Hlo Hhi. destruct (built_ok b B) as (G & _).
  destruct (add_island_returns b r c e G Hlo (λ _, Hhi)) as (b' & ok & E & Hok & _).
  by exists b', ok.
Qed.

Lemma add_island_safe_witness :
  ∃ b' ok, add_island square_board 2 4 1 = Some (b', ok) ∧ ok = true.
Proof.
  destruct (add_island_safe square_board 2 4 1 square_board_built) as (b' & ok & E & Hok).
  - by vm_compute.
  - by vm_compute.
  - exists b', ok. split; [exact E|]. apply Hok.
    + vm_compute. by split.
    + vm_compute. by split.
    + vm_compute. by split.
    + intros p Hp. vm_compute in Hp. injection Hp as <-. right. vm_compute. by split.
    + vm_compute. lia.
    + vm_compute. lia.
    + vm_compute. lia.
Defined.

Lemma read_islands_loop_returns input : ∀ b r c,
  built b → 0 ≤ r → 0 ≤ c →
  r + Z.of_nat (length input) ≤ INT_MAX → c + Z.of_nat (length input) ≤ INT_MAX →
  INT_MIN ≤ max_bridges b →
  max_bridges b + MAX_EXPECTED_BRIDGES * (Z.of_nat (max_islands b) - Z.of_nat (num_islands b))
    ≤ INT_MAX →
  ∃ b' ok, read_islands_loop b input r c = Some (b', ok) ∧ (ok = true → built b').
Proof.
  intros b r c B Hr Hc Lr Lc Hlo Hhi.
  rewrite add_islands_read_islands_loop by done.
  destruct (add_islands_returns (islands_of input r c) b B Hlo Hhi) as (b' & ok & E).
  exists b', ok. split; [done|]. intros ->.
  by apply (add_islands_built (islands_of input r c) b).
Qed.

(** X22: [read_islands] on an initialised board returns for every text of
    less than [INT_MAX] characters, when the value that [max_bridges] happens
    to hold leaves room for eight bridges per island of the arena: the row and
    column counters and the sum in [max_bridges] do not overflow and no island
    is added outside the arenas.  When it reports success the board is a built
    board. *)
Theorem read_islands_returns mi mc mx mv g1 g2 input :
  Z.of_nat (length input) < INT_MAX →
  INT_MIN ≤ g1 → g1 + MAX_EXPECTED_BRIDGES * Z.of_nat mi ≤ INT_MAX →
  ∃ b ok, read_islands (init_board mi mc mx mv g1 g2) input = Some (b, ok) ∧
          (ok = true → built b).
Proof.
  intros L Hlo Hhi.
  apply read_islands_loop_returns; [apply init_board_built|lia..|done|].
  change (g1 + MAX_EXPECTED_BRIDGES * (Z.of_nat mi - 0) ≤ INT_MAX). lia.
Qed.

Lemma read_islands_returns_witness :
  ∃ b ok, read_islands (init_board 8 16 16 25 0 0) [50; 46; 57] = Some (b, ok) ∧
          (ok = true → built b).
Proof. apply read_islands_returns; by vm_compute. Defined.

Lemma read_islands_loop_nine input : ∀ b r c,
  built b → 0 ≤ r → 0 ≤ c →
  r + Z.of_nat (length input) ≤ INT_MAX → c + Z.of_nat (length input) ≤ INT_MAX →
  INT_MIN ≤ max_bridges b →
  max_bridges b + MAX_EXPECTED_BRIDGES * (Z.of_nat (max_islands b) - Z.of_nat (num_islands b))
    ≤ INT_MAX →
  57 ∈ input →
  ∃ b', read_islands_loop b input r c = Some (b', false).
Proof.
  induction input as [|ch rest IH]; intros b r c B Hr Hc Lr Lc Hlo Hhi Hin.
  { by apply elem_of_nil in Hin. }
  cbn [length] in Lr, Lc.
  destruct (built_ok b B) as (G & _).
  assert (Hroom : (num_islands b < max_islands b)%nat →
                  max_bridges b + MAX_EXPECTED_BRIDGES ≤ INT_MAX).
  { intros ?. unfold MAX_EXPECTED_BRIDGES, MAX_CONNECTION_BRIDGES, DIRECTIONS in *. lia. }
  destruct (decide (ch = 57)) as [->|Hne].
  - cbn [read_islands_loop]. simpl.
    destruct (add_island_returns b r c (57 - 48) G Hlo Hroom) as (b1 & ok & E & _).
    rewrite E. simpl. destruct ok; [|by eexists].
    apply add_island_start in E as ((_ & _ & He) & _).
    unfold MAX_EXPECTED_BRIDGES, MAX_CONNECTION_BRIDGES, DIRECTIONS in He. lia.
  - apply elem_of_cons in Hin as [?|Hin]; [done|].
    cbn [read_islands_loop]. unfold int_succ.
    destruct ((ch =? 47) || (ch =? 10)).
    { rewrite (proj2 (Z.ltb_lt r INT_MAX)) by lia. apply IH; try done; unfold INT_MAX in *; lia. }
    destruct ((ch =? 46) || (ch =? 48)).
    { rewrite (proj2 (Z.ltb_lt c INT_MAX)) by lia. apply IH; try done; lia. }
    destruct ((48 <? ch) && (ch <=? 57)); [|apply IH; try done; lia].
    destruct (add_island_returns b r c (ch - 48) G Hlo Hroom) as (b1 & ok & E & _).
    rewrite E. cbn [mbind option_bind]. destruct ok; [|by eexists].
    rewrite (proj2 (Z.ltb_lt c INT_MAX)) by lia.
    destruct (add_island_sum b r c (ch - 48) b1 G Hlo Hhi E) as [Hlo1 Hhi1].
    apply IH; try done; try lia.
    apply (add_islands_built [(r, c, ch - 48)] b); [done|]. simpl. by rewrite E.
Qed.

(** X23: a text with the digit 9 is rejected: the reader takes the 9 for an
    island, and [add_island] accepts at most 8 bridges, so that
    [read_islands] reports a failure at the 9 at the latest (for a text of less
    than [INT_MAX] characters and a value of [max_bridges] that leaves room
    for eight bridges per island of the arena). *)
Theorem read_islands_rejects_nine mi mc mx mv g1 g2 input :
  Z.of_nat (length input) < INT_MAX →
  INT_MIN ≤ g1 → g1 + MAX_EXPECTED_BRIDGES * Z.of_nat mi ≤ INT_MAX →
  57 ∈ input →
  ∃ b, read_islands (init_board mi mc mx mv g1 g2) input = Some (b, false).
Proof.
  intros L Hlo Hhi Hin.
  apply read_islands_loop_nine; [apply init_board_built|lia..|done| |done].
  change (g1 + MAX_EXPECTED_BRIDGES * (Z.of_nat mi - 0) ≤ INT_MAX). lia.
Qed.

Lemma read_islands_rejects_nine_witness :
  ∃ b, read_islands (init_board 8 16 16 25 0 0) [50; 46; 57] = Some (b, false).
Proof.
  apply read_islands_rejects_nine; [by vm_compute..|].
  repeat constructor.
Defined.

(** * The program *)

Lemma fresh_bridge_counts b :
  fresh b → bridge_counts b = replicate (num_connections b) 0.
Proof.
  intros [F _]. apply list_eq. intros k. unfold bridge_counts, num_connections.
  rewrite list_lookup_fmap.
  destruct (connections b !! k) as [y|] eqn:E; simpl.
  - symmetry. apply lookup_replicate. split; [|by eapply lookup_lt_Some].
    specialize (F k). unfold cbr in F. by rewrite E in F.
  - symmetry. apply lookup_replicate_None. by apply lookup_ge_None.
Qed.

(** X24: [main] on a text of less than [INT_MAX] characters returns, when
    the value [g1] that the unassigned [max_bridges] happens to hold leaves
    room for eight bridges per island of the arena.  When [read_islands] fails
    it prints nothing and exits with -1.  Otherwise the board read is a built
    board and [main] first prints it without bridges; then, without islands,
    it returns 0; with a grid of more than 10000 positions it exits with -1;
    and else it prints exactly the valid connected solutions of the puzzle,
    each once, and returns 0. *)
Theorem main_prints_solutions g1 g2 input :
  Z.of_nat (length input) < INT_MAX →
  INT_MIN ≤ g1 → g1 + MAX_EXPECTED_BRIDGES * Z.of_nat MAX_ISLANDS ≤ INT_MAX →
  ∃ b ok,
    read_islands
      (init_board MAX_ISLANDS MAX_CONNECTIONS MAX_CROSSELEMS MAX_VISITED_SIZE g1 g2) input
      = Some (b, ok) ∧
    if ok then
      built b ∧
      let first := replicate (num_connections b) 0 in
      if decide (num_islands b = 0)%nat then main g1 g2 input = Some (0, [first])
      else if 10000 <? rows b * cols b then main g1 g2 input = Some (-1, [first])
      else ∃ sols, main g1 g2 input = Some (0, first :: sols) ∧ NoDup sols ∧
                   ∀ A, A ∈ sols ↔ valid_solution true b A
    else main g1 g2 input = Some (-1, []).
Proof.
  intros L Hlo Hhi.
  destruct (read_islands_loop_returns input
              (init_board MAX_ISLANDS MAX_CONNECTIONS MAX_CROSSELEMS MAX_VISITED_SIZE g1 g2)
              0 0 (init_board_built _ _ _ _ _ _) ltac:(done) ltac:(done) ltac:(lia) ltac:(lia)
              Hlo)
    as (b & ok & E & HB).
  { change (g1 + MAX_EXPECTED_BRIDGES * (Z.of_nat MAX_ISLANDS - 0) ≤ INT_MAX). lia. }
  exists b, ok. split; [exact E|].
  unfold main. unfold read_islands. rewrite E. cbn [mbind option_bind].
  destruct ok; [|done]. cbn [negb].
  specialize (HB eq_refl). split; [done|].
  destruct (built_ok b HB) as (G & F & C).
  rewrite (fresh_bridge_counts b F). cbv zeta.
  destruct (decide (num_islands b = 0%nat)) as [Hz|Hz]; [done|].
  assert (Hv : max_visited_size b = MAX_VISITED_SIZE).
  { apply read_islands_loop_add_islands in E.
    apply add_islands_capacity in E as ((_ & _ & _ & Hv & _) & _). exact Hv. }
  assert (Hval : valid_visited_matrix_size b = negb (10000 <? rows b * cols b)).
  { unfold valid_visited_matrix_size. by rewrite Hv. }
  rewrite Hval, negb_involutive.
  destruct (10000 <? rows b * cols b) eqn:Hsz; [done|].
  destruct (search_built CHECK_CONNECTED_SOLUTION b (3 * num_islands b + 1) HB)
    as (v & t & Es & _ & ND & P); [|lia|].
  { intros _. split; [lia|]. by rewrite Hval. }
  rewrite Es. cbn [mbind option_bind]. exists (printed t). split_and!; done.
Qed.

Lemma main_prints_solutions_witness :
  ∃ b ok,
    read_islands
      (init_board MAX_ISLANDS MAX_CONNECTIONS MAX_CROSSELEMS MAX_VISITED_SIZE 0 0)
      [50; 46; 50; 47; 47; 50; 48; 50] = Some (b, ok).
Proof.
  destruct (main_prints_solutions 0 0 [50; 46; 50; 47; 47; 50; 48; 50]) as (b & ok & E & _).
  - vm_compute. reflexivity.
  - by vm_compute.
  - by vm_compute.
  - by exists b, ok.
Defined.

(** * Printing a position *)

Section readings.
Context (b : hboard) (G : graph_ok b).
Local Set Default Proof Using "b G".

(** What the print functions read to the left of a position: nothing, an
    island without a connection to the right, or the connection that passes
    over the position or ends on it. *)
Lemma left_reading i j :
  ∃ l, find_from_position b i j LEFT = Some l ∧
    (l = IOut ∨
     (∃ x, get_island b l = Some x ∧ l ≠ IOut ∧
           slot_get (i_connections x) RIGHT = COut) ∨
     (∃ t x k y, l = IAt t ∧ get_island b l = Some x ∧
        slot_get (i_connections x) RIGHT = CAt k ∧
        get_connection b (CAt k) = Some y ∧ bridges y = cbr b k ∧
        (k < num_connections b)%nat ∧ (S t < num_islands b)%nat ∧
        cp1 b k = IAt t ∧ cp2 b k = IAt (S t) ∧
        irow b t = i ∧ irow b (S t) = i ∧ icol b t < j ∧ j ≤ icol b (S t))).
Proof.
  destruct (find_position_left_spec b G i j (num_islands b) (le_n _)) as (l & E & H).
  exists l. split; [exact E|]. destruct l as [| |t]; [done|by left|right].
  destruct H as (Ht & Hr & Hc & Hmax).
  destruct (island_lookup b t Ht) as [x Hx].
  destruct (island_fields b t x Hx) as (_ & _ & _ & _ & _ & Si).
  pose proof (g_slot b G t RIGHT Ht) as Hs. rewrite (Si RIGHT) in Hs.
  destruct (slot_get (i_connections x) RIGHT) as [| |k] eqn:Ek; [done| |].
  { left. exists x. by split_and!. }
  right. destruct Hs as (Hk & Hnb & Hp1 & Hp2). simpl in Hp1, Hp2.
  rewrite (g_right b G t Ht) in Hnb, Hp2.
  destruct (decide ((S t < num_islands b)%nat ∧ irow b (S t) = irow b t))
    as [[Hst Hrow]|]; [|done].
  destruct (connection_lookup b k Hk) as [y Hy].
  destruct (connection_fields b k y Hy) as (Hb & _).
  exists t, x, k, y. split_and!; try done; try congruence.
  destruct (Z.le_gt_cases j (icol b (S t))) as [|Hlt]; [done|].
  exfalso. apply (Hmax (S t)); [lia|done|]. split; [congruence|lia].
Qed.

(** The same above a position. *)
Lemma up_reading i j :
  ∃ u, find_from_position b i j UP = Some u ∧
    (u = IOut ∨
     (∃ x, get_island b u = Some x ∧ u ≠ IOut ∧
           slot_get (i_connections x) DOWN = COut) ∨
     (∃ t d x k y, u = IAt t ∧ get_island b u = Some x ∧
        slot_get (i_connections x) DOWN = CAt k ∧
        get_connection b (CAt k) = Some y ∧ bridges y = cbr b k ∧
        (k < num_connections b)%nat ∧ (d < num_islands b)%nat ∧
        cp1 b k = IAt t ∧ cp2 b k = IAt d ∧
        icol b t = j ∧ icol b d = j ∧ irow b t < i ∧ i ≤ irow b d)).
Proof.
  destruct (find_position_up_spec b G i j (num_islands b) (le_n _)) as (u & E & H).
  exists u. split; [exact E|]. destruct u as [| |t]; [done|by left|right].
  destruct H as (Ht & Hc & Hr & Hmax).
  destruct (island_lookup b t Ht) as [x Hx].
  destruct (island_fields b t x Hx) as (_ & _ & _ & _ & _ & Si).
  pose proof (g_slot b G t DOWN Ht) as Hs. rewrite (Si DOWN) in Hs.
  destruct (slot_get (i_connections x) DOWN) as [| |k] eqn:Ek; [done| |].
  { left. exists x. by split_and!. }
  right. destruct Hs as (Hk & Hnb & Hp1 & Hp2). simpl in Hp1, Hp2.
  pose proof (g_down b G t Ht) as Hd.
  destruct (inb b t DOWN) as [| |d] eqn:Ed; [done|done|].
  destruct Hd as (Htd & Hdn & Hcd & _).
  destruct (connection_lookup b k Hk) as [y Hy].
  destruct (connection_fields b k y Hy) as (Hb & _).
  exists t, d, x, k, y. split_and!; try done; try congruence.
  destruct (Z.le_gt_cases i (irow b d)) as [|Hlt]; [done|].
  exfalso. apply (Hmax d); [lia|done|]. split; [congruence|lia].
Qed.
End readings.

(** One step of the evaluation of a print function along a reading. *)
Ltac read_step :=
  first
    [ rewrite decide_True by done
    | rewrite decide_False by done
    | match goal with H : find_from_position _ _ _ _ = Some _ |- _ => rewrite H end
    | match goal with H : get_island _ _ = Some _ |- _ => rewrite H end
    | match goal with H : slot_get _ _ = _ |- _ => rewrite H end
    | match goal with H : get_connection _ _ = Some _ |- _ => rewrite H end
    | match goal with H : bridges _ = _ |- _ => rewrite H end
    | match goal with H : cbr _ _ = _ |- _ => rewrite H end
    | progress cbn [mbind option_bind Z.eqb Pos.eqb andb] ].

Ltac bridge_values b S k Hk :=
  let H := fresh "Hv" in
  pose proof (s_bridges b S k Hk) as H; unfold MAX_CONNECTION_BRIDGES in H;
  let H' := fresh "Hv" in
  assert (H' : cbr b k = 0 ∨ cbr b k = 1 ∨ cbr b k = 2) by lia;
  clear H; destruct H' as [H'|[H'|H']].

Ltac finish_cell :=
  repeat read_step; simpl;
  first [ by (eexists; split; [reflexivity|repeat constructor]) | lia ].

(** Over a position without island at most one of the two connections that
    pass has bridges. *)
Lemma over_position_exclusive b i j t kh u d kv :
  graph_ok b → state_ok b →
  (∀ t, (t < num_islands b)%nat → ¬ (irow b t = i ∧ icol b t = j)) →
  (kh < num_connections b)%nat → (S t < num_islands b)%nat →
  cp1 b kh = IAt t → cp2 b kh = IAt (S t) →
  irow b t = i → irow b (S t) = i → icol b t < j → j ≤ icol b (S t) →
  (kv < num_connections b)%nat → (d < num_islands b)%nat →
  cp1 b kv = IAt u → cp2 b kv = IAt d →
  icol b u = j → icol b d = j → irow b u < i → i ≤ irow b d →
  cbr b kh = 0 ∨ cbr b kv = 0.
Proof.
  intros G St Hno Hkh Hst P1 P2 R1 R2 C1 C2 Hkv Hd Q1 Q2 D1 D2 U1 U2.
  assert (C3 : icol b (S t) ≠ j) by (intros ?; by apply (Hno (S t))).
  assert (U3 : irow b d ≠ i) by (intros ?; by apply (Hno d)).
  assert (X : xing b kv kh).
  { exists u, d, t, (S t). split_and!; try done; lia. }
  destruct (g_cross_complete b G kv kh Hkv Hkh X) as [Hc _].
  destruct (decide (cbr b kv = 0)) as [|Hnz]; [by right|left].
  apply (s_cross b St kv kh Hkv Hc).
  pose proof (s_bridges b St kv Hkv). lia.
Qed.

Lemma print_empty_position_cell b i j :
  graph_ok b → state_ok b →
  (∀ t, (t < num_islands b)%nat → ¬ (irow b t = i ∧ icol b t = j)) →
  ∃ s, print_empty_position b i j = Some s ∧ s ∈ empty_cells.
Proof.
  intros G St Hno. unfold print_empty_position.
  destruct (left_reading b G i j) as (l & EL & HL).
  destruct (up_reading b G i j) as (u & EU & HU).
  destruct HL as [->|[(x & Ex & Hne & Es)
    |(t & x & kh & yh & -> & Ex & Es & Ey & Eb & Hk & Hst & P1 & P2 & R1 & R2 & C1 & C2)]];
  destruct HU as [->|[(x' & Ex' & Hne' & Es')
    |(t' & d & x' & kv & yv & -> & Ex' & Es' & Ey' & Eb' & Hk' & Hd & Q1 & Q2 & D1 & D2
        & U1 & U2)]].
  - finish_cell.
  - finish_cell.
  - bridge_values b St kv Hk'; finish_cell.
  - finish_cell.
  - finish_cell.
  - bridge_values b St kv Hk'; finish_cell.
  - bridge_values b St kh Hk; finish_cell.
  - bridge_values b St kh Hk; finish_cell.
  - pose proof (over_position_exclusive b i j t kh t' d kv G St Hno Hk Hst P1 P2 R1 R2 C1 C2
                  Hk' Hd Q1 Q2 D1 D2 U1 U2) as Hex.
    bridge_values b St kh Hk; bridge_values b St kv Hk'; finish_cell.
Qed.

(** After the last island nothing passes over a position. *)
Lemma print_empty_position_after b i j :
  graph_ok b →
  (∀ t, (t < num_islands b)%nat → irow b t < i ∨ (irow b t = i ∧ icol b t < j)) →
  print_empty_position b i j = Some " . "%string.
Proof.
  intros G Hall. unfold print_empty_position.
  destruct (left_reading b G i j) as (l & EL & HL).
  destruct (up_reading b G i j) as (u & EU & HU).
  destruct HL as [->|[(x & Ex & Hne & Es)
    |(t & x & kh & yh & -> & Ex & Es & Ey & Eb & Hk & Hst & P1 & P2 & R1 & R2 & C1 & C2)]];
    [| |specialize (Hall (S t) Hst); lia];
  (destruct HU as [->|[(x' & Ex' & Hne' & Es')
    |(t' & d & x' & kv & yv & -> & Ex' & Es' & Ey' & Eb' & Hk' & Hd & Q1 & Q2 & D1 & D2
        & U1 & U2)]];
    [| |specialize (Hall d Hd); lia]);
  by repeat read_step.
Qed.

Lemma print_space_right_length b i j :
  graph_ok b → ∃ s, print_space_right b i j = Some s ∧ String.length s = 2%nat.
Proof.
  intros G. unfold print_space_right.
  destruct (left_reading b G i j) as (l & EL & HL).
  destruct HL as [->|[(x & Ex & Hne & Es)
    |(t & x & kh & yh & -> & Ex & Es & Ey & Eb & Hk & Hst & _)]];
    repeat read_step; [by eexists..|].
  destruct (cbr b kh =? 1); [by eexists|]. destruct (cbr b kh =? 2); by eexists.
Qed.

Lemma print_space_down_length b i j :
  graph_ok b → ∃ s, print_space_down b i j = Some s ∧ String.length s = 3%nat.
Proof.
  intros G. unfold print_space_down.
  destruct (up_reading b G i j) as (u & EU & HU).
  destruct HU as [->|[(x' & Ex' & Hne' & Es')
    |(t' & d & x' & kv & yv & -> & Ex' & Es' & Ey' & Eb' & Hk' & Hd & _)]];
    repeat read_step; [by eexists..|].
  destruct (cbr b kv =? 1); [by eexists|]. destruct (cbr b kv =? 2); by eexists.
Qed.

(** * Printing the board *)

Section scan.
Context (b : hboard) (G : graph_ok b).
Local Set Default Proof Using "b G".

Lemma island_at_here i j index x :
  scanned b index i j → islands b !! index = Some x → row x = i → col x = j →
  island_at b i j = Some x.
Proof.
  unfold scanned, passed. intros (_ & Hlt & _) Hx Hr Hc. unfold island_at.
  assert (list_find (λ x, row x = i ∧ col x = j) (islands b) = Some (index, x)) as ->; [|done].
  apply list_find_Some. split_and!; try done.
  intros t y Hy Ht [Hyr Hyc].
  destruct (island_fields b t y Hy) as (Er & Ec & _).
  specialize (Hlt t Ht). lia.
Qed.

Lemma island_at_none i j :
  (∀ t, (t < num_islands b)%nat → ¬ (irow b t = i ∧ icol b t = j)) →
  island_at b i j = None.
Proof.
  intros Hno. unfold island_at.
  assert (list_find (λ x, row x = i ∧ col x = j) (islands b) = None) as ->; [|done].
  apply list_find_None, Forall_lookup. intros t y Hy [Hr Hc].
  destruct (island_fields b t y Hy) as (Er & Ec & _).
  apply (Hno t); [by eapply lookup_lt_Some|]. lia.
Qed.

Lemma island_at_position i j :
  island_at b i j = None →
  ∀ t, (t < num_islands b)%nat → ¬ (irow b t = i ∧ icol b t = j).
Proof.
  unfold island_at. intros H t Ht [Hr Hc].
  destruct (list_find _ _) as [[? ?]|] eqn:E; [done|].
  apply list_find_None in E.
  destruct (island_lookup b t Ht) as [y Hy].
  destruct (island_fields b t y Hy) as (Er & Ec & _).
  apply (proj1 (Forall_lookup _ _) E t y Hy). lia.
Qed.

(** The first inner loop prints the cells of the picture and leaves the
    index at the first island of the next rows. *)
Lemma print_board_cells_grid n : ∀ i j index,
  scanned b index i j →
  ∃ index', scanned b index' i (j + Z.of_nat n) ∧
    print_board_cells n b i j index = (s ← grid_cells n b i j; Some (s, index')).
Proof.
  induction n as [|n IH]; intros i j index Hinv.
  { exists index. rewrite Z.add_0_r. by split. }
  pose proof Hinv as (Hle & Hlt & Hge). unfold passed in Hlt, Hge.
  cbn [print_board_cells grid_cells].
  assert (Hstep : ∃ index1, scanned b index1 i (j + 1) ∧
    (if decide (index < num_islands b)%nat then
       island ← islands b !! index;
       if (row island =? i) && (col island =? j)
       then Some ("(" +:+ decimal (expectbridges island) +:+ ")", S index)
       else out ← print_empty_position b i j; Some (out, index)
     else Some (" . "%string, index))
    = (cell ← cell_at b i j; Some (cell, index1))).
  { unfold scanned, passed.
    destruct (decide (index < num_islands b)%nat) as [Hi|Hi].
    - destruct (island_lookup b index Hi) as [x Hx]. rewrite Hx. cbn [mbind option_bind].
      destruct (island_fields b index x Hx) as (Er & Ec & _).
      destruct (Z.eqb_spec (row x) i) as [Hr|Hr];
        [destruct (Z.eqb_spec (col x) j) as [Hc|Hc]|]; cbn [andb].
      + exists (S index). split.
        * split_and!; [lia| |].
          -- intros t Ht. destruct (decide (t = index)) as [->|]; [lia|].
             specialize (Hlt t ltac:(lia)). lia.
          -- intros t Ht1 Ht2.
             destruct (g_sorted b G index t ltac:(lia) Ht2) as [?|[? ?]]; lia.
        * unfold cell_at. by rewrite (island_at_here i j index x Hinv).
      + exists index. split.
        * split_and!; [lia| |].
          -- intros t Ht. specialize (Hlt t Ht). lia.
          -- intros t Ht1 Ht2. specialize (Hge index (le_n _) Hi).
             destruct (decide (t = index)) as [->|]; [lia|].
             destruct (g_sorted b G index t ltac:(lia) Ht2) as [?|[? ?]]; lia.
        * unfold cell_at. rewrite island_at_none; [done|].
          intros t Ht. destruct (Nat.lt_trichotomy t index) as [Ht'|[->|Ht']].
          -- specialize (Hlt t Ht'). lia.
          -- lia.
          -- specialize (Hge index (le_n _) Hi).
             destruct (g_sorted b G index t Ht' Ht) as [?|[? ?]]; lia.
      + exists index. split.
        * split_and!; [lia| |].
          -- intros t Ht. specialize (Hlt t Ht). lia.
          -- intros t Ht1 Ht2. specialize (Hge index (le_n _) Hi).
             destruct (decide (t = index)) as [->|]; [lia|].
             destruct (g_sorted b G index t ltac:(lia) Ht2) as [?|[? ?]]; lia.
        * unfold cell_at. rewrite island_at_none; [done|].
          intros t Ht. destruct (Nat.lt_trichotomy t index) as [Ht'|[->|Ht']].
          -- specialize (Hlt t Ht'). lia.
          -- lia.
          -- specialize (Hge index (le_n _) Hi).
             destruct (g_sorted b G index t Ht' Ht) as [?|[? ?]]; lia.
    - exists index. assert (Hall : ∀ t, (t < num_islands b)%nat → passed b t i j)
        by (intros t Ht; apply Hlt; lia).
      split.
      + split_and!; [lia| |].
        * intros t Ht. specialize (Hlt t Ht). lia.
        * intros t Ht1 Ht2. lia.
      + unfold cell_at. rewrite island_at_none.
        * by rewrite (print_empty_position_after b i j G Hall).
        * intros t Ht. specialize (Hall t Ht). unfold passed in Hall. lia. }
  destruct Hstep as (index1 & Hinv1 & ->).
  destruct (IH i (j + 1) index1 Hinv1) as (index' & Hinv' & E).
  exists index'. split.
  { replace (j + Z.of_nat (S n)) with (j + 1 + Z.of_nat n) by lia. exact Hinv'. }
  destruct (cell_at b i j) as [cell|]; [|done]. cbn [mbind option_bind].
  destruct (print_space_right b i (j + 1)) as [space|]; [|done].
  cbn [mbind option_bind]. rewrite E.
  by destruct (grid_cells n b i (j + 1)).
Qed.

Lemma print_board_rows_grid n : ∀ i index,
  scanned b index i 0 → print_board_rows n b i index = grid_rows n b i.
Proof.
  induction n as [|n IH]; intros i index Hinv; [done|].
  cbn [print_board_rows grid_rows].
  destruct (print_board_cells_grid (Z.to_nat (cols b)) i 0 index Hinv)
    as (index' & (Hle & Hlt & Hge) & ->). unfold passed in Hlt, Hge.
  destruct (grid_cells (Z.to_nat (cols b)) b i 0) as [cells|]; [|done].
  cbn [mbind option_bind].
  destruct (print_board_spaces (Z.to_nat (cols b)) b i 0) as [spaces|]; [|done].
  cbn [mbind option_bind].
  rewrite (IH (i + 1) index'); [done|].
  unfold scanned, passed. split_and!; [done| |].
  - intros t Ht. specialize (Hlt t Ht). lia.
  - intros t Ht1 Ht2. specialize (Hge t Ht1 Ht2).
    destruct (g_pos b G t Ht2) as (_ & Hc & _). lia.
Qed.

Lemma print_board_is_grid : print_board b = grid b.
Proof.
  unfold print_board, grid. rewrite (print_board_rows_grid _ 0 0); [done|].
  unfold scanned, passed. split_and!; [lia| |].
  - intros t Ht. lia.
  - intros t _ Ht. destruct (g_pos b G t Ht) as (? & ? & _). lia.
Qed.
End scan.

(** * The layout of the picture *)

Lemma string_length_append (s t : string) :
  String.length (s +:+ t) = (String.length s + String.length t)%nat.
Proof. induction s as [|a s IH]; simpl; [done|]. by rewrite IH. Qed.

Lemma string_append_assoc (s t u : string) : (s +:+ t) +:+ u = s +:+ t +:+ u.
Proof. induction s as [|a s IH]; simpl; [done|]. by rewrite IH. Qed.

Lemma decimal_length e :
  1 ≤ e ≤ MAX_EXPECTED_BRIDGES → String.length (decimal e) = 1%nat.
Proof.
  unfold MAX_EXPECTED_BRIDGES, MAX_CONNECTION_BRIDGES, DIRECTIONS. intros H.
  assert (e = 1 ∨ e = 2 ∨ e = 3 ∨ e = 4 ∨ e = 5 ∨ e = 6 ∨ e = 7 ∨ e = 8) as Hc by lia.
  destruct Hc as [->|[->|[->|[->|[->|[->|[->| ->]]]]]]]; reflexivity.
Qed.

Lemma empty_cells_length s : s ∈ empty_cells → String.length s = 3%nat.
Proof.
  unfold empty_cells. intros H.
  repeat (apply elem_of_cons in H as [->|H]; [reflexivity|]).
  by apply elem_of_nil in H.
Qed.

Section layout.
Context (b : hboard) (G : graph_ok b) (St : state_ok b).
Local Set Default Proof Using "b G St".

Lemma cell_at_length i j :
  ∃ s, cell_at b i j = Some s ∧ String.length s = 3%nat.
Proof.
  unfold cell_at. destruct (island_at b i j) as [x|] eqn:E.
  - eexists. split; [done|].
    unfold island_at in E.
    destruct (list_find _ _) as [[t y]|] eqn:F; [|done]. simpl in E. simplify_eq.
    apply list_find_Some in F as (Hx & _).
    destruct (island_fields b t x Hx) as (_ & _ & <- & _).
    destruct (g_pos b G t ltac:(by eapply lookup_lt_Some)) as (_ & _ & He).
    rewrite !string_length_append, (decimal_length _ He). reflexivity.
  - destruct (print_empty_position_cell b i j G St (island_at_position b G i j E))
      as (s & -> & Hs).
    exists s. split; [done|]. by apply empty_cells_length.
Qed.

Lemma grid_cells_length n : ∀ i j,
  ∃ s, grid_cells n b i j = Some s ∧ String.length s = (5 * n)%nat.
Proof.
  induction n as [|n IH]; intros i j; [by exists EmptyString|].
  cbn [grid_cells].
  destruct (cell_at_length i j) as (c & -> & Hc).
  destruct (print_space_right_length b i (j + 1) G) as (r & -> & Hr).
  destruct (IH i (j + 1)) as (s & -> & Hs).
  eexists. split; [done|]. rewrite !string_length_append. lia.
Qed.

Lemma print_board_spaces_length n : ∀ i j,
  ∃ s, print_board_spaces n b i j = Some s ∧ String.length s = (5 * n)%nat.
Proof.
  induction n as [|n IH]; intros i j; [by exists EmptyString|].
  cbn [print_board_spaces].
  destruct (print_space_down_length b (i + 1) j G) as (d & -> & Hd).
  destruct (IH i (j + 1)) as (s & -> & Hs).
  eexists. split; [done|]. rewrite !string_length_append. simpl. lia.
Qed.

Lemma grid_rows_lines n : ∀ i,
  ∃ lines, grid_rows n b i
             = Some (foldr (λ l acc, l +:+ newline +:+ acc) EmptyString lines) ∧
    length lines = (2 * n)%nat ∧
    Forall (λ l, String.length l = (5 * Z.to_nat (cols b))%nat) lines.
Proof.
  induction n as [|n IH]; intros i.
  { exists []. by split_and!. }
  cbn [grid_rows].
  destruct (grid_cells_length (Z.to_nat (cols b)) i 0) as (c & -> & Hc).
  destruct (print_board_spaces_length (Z.to_nat (cols b)) i 0) as (s & -> & Hs).
  destruct (IH (i + 1)) as (lines & -> & Hl & Hall).
  exists (c :: s :: lines). split_and!; [done|simpl; lia|].
  constructor; [done|]. by constructor.
Qed.

Lemma grid_lines :
  ∃ lines, grid b = Some (foldr (λ l acc, l +:+ newline +:+ acc) newline lines) ∧
    length lines = (2 * Z.to_nat (rows b))%nat ∧
    Forall (λ l, String.length l = (5 * Z.to_nat (cols b))%nat) lines.
Proof.
  unfold grid. destruct (grid_rows_lines (Z.to_nat (rows b)) 0) as (lines & -> & Hl & Hall).
  exists lines. split_and!; try done. cbn [mbind option_bind]. f_equal.
  clear. induction lines as [|l lines IH]; [done|].
  cbn [foldr]. by rewrite !string_append_assoc, IH.
Qed.
End layout.

(** * Properties of the printing *)

(** X25: in every state of the engine [print_empty_position] prints, for a
    position without island, exactly one of the eight cells of three
    characters: two connections that pass over the same position never both
    hold bridges. *)
Theorem print_empty_position_one_cell b i j :
  engine_state b →
  (∀ t, (t < num_islands b)%nat → ¬ (irow b t = i ∧ icol b t = j)) →
  ∃ s, print_empty_position b i j = Some s ∧ s ∈ empty_cells ∧
       String.length s = 3%nat.
Proof.
  intros [G St]%engine_state_ok Hno.
  destruct (print_empty_position_cell b i j G St Hno) as (s & E & Hs).
  exists s. split_and!; [done|done|by apply empty_cells_length].
Qed.

Lemma print_empty_position_one_cell_witness :
  ∃ s, print_empty_position square_board 1 0 = Some s ∧ s ∈ empty_cells ∧
       String.length s = 3%nat.
Proof.
  apply print_empty_position_one_cell.
  - apply built_engine_state, square_board_built.
  - intros t Ht [Hr _]. revert Hr.
    assert (t = 0 ∨ t = 1 ∨ t = 2 ∨ t = 3)%nat as [->|[->|[->| ->]]]
      by (vm_compute in Ht; lia); by vm_compute.
Defined.

(** X26: in every state of the engine [print_board] prints the picture of
    the board position by position, row after row: at the position of an
    island its expected count in parentheses, at every other position what
    [print_empty_position] prints for it; the running index of the islands
    never misses an island and never shows one twice. *)
Theorem print_board_picture b :
  engine_state b → print_board b = grid b.
Proof. intros [G _]%engine_state_ok. by apply print_board_is_grid. Qed.

Lemma print_board_picture_witness : print_board square_board = grid square_board.
Proof. apply print_board_picture, built_engine_state, square_board_built. Defined.

(** X27: in every state of the engine [print_board] returns and prints a
    rectangle: two lines per row of the board, each of five characters per
    column of the board and ended by a newline, followed by one empty line. *)
Theorem print_board_rectangular b :
  engine_state b →
  ∃ lines,
    print_board b = Some (foldr (λ l acc, l +:+ newline +:+ acc) newline lines) ∧
    length lines = (2 * Z.to_nat (rows b))%nat ∧
    Forall (λ l, String.length l = (5 * Z.to_nat (cols b))%nat) lines.
Proof.
  intros [G St]%engine_state_ok. rewrite (print_board_is_grid b G).
  by apply grid_lines.
Qed.

Lemma print_board_rectangular_witness :
  ∃ lines,
    print_board square_board
      = Some (foldr (λ l acc, l +:+ newline +:+ acc) newline lines) ∧
    length lines = (2 * Z.to_nat (rows square_board))%nat ∧
    Forall (λ l, String.length l = (5 * Z.to_nat (cols square_board))%nat) lines.
Proof. apply print_board_rectangular, built_engine_state, square_board_built. Defined.

(** * The format of the text *)

Lemma read_islands_loop_canonical input : ∀ b r c,
  read_islands_loop b (canonical input) r c = read_islands_loop b input r c.
Proof.
  induction input as [|ch rest IH]; intros b r c; [done|].
  unfold canonical. cbn [omap list_omap]. fold (canonical rest).
  cbn [read_islands_loop].
  destruct (Z.eqb_spec ch 47) as [->|H47]; cbn [orb].
  { cbn [read_islands_loop]. simpl. destruct (int_succ r); simpl; [apply IH|done]. }
  destruct (Z.eqb_spec ch 10) as [->|H10]; cbn [orb].
  { cbn [read_islands_loop]. simpl. destruct (int_succ r); simpl; [apply IH|done]. }
  destruct (Z.eqb_spec ch 46) as [->|H46]; cbn [orb].
  { cbn [read_islands_loop]. simpl. destruct (int_succ c); simpl; [apply IH|done]. }
  destruct (Z.eqb_spec ch 48) as [->|H48]; cbn [orb].
  { cbn [read_islands_loop]. simpl. destruct (int_succ c); simpl; [apply IH|done]. }
  destruct ((48 <? ch) && (ch <=? 57)) eqn:Hd; [|apply IH].
  cbn [read_islands_loop].
  rewrite (proj2 (Z.eqb_neq ch 47)), (proj2 (Z.eqb_neq ch 10)),
    (proj2 (Z.eqb_neq ch 46)), (proj2 (Z.eqb_neq ch 48)), Hd by done.
  cbn [orb]. destruct (add_island b r c (ch - 48)) as [[b' ok]|]; [|done].
  cbn [mbind option_bind]. destruct ok; [|done].
  destruct (int_succ c); simpl; [apply IH|done].
Qed.

(** X28: [read_islands] reads a newline as [/] and a dot as [0], and skips
    every character that is neither of these nor a digit: the text and its
    canonical form give the same board and the same result. *)
Theorem read_islands_format b input :
  read_islands b (canonical input) = read_islands b input.
Proof. apply read_islands_loop_canonical. Qed.

